(** * Cocktail front end: numeric literals, string literals, parse tree

    A shallow embedding of
    - [lib/Lexer/NumericLiteral.cc] (module [NumericLiteral]),
    - [lib/Lexer/StringLiteral.cc]  (module [StringLiteral]),
    - [lib/Parser/ParseTree.cc]     (module [ParseTree]),
    together with the properties of the specification that concern them.

    Conventions.  A [char] is an [ascii]; an [llvm::StringRef] is a view
    (buffer, offset, length), because the code compares [begin()]/[end()]
    pointers of views of one buffer.  A [DiagnosticEmitter] is the list of the
    diagnostics emitted so far, oldest first; a diagnostic is modelled by its
    kind and payload, its source location is dropped.  C++ [int]s are [Z]. *)

From Stdlib Require Import String Ascii ZArith List Bool Lia Arith.
Import ListNotations.

Local Open Scope Z_scope.

(** Characters of a string literal of the source, as a list. *)
Definition str (s : string) : list ascii := list_ascii_of_string s.

(* ------------------------------------------------------------------------- *)
(** ** Character classification *)

Module CharacterSet.

Definition code (c : ascii) : N := N_of_ascii c.

Definition in_range (lo hi c : ascii) : bool :=
  (code lo <=? code c)%N && (code c <=? code hi)%N.

(** Modelled from the spec: [Cocktail/Lexer/CharacterSet.h] is not among the
    sources; section 2 lists the classifier as pure predicates "decimal/hex
    digit, uppercase-hex digit, horizontal whitespace, space" over ASCII. *)
Definition IsDecimalDigit (c : ascii) : bool := in_range "0" "9" c.

(** Modelled from the spec: uppercase-hex digit, [0-9A-F] (section 4.2,
    "0-9A-F uppercase only"). *)
Definition IsUpperHexDigit (c : ascii) : bool :=
  in_range "0" "9" c || in_range "A" "F" c.

(** Modelled from the spec: a lowercase ASCII letter (section 4.2, "a
    lowercase letter is tentatively recorded as the exponent marker"). *)
Definition IsLower (c : ascii) : bool := in_range "a" "z" c.

Definition IsUpper (c : ascii) : bool := in_range "A" "Z" c.

(** Modelled from the spec: an alphanumeric ASCII character (section 4.2,
    "digit (alnum | '_' | '.' once | exponent-sign once)*"). *)
Definition IsAlnum (c : ascii) : bool :=
  IsLower c || IsUpper c || IsDecimalDigit c.

(** Modelled from the spec: horizontal whitespace is the plain space or the
    tab (section 4.3, "non-space horizontal whitespace (tab, etc.)"). *)
Definition IsHorizontalWhitespace (c : ascii) : bool :=
  Ascii.eqb c " " || Ascii.eqb c "009".

(** Modelled from the spec: space is horizontal whitespace or the newline. *)
Definition IsSpace (c : ascii) : bool :=
  IsHorizontalWhitespace c || Ascii.eqb c "010".

End CharacterSet.

(* ------------------------------------------------------------------------- *)
(** ** [llvm::StringRef]: a view of a buffer *)

Module StringRef.

Record t := mk { buf : list ascii; off : nat; len : nat }.

(** The characters the view denotes. *)
Definition chars (s : t) : list ascii := firstn (len s) (skipn (off s) (buf s)).

(** A view of a whole buffer. *)
Definition of_list (l : list ascii) : t := mk l 0 (length l).

(** [begin()] and [end()] as offsets into the buffer. *)
Definition begin_ (s : t) : nat := off s.
Definition end_ (s : t) : nat := (off s + len s)%nat.

(** An [int] converted to [size_t] and then bounded by [bound]: a negative
    [int] wraps to a value above every length. *)
Definition clamp (z : Z) (bound : nat) : nat :=
  if z <? 0 then bound else Nat.min (Z.to_nat z) bound.

(** [substr(Start, N)]: [Start] is bounded by the length, [N] by what is left. *)
Definition substr (s : t) (start n : Z) : t :=
  let st := clamp start (len s) in
  mk (buf s) (off s + st) (clamp n (len s - st)).

(** [substr(Start)], i.e. [N = npos]. *)
Definition substr_from (s : t) (start : Z) : t := substr s start (-1).

(** The view between two offsets of a buffer:
    [StringRef(begin, end - begin)]. *)
Definition between (b : list ascii) (from to : nat) : t := mk b from (to - from).

Fixpoint list_startswith (l prefix : list ascii) : bool :=
  match prefix, l with
  | [], _ => true
  | _ :: _, [] => false
  | p :: prefix', c :: l' => Ascii.eqb c p && list_startswith l' prefix'
  end.

Definition startswith (s : t) (prefix : list ascii) : bool :=
  list_startswith (chars s) prefix.

(** [consume_front]: the flag and the view afterwards. *)
Definition consume_front (s : t) (prefix : list ascii) : bool * t :=
  if startswith s prefix
  then (true, mk (buf s) (off s + length prefix) (len s - length prefix))
  else (false, s).

Definition empty (s : t) : bool := Nat.eqb (len s) 0.

Fixpoint list_eqb (l1 l2 : list ascii) : bool :=
  match l1, l2 with
  | [], [] => true
  | c1 :: l1', c2 :: l2' => Ascii.eqb c1 c2 && list_eqb l1' l2'
  | _, _ => false
  end.

(** [operator==] with a string literal. *)
Definition equals (s : t) (l : list ascii) : bool := list_eqb (chars s) l.

End StringRef.

(** [consume_front] on a plain list of characters. *)
Definition consume_front (l prefix : list ascii) : bool * list ascii :=
  if StringRef.list_startswith l prefix then (true, skipn (length prefix) l) else (false, l).

(* ------------------------------------------------------------------------- *)
(** ** [llvm::APInt] and [StringRef::getAsInteger]

    The LLVM library is not part of the repository; the operations the lexer
    calls are written out on a (width, value) pair, the value kept below
    [2 ^ width]. *)

Module APInt.

Record t := mk { BitWidth : Z; Val : Z }.

Definition trunc (w v : Z) : Z := v mod 2 ^ w.

(** [APInt(numBits, val)]. *)
Definition make (w v : Z) : t := mk w (trunc w v).

(** The default constructor: a 1-bit zero. *)
Definition default : t := mk 1 0.

Definition zext (a : t) (w : Z) : t := mk w (Val a).

Definition isSignBitSet (a : t) : bool := Z.testbit (Val a) (BitWidth a - 1).
Definition isNegative (a : t) : bool := isSignBitSet a.

Definition negate (a : t) : t := mk (BitWidth a) (trunc (BitWidth a) (- Val a)).

(** [operator-=(uint64_t)]. *)
Definition sub (a : t) (rhs : Z) : t :=
  mk (BitWidth a) (trunc (BitWidth a) (Val a - rhs)).

Definition setSignBit (a : t) : t :=
  mk (BitWidth a) (Z.lor (Val a) (Z.shiftl 1 (BitWidth a - 1))).

Definition shl (a : t) (k : Z) : t :=
  mk (BitWidth a) (trunc (BitWidth a) (Z.shiftl (Val a) k)).

(** [operator|=(uint64_t)]. *)
Definition or (a : t) (v : Z) : t :=
  mk (BitWidth a) (trunc (BitWidth a) (Z.lor (Val a) v)).

Definition mul (a b : t) : t := mk (BitWidth a) (trunc (BitWidth a) (Val a * Val b)).
Definition add (a b : t) : t := mk (BitWidth a) (trunc (BitWidth a) (Val a + Val b)).

(** The value read as an unsigned, respectively two's complement, number. *)
Definition unsigned (a : t) : Z := Val a.
Definition signed (a : t) : Z :=
  if Val a <? 2 ^ (BitWidth a - 1) then Val a else Val a - 2 ^ BitWidth a.

(** The digit a character stands for in [getAsInteger]. *)
Definition CharVal (c : ascii) : option Z :=
  let n := Z.of_N (CharacterSet.code c) in
  if CharacterSet.in_range "0" "9" c then Some (n - 48)
  else if CharacterSet.in_range "a" "z" c then Some (n - 97 + 10)
  else if CharacterSet.in_range "A" "Z" c then Some (n - 65 + 10)
  else None.

(** The smallest [k] with [Radix <= 1 << k]. *)
Definition Log2Radix (radix : Z) : Z := Z.log2_up radix.

Fixpoint skip_zeroes (s : list ascii) : list ascii :=
  match s with
  | c :: s' => if Ascii.eqb c "0" then skip_zeroes s' else s
  | [] => []
  end.

(** The digit loop of [getAsInteger]; [None] is its error return. *)
Fixpoint parse_digits (radix : Z) (s : list ascii) (result : t) : option t :=
  match s with
  | [] => Some result
  | c :: s' =>
      match CharVal c with
      | None => None
      | Some v =>
          if radix <=? v then None
          else
            let result :=
              if 2 ^ Log2Radix radix =? radix
              then or (shl result (Log2Radix radix)) v
              else add (mul result (make (BitWidth result) radix))
                       (make (BitWidth result) v) in
            parse_digits radix s' result
      end
  end.

(** [Str.getAsInteger(Radix, Result)] for an [APInt] result; [None] is the
    error return ([true] in the source). *)
Definition getAsInteger (s : list ascii) (radix : Z) (result : t) : option t :=
  match s with
  | [] => None
  | _ =>
      match skip_zeroes s with
      | [] => Some (make 64 0)
      | s' =>
          let w := Log2Radix radix * Z.of_nat (length s') in
          let result := if BitWidth result <? w then zext result w else result in
          parse_digits radix s' (mk (BitWidth result) 0)
      end
  end.

End APInt.

(* ------------------------------------------------------------------------- *)
(** ** [lib/Lexer/NumericLiteral.cc] *)

Module NumericLiteral.

Import CharacterSet.

Inductive Diagnostic : Type :=
| EmptyDigitSequence
| InvalidDigit (digit : ascii) (radix : Z)
| InvalidDigitSeparator
| IrregularDigitSeparators (radix : Z)
| UnknownBaseSpecifier
| BinaryRealLiteral
| WrongRealLiteralExponent (expected : ascii).

Definition ShortName (d : Diagnostic) : string :=
  match d with
  | IrregularDigitSeparators _ => "syntax-irregular-digit-separators"
  | _ => "syntax-invalid-number"
  end.

Definition is_IrregularDigitSeparators (d : Diagnostic) : bool :=
  match d with IrregularDigitSeparators _ => true | _ => false end.

Definition is_InvalidDigitSeparator (d : Diagnostic) : bool :=
  match d with InvalidDigitSeparator => true | _ => false end.

Definition is_BinaryRealLiteral (d : Diagnostic) : bool :=
  match d with BinaryRealLiteral => true | _ => false end.

(** How many diagnostics of a kind a run emitted. *)
Definition count (kind : Diagnostic -> bool) (ds : list Diagnostic) : nat :=
  length (filter kind ds).

Record LexedNumericLiteral : Type := mkLiteral {
  text : StringRef.t;
  (** offset of the '.', or the size of [text] *)
  radix_point : Z;
  (** offset of the exponent letter, or the size of [text] *)
  exponent : Z
}.

(** *** [LexedNumericLiteral::Lex] *)

(** The locals of the scanning loop together with the two offsets of
    [result]; the offsets are read only after they have been set. *)
Record LexState : Type := mkLexState {
  seen_plus_minus : bool;
  seen_radix_point : bool;
  seen_potential_exponent : bool;
  result_radix_point : Z;
  result_exponent : Z
}.

Definition Lex_init : LexState := mkLexState false false false 0 0.

(** [i + 1 != n && IsAlnum(source_text[i + 1])], on the characters after
    position [i]. *)
Definition next_is_alnum (after : list ascii) : bool :=
  match after with
  | [] => false
  | d :: _ => IsAlnum d
  end.

(** The loop [for (n = size; i != n; ++i)]: [rest] are the characters from
    position [i] on; the result is the [i] at which the loop stops. *)
Fixpoint Lex_scan (rest : list ascii) (i : Z) (st : LexState) : Z * LexState :=
  match rest with
  | [] => (i, st)
  | c :: after =>
      if IsAlnum c || Ascii.eqb c "_" then
        if IsLower c && seen_radix_point st && negb (seen_plus_minus st)
        then Lex_scan after (i + 1)
               (mkLexState (seen_plus_minus st) (seen_radix_point st) true
                           (result_radix_point st) i)
        else Lex_scan after (i + 1) st
      else if Ascii.eqb c "." && next_is_alnum after && negb (seen_radix_point st) then
        Lex_scan after (i + 1)
          (mkLexState (seen_plus_minus st) true (seen_potential_exponent st)
                      i (result_exponent st))
      else if (Ascii.eqb c "+" || Ascii.eqb c "-") && seen_potential_exponent st
              && (result_exponent st =? i - 1) && next_is_alnum after then
        Lex_scan after (i + 1)
          (mkLexState true (seen_radix_point st) (seen_potential_exponent st)
                      (result_radix_point st) (result_exponent st))
      else (i, st)
  end.

(** [source_text] is given by its characters; the lexeme is a view of it. *)
Definition Lex (source_text : list ascii) : option LexedNumericLiteral :=
  match source_text with
  | [] => None
  | c :: rest =>
      if negb (IsDecimalDigit c) then None
      else
        let '(i, st) := Lex_scan rest 1 Lex_init in
        Some {| text := StringRef.substr (StringRef.of_list source_text) 0 i;
                radix_point := if seen_radix_point st then result_radix_point st else i;
                exponent := if seen_potential_exponent st then result_exponent st else i |}
  end.

(** *** [LexedNumericLiteral::Parser] *)

Record Parser : Type := mkParser {
  emitter : list Diagnostic;
  literal : LexedNumericLiteral;
  radix : Z;
  int_part : StringRef.t;
  fract_part : StringRef.t;
  exponent_part : StringRef.t;
  mantissa_needs_cleaning : bool;
  exponent_needs_cleaning : bool;
  exponent_is_negative : bool
}.

Definition size (s : StringRef.t) : Z := Z.of_nat (StringRef.len s).

(** The constructor. *)
Definition Parser_new (emitter : list Diagnostic) (literal : LexedNumericLiteral) : Parser :=
  let int_part := StringRef.substr (text literal) 0 (radix_point literal) in
  let '(is_hex, int_part) := StringRef.consume_front int_part (str "0x") in
  let '(is_bin, int_part) :=
    if is_hex then (false, int_part) else StringRef.consume_front int_part (str "0b") in
  let radix := if is_hex then 16 else if is_bin then 2 else 10 in
  let fract_part :=
    StringRef.substr (text literal) (radix_point literal + 1)
                     (exponent literal - radix_point literal - 1) in
  let exponent_part := StringRef.substr_from (text literal) (exponent literal + 1) in
  let '(plus, exponent_part) := StringRef.consume_front exponent_part (str "+") in
  let '(minus, exponent_part) :=
    if plus then (false, exponent_part) else StringRef.consume_front exponent_part (str "-") in
  mkParser emitter literal radix int_part fract_part exponent_part false false minus.

Definition IsInteger (p : Parser) : bool :=
  radix_point (literal p) =? size (text (literal p)).

Record CheckDigitSequenceResult : Type := mkResult {
  ok : bool;
  has_digit_separators : bool
}.

(** The array a string literal denotes: its characters and the terminating
    NUL.  The loops [for (char c : "01")] run over the whole array. *)
Definition char_array (s : string) : list ascii := str s ++ [zero].

Definition valid_digits (radix : Z) (c : ascii) : bool :=
  existsb (Ascii.eqb c)
    (if radix =? 2 then char_array "01"
     else if radix =? 10 then char_array "0123456789"
     else char_array "0123456789ABCDEF").

(** [CheckDigitSeparatorPlacement], the loop [while (pos - begin >= stride)];
    [pos] is an offset into [text].  The result is what the function emits.
    [fuel] bounds the number of iterations; [pos] itself is enough. *)
Fixpoint placement_loop (fuel : nat) (text : list ascii) (radix : Z) (stride : nat)
    (pos : nat) (remaining_digit_separators : Z) : list Diagnostic :=
  if (stride <=? pos)%nat then
    match fuel with
    | O => [IrregularDigitSeparators radix]
    | S fuel' =>
        let pos := (pos - stride)%nat in
        if negb (Ascii.eqb (nth pos text zero) "_")
        then [IrregularDigitSeparators radix]
        else placement_loop fuel' text radix stride pos (remaining_digit_separators - 1)
    end
  else if negb (remaining_digit_separators =? 0)
       then [IrregularDigitSeparators radix] else [].

Definition CheckDigitSeparatorPlacement (text : list ascii) (radix : Z)
    (num_digit_separators : Z) : list Diagnostic :=
  if radix =? 2 then []
  else
    let stride := if radix =? 10 then 4%nat else 5%nat in
    placement_loop (length text) text radix stride (length text) num_digit_separators.

(** The loop of [CheckDigitSequence] over the characters from position [i]
    on; [prev] is [text[i - 1]] ([None] when [i == 0]) and [i + 1 == n] holds
    when nothing follows.  [None] is the early [return {.ok = false}]. *)
Fixpoint digit_loop (radix : Z) (allow_digit_separators : bool) (prev : option ascii)
    (rest : list ascii) (num_digit_separators : Z) (emitted : list Diagnostic)
    : option Z * list Diagnostic :=
  match rest with
  | [] => (Some num_digit_separators, emitted)
  | c :: after =>
      if valid_digits radix c then
        digit_loop radix allow_digit_separators (Some c) after num_digit_separators emitted
      else if Ascii.eqb c "_" then
        let misplaced :=
          negb allow_digit_separators
          || match prev with None => true | Some p => Ascii.eqb p "_" end
          || match after with [] => true | _ => false end in
        digit_loop radix allow_digit_separators (Some c) after (num_digit_separators + 1)
          (if misplaced then emitted ++ [InvalidDigitSeparator] else emitted)
      else (None, emitted ++ [InvalidDigit c radix])
  end.

(** [CheckDigitSequence]: the result and the diagnostics it emits. *)
Definition CheckDigitSequence (text : list ascii) (radix : Z)
    (allow_digit_separators : bool) : CheckDigitSequenceResult * list Diagnostic :=
  match digit_loop radix allow_digit_separators None text 0 [] with
  | (None, emitted) => (mkResult false false, emitted)
  | (Some num_digit_separators, emitted) =>
      if num_digit_separators =? Z.of_nat (length text)
      then (mkResult false false, emitted ++ [EmptyDigitSequence])
      else if negb (num_digit_separators =? 0)
      then (mkResult true true,
            emitted ++ CheckDigitSeparatorPlacement text radix num_digit_separators)
      else (mkResult true false, emitted)
  end.

Definition emit (p : Parser) (ds : list Diagnostic) : Parser :=
  mkParser (emitter p ++ ds) (literal p) (radix p) (int_part p) (fract_part p)
           (exponent_part p) (mantissa_needs_cleaning p) (exponent_needs_cleaning p)
           (exponent_is_negative p).

Definition set_mantissa_needs_cleaning (p : Parser) (b : bool) : Parser :=
  mkParser (emitter p) (literal p) (radix p) (int_part p) (fract_part p)
           (exponent_part p) b (exponent_needs_cleaning p) (exponent_is_negative p).

Definition set_exponent_needs_cleaning (p : Parser) (b : bool) : Parser :=
  mkParser (emitter p) (literal p) (radix p) (int_part p) (fract_part p)
           (exponent_part p) (mantissa_needs_cleaning p) b (exponent_is_negative p).

Definition CheckLeadingZero (p : Parser) : bool * Parser :=
  if (radix p =? 10) && StringRef.startswith (int_part p) (str "0")
     && negb (StringRef.equals (int_part p) (str "0"))
  then (false, emit p [UnknownBaseSpecifier])
  else (true, p).

Definition CheckIntPart (p : Parser) : bool * Parser :=
  let '(int_result, ds) := CheckDigitSequence (StringRef.chars (int_part p)) (radix p) true in
  let p := emit p ds in
  (ok int_result,
   set_mantissa_needs_cleaning p
     (mantissa_needs_cleaning p || has_digit_separators int_result)).

Definition CheckFractionalPart (p : Parser) : bool * Parser :=
  if IsInteger p then (true, p)
  else
    let p := if radix p =? 2 then emit p [BinaryRealLiteral] else p in
    let p := set_mantissa_needs_cleaning p true in
    let '(result, ds) := CheckDigitSequence (StringRef.chars (fract_part p)) (radix p) false in
    (ok result, emit p ds).

Definition CheckExponentPart (p : Parser) : bool * Parser :=
  if exponent (literal p) =? size (text (literal p)) then (true, p)
  else
    let expected_exponent_kind := if radix p =? 10 then "e"%char else "p"%char in
    if negb (Ascii.eqb
               (nth (Z.to_nat (exponent (literal p))) (StringRef.chars (text (literal p))) zero)
               expected_exponent_kind)
    then (false, emit p [WrongRealLiteralExponent expected_exponent_kind])
    else
      let '(exponent_result, ds) :=
        CheckDigitSequence (StringRef.chars (exponent_part p)) 10 true in
      (ok exponent_result,
       set_exponent_needs_cleaning (emit p ds) (has_digit_separators exponent_result)).

(** [a && b && c && d], left to right, stopping at the first failure. *)
Definition Check (p : Parser) : bool * Parser :=
  let '(b, p) := CheckLeadingZero p in
  if negb b then (false, p) else
  let '(b, p) := CheckIntPart p in
  if negb b then (false, p) else
  let '(b, p) := CheckFractionalPart p in
  if negb b then (false, p) else
  CheckExponentPart p.

(** [std::remove_copy_if] with the predicate [c == '_' || c == '.']. *)
Definition clean (digits : list ascii) : list ascii :=
  filter (fun c => negb (Ascii.eqb c "_" || Ascii.eqb c ".")) digits.

(** [ParseInteger]; [None] is [llvm_unreachable("should never fail")]. *)
Definition ParseInteger (digits : list ascii) (radix : Z) (needs_cleaning : bool)
    : option APInt.t :=
  let digits := if needs_cleaning then clean digits else digits in
  APInt.getAsInteger digits radix APInt.default.

Definition GetMantissa (p : Parser) : option APInt.t :=
  let end_ := if IsInteger p then StringRef.end_ (int_part p)
              else StringRef.end_ (fract_part p) in
  let digits :=
    StringRef.between (StringRef.buf (int_part p)) (StringRef.begin_ (int_part p)) end_ in
  ParseInteger (StringRef.chars digits) (radix p) (mantissa_needs_cleaning p).

Definition GetExponent (p : Parser) : option APInt.t :=
  let parsed :=
    if negb (StringRef.empty (exponent_part p)) then
      match ParseInteger (StringRef.chars (exponent_part p)) 10 (exponent_needs_cleaning p) with
      | None => None
      | Some exponent =>
          let exponent :=
            if APInt.isSignBitSet exponent || (APInt.BitWidth exponent <? 64)
            then APInt.zext exponent (Z.max 64 (APInt.BitWidth exponent + 1))
            else exponent in
          Some (if exponent_is_negative p then APInt.negate exponent else exponent)
      end
    else Some (APInt.make 64 0) in
  match parsed with
  | None => None
  | Some exponent =>
      let excess_exponent := size (fract_part p) in
      let excess_exponent := if radix p =? 16 then excess_exponent * 4 else excess_exponent in
      let exponent := APInt.sub exponent excess_exponent in
      Some (if exponent_is_negative p && negb (APInt.isNegative exponent)
            then APInt.setSignBit (APInt.zext exponent (APInt.BitWidth exponent + 1))
            else exponent)
  end.

Inductive Value : Type :=
| IntegerValue (value : APInt.t)
| RealValue (radix : Z) (mantissa exponent : APInt.t)
| UnrecoverableError.

(** [ComputeValue]: the value ([None] when [llvm_unreachable] is reached) and
    the emitter afterwards. *)
Definition ComputeValue (lit : LexedNumericLiteral) (emitter0 : list Diagnostic)
    : option Value * list Diagnostic :=
  let parser := Parser_new emitter0 lit in
  let '(checked, parser) := Check parser in
  if negb checked then (Some UnrecoverableError, emitter parser)
  else if IsInteger parser then
    (option_map IntegerValue (GetMantissa parser), emitter parser)
  else
    (match GetMantissa parser, GetExponent parser with
     | Some mantissa, Some exponent =>
         Some (RealValue (if radix parser =? 10 then 10 else 2) mantissa exponent)
     | _, _ => None
     end, emitter parser).

(** Lexing a source text and computing the value of the lexeme, with a fresh
    emitter. *)
Definition LexAndCompute (source_text : list ascii) : option (option Value * list Diagnostic) :=
  option_map (fun lit => ComputeValue lit []) (Lex source_text).

End NumericLiteral.

(* ------------------------------------------------------------------------- *)
(** ** [StringRef::getAsInteger] for [unsigned], UTF-8, hexadecimal nibbles

    More of the LLVM support library, as the string lexer calls it:
    unsigned arithmetic is in 64 bits with the wrap-around written out. *)

Module LLVM.

(** The digit loop of [consumeUnsignedInteger]: the value and what is left;
    [None] is the overflow return. *)
Fixpoint consume_loop (radix : Z) (s : list ascii) (Result : Z) : option (Z * list ascii) :=
  match s with
  | [] => Some (Result, [])
  | c :: s' =>
      match APInt.CharVal c with
      | None => Some (Result, s)
      | Some v =>
          if radix <=? v then Some (Result, s)
          else
            let PrevResult := Result in
            let Result := (Result * radix + v) mod 2 ^ 64 in
            if Result / radix <? PrevResult then None
            else consume_loop radix s' Result
      end
  end.

(** [getAsInteger(Radix, unsigned &)]: every character must be consumed and
    the value must fit 32 bits; [None] is the error return. *)
Definition getAsUnsigned (s : list ascii) (radix : Z) : option Z :=
  match s with
  | [] => None
  | _ =>
      match consume_loop radix s 0 with
      | None => None
      | Some (v, rest) =>
          if (length rest =? length s)%nat then None
          else match rest with
               | [] => if v mod 2 ^ 32 =? v then Some v else None
               | _ => None
               end
      end
  end.

Definition byte (z : Z) : ascii := ascii_of_N (Z.to_N (z mod 256)).

(** [ConvertUTF32toUTF8] of one code point that is neither a surrogate nor
    above 0x10FFFF. *)
Definition ConvertUTF32toUTF8 (ch : Z) : list ascii :=
  if ch <? 128 then [byte ch]
  else if ch <? 2048 then
    [byte (Z.lor (Z.shiftr ch 6) 192);
     byte (Z.lor (Z.land ch 63) 128)]
  else if ch <? 65536 then
    [byte (Z.lor (Z.shiftr ch 12) 224);
     byte (Z.lor (Z.land (Z.shiftr ch 6) 63) 128);
     byte (Z.lor (Z.land ch 63) 128)]
  else
    [byte (Z.lor (Z.shiftr ch 18) 240);
     byte (Z.lor (Z.land (Z.shiftr ch 12) 63) 128);
     byte (Z.lor (Z.land (Z.shiftr ch 6) 63) 128);
     byte (Z.lor (Z.land ch 63) 128)].

(** [hexDigitValue], on the digits the caller has checked. *)
Definition hexDigitValue (c : ascii) : Z :=
  match APInt.CharVal c with
  | Some v => v
  | None => 2 ^ 32 - 1
  end.

Definition hexFromNibbles (MSB LSB : ascii) : ascii :=
  byte (Z.lor (Z.shiftl (hexDigitValue MSB) 4) (hexDigitValue LSB)).

End LLVM.

(* ------------------------------------------------------------------------- *)
(** ** [lib/Lexer/StringLiteral.cc] *)

Module StringLiteral.

Import CharacterSet.

Definition newline : ascii := "010".
Definition tab : ascii := "009".
Definition carriage_return : ascii := "013".
Definition double_quote : ascii := "034".
Definition single_quote : ascii := "039".
Definition backslash : ascii := "092".
Definition hash : ascii := "035".
Definition nul : ascii := "000".

Inductive Diagnostic : Type :=
| ContentBeforeStringTerminator
| UnicodeEscapeTooLarge
| UnicodeEscapeSurrogate
| DecimalEscapeSequence
| HexadecimalEscapeMissingDigits
| UnicodeEscapeMissingBracedDigits
| UnknownEscapeSequence (first : ascii)
| MismatchedIndentInString
| InvalidHorizontalWhitespaceInString
(** a diagnostic declared in another file, by its name *)
| ForeignDiagnostic (name : string).

Record LexedStringLiteral : Type := mkLiteral {
  text_ : StringRef.t;
  content_ : StringRef.t;
  hash_level_ : Z;
  multi_line_ : bool;
  is_terminated_ : bool
}.

(** How a run of the decoder ends: it returns, it fails a [COCKTAIL_CHECK] or
    reaches [llvm_unreachable], or the model's iteration bound is used up. *)
Inductive Outcome (A : Type) : Type :=
| Returned (a : A)
| CheckFailed
| OutOfFuel.
Arguments Returned {A} a.
Arguments CheckFailed {A}.
Arguments OutOfFuel {A}.

Definition MultiLineIndicator : list ascii := [double_quote; double_quote; double_quote].

(** [find_first_of(chars, from)]: the offset of the first character at or
    after [from] that is one of [chars]; [None] is [npos]. *)
Fixpoint find_if_from (p : ascii -> bool) (s : list ascii) (at_ : nat) : option nat :=
  match s with
  | [] => None
  | c :: s' => if p c then Some at_ else find_if_from p s' (S at_)
  end.

Definition is_one_of (set : list ascii) (c : ascii) : bool := existsb (Ascii.eqb c) set.

Definition GetMultiLineStringLiteralPrefixSize (source_text : list ascii) : Z :=
  if negb (StringRef.list_startswith source_text MultiLineIndicator) then 0
  else
    match find_if_from (is_one_of [hash; newline; double_quote])
                       (skipn 3 source_text) 3 with
    | None => 0
    | Some prefix_end =>
        if negb (Ascii.eqb (nth prefix_end source_text nul) newline) then 0
        else Z.of_nat prefix_end + 1
    end.

Fixpoint count_hashes (s : list ascii) : nat :=
  match s with
  | c :: s' => if Ascii.eqb c hash then S (count_hashes s') else O
  | [] => O
  end.

Section Lex.

Variable source_text : list ascii.
Variable hash_level : nat.
Variable multi_line : bool.
Variable prefix_len : nat.
Variables terminator escape : list ascii.

Let source := StringRef.of_list source_text.

Definition take_front (n : nat) : StringRef.t :=
  StringRef.substr source 0 (Z.of_nat n).

Definition drop_front (s : StringRef.t) (n : nat) : StringRef.t :=
  StringRef.substr_from s (Z.of_nat n).

Definition unterminated (text : StringRef.t) : LexedStringLiteral :=
  mkLiteral text (drop_front text prefix_len) (Z.of_nat hash_level) multi_line false.

(** The loop [for (; cursor < source_text_size; ++cursor)]; when it ends
    without a [return] the literal is the whole text, unterminated.  Every
    iteration advances [cursor], so [fuel] is the length of the text. *)
Fixpoint Lex_scan (fuel : nat) (cursor : nat) : LexedStringLiteral :=
  match fuel with
  | O => unterminated source
  | S fuel' =>
      if negb (cursor <? length source_text)%nat then unterminated source
      else
        let c := nth cursor source_text nul in
        if Ascii.eqb c backslash then
          if (length escape =? 1)%nat
             || StringRef.list_startswith (skipn cursor source_text) escape then
            let cursor := (cursor + length escape)%nat in
            if (length source_text <=? cursor)%nat
               || (negb multi_line && Ascii.eqb (nth cursor source_text nul) newline)
            then unterminated (take_front cursor)
            else Lex_scan fuel' (S cursor)
          else Lex_scan fuel' (S cursor)
        else if Ascii.eqb c newline then
          if negb multi_line then unterminated (take_front cursor)
          else Lex_scan fuel' (S cursor)
        else if Ascii.eqb c double_quote then
          if (length terminator =? 1)%nat
             || StringRef.list_startswith (skipn cursor source_text) terminator then
            mkLiteral (StringRef.substr source 0 (Z.of_nat (cursor + length terminator)))
                      (StringRef.substr source (Z.of_nat prefix_len)
                                        (Z.of_nat cursor - Z.of_nat prefix_len))
                      (Z.of_nat hash_level) multi_line true
          else Lex_scan fuel' (S cursor)
        else Lex_scan fuel' (S cursor)
  end.

End Lex.

(** [LexedStringLiteral::Lex]. *)
Definition Lex (source_text : list ascii) : option LexedStringLiteral :=
  let cursor := count_hashes source_text in
  let hash_level := cursor in
  let multi_line_prefix_size :=
    GetMultiLineStringLiteralPrefixSize (skipn hash_level source_text) in
  let multi_line := 0 <? multi_line_prefix_size in
  let start :=
    if multi_line then Some ((cursor + Z.to_nat multi_line_prefix_size)%nat, MultiLineIndicator)
    else if Ascii.eqb (nth cursor source_text nul) double_quote
            && (cursor <? length source_text)%nat
    then Some (S cursor, [double_quote])
    else None in
  match start with
  | None => None
  | Some (cursor, terminator) =>
      let prefix_len := cursor in
      let terminator := terminator ++ repeat hash hash_level in
      let escape := [backslash] ++ repeat hash hash_level in
      Some (Lex_scan source_text hash_level multi_line prefix_len terminator escape
                     (length source_text) cursor)
  end.

(** [ComputeIndentOfFinalLine]: the loop [for (i = indent_end - 1; i >= 0; --i)]
    with [n = i + 1]; the result is the pair [(indent_start, indent_end)];
    [None] is [llvm_unreachable]. *)
Fixpoint indent_loop (text : list ascii) (n : nat) (indent_end : nat) : option (nat * nat) :=
  match n with
  | O => None
  | S i =>
      if Ascii.eqb (nth i text nul) newline then Some (S i, indent_end)
      else indent_loop text i (if negb (IsSpace (nth i text nul)) then i else indent_end)
  end.

Definition ComputeIndentOfFinalLine (text : StringRef.t) : option StringRef.t :=
  match indent_loop (StringRef.chars text) (StringRef.len text) (StringRef.len text) with
  | None => None
  | Some (indent_start, indent_end) =>
      Some (StringRef.substr text (Z.of_nat indent_start)
                             (Z.of_nat indent_end - Z.of_nat indent_start))
  end.

(** [CheckIndent]: the indent and what is emitted. *)
Definition CheckIndent (text content : StringRef.t)
    : option (StringRef.t * list Diagnostic) :=
  match ComputeIndentOfFinalLine text with
  | None => None
  | Some indent =>
      Some (indent,
            if negb (StringRef.end_ indent =? StringRef.end_ content)%nat
            then [ContentBeforeStringTerminator] else [])
  end.

(** [take_while] and [drop_while]. *)
Fixpoint take_while (p : ascii -> bool) (s : list ascii) : list ascii :=
  match s with
  | c :: s' => if p c then c :: take_while p s' else []
  | [] => []
  end.

Fixpoint drop_while (p : ascii -> bool) (s : list ascii) : list ascii :=
  match s with
  | c :: s' => if p c then drop_while p s' else s
  | [] => []
  end.

(** [while (... result.back() != newline && IsSpace(result.back())) pop_back()]. *)
Definition pop_trailing_space (result : list ascii) : list ascii :=
  rev (drop_while (fun c => negb (Ascii.eqb c newline) && IsSpace c) (rev result)).

Section Decoder.

(** [CanLexInteger] of [Cocktail/Lexer/LexHelpers.h] is not among the
    sources and the specification does not describe it: it is a parameter,
    the flag it returns and the diagnostics it emits. *)
Variable CanLexInteger : list ascii -> bool * list Diagnostic.

(** [ExpandUnicodeEscapeSequence]: the flag, [result] afterwards and what is
    emitted. *)
Definition ExpandUnicodeEscapeSequence (digits : list ascii) (result : list ascii)
    : bool * list ascii * list Diagnostic :=
  let '(can, ds) := CanLexInteger digits in
  if negb can then (false, result, ds)
  else
    match LLVM.getAsUnsigned digits 16 with
    | None => (false, result, ds ++ [UnicodeEscapeTooLarge])
    | Some code_point =>
        if 1114111 <? code_point then (false, result, ds ++ [UnicodeEscapeTooLarge])
        else if (55296 <=? code_point) && (code_point <? 57344)
        then (false, result, ds ++ [UnicodeEscapeSurrogate])
        else (true, result ++ LLVM.ConvertUTF32toUTF8 code_point, ds)
    end.

(** [ExpandAndConsumeEscapeSequence]: [content] and [result] afterwards and
    what is emitted; [None] is the failed [COCKTAIL_CHECK]. *)
Definition ExpandAndConsumeEscapeSequence (content : list ascii) (result : list ascii)
    : option (list ascii * list ascii * list Diagnostic) :=
  match content with
  | [] => None
  | first :: content =>
      let recover ds := Some (content, result ++ [first], ds) in
      if Ascii.eqb first "t" then Some (content, result ++ [tab], [])
      else if Ascii.eqb first "n" then Some (content, result ++ [newline], [])
      else if Ascii.eqb first "r" then Some (content, result ++ [carriage_return], [])
      else if Ascii.eqb first double_quote then Some (content, result ++ [double_quote], [])
      else if Ascii.eqb first single_quote then Some (content, result ++ [single_quote], [])
      else if Ascii.eqb first backslash then Some (content, result ++ [backslash], [])
      else if Ascii.eqb first "0" then
        Some (content, result ++ [nul],
              match content with
              | d :: _ => if IsDecimalDigit d then [DecimalEscapeSequence] else []
              | [] => []
              end)
      else if Ascii.eqb first "x" then
        match content with
        | c0 :: c1 :: content' =>
            if IsUpperHexDigit c0 && IsUpperHexDigit c1
            then Some (content', result ++ [LLVM.hexFromNibbles c0 c1], [])
            else recover [HexadecimalEscapeMissingDigits]
        | _ => recover [HexadecimalEscapeMissingDigits]
        end
      else if Ascii.eqb first "u" then
        let '(open, remaining) := consume_front content (str "{") in
        if open then
          let digits := take_while IsUpperHexDigit remaining in
          let remaining := skipn (length digits) remaining in
          let '(closed, remaining) := consume_front remaining (str "}") in
          if negb (Nat.eqb (length digits) 0) && closed then
            let '(expanded, result', ds) := ExpandUnicodeEscapeSequence digits result in
            if negb expanded then Some (content, result' ++ [first], ds)
            else Some (remaining, result', ds)
          else recover [UnicodeEscapeMissingBracedDigits]
        else recover [UnicodeEscapeMissingBracedDigits]
      else recover [UnknownEscapeSequence first]
  end.

(** The head of the outer loop of [ExpandEscapeSequencesAndRemoveIndent]:
    [contents] afterwards and what is emitted. *)
Definition remove_indent (indent contents : list ascii) : list ascii * list Diagnostic :=
  let '(consumed, contents') := consume_front contents indent in
  if consumed then (contents', [])
  else
    let contents := drop_while IsHorizontalWhitespace contents in
    (contents,
     if negb (StringRef.list_startswith contents [newline])
     then [MismatchedIndentInString] else []).

(** Where the text the inner loop copies stops. *)
Definition end_of_regular_text (c : ascii) : bool :=
  Ascii.eqb c newline || Ascii.eqb c backslash
  || (IsHorizontalWhitespace c && negb (Ascii.eqb c " ")).

Record State : Type := mkState {
  contents : list ascii;
  result : list ascii;
  emitted : list Diagnostic
}.

Inductive Step : Type :=
| Continue (s : State)
| Return (result : list ascii) (emitted : list Diagnostic)
| Abort.

(** One iteration of the inner loop of [ExpandEscapeSequencesAndRemoveIndent];
    a [break] goes on with the head of the outer loop. *)
Definition expand_step (escape indent : list ascii) (s : State) : Step :=
  let regular := take_while (fun c => negb (end_of_regular_text c)) (contents s) in
  let result := result s ++ regular in
  let contents := skipn (length regular) (contents s) in
  match contents with
  | [] => Return result (emitted s)
  | c :: after =>
      if Ascii.eqb c newline then
        let result := pop_trailing_space result ++ [newline] in
        let '(contents, ds) := remove_indent indent after in
        Continue (mkState contents result (emitted s ++ ds))
      else if IsHorizontalWhitespace c then
        if Ascii.eqb c " " then Abort
        else
          let space := take_while IsHorizontalWhitespace contents in
          let after_space := skipn (length space) contents in
          if negb (StringRef.list_startswith after_space [newline])
          then Continue (mkState after_space (result ++ space)
                                 (emitted s ++ [InvalidHorizontalWhitespaceInString]))
          else Continue (mkState after_space result (emitted s))
      else
        let '(is_escape, contents') := consume_front contents escape in
        if negb is_escape then Continue (mkState after (result ++ [c]) (emitted s))
        else
          let '(continuation, contents'') := consume_front contents' [newline] in
          if continuation then
            let '(contents, ds) := remove_indent indent contents'' in
            Continue (mkState contents result (emitted s ++ ds))
          else
            match ExpandAndConsumeEscapeSequence contents' result with
            | None => Abort
            | Some (contents, result, ds) =>
                Continue (mkState contents result (emitted s ++ ds))
            end
  end.

Fixpoint expand_run (fuel : nat) (escape indent : list ascii) (s : State)
    : Outcome (list ascii * list Diagnostic) :=
  match fuel with
  | O => OutOfFuel
  | S fuel' =>
      match expand_step escape indent s with
      | Continue s' => expand_run fuel' escape indent s'
      | Return result emitted => Returned (result, emitted)
      | Abort => CheckFailed
      end
  end.

(** [ExpandEscapeSequencesAndRemoveIndent]: the decoded string and the emitter
    afterwards.  Every iteration of the inner loop shortens [contents]. *)
Definition ExpandEscapeSequencesAndRemoveIndent (emitter : list Diagnostic)
    (contents : list ascii) (hash_level : Z) (indent : list ascii)
    : Outcome (list ascii * list Diagnostic) :=
  let escape := [backslash] ++ repeat hash (Z.to_nat hash_level) in
  let '(contents, ds) := remove_indent indent contents in
  expand_run (S (length contents)) escape indent (mkState contents [] (emitter ++ ds)).

(** [LexedStringLiteral::ComputeValue]. *)
Definition ComputeValue (lit : LexedStringLiteral) (emitter : list Diagnostic)
    : Outcome (list ascii * list Diagnostic) :=
  if negb (is_terminated_ lit) then Returned ([], emitter)
  else if multi_line_ lit then
    match CheckIndent (text_ lit) (content_ lit) with
    | None => CheckFailed
    | Some (indent, ds) =>
        ExpandEscapeSequencesAndRemoveIndent (emitter ++ ds)
          (StringRef.chars (content_ lit)) (hash_level_ lit) (StringRef.chars indent)
    end
  else
    ExpandEscapeSequencesAndRemoveIndent emitter
      (StringRef.chars (content_ lit)) (hash_level_ lit) [].

End Decoder.

End StringLiteral.

(* ------------------------------------------------------------------------- *)
(** ** [lib/Parser/ParseTree.cc] *)

Module ParseTree.

(** A node record; a kind and a token are their numbers. *)
Record NodeImpl : Type := mkNodeImpl {
  kind : nat;
  token : nat;
  subtree_size : Z;
  has_error : bool
}.

Record ParseTree : Type := mkParseTree {
  node_impls : list NodeImpl;
  has_errors : bool
}.

(** A [Node] is its index. *)
Definition Node : Type := Z.

(** [node_impls[index]]; [None] outside the vector. *)
Definition node_at (t : ParseTree) (index : Z) : option NodeImpl :=
  if index <? 0 then None else nth_error (node_impls t) (Z.to_nat index).

(** An [iterator_range]: its [begin] and [end] nodes. *)
Definition iterator_range : Type := (Node * Node)%type.

(** [ParseTree::Postorder()]. *)
Definition Postorder (t : ParseTree) : iterator_range :=
  (0, Z.of_nat (length (node_impls t))).

(** [ParseTree::Postorder(Node n)]. *)
Definition Postorder_of (t : ParseTree) (n : Node) : option iterator_range :=
  match node_at t n with
  | None => None
  | Some n_impl =>
      let end_index := n + 1 in
      let start_index := end_index - subtree_size n_impl in
      Some (start_index, end_index)
  end.

(** [ParseTree::Children(Node n)]. *)
Definition Children (t : ParseTree) (n : Node) : option iterator_range :=
  match node_at t n with
  | None => None
  | Some n_impl =>
      let end_index := n - subtree_size n_impl in
      Some (n - 1, end_index)
  end.

(** [ParseTree::Roots()]. *)
Definition Roots (t : ParseTree) : iterator_range :=
  (Z.of_nat (length (node_impls t)) - 1, -1).

(** Modelled from the spec: [PostorderIterator] is declared in
    [Cocktail/Parser/ParseTree.h], which is not among the sources; section 4.4
    has "postorder(): iterate all nodes in storage order", so advancing adds
    one to the index and the walk ends when the index equals the end of the
    range.  [None]: the end is never met. *)
Definition postorder_nodes (r : iterator_range) : option (list Node) :=
  let '(first, last) := r in
  if last <? first then None
  else Some (map (fun k => first + Z.of_nat k) (seq 0 (Z.to_nat (last - first)))).

(** Modelled from the spec: [SiblingIterator] is declared in
    [Cocktail/Parser/ParseTree.h], which is not among the sources; section 4.4,
    "Sibling iterator": the iterator holds the current index, advancing
    subtracts the current node's [subtree_size], and it reaches the end when
    the resulting index equals the terminator.  [None]: the walk leaves the
    vector, or [fuel] steps did not reach the terminator. *)
Fixpoint sibling_walk (t : ParseTree) (fuel : nat) (current terminator : Node)
    : option (list Node) :=
  if current =? terminator then Some []
  else
    match fuel with
    | O => None
    | S fuel' =>
        match node_at t current with
        | None => None
        | Some impl =>
            option_map (cons current)
              (sibling_walk t fuel' (current - subtree_size impl) terminator)
        end
    end.

(** The nodes of a sibling range; a walk over nodes of positive size visits
    at most every node once. *)
Definition sibling_nodes (t : ParseTree) (r : iterator_range) : option (list Node) :=
  sibling_walk t (length (node_impls t)) (fst r) (snd r).

Definition size_of (t : ParseTree) (n : Node) : Z :=
  match node_at t n with
  | Some impl => subtree_size impl
  | None => 0
  end.

(** The subtree-span invariant: the span [(i - s, i]] of a node lies in the
    vector, and the span of every node inside it lies inside it. *)
Definition spans_nested (t : ParseTree) : Prop :=
  forall i, 0 <= i < Z.of_nat (length (node_impls t)) ->
    1 <= size_of t i /\ -1 <= i - size_of t i /\
    forall j, i - size_of t i < j <= i -> i - size_of t i <= j - size_of t j.

(** The loop [while (!ancestors.empty())] at the end of an iteration of
    [Verify]: the ancestors whose subtree ends before [next_index] are
    popped.  The top of the stack is the head of the list; [None]: an index
    outside the vector. *)
Fixpoint pop_ancestors (t : ParseTree) (ancestors : list Node) (next_index : Z)
    : option (list Node) :=
  match ancestors with
  | [] => Some []
  | parent_n :: below =>
      match node_at t parent_n with
      | None => None
      | Some parent_n_impl =>
          if negb (parent_n - subtree_size parent_n_impl =? next_index)
          then Some ancestors
          else pop_ancestors t below next_index
      end
  end.

(** The loop of [Verify] over the nodes it is still to visit: [false] with
    the first [return false], [true] and the ancestors left when the loop
    ends; what is written to [llvm::errs()] is dropped. *)
Fixpoint verify_loop (t : ParseTree) (nodes : list Node) (ancestors : list Node)
    : option (bool * list Node) :=
  match nodes with
  | [] => Some (true, ancestors)
  | n :: rest =>
      match node_at t n with
      | None => None
      | Some n_impl =>
          if has_error n_impl && negb (has_errors t) then Some (false, ancestors)
          else if 1 <? subtree_size n_impl then
            match ancestors with
            | [] => verify_loop t rest (n :: ancestors)
            | parent_n :: _ =>
                match node_at t parent_n with
                | None => None
                | Some parent_n_impl =>
                    let end_index := n - subtree_size n_impl in
                    let parent_end_index := parent_n - subtree_size parent_n_impl in
                    if end_index <? parent_end_index then Some (false, ancestors)
                    else verify_loop t rest (n :: ancestors)
                end
            end
          else if subtree_size n_impl <? 1 then Some (false, ancestors)
          else
            match pop_ancestors t ancestors (n - 1) with
            | None => None
            | Some ancestors => verify_loop t rest ancestors
            end
      end
  end.

(** [ParseTree::Verify]: the nodes are visited in the reverse of
    [Postorder()]. *)
Definition Verify (t : ParseTree) : option bool :=
  match postorder_nodes (Postorder t) with
  | None => None
  | Some nodes =>
      match verify_loop t (rev nodes) [] with
      | None => None
      | Some (false, _) => Some false
      | Some (true, ancestors) =>
          Some (match ancestors with [] => true | _ :: _ => false end)
      end
  end.

End ParseTree.

(* ------------------------------------------------------------------------- *)
(** ** The value a digit string denotes *)

Module Digits.

Import CharacterSet.

(** The value of one digit: 0 to 9, then A to F for 10 to 15. *)
Definition digit_value (c : ascii) : Z :=
  if IsDecimalDigit c then Z.of_N (code c) - 48 else Z.of_N (code c) - 55.

(** The number a digit string denotes in a radix, most significant digit
    first. *)
Definition digits_value (radix : Z) (digits : list ascii) : Z :=
  fold_left (fun acc c => acc * radix + digit_value c) digits 0.

(** A digit of the radix: 0-1, 0-9 or 0-9A-F. *)
Definition is_digit (radix : Z) (c : ascii) : bool :=
  if radix =? 2 then in_range "0" "1" c
  else if radix =? 10 then IsDecimalDigit c
  else IsUpperHexDigit c.

Definition is_separator (c : ascii) : bool := Ascii.eqb c "_".

(** The digit string without its underscores. *)
Definition remove_underscores (digits : list ascii) : list ascii :=
  filter (fun c => negb (is_separator c)) digits.

Definition known_radix (radix : Z) : Prop := radix = 2 \/ radix = 10 \/ radix = 16.

End Digits.

(* ------------------------------------------------------------------------- *)
(** ** Facts about the arbitrary-precision integers *)

Module APIntFacts.

Import Digits.

Lemma pow2_pos w : 0 <= w -> 0 < 2 ^ w.
Proof. intros. apply Z.pow_pos_nonneg; lia. Qed.

Lemma pow2_split w : 1 <= w -> 2 ^ w = 2 * 2 ^ (w - 1).
Proof.
  intros Hw. replace w with (Z.succ (w - 1)) at 1 by lia.
  apply Z.pow_succ_r. lia.
Qed.

Lemma trunc_small w v : 0 <= v < 2 ^ w -> APInt.trunc w v = v.
Proof. intros. unfold APInt.trunc. apply Z.mod_small. assumption. Qed.

Lemma testbit_top v w :
  1 <= w -> 0 <= v < 2 ^ w -> Z.testbit v (w - 1) = (2 ^ (w - 1) <=? v).
Proof.
  intros Hw Hv.
  pose proof (pow2_split w Hw) as Hp.
  pose proof (pow2_pos (w - 1) ltac:(lia)) as Hpos.
  rewrite Z.testbit_odd, Z.shiftr_div_pow2 by lia.
  destruct (Z.leb_spec (2 ^ (w - 1)) v).
  - replace (v / 2 ^ (w - 1)) with 1; [reflexivity|].
    apply Z.div_unique with (r := v - 2 ^ (w - 1)); lia.
  - rewrite Z.div_small by lia. reflexivity.
Qed.

Lemma testbit_above v k n : 0 <= v < 2 ^ k -> 0 <= k <= n -> Z.testbit v n = false.
Proof.
  intros Hv Hk.
  rewrite Z.testbit_odd, Z.shiftr_div_pow2 by lia.
  rewrite Z.div_small; [reflexivity|].
  split; [lia|]. apply Z.lt_le_trans with (2 ^ k); [lia|].
  apply Z.pow_le_mono_r; lia.
Qed.

Lemma lor_shiftl_small a k v :
  0 <= a -> 0 <= k -> 0 <= v < 2 ^ k -> Z.lor (Z.shiftl a k) v = a * 2 ^ k + v.
Proof.
  intros Ha Hk Hv.
  rewrite Z.shiftl_mul_pow2 by lia.
  assert (Hland : Z.land (a * 2 ^ k) v = 0).
  { apply Z.bits_inj'; intros n Hn. rewrite Z.land_spec, Z.bits_0.
    destruct (Z.lt_ge_cases n k).
    - rewrite Z.mul_pow2_bits_low by lia. reflexivity.
    - rewrite (testbit_above v k n) by lia. apply andb_false_r. }
  rewrite <- Z.lxor_lor, <- Z.add_nocarry_lxor; auto.
Qed.

(** A well-formed value: below [2 ^ width]. *)
Definition wf (a : APInt.t) : Prop := 1 <= APInt.BitWidth a /\ 0 <= APInt.Val a < 2 ^ APInt.BitWidth a.

Lemma isNegative_signed a : wf a -> APInt.isNegative a = (APInt.signed a <? 0).
Proof.
  intros [Hw Hv]. unfold APInt.isNegative, APInt.isSignBitSet, APInt.signed.
  rewrite testbit_top by assumption.
  pose proof (pow2_split _ Hw).
  destruct (Z.leb_spec (2 ^ (APInt.BitWidth a - 1)) (APInt.Val a));
    destruct (Z.ltb_spec (APInt.Val a) (2 ^ (APInt.BitWidth a - 1))); try lia;
    symmetry; first [apply Z.ltb_lt; lia | apply Z.ltb_ge; lia].
Qed.

Lemma signed_small a :
  0 <= APInt.Val a < 2 ^ (APInt.BitWidth a - 1) -> APInt.signed a = APInt.Val a.
Proof.
  intros H. unfold APInt.signed.
  destruct (Z.ltb_spec (APInt.Val a) (2 ^ (APInt.BitWidth a - 1))); lia.
Qed.

Lemma signed_negate a :
  1 <= APInt.BitWidth a -> 0 <= APInt.Val a < 2 ^ (APInt.BitWidth a - 1) ->
  APInt.signed (APInt.negate a) = - APInt.Val a /\ wf (APInt.negate a).
Proof.
  intros Hw Hv. pose proof (pow2_split _ Hw) as Hp.
  unfold APInt.negate, APInt.signed, APInt.trunc, wf; simpl.
  destruct (Z.eq_dec (APInt.Val a) 0) as [E | E].
  - rewrite E. simpl. rewrite Z.mod_0_l by lia.
    destruct (Z.ltb_spec 0 (2 ^ (APInt.BitWidth a - 1))); lia.
  - assert (Hm : (- APInt.Val a) mod 2 ^ APInt.BitWidth a = 2 ^ APInt.BitWidth a - APInt.Val a).
    { symmetry. apply Z.mod_unique with (q := -1); lia. }
    rewrite Hm.
    destruct (Z.ltb_spec (2 ^ APInt.BitWidth a - APInt.Val a) (2 ^ (APInt.BitWidth a - 1))); lia.
Qed.

Lemma signed_sub a x :
  wf a ->
  - 2 ^ (APInt.BitWidth a - 1) <= APInt.signed a - x < 2 ^ (APInt.BitWidth a - 1) ->
  APInt.signed (APInt.sub a x) = APInt.signed a - x /\ wf (APInt.sub a x).
Proof.
  intros [Hw Hv] Hr. pose proof (pow2_split _ Hw) as Hp.
  pose proof (pow2_pos (APInt.BitWidth a - 1) ltac:(lia)) as Hpos.
  unfold APInt.sub, wf, APInt.trunc. simpl.
  assert (Hm : 0 <= (APInt.Val a - x) mod 2 ^ APInt.BitWidth a < 2 ^ APInt.BitWidth a)
    by (apply Z.mod_pos_bound; lia).
  split; [|lia].
  unfold APInt.signed in *. simpl.
  pose proof (Z.div_mod (APInt.Val a - x) (2 ^ APInt.BitWidth a) ltac:(lia)) as Hq.
  set (m := (APInt.Val a - x) mod 2 ^ APInt.BitWidth a) in *.
  set (q := (APInt.Val a - x) / 2 ^ APInt.BitWidth a) in *.
  rewrite Hp in *.
  set (P := 2 ^ (APInt.BitWidth a - 1)) in *.
  destruct (Z.ltb_spec (APInt.Val a) P); destruct (Z.ltb_spec m P).
  - assert (q = 0) by nia. subst q. lia.
  - assert (q = -1) by nia. lia.
  - assert (q = 1) by nia. lia.
  - assert (q = 0) by nia. lia.
Qed.

End APIntFacts.
(* ------------------------------------------------------------------------- *)
(** ** [getAsInteger] computes the value of a digit string *)

Module DigitsFacts.

Import Digits APIntFacts.

Ltac each_char c :=
  destruct c as [[] [] [] [] [] [] [] []].

Lemma CharVal_digit radix c :
  known_radix radix -> is_digit radix c = true ->
  APInt.CharVal c = Some (digit_value c) /\ 0 <= digit_value c < radix.
Proof.
  intros [-> | [-> | ->]] H; each_char c;
    (discriminate H ||
     (split; [reflexivity | vm_compute; split; [intro X; discriminate X | reflexivity]])).
Qed.

Lemma valid_digits_digit radix c :
  known_radix radix -> NumericLiteral.valid_digits radix c = true -> c <> zero ->
  is_digit radix c = true.
Proof.
  intros [-> | [-> | ->]] H Hz; each_char c;
    (discriminate H || reflexivity || (exfalso; apply Hz; reflexivity)).
Qed.

Lemma digit_valid_digits radix c :
  known_radix radix -> is_digit radix c = true -> NumericLiteral.valid_digits radix c = true.
Proof.
  intros [-> | [-> | ->]] H; each_char c; (discriminate H || reflexivity).
Qed.

Lemma digit_not_separator radix c :
  known_radix radix -> is_digit radix c = true ->
  Ascii.eqb c "_" = false /\ Ascii.eqb c "." = false.
Proof.
  intros [-> | [-> | ->]] H; each_char c; (discriminate H || (split; reflexivity)).
Qed.

Definition step (radix : Z) (acc : Z) (c : ascii) : Z := acc * radix + digit_value c.

Lemma digits_value_fold radix s : digits_value radix s = fold_left (step radix) s 0.
Proof. reflexivity. Qed.

Lemma fold_step_bounds radix s acc :
  known_radix radix -> Forall (fun c => is_digit radix c = true) s -> 0 <= acc ->
  acc * radix ^ Z.of_nat (length s) <= fold_left (step radix) s acc
    < (acc + 1) * radix ^ Z.of_nat (length s).
Proof.
  intros Hr Hs. revert acc.
  induction Hs as [| c s Hc Hs IH]; intros acc Hacc.
  - simpl. lia.
  - destruct (CharVal_digit radix c Hr Hc) as [_ Hd].
    cbn [fold_left length]. rewrite Nat2Z.inj_succ, Z.pow_succ_r by lia.
    assert (Hpos : 0 < radix) by (destruct Hr as [-> | [-> | ->]]; lia).
    assert (Hnn : 0 <= acc * radix + digit_value c) by nia.
    specialize (IH (step radix acc c) Hnn).
    set (F := fold_left (step radix) s (step radix acc c)) in *.
    unfold step in IH.
    set (X := radix ^ Z.of_nat (length s)) in *.
    assert (0 <= X) by (apply Z.pow_nonneg; lia).
    assert (0 <= digit_value c * X) by nia.
    assert ((digit_value c + 1) * X <= radix * X) by nia.
    lia.
Qed.

Lemma skip_zeroes_value radix s :
  fold_left (step radix) (APInt.skip_zeroes s) 0 = fold_left (step radix) s 0.
Proof.
  induction s as [| c s IH]; [reflexivity|].
  simpl. destruct (Ascii.eqb_spec c "0") as [-> | Hne]; [|reflexivity].
  rewrite IH. reflexivity.
Qed.

Lemma skip_zeroes_Forall (P : ascii -> Prop) s :
  Forall P s -> Forall P (APInt.skip_zeroes s).
Proof.
  induction 1 as [| c s Hc Hs IH]; simpl; [constructor|].
  destruct (Ascii.eqb c "0"); [assumption | constructor; assumption].
Qed.

Lemma pow2_ge_16 w : 10 <= 2 ^ w -> 16 <= 2 ^ w.
Proof.
  intros H. destruct (Z.lt_ge_cases w 4) as [Hlt | Hge].
  - destruct (Z.lt_ge_cases w 0) as [Hneg | Hnn].
    + rewrite Z.pow_neg_r in H by lia. lia.
    + assert (2 ^ w <= 2 ^ 3) by (apply Z.pow_le_mono_r; lia).
      change (2 ^ 3) with 8 in *. lia.
  - change 16 with (2 ^ 4). apply Z.pow_le_mono_r; lia.
Qed.

Lemma parse_digits_ok radix s w acc :
  known_radix radix -> Forall (fun c => is_digit radix c = true) s ->
  0 <= w -> 0 <= acc -> (acc + 1) * radix ^ Z.of_nat (length s) <= 2 ^ w ->
  APInt.parse_digits radix s (APInt.mk w acc)
  = Some (APInt.mk w (fold_left (step radix) s acc)).
Proof.
  intros Hr Hs Hw. revert acc.
  induction Hs as [| c s Hc Hs IH]; intros acc Hacc Hb; [reflexivity|].
  destruct (CharVal_digit radix c Hr Hc) as [Hv Hd].
  cbn [APInt.parse_digits fold_left]. rewrite Hv.
  destruct (Z.leb_spec radix (digit_value c)) as [Hle | _]; [lia|].
  cbn [length] in Hb. rewrite Nat2Z.inj_succ, Z.pow_succ_r in Hb by lia.
  assert (Hpos : 0 < radix) by (destruct Hr as [-> | [-> | ->]]; lia).
  assert (Hp : 1 <= radix ^ Z.of_nat (length s)).
  { pose proof (Z.pow_pos_nonneg radix (Z.of_nat (length s)) Hpos ltac:(lia)). lia. }
  assert (Hnew : 0 <= acc * radix + digit_value c < 2 ^ w) by nia.
  assert (Hrad : radix <= 2 ^ w) by nia.
  replace (if 2 ^ APInt.Log2Radix radix =? radix
           then APInt.or (APInt.shl (APInt.mk w acc) (APInt.Log2Radix radix)) (digit_value c)
           else APInt.add (APInt.mul (APInt.mk w acc) (APInt.make (APInt.BitWidth (APInt.mk w acc)) radix))
                          (APInt.make (APInt.BitWidth (APInt.mk w acc)) (digit_value c)))
    with (APInt.mk w (step radix acc c)).
  - apply IH; unfold step; [lia | nia].
  - unfold step.
    destruct Hr as [-> | [-> | ->]].
    + change (APInt.Log2Radix 2) with 1. change (2 ^ 1 =? 2) with true. cbv iota.
      unfold APInt.or, APInt.shl. cbn [APInt.BitWidth APInt.Val].
      assert (Hsh : Z.shiftl acc 1 = acc * 2) by (rewrite Z.shiftl_mul_pow2; lia).
      rewrite (trunc_small w (Z.shiftl acc 1)) by lia.
      rewrite lor_shiftl_small by (change (2 ^ 1) with 2; lia).
      change (2 ^ 1) with 2. rewrite trunc_small by lia. reflexivity.
    + change (APInt.Log2Radix 10) with 4. change (2 ^ 4 =? 10) with false. cbv iota.
      pose proof (pow2_ge_16 w Hrad).
      unfold APInt.add, APInt.mul, APInt.make. cbn [APInt.BitWidth APInt.Val].
      rewrite (trunc_small w 10) by lia.
      rewrite (trunc_small w (digit_value c)) by lia.
      rewrite (trunc_small w (acc * 10)) by lia.
      rewrite trunc_small by lia. reflexivity.
    + change (APInt.Log2Radix 16) with 4. change (2 ^ 4 =? 16) with true. cbv iota.
      unfold APInt.or, APInt.shl. cbn [APInt.BitWidth APInt.Val].
      assert (Hsh : Z.shiftl acc 4 = acc * 16) by (rewrite Z.shiftl_mul_pow2; lia).
      rewrite (trunc_small w (Z.shiftl acc 4)) by lia.
      rewrite lor_shiftl_small by (change (2 ^ 4) with 16; lia).
      change (2 ^ 4) with 16. rewrite trunc_small by lia. reflexivity.
Qed.

Lemma Log2Radix_bound radix :
  known_radix radix -> 1 <= APInt.Log2Radix radix /\ radix <= 2 ^ APInt.Log2Radix radix.
Proof. intros [-> | [-> | ->]]; vm_compute; split; intro X; discriminate X. Qed.

(** [getAsInteger] on a non-empty string of digits of the radix returns the
    number the string denotes, in a width that holds it. *)
Lemma getAsInteger_ok radix s :
  known_radix radix -> s <> [] -> Forall (fun c => is_digit radix c = true) s ->
  exists a,
    APInt.getAsInteger s radix APInt.default = Some a /\
    APInt.unsigned a = digits_value radix s /\
    wf a /\
    ((APInt.skip_zeroes s = [] /\ a = APInt.mk 64 0) \/
     (exists L, 1 <= L /\ L = Z.of_nat (length (APInt.skip_zeroes s)) /\
                APInt.BitWidth a = Z.max 1 (APInt.Log2Radix radix * L) /\
                0 <= APInt.Val a < radix ^ L)).
Proof.
  intros Hr Hne Hs.
  destruct s as [| c0 s0]; [congruence|]. clear Hne.
  set (s := c0 :: s0) in *.
  pose proof (skip_zeroes_Forall _ s Hs) as Hs'.
  pose proof (skip_zeroes_value radix s) as Hval.
  unfold APInt.getAsInteger. fold s.
  change (match s with [] => None | _ :: _ => ?x end) with x.
  destruct (APInt.skip_zeroes s) as [| c s'] eqn:E.
  - exists (APInt.mk 64 0). repeat split; try (vm_compute; congruence).
    + unfold APInt.unsigned. rewrite digits_value_fold, <- Hval. reflexivity.
    + left. split; reflexivity.
  - set (L := Z.of_nat (length (c :: s'))).
    assert (HL : 1 <= L) by (unfold L; cbn [length]; lia).
    destruct (Log2Radix_bound radix Hr) as [Hk1 Hk2].
    set (k := APInt.Log2Radix radix) in *.
    set (w := if APInt.BitWidth APInt.default <? k * L then k * L else 1).
    assert (Hw : w = Z.max 1 (k * L)).
    { unfold w. change (APInt.BitWidth APInt.default) with 1.
      destruct (Z.ltb_spec 1 (k * L)); lia. }
    assert (Hpos : 0 < radix) by (destruct Hr as [-> | [-> | ->]]; lia).
    assert (Hpow : radix ^ L <= 2 ^ w).
    { apply Z.le_trans with ((2 ^ k) ^ L).
      - apply Z.pow_le_mono_l. lia.
      - rewrite <- Z.pow_mul_r by lia. apply Z.pow_le_mono_r; lia. }
    pose proof (fold_step_bounds radix (c :: s') 0 Hr Hs' ltac:(lia)) as Hb.
    fold L in Hb.
    exists (APInt.mk w (fold_left (step radix) (c :: s') 0)).
    split.
    { replace (if APInt.BitWidth APInt.default <? k * L
               then APInt.zext APInt.default (k * L) else APInt.default)
        with (APInt.mk w 0)
        by (unfold w; destruct (APInt.BitWidth APInt.default <? k * L); reflexivity).
      cbn [APInt.BitWidth].
      apply parse_digits_ok; auto; try lia. fold L. lia. }
    split; [unfold APInt.unsigned; cbn [APInt.Val]; rewrite digits_value_fold; congruence|].
    split; [unfold wf; cbn [APInt.BitWidth APInt.Val]; lia|].
    right. exists L. cbn [APInt.BitWidth APInt.Val]. repeat split; auto; lia.
Qed.

End DigitsFacts.

(* ------------------------------------------------------------------------- *)
(** ** Digit sequences: what [CheckDigitSequence] accepts and emits *)

Module DigitSequenceFacts.

Import CharacterSet Digits DigitsFacts NumericLiteral.

(** The number of underscores of a text. *)
Definition sep_count (s : list ascii) : Z := Z.of_nat (length (filter is_separator s)).

(** A character the digit loop lets pass. *)
Definition passes (radix : Z) (c : ascii) : Prop :=
  valid_digits radix c = true \/ c = "_"%char.

(** Underscores every [k] digits from the right: a first group of one to [k]
    characters, then groups of exactly [k], none holding an underscore. *)
Inductive uniform_separators (k : nat) : list ascii -> Prop :=
| uniform_first (g : list ascii) :
    (1 <= length g <= k)%nat -> Forall (fun c => is_separator c = false) g ->
    uniform_separators k g
| uniform_group (t g : list ascii) :
    uniform_separators k t ->
    length g = k -> Forall (fun c => is_separator c = false) g ->
    uniform_separators k (t ++ "_"%char :: g).


Lemma underscore_not_valid radix : valid_digits radix "_" = false.
Proof.
  unfold valid_digits. destruct (radix =? 2); [reflexivity|].
  destruct (radix =? 10); reflexivity.
Qed.

Lemma sep_count_cons c s :
  sep_count (c :: s) = (if is_separator c then 1 else 0) + sep_count s.
Proof.
  unfold sep_count. cbn [filter]. destruct (is_separator c); cbn [length]; lia.
Qed.

Lemma sep_count_app s1 s2 : sep_count (s1 ++ s2) = sep_count s1 + sep_count s2.
Proof.
  unfold sep_count. rewrite filter_app, length_app. lia.
Qed.

Lemma sep_count_none s :
  Forall (fun c => is_separator c = false) s -> sep_count s = 0.
Proof.
  induction 1 as [| c s Hc _ IH]; [reflexivity|].
  rewrite sep_count_cons, Hc, IH. reflexivity.
Qed.

Lemma sep_count_bounds s : 0 <= sep_count s <= Z.of_nat (length s).
Proof.
  unfold sep_count. pose proof (filter_length_le is_separator s). lia.
Qed.

(** What the digit loop returns, and that it only ever appends
    [InvalidDigitSeparator]s before a possible final [InvalidDigit]. *)
Lemma digit_loop_spec radix allow rest :
  forall prev num em,
    match digit_loop radix allow prev rest num em with
    | (Some r, em') =>
        Forall (passes radix) rest /\ r = num + sep_count rest /\
        exists extra, em' = em ++ extra /\ Forall (eq InvalidDigitSeparator) extra
    | (None, em') =>
        exists c extra, In c rest /\ valid_digits radix c = false /\ c <> "_"%char /\
          em' = em ++ extra ++ [InvalidDigit c radix] /\
          Forall (eq InvalidDigitSeparator) extra
    end.
Proof.
  induction rest as [| c after IH]; intros prev num em.
  - cbn. repeat split; [constructor | unfold sep_count; simpl; lia |].
    exists []. rewrite app_nil_r. split; [reflexivity | constructor].
  - cbn [digit_loop].
    destruct (valid_digits radix c) eqn:Hv.
    + specialize (IH (Some c) num em).
      destruct (digit_loop radix allow (Some c) after num em) as [[r |] em'].
      * destruct IH as (Hall & Hr & Hex). repeat split; auto.
        -- constructor; [left; assumption | assumption].
        -- rewrite sep_count_cons.
           replace (is_separator c) with false; [lia|].
           unfold is_separator. destruct (Ascii.eqb_spec c "_"); [|reflexivity].
           subst c. rewrite underscore_not_valid in Hv. discriminate.
      * destruct IH as (c' & extra & Hin & Hrest). exists c', extra.
        split; [right; assumption | assumption].
    + destruct (Ascii.eqb_spec c "_") as [-> | Hne].
      * match goal with
        | |- context [digit_loop _ _ _ _ _ ?e] => set (em1 := e)
        end.
        assert (Hem1 : exists e1, em1 = em ++ e1 /\ Forall (eq InvalidDigitSeparator) e1).
        { unfold em1. destruct (_ || _ || _).
          - exists [InvalidDigitSeparator]. split; [reflexivity | repeat constructor].
          - exists []. rewrite app_nil_r. split; [reflexivity | constructor]. }
        destruct Hem1 as (e1 & He1 & Hf1).
        specialize (IH (Some "_"%char) (num + 1) em1).
        destruct (digit_loop radix allow (Some "_"%char) after (num + 1) em1) as [[r |] em'].
        -- destruct IH as (Hall & Hr & extra & He & Hf). repeat split.
           ++ constructor; [right; reflexivity | assumption].
           ++ rewrite sep_count_cons. change (is_separator "_") with true. cbv iota. lia.
           ++ exists (e1 ++ extra). rewrite He, He1, app_assoc.
              split; [reflexivity | apply Forall_app; split; assumption].
        -- destruct IH as (c' & extra & Hin & Hnv & Hnu & He & Hf).
           exists c', (e1 ++ extra). repeat split; auto.
           ++ right; assumption.
           ++ rewrite He, He1, <- !app_assoc. reflexivity.
           ++ apply Forall_app; split; assumption.
      * exists c, []. split; [left; reflexivity|].
        repeat split; auto.
Qed.

Lemma digit_loop_passes radix allow rest :
  Forall (passes radix) rest ->
  forall prev num em, exists em',
    digit_loop radix allow prev rest num em = (Some (num + sep_count rest), em').
Proof.
  intros Hall prev num em.
  pose proof (digit_loop_spec radix allow rest prev num em) as H.
  destruct (digit_loop radix allow prev rest num em) as [[r |] em'].
  - destruct H as (_ & -> & _). eexists; reflexivity.
  - destruct H as (c & extra & Hin & Hnv & Hnu & _).
    rewrite Forall_forall in Hall. destruct (Hall c Hin) as [Hv | Hu]; congruence.
Qed.

(** The check of a digit sequence succeeds exactly when every character is a
    digit of the table or an underscore and not all are underscores:
    where the underscores stand plays no part. *)
Lemma CheckDigitSequence_ok text radix allow :
  ok (fst (CheckDigitSequence text radix allow)) = true <->
  Forall (passes radix) text /\ sep_count text <> Z.of_nat (length text).
Proof.
  unfold CheckDigitSequence.
  pose proof (digit_loop_spec radix allow text None 0 []) as H.
  destruct (digit_loop radix allow None text 0 []) as [[r |] em'].
  - destruct H as (Hall & -> & _). rewrite Z.add_0_l.
    destruct (Z.eqb_spec (sep_count text) (Z.of_nat (length text))) as [E | E].
    + cbn. split; [discriminate | intros [_ Hn]; contradiction].
    + destruct (negb (sep_count text =? 0)); cbn; split; auto.
  - destruct H as (c & extra & Hin & Hnv & Hnu & _). cbn.
    split; [discriminate|]. intros [Hall _].
    rewrite Forall_forall in Hall. destruct (Hall c Hin); congruence.
Qed.

Lemma CheckDigitSequence_has_separators text radix allow :
  ok (fst (CheckDigitSequence text radix allow)) = true ->
  has_digit_separators (fst (CheckDigitSequence text radix allow))
  = negb (sep_count text =? 0).
Proof.
  unfold CheckDigitSequence.
  pose proof (digit_loop_spec radix allow text None 0 []) as H.
  destruct (digit_loop radix allow None text 0 []) as [[r |] em'].
  - destruct H as (Hall & -> & _). rewrite Z.add_0_l.
    destruct (Z.eqb_spec (sep_count text) (Z.of_nat (length text))) as [E | E].
    + cbn. discriminate.
    + destruct (negb (sep_count text =? 0)); cbn; reflexivity.
  - cbn. discriminate.
Qed.




(** The placement loop reads the text only below [pos]. *)
Lemma placement_loop_prefix radix stride t rest :
  (1 <= stride)%nat ->
  forall fuel pos remaining, (pos <= length t)%nat ->
    placement_loop fuel (t ++ rest) radix stride pos remaining
    = placement_loop fuel t radix stride pos remaining.
Proof.
  intros Hs. induction fuel as [| fuel IH]; intros pos remaining Hpos.
  - reflexivity.
  - cbn [placement_loop].
    destruct (Nat.leb_spec stride pos) as [Hle | Hgt]; [|reflexivity].
    rewrite app_nth1 by lia.
    rewrite IH by lia. reflexivity.
Qed.

(** [pos] iterations are enough for the placement loop: more fuel changes
    nothing, and the branch for used-up fuel is not taken. *)
Lemma placement_loop_fuel text radix stride :
  (1 <= stride)%nat ->
  forall fuel fuel' pos remaining,
    (pos <= fuel)%nat -> (pos <= fuel')%nat ->
    placement_loop fuel text radix stride pos remaining
    = placement_loop fuel' text radix stride pos remaining.
Proof.
  intros Hs. induction fuel as [| fuel IH]; intros fuel' pos remaining Hf Hf'.
  - assert (pos = 0%nat) by lia. subst pos.
    destruct fuel'; cbn [placement_loop];
      (replace (stride <=? 0)%nat with false by (symmetry; apply Nat.leb_gt; lia));
      reflexivity.
  - destruct fuel' as [| fuel'].
    + assert (pos = 0%nat) by lia. subst pos. cbn [placement_loop].
      replace (stride <=? 0)%nat with false by (symmetry; apply Nat.leb_gt; lia).
      reflexivity.
    + cbn [placement_loop].
      destruct (Nat.leb_spec stride pos) as [Hle | Hgt]; [|reflexivity].
      destruct (negb (Ascii.eqb (nth (pos - stride) text zero) "_")); [reflexivity|].
      apply IH; lia.
Qed.

Lemma placement_loop_uniform radix k t :
  uniform_separators k t ->
  forall fuel, (length t <= fuel)%nat ->
    placement_loop fuel t radix (S k) (length t) (sep_count t) = [].
Proof.
  induction 1 as [g Hlen Hg | t g Ht IH Hlen Hg]; intros fuel Hfuel.
  - assert (Hexit : (S k <=? length g)%nat = false) by (apply Nat.leb_gt; lia).
    rewrite (sep_count_none g Hg).
    destruct fuel; cbn [placement_loop]; rewrite Hexit; reflexivity.
  - rewrite length_app in Hfuel |- *. cbn [length] in Hfuel |- *.
    destruct fuel as [| fuel]; [lia|].
    cbn [placement_loop].
    replace (S k <=? length t + S (length g))%nat with true
      by (symmetry; apply Nat.leb_le; lia).
    replace (length t + S (length g) - S k)%nat with (length t) by lia.
    rewrite app_nth2 by lia. rewrite Nat.sub_diag. cbn [nth].
    change (negb (Ascii.eqb "_" "_")) with false. cbv iota.
    rewrite sep_count_app, sep_count_cons, (sep_count_none g Hg).
    change (is_separator "_") with true. cbv iota.
    replace (sep_count t + (1 + 0) - 1) with (sep_count t) by lia.
    change (t ++ "_"%char :: g) with (t ++ ("_"%char :: g)).
    rewrite placement_loop_prefix by lia.
    apply IH. lia.
Qed.

End DigitSequenceFacts.

(* ------------------------------------------------------------------------- *)
(** ** Views *)

Module StringRefFacts.

Lemma clamp_le z bound : (StringRef.clamp z bound <= bound)%nat.
Proof. unfold StringRef.clamp. destruct (z <? 0); lia. Qed.

Lemma clamp_nonneg z bound :
  0 <= z -> StringRef.clamp z bound = Nat.min (Z.to_nat z) bound.
Proof.
  intros H. unfold StringRef.clamp.
  destruct (Z.ltb_spec z 0); [lia | reflexivity].
Qed.

Lemma clamp_neg z bound : z < 0 -> StringRef.clamp z bound = bound.
Proof.
  intros H. unfold StringRef.clamp.
  destruct (Z.ltb_spec z 0); [reflexivity | lia].
Qed.

Lemma chars_mk b o l : StringRef.chars (StringRef.mk b o l) = firstn l (skipn o b).
Proof. reflexivity. Qed.

Lemma chars_length_le v : (length (StringRef.chars v) <= StringRef.len v)%nat.
Proof. unfold StringRef.chars. rewrite length_firstn. lia. Qed.

(** The characters of [substr]. *)
Lemma chars_substr v start n :
  StringRef.chars (StringRef.substr v start n)
  = firstn (StringRef.clamp n (StringRef.len v - StringRef.clamp start (StringRef.len v)))
           (skipn (StringRef.clamp start (StringRef.len v)) (StringRef.chars v)).
Proof.
  destruct v as [b o l]. unfold StringRef.substr, StringRef.chars.
  cbn [StringRef.buf StringRef.off StringRef.len].
  set (st := StringRef.clamp start l).
  set (k := StringRef.clamp n (l - st)).
  assert (k <= l - st)%nat by apply clamp_le.
  rewrite skipn_firstn_comm, skipn_skipn, firstn_firstn.
  rewrite Nat.min_l by lia. rewrite (Nat.add_comm st o). reflexivity.
Qed.

Lemma list_startswith_app l prefix :
  StringRef.list_startswith l prefix = true -> exists rest, l = prefix ++ rest.
Proof.
  revert l. induction prefix as [| p prefix IH]; intros l H.
  - exists l. reflexivity.
  - destruct l as [| c l]; [discriminate|]. cbn in H.
    apply andb_true_iff in H. destruct H as [Hc Hl].
    apply Ascii.eqb_eq in Hc. subst c.
    destruct (IH l Hl) as [rest ->]. exists rest. reflexivity.
Qed.

Lemma list_startswith_prefix prefix rest :
  StringRef.list_startswith (prefix ++ rest) prefix = true.
Proof.
  induction prefix as [| p prefix IH]; [destruct rest; reflexivity|].
  cbn. rewrite Ascii.eqb_refl. assumption.
Qed.

(** The characters of a view after a successful [consume_front]. *)
Lemma chars_consume_front v prefix :
  StringRef.chars (snd (StringRef.consume_front v prefix))
  = if StringRef.startswith v prefix
    then skipn (length prefix) (StringRef.chars v) else StringRef.chars v.
Proof.
  unfold StringRef.consume_front. destruct (StringRef.startswith v prefix); [|reflexivity].
  destruct v as [b o l]. unfold StringRef.chars.
  cbn [snd StringRef.buf StringRef.off StringRef.len].
  rewrite skipn_firstn_comm, skipn_skipn.
  rewrite (Nat.add_comm (length prefix) o). reflexivity.
Qed.

Lemma list_eqb_eq l1 l2 : StringRef.list_eqb l1 l2 = true <-> l1 = l2.
Proof.
  revert l2. induction l1 as [| c l1 IH]; intros [| d l2]; cbn; split;
    try discriminate; try reflexivity.
  - intros H. apply andb_true_iff in H. destruct H as [Hc Hl].
    apply Ascii.eqb_eq in Hc. apply IH in Hl. congruence.
  - intros H. injection H as -> ->. rewrite Ascii.eqb_refl. apply IH. reflexivity.
Qed.

End StringRefFacts.

(* ------------------------------------------------------------------------- *)
(** ** Lexemes: what [Lex] returns *)

Module NumericLexFacts.

Import CharacterSet NumericLiteral StringRefFacts.

(** A character [Lex] keeps in a lexeme. *)
Definition lexeme_char (c : ascii) : bool :=
  IsAlnum c || Ascii.eqb c "_" || Ascii.eqb c "." || Ascii.eqb c "+" || Ascii.eqb c "-".

(** The invariant of the scanning loop, [pre] being the characters before
    position [i]. *)
Record lex_inv (pre : list ascii) (st : LexState) : Prop := mk_lex_inv {
  inv_chars : Forall (fun c => lexeme_char c = true) pre;
  inv_point :
    seen_radix_point st = true ->
    0 <= result_radix_point st < Z.of_nat (length pre) /\
    nth_error pre (Z.to_nat (result_radix_point st)) = Some "."%char;
  inv_exponent :
    seen_potential_exponent st = true ->
    seen_radix_point st = true /\
    result_radix_point st < result_exponent st < Z.of_nat (length pre)
}.

(** What the rest of the development uses of a lexeme. *)
Record wf_literal (lit : LexedNumericLiteral) : Prop := mk_wf_literal {
  wf_off : StringRef.off (text lit) = 0%nat;
  wf_len : length (StringRef.chars (text lit)) = StringRef.len (text lit);
  wf_chars : Forall (fun c => lexeme_char c = true) (StringRef.chars (text lit));
  wf_point : 0 <= radix_point lit <= size (text lit);
  wf_exponent : radix_point lit <= exponent lit <= size (text lit);
  wf_real :
    radix_point lit < size (text lit) ->
    radix_point lit < exponent lit /\
    nth_error (StringRef.chars (text lit)) (Z.to_nat (radix_point lit)) = Some "."%char
}.

Lemma length_snoc (pre : list ascii) c :
  Z.of_nat (length (pre ++ [c])) = Z.of_nat (length pre) + 1.
Proof. rewrite length_app. cbn. lia. Qed.

Lemma Lex_scan_inv rest :
  forall pre st j st',
    lex_inv pre st -> Lex_scan rest (Z.of_nat (length pre)) st = (j, st') ->
    exists taken dropped,
      rest = taken ++ dropped /\ j = Z.of_nat (length (pre ++ taken)) /\
      lex_inv (pre ++ taken) st'.
Proof.
  induction rest as [| c after IH]; intros pre st j st' Hinv Hscan.
  - cbn in Hscan. injection Hscan as <- <-. exists [], [].
    rewrite (app_nil_r pre). split; [reflexivity | split; [reflexivity | assumption]].
  - assert (Hgo : forall st1, lex_inv (pre ++ [c]) st1 ->
              Lex_scan after (Z.of_nat (length pre) + 1) st1 = (j, st') ->
              exists taken dropped,
                c :: after = taken ++ dropped /\ j = Z.of_nat (length (pre ++ taken)) /\
                lex_inv (pre ++ taken) st').
    { intros st1 Hinv1 Hscan1. rewrite <- (length_snoc pre c) in Hscan1.
      destruct (IH _ _ _ _ Hinv1 Hscan1) as (taken & dropped & -> & -> & Hinv').
      exists (c :: taken), dropped. rewrite <- app_assoc in Hinv' |- *.
      cbn [app] in *. split; [reflexivity | split; [reflexivity | assumption]]. }
    destruct Hinv as [Hchars Hpoint Hexp].
    cbn [Lex_scan] in Hscan.
    destruct (IsAlnum c || Ascii.eqb c "_") eqn:Halnum.
    + assert (Hc : lexeme_char c = true) by (unfold lexeme_char; rewrite Halnum; reflexivity).
      destruct (IsLower c && seen_radix_point st && negb (seen_plus_minus st)) eqn:Hlow.
      * apply Hgo in Hscan; [assumption|].
        apply andb_true_iff in Hlow. destruct Hlow as [Hlow _].
        apply andb_true_iff in Hlow. destruct Hlow as [_ Hseen].
        destruct (Hpoint Hseen) as [Hr Hn].
        constructor; cbn [seen_radix_point seen_potential_exponent result_radix_point
                          result_exponent].
        -- apply Forall_app. split; [assumption | repeat constructor; assumption].
        -- intros _. rewrite length_snoc. split; [lia|].
           rewrite nth_error_app1 by lia. assumption.
        -- intros _. rewrite length_snoc. split; [assumption | lia].
      * apply Hgo in Hscan; [assumption|].
        constructor.
        -- apply Forall_app. split; [assumption | repeat constructor; assumption].
        -- intros Hs. destruct (Hpoint Hs) as [Hr Hn]. rewrite length_snoc.
           split; [lia|]. rewrite nth_error_app1 by lia. assumption.
        -- intros Hs. destruct (Hexp Hs) as [Hr Hn]. rewrite length_snoc.
           split; [assumption | lia].
    + destruct (Ascii.eqb c "." && next_is_alnum after && negb (seen_radix_point st)) eqn:Hdot.
      * apply Hgo in Hscan; [assumption|].
        apply andb_true_iff in Hdot. destruct Hdot as [Hdot Hnot].
        apply andb_true_iff in Hdot. destruct Hdot as [Hdot _].
        apply Ascii.eqb_eq in Hdot. subst c.
        apply negb_true_iff in Hnot.
        constructor; cbn [seen_radix_point seen_potential_exponent result_radix_point
                          result_exponent].
        -- apply Forall_app. split; [assumption | repeat constructor].
        -- intros _. rewrite length_snoc. split; [lia|].
           rewrite Nat2Z.id, nth_error_app2, Nat.sub_diag by lia. reflexivity.
        -- intros Hs. destruct (Hexp Hs) as [Hr _]. congruence.
      * destruct ((Ascii.eqb c "+" || Ascii.eqb c "-") && seen_potential_exponent st
                  && (result_exponent st =? Z.of_nat (length pre) - 1)
                  && next_is_alnum after) eqn:Hsign.
        -- apply Hgo in Hscan; [assumption|].
           assert (Hc : lexeme_char c = true).
           { unfold lexeme_char. rewrite Halnum.
             apply andb_true_iff in Hsign. destruct Hsign as [Hsign _].
             apply andb_true_iff in Hsign. destruct Hsign as [Hsign _].
             apply andb_true_iff in Hsign. destruct Hsign as [Hsign _].
             destruct (Ascii.eqb c "."); [reflexivity|].
             destruct (Ascii.eqb c "+"); [reflexivity|].
             cbn in Hsign |- *. assumption. }
           constructor; cbn [seen_radix_point seen_potential_exponent result_radix_point
                             result_exponent].
           ++ apply Forall_app. split; [assumption | repeat constructor; assumption].
           ++ intros Hs. destruct (Hpoint Hs) as [Hr Hn]. rewrite length_snoc.
              split; [lia|]. rewrite nth_error_app1 by lia. assumption.
           ++ intros Hs. destruct (Hexp Hs) as [Hr Hn]. rewrite length_snoc.
              split; [assumption | lia].
        -- injection Hscan as <- <-. exists [], (c :: after).
           rewrite (app_nil_r pre).
           split; [reflexivity | split; [reflexivity | constructor; assumption]].
Qed.

Lemma decimal_digit_lexeme_char c : IsDecimalDigit c = true -> lexeme_char c = true.
Proof.
  intros H. unfold lexeme_char, IsAlnum. rewrite H.
  destruct (IsLower c), (IsUpper c); reflexivity.
Qed.

(** Every lexeme [Lex] returns is well formed. *)
Lemma Lex_wf source_text lit : Lex source_text = Some lit -> wf_literal lit.
Proof.
  unfold Lex. destruct source_text as [| c rest]; [discriminate|].
  destruct (IsDecimalDigit c) eqn:Hc; [|discriminate]. cbn [negb].
  destruct (Lex_scan rest 1 Lex_init) as [j st] eqn:Hscan.
  intros H. injection H as <-.
  assert (Hinit : lex_inv [c] Lex_init).
  { constructor; cbn; try discriminate.
    repeat constructor. apply decimal_digit_lexeme_char. assumption. }
  change 1 with (Z.of_nat (length [c])) in Hscan.
  destruct (Lex_scan_inv rest [c] Lex_init j st Hinit Hscan)
    as (taken & dropped & -> & -> & [Hchars Hpoint Hexp]).
  set (t := [c] ++ taken) in *.
  assert (Htext : StringRef.substr (StringRef.of_list (c :: taken ++ dropped)) 0
                                   (Z.of_nat (length t))
                  = StringRef.mk (t ++ dropped) 0 (length t)).
  { unfold StringRef.substr, StringRef.of_list.
    cbn [StringRef.buf StringRef.off StringRef.len].
    rewrite !clamp_nonneg by lia. rewrite Nat2Z.id.
    change (c :: taken ++ dropped) with (t ++ dropped).
    rewrite length_app. f_equal; lia. }
  rewrite Htext.
  assert (Hch : StringRef.chars (StringRef.mk (t ++ dropped) 0 (length t)) = t).
  { rewrite chars_mk. cbn [skipn]. rewrite firstn_app, Nat.sub_diag, firstn_all.
    cbn [firstn]. apply app_nil_r. }
  constructor; cbn [text radix_point exponent]; unfold size;
    cbn [StringRef.off StringRef.len]; rewrite ?Hch; auto.
  - destruct (seen_radix_point st); [destruct (Hpoint eq_refl)|]; lia.
  - destruct (seen_potential_exponent st) eqn:Hse.
    + destruct (Hexp eq_refl) as [Hs Hr]. rewrite Hs. lia.
    + destruct (seen_radix_point st); [destruct (Hpoint eq_refl)|]; lia.
  - destruct (seen_radix_point st) eqn:Hs; [|lia]. intros _.
    destruct (Hpoint eq_refl) as [Hr Hn]. split; [|assumption].
    destruct (seen_potential_exponent st); [destruct (Hexp eq_refl)|]; lia.
Qed.

End NumericLexFacts.

(* ------------------------------------------------------------------------- *)
(** ** The parser of a lexeme: its parts and what [Check] establishes *)

Module NumericParserFacts.

Import CharacterSet Digits DigitsFacts DigitSequenceFacts APIntFacts.
Import NumericLiteral StringRefFacts NumericLexFacts.

(** A parser with another emitter and other cleaning flags. *)
Definition with_state (p : Parser) (em : list Diagnostic) (mantissa exponent : bool) : Parser :=
  mkParser em (literal p) (radix p) (int_part p) (fract_part p) (exponent_part p)
           mantissa exponent (exponent_is_negative p).

Definition int_check (p : Parser) :=
  CheckDigitSequence (StringRef.chars (int_part p)) (radix p) true.
Definition fract_check (p : Parser) :=
  CheckDigitSequence (StringRef.chars (fract_part p)) (radix p) false.
Definition exponent_check (p : Parser) :=
  CheckDigitSequence (StringRef.chars (exponent_part p)) 10 true.

Definition has_exponent (p : Parser) : bool :=
  negb (exponent (literal p) =? size (text (literal p))).

Definition expected_marker (p : Parser) : ascii := if radix p =? 10 then "e" else "p".

Definition marker_ok (p : Parser) : bool :=
  Ascii.eqb (nth (Z.to_nat (exponent (literal p))) (StringRef.chars (text (literal p))) zero)
            (expected_marker p).

(** What the fractional part adds to the emitter. *)
Definition emitted_by_fract (p : Parser) : list Diagnostic :=
  if IsInteger p then []
  else (if radix p =? 2 then [BinaryRealLiteral] else []) ++ snd (fract_check p).

(** What [Check] emits when every check is passed. *)
Definition emitted_by_checks (p : Parser) : list Diagnostic :=
  snd (int_check p) ++ emitted_by_fract p
  ++ (if has_exponent p then snd (exponent_check p) else []).

(** The four checks, one after the other. *)
Definition checks_pass (p : Parser) : Prop :=
  fst (CheckLeadingZero p) = true /\
  ok (fst (int_check p)) = true /\
  (IsInteger p = false -> ok (fst (fract_check p)) = true) /\
  (has_exponent p = true -> marker_ok p = true /\ ok (fst (exponent_check p)) = true).

Lemma with_state_id p :
  with_state p (emitter p) (mantissa_needs_cleaning p) (exponent_needs_cleaning p) = p.
Proof. destruct p. reflexivity. Qed.

Lemma CheckLeadingZero_true p : fst (CheckLeadingZero p) = true -> CheckLeadingZero p = (true, p).
Proof.
  unfold CheckLeadingZero. destruct (_ && _ && _); [discriminate | reflexivity].
Qed.

Lemma CheckIntPart_eq p :
  CheckIntPart p
  = (ok (fst (int_check p)),
     with_state p (emitter p ++ snd (int_check p))
       (mantissa_needs_cleaning p || has_digit_separators (fst (int_check p)))
       (exponent_needs_cleaning p)).
Proof.
  unfold CheckIntPart, int_check.
  destruct (CheckDigitSequence (StringRef.chars (int_part p)) (radix p) true) as [r ds].
  reflexivity.
Qed.

Lemma CheckFractionalPart_eq p :
  CheckFractionalPart p
  = if IsInteger p then (true, p)
    else (ok (fst (fract_check p)),
          with_state p (emitter p ++ emitted_by_fract p) true (exponent_needs_cleaning p)).
Proof.
  unfold CheckFractionalPart, emitted_by_fract, fract_check.
  destruct (IsInteger p); [reflexivity|].
  destruct (radix p =? 2); cbn [radix fract_part set_mantissa_needs_cleaning emit];
    destruct (CheckDigitSequence (StringRef.chars (fract_part p)) (radix p) false) as [r ds];
    unfold emit, with_state; cbn; rewrite <- ?app_assoc; reflexivity.
Qed.

Lemma CheckExponentPart_eq p :
  CheckExponentPart p
  = if negb (has_exponent p) then (true, p)
    else if negb (marker_ok p)
    then (false, emit p [WrongRealLiteralExponent (expected_marker p)])
    else (ok (fst (exponent_check p)),
          with_state p (emitter p ++ snd (exponent_check p)) (mantissa_needs_cleaning p)
            (has_digit_separators (fst (exponent_check p)))).
Proof.
  unfold CheckExponentPart, has_exponent, marker_ok, expected_marker, exponent_check.
  rewrite negb_involutive.
  destruct (exponent (literal p) =? size (text (literal p))); [reflexivity|].
  destruct (negb (Ascii.eqb _ _)); [reflexivity|].
  destruct (CheckDigitSequence (StringRef.chars (exponent_part p)) 10 true) as [r ds].
  reflexivity.
Qed.

(** [Check] in one equation: the leading zero, then the three parts. *)
Lemma Check_eq p :
  Check p
  = if negb (fst (CheckLeadingZero p)) then (false, snd (CheckLeadingZero p))
    else if negb (ok (fst (int_check p))) then (false, snd (CheckIntPart p))
    else if negb (IsInteger p || ok (fst (fract_check p)))
    then (false, snd (CheckFractionalPart (snd (CheckIntPart p))))
    else
      let p' :=
        with_state p (emitter p ++ snd (int_check p) ++ emitted_by_fract p)
          (mantissa_needs_cleaning p || has_digit_separators (fst (int_check p))
           || negb (IsInteger p))
          (exponent_needs_cleaning p) in
      CheckExponentPart p'.
Proof.
  unfold Check.
  destruct (CheckLeadingZero p) as [b0 p0] eqn:E0. cbn [fst snd].
  destruct b0; cbn [negb]; [|reflexivity].
  pose proof (CheckLeadingZero_true p) as H0. rewrite E0 in H0.
  specialize (H0 eq_refl). injection H0 as ->.
  rewrite CheckIntPart_eq. cbn [fst snd].
  destruct (ok (fst (int_check p))); cbn [negb]; [|reflexivity].
  rewrite CheckFractionalPart_eq.
  change (IsInteger (with_state p ?a ?b ?c)) with (IsInteger p).
  destruct (IsInteger p) eqn:Hint; cbn [orb negb].
  - unfold emitted_by_fract. rewrite Hint. rewrite !app_nil_r, orb_false_r. reflexivity.
  - change (fract_check (with_state p ?a ?b ?c)) with (fract_check p).
    destruct (ok (fst (fract_check p))); cbn [negb fst snd]; [|reflexivity].
    change (emitted_by_fract (with_state p ?a ?b ?c)) with (emitted_by_fract p).
    unfold with_state.
    cbn [emitter literal radix int_part fract_part exponent_part mantissa_needs_cleaning
         exponent_needs_cleaning exponent_is_negative].
    rewrite orb_true_r, <- app_assoc. reflexivity.
Qed.

(** [Check] succeeds exactly when the four checks pass. *)
Lemma Check_true p : fst (Check p) = true <-> checks_pass p.
Proof.
  rewrite Check_eq. unfold checks_pass.
  destruct (fst (CheckLeadingZero p)); cbn [negb fst].
  2: { split; [discriminate | intros [H _]; discriminate H]. }
  destruct (ok (fst (int_check p))); cbn [negb fst].
  2: { split; [discriminate | intros (_ & H & _); discriminate H]. }
  destruct (IsInteger p) eqn:Hint; cbn [orb negb].
  - cbv zeta. rewrite CheckExponentPart_eq.
    change (has_exponent (with_state p ?a ?b ?c)) with (has_exponent p).
    change (marker_ok (with_state p ?a ?b ?c)) with (marker_ok p).
    change (exponent_check (with_state p ?a ?b ?c)) with (exponent_check p).
    destruct (has_exponent p); cbn [negb fst].
    2: { split; [intros _; repeat split; discriminate | reflexivity]. }
    destruct (marker_ok p); cbn [negb fst].
    2: { split; [discriminate | intros (_ & _ & _ & H)].
         destruct (H eq_refl) as [H1 _]. discriminate H1. }
    split; [intros H; repeat split; auto; discriminate|].
    intros (_ & _ & _ & H). destruct (H eq_refl) as [_ H2]. exact H2.
  - destruct (ok (fst (fract_check p))); cbn [negb fst].
    2: { split; [discriminate | intros (_ & _ & H & _)]. discriminate (H eq_refl). }
    cbv zeta. rewrite CheckExponentPart_eq.
    change (has_exponent (with_state p ?a ?b ?c)) with (has_exponent p).
    change (marker_ok (with_state p ?a ?b ?c)) with (marker_ok p).
    change (exponent_check (with_state p ?a ?b ?c)) with (exponent_check p).
    destruct (has_exponent p); cbn [negb fst].
    2: { split; [intros _; repeat split; discriminate | reflexivity]. }
    destruct (marker_ok p); cbn [negb fst].
    2: { split; [discriminate | intros (_ & _ & _ & H)].
         destruct (H eq_refl) as [H1 _]. discriminate H1. }
    split; [intros H; repeat split; auto; discriminate|].
    intros (_ & _ & _ & H). destruct (H eq_refl) as [_ H2]. exact H2.
Qed.

(** The parser after a successful [Check]. *)
Lemma Check_passed p :
  checks_pass p ->
  Check p
  = (true,
     with_state p (emitter p ++ emitted_by_checks p)
       (mantissa_needs_cleaning p || has_digit_separators (fst (int_check p))
        || negb (IsInteger p))
       (if has_exponent p then has_digit_separators (fst (exponent_check p))
        else exponent_needs_cleaning p)).
Proof.
  intros (H0 & H1 & H2 & H3). rewrite Check_eq, H0, H1. cbn [negb].
  replace (IsInteger p || ok (fst (fract_check p))) with true
    by (destruct (IsInteger p); [reflexivity | rewrite H2; reflexivity]).
  cbn [negb]. cbv zeta. rewrite CheckExponentPart_eq.
  change (has_exponent (with_state p ?a ?b ?c)) with (has_exponent p).
  change (marker_ok (with_state p ?a ?b ?c)) with (marker_ok p).
  change (exponent_check (with_state p ?a ?b ?c)) with (exponent_check p).
  unfold emitted_by_checks.
  destruct (has_exponent p); cbn [negb].
  - destruct (H3 eq_refl) as [Hm He]. rewrite Hm, He. cbn [negb].
    unfold with_state. cbn. rewrite <- !app_assoc. reflexivity.
  - unfold with_state. cbn. rewrite !app_nil_r. reflexivity.
Qed.

(** *** The parts of a well-formed lexeme *)

(** The radix a prefix selects and the length of the prefix. *)
Definition prefix_radix (int_text : list ascii) : Z :=
  if StringRef.list_startswith int_text (str "0x") then 16
  else if StringRef.list_startswith int_text (str "0b") then 2
  else 10.

Definition prefix_len (int_text : list ascii) : nat :=
  if StringRef.list_startswith int_text (str "0x") then 2
  else if StringRef.list_startswith int_text (str "0b") then 2
  else 0.

Lemma prefix_radix_known l : known_radix (prefix_radix l).
Proof.
  unfold prefix_radix, known_radix.
  destruct (StringRef.list_startswith l (str "0x")); [tauto|].
  destruct (StringRef.list_startswith l (str "0b")); tauto.
Qed.

Lemma prefix_len_le l : (prefix_len l <= length l)%nat.
Proof.
  unfold prefix_len.
  destruct (StringRef.list_startswith l (str "0x")) eqn:Hx.
  - apply list_startswith_app in Hx. destruct Hx as [r ->]. cbn. lia.
  - destruct (StringRef.list_startswith l (str "0b")) eqn:Hb; [|lia].
    apply list_startswith_app in Hb. destruct Hb as [r ->]. cbn. lia.
Qed.

Lemma split_at_point (t : list ascii) rp ex k c :
  nth_error t rp = Some c -> (k <= rp)%nat -> (rp < ex)%nat ->
  skipn k (firstn ex t)
  = skipn k (firstn rp t) ++ c :: firstn (ex - rp - 1) (skipn (rp + 1) t).
Proof.
  intros Hn Hk He.
  destruct (nth_error_split t rp Hn) as (t1 & t2 & -> & Hlen).
  subst rp.
  rewrite firstn_app, (firstn_all2 (n := ex)) by lia.
  replace (ex - length t1)%nat with (S (ex - length t1 - 1)) at 1 by lia.
  cbn [firstn].
  rewrite firstn_app, Nat.sub_diag, firstn_all. cbn [firstn]. rewrite app_nil_r.
  rewrite skipn_app.
  replace (k - length t1)%nat with 0%nat by lia. cbn [skipn].
  rewrite skipn_app.
  rewrite (skipn_all2 (n := length t1 + 1)) by lia.
  replace (length t1 + 1 - length t1)%nat with 1%nat by lia.
  reflexivity.
Qed.

Section Parts.

Variable lit : LexedNumericLiteral.
Hypothesis Hwf : wf_literal lit.
Variable em : list Diagnostic.

Let p := Parser_new em lit.
Let t := StringRef.chars (text lit).
Let rp := Z.to_nat (radix_point lit).
Let ex := Z.to_nat (exponent lit).
Let B := StringRef.buf (text lit).
Let n := StringRef.len (text lit).

Lemma text_view : text lit = StringRef.mk B 0 n.
Proof.
  destruct Hwf as [Hoff _ _ _ _ _]. unfold B, n.
  destruct (text lit) as [b o l]. cbn in *. subst o. reflexivity.
Qed.

Lemma t_eq : t = firstn n B /\ length t = n.
Proof.
  destruct Hwf as [_ Hlen _ _ _ _]. unfold t in *.
  rewrite text_view in *. cbn in *. auto.
Qed.

Lemma bounds : (rp <= ex <= n)%nat /\ radix_point lit = Z.of_nat rp /\ exponent lit = Z.of_nat ex.
Proof.
  destruct Hwf as [_ _ _ Hp He _]. unfold size in *. fold n in Hp, He.
  unfold rp, ex. lia.
Qed.

Lemma int0_chars :
  StringRef.chars (StringRef.substr (text lit) 0 (radix_point lit)) = firstn rp t.
Proof.
  destruct bounds as (Hb & Hr & He).
  rewrite chars_substr. fold n t.
  rewrite !clamp_nonneg by lia. cbn [Z.to_nat Nat.min skipn]. fold rp.
  rewrite Nat.sub_0_r, Nat.min_l by lia. reflexivity.
Qed.

Lemma Parser_new_int_eq :
  let int0 := StringRef.substr (text lit) 0 (radix_point lit) in
  (radix p, int_part p)
  = if StringRef.startswith int0 (str "0x")
    then (16, snd (StringRef.consume_front int0 (str "0x")))
    else if StringRef.startswith int0 (str "0b")
    then (2, snd (StringRef.consume_front int0 (str "0b")))
    else (10, int0).
Proof.
  cbv zeta. unfold p, Parser_new.
  set (int0 := StringRef.substr (text lit) 0 (radix_point lit)).
  destruct (StringRef.consume_front int0 (str "0x")) as [is_hex i1] eqn:E1.
  unfold StringRef.consume_front in E1.
  destruct (StringRef.startswith int0 (str "0x")).
  - injection E1 as <- <-.
    destruct (StringRef.consume_front _ (str "+")) as [plus e1].
    destruct (if plus then _ else _) as [minus e2].
    reflexivity.
  - injection E1 as <- <-.
    destruct (StringRef.consume_front int0 (str "0b")) as [is_bin i2] eqn:E2.
    unfold StringRef.consume_front in E2 |- *.
    destruct (StringRef.startswith int0 (str "0b")); injection E2 as <- <-;
      destruct (if StringRef.startswith _ (str "+") then _ else _) as [plus e1];
      destruct (if plus then _ else _) as [minus e2];
      reflexivity.
Qed.

(** The integer part after its prefix, and the radix. *)
Lemma Parser_new_int :
  int_part p = StringRef.mk B (prefix_len (firstn rp t)) (rp - prefix_len (firstn rp t)) /\
  radix p = prefix_radix (firstn rp t) /\
  StringRef.chars (int_part p) = skipn (prefix_len (firstn rp t)) (firstn rp t).
Proof.
  destruct bounds as (Hb & Hr & He).
  pose proof int0_chars as Hc.
  pose proof Parser_new_int_eq as Heq. cbv zeta in Heq.
  assert (Hv : StringRef.substr (text lit) 0 (radix_point lit) = StringRef.mk B 0 rp).
  { rewrite text_view. unfold StringRef.substr. cbn [StringRef.buf StringRef.off StringRef.len].
    rewrite !clamp_nonneg by lia. cbn [Z.to_nat Nat.min]. fold rp.
    rewrite Nat.sub_0_r, Nat.min_l by lia. reflexivity. }
  unfold StringRef.consume_front, StringRef.startswith in Heq.
  rewrite Hc in Heq. rewrite Hv in Heq, Hc.
  unfold prefix_len, prefix_radix.
  destruct (StringRef.list_startswith (firstn rp t) (str "0x")).
  - injection Heq as -> ->. repeat split.
    rewrite chars_mk, <- Hc, chars_mk.
    cbn [snd StringRef.buf StringRef.off StringRef.len].
    change (length (str "0x")) with 2%nat. change (0 + 2)%nat with 2%nat.
    change (skipn 0 B) with B. symmetry. apply skipn_firstn_comm.
  - destruct (StringRef.list_startswith (firstn rp t) (str "0b")).
    + injection Heq as -> ->. repeat split.
      rewrite chars_mk, <- Hc, chars_mk.
      cbn [snd StringRef.buf StringRef.off StringRef.len].
      change (length (str "0b")) with 2%nat. change (0 + 2)%nat with 2%nat.
      change (skipn 0 B) with B. symmetry. apply skipn_firstn_comm.
    + injection Heq as -> ->. rewrite Nat.sub_0_r. repeat split.
      rewrite Hc. reflexivity.
Qed.

Lemma Parser_new_fract :
  fract_part p
  = StringRef.substr (text lit) (radix_point lit + 1) (exponent lit - radix_point lit - 1).
Proof.
  unfold p, Parser_new.
  destruct (StringRef.consume_front _ (str "0x")) as [is_hex i1].
  destruct (if is_hex then _ else _) as [is_bin i2].
  destruct (StringRef.consume_front _ (str "+")) as [plus e1].
  destruct (if plus then _ else _) as [minus e2].
  reflexivity.
Qed.

Lemma Parser_new_fields :
  literal p = lit /\ emitter p = em /\
  mantissa_needs_cleaning p = false /\ exponent_needs_cleaning p = false.
Proof.
  unfold p, Parser_new.
  destruct (StringRef.consume_front _ (str "0x")) as [is_hex i1].
  destruct (if is_hex then _ else _) as [is_bin i2].
  destruct (StringRef.consume_front _ (str "+")) as [plus e1].
  destruct (if plus then _ else _) as [minus e2].
  repeat split.
Qed.

Lemma IsInteger_iff : IsInteger p = true <-> rp = n.
Proof.
  destruct bounds as (Hb & Hr & He).
  destruct Parser_new_fields as (Hl & _).
  unfold IsInteger. rewrite Hl. unfold size. fold n.
  rewrite Z.eqb_eq. lia.
Qed.

(** A real literal: the fractional part lies between the point and the
    exponent. *)
Lemma real_fract :
  IsInteger p = false ->
  (rp < ex)%nat /\
  fract_part p = StringRef.mk B (rp + 1) (ex - rp - 1) /\
  StringRef.chars (fract_part p) = firstn (ex - rp - 1) (skipn (rp + 1) t) /\
  length (StringRef.chars (fract_part p)) = (ex - rp - 1)%nat /\
  nth_error t rp = Some "."%char.
Proof.
  intros Hreal.
  destruct bounds as (Hb & Hr & He).
  destruct t_eq as (Ht & Hlen).
  assert (Hne : rp <> n).
  { intros E. apply IsInteger_iff in E. congruence. }
  destruct Hwf as [_ _ _ _ _ Hreal'].
  unfold size in Hreal'. fold n rp t in Hreal'.
  destruct (Hreal' ltac:(lia)) as [Hlt Hdot].
  assert (Hv : fract_part p = StringRef.mk B (rp + 1) (ex - rp - 1)).
  { rewrite Parser_new_fract, text_view. unfold StringRef.substr.
    cbn [StringRef.buf StringRef.off StringRef.len].
    rewrite !clamp_nonneg by lia.
    f_equal; lia. }
  assert (Hc : StringRef.chars (fract_part p) = firstn (ex - rp - 1) (skipn (rp + 1) t)).
  { rewrite Hv, chars_mk, Ht. rewrite skipn_firstn_comm, firstn_firstn.
    rewrite Nat.min_l by lia. reflexivity. }
  repeat split; auto; try lia.
  rewrite Hc, length_firstn, length_skipn. lia.
Qed.

(** The digits [GetMantissa] parses. *)
Definition mantissa_digits (q : Parser) : list ascii :=
  StringRef.chars
    (StringRef.between (StringRef.buf (int_part q)) (StringRef.begin_ (int_part q))
       (if IsInteger q then StringRef.end_ (int_part q) else StringRef.end_ (fract_part q))).

Lemma mantissa_digits_integer :
  IsInteger p = true -> mantissa_digits p = StringRef.chars (int_part p).
Proof.
  intros Hint. unfold mantissa_digits. rewrite Hint.
  destruct Parser_new_int as (Hv & _ & _). rewrite Hv.
  unfold StringRef.between, StringRef.begin_, StringRef.end_.
  cbn [StringRef.buf StringRef.off StringRef.len].
  f_equal. f_equal. lia.
Qed.

Lemma mantissa_digits_real :
  IsInteger p = false ->
  mantissa_digits p
  = StringRef.chars (int_part p) ++ "."%char :: StringRef.chars (fract_part p).
Proof.
  intros Hreal. unfold mantissa_digits. rewrite Hreal.
  destruct (real_fract Hreal) as (Hlt & Hfv & Hfc & _ & Hdot).
  destruct Parser_new_int as (Hv & _ & Hic).
  destruct t_eq as (Ht & Hlen).
  destruct bounds as (Hb & _).
  pose proof (prefix_len_le (firstn rp t)) as Hk.
  rewrite length_firstn in Hk.
  rewrite Hic, Hfc, Hv, Hfv.
  unfold StringRef.between, StringRef.begin_, StringRef.end_.
  cbn [StringRef.buf StringRef.off StringRef.len].
  rewrite chars_mk.
  set (k := prefix_len (firstn rp t)) in *.
  replace (rp + 1 + (ex - rp - 1) - k)%nat with (ex - k)%nat by lia.
  rewrite <- skipn_firstn_comm.
  replace (firstn ex B) with (firstn ex t)
    by (rewrite Ht, firstn_firstn, Nat.min_l by lia; reflexivity).
  apply split_at_point; [assumption | lia | lia].
Qed.

End Parts.

End NumericParserFacts.

(* ------------------------------------------------------------------------- *)
(** ** The value of a checked digit sequence *)

Module NumericValueFacts.

Import CharacterSet Digits DigitsFacts DigitSequenceFacts APIntFacts.
Import NumericLiteral StringRefFacts NumericLexFacts NumericParserFacts.

Lemma Forall_firstn {A} (P : A -> Prop) n (l : list A) :
  Forall P l -> Forall P (firstn n l).
Proof.
  intros H. revert n. induction H as [| x l Hx Hl IH]; intros [| n]; cbn; auto.
Qed.

Lemma Forall_skipn {A} (P : A -> Prop) n (l : list A) :
  Forall P l -> Forall P (skipn n l).
Proof.
  intros H. revert n. induction H as [| x l Hx Hl IH]; intros [| n]; cbn; auto.
Qed.

Lemma lexeme_char_not_nul c : lexeme_char c = true -> c <> zero.
Proof. each_char c; intros H E; (discriminate H || discriminate E). Qed.

(** Of the characters of a lexeme, the digit loop lets pass the digits of
    the radix and the underscore only. *)
Lemma passes_digit radix c :
  known_radix radix -> lexeme_char c = true -> passes radix c ->
  is_digit radix c = true \/ c = "_"%char.
Proof.
  intros Hr Hc [Hv | ->]; [left | right; reflexivity].
  apply valid_digits_digit; auto. apply lexeme_char_not_nul. assumption.
Qed.

Lemma clean_digits radix text :
  known_radix radix ->
  Forall (fun c => is_digit radix c = true \/ c = "_"%char) text ->
  clean text = remove_underscores text /\
  Forall (fun c => is_digit radix c = true) (remove_underscores text) /\
  Z.of_nat (length (remove_underscores text)) = Z.of_nat (length text) - sep_count text.
Proof.
  intros Hr. induction 1 as [| c text Hc Hall (IH1 & IH2 & IH3)].
  - cbn. repeat split; constructor.
  - rewrite sep_count_cons. unfold clean, remove_underscores in *. cbn [filter length].
    destruct Hc as [Hd | ->].
    + destruct (digit_not_separator radix c Hr Hd) as [Hu Hp].
      unfold is_separator in *. rewrite Hu, Hp. cbn [orb negb length].
      rewrite IH1. repeat split; [constructor; assumption|].
      rewrite !Nat2Z.inj_succ, IH3. lia.
    + unfold is_separator in *.
      change (Ascii.eqb "_" "_") with true. cbn [orb negb].
      rewrite IH1. repeat split; [assumption|].
      rewrite IH3. cbn [length]. lia.
Qed.

Lemma remove_underscores_none text :
  sep_count text = 0 -> remove_underscores text = text.
Proof.
  unfold sep_count, remove_underscores. intros H.
  induction text as [| c text IH]; [reflexivity|].
  cbn [filter] in *. destruct (is_separator c); cbn [negb length] in *; [lia|].
  rewrite IH by assumption. reflexivity.
Qed.

(** [ParseInteger] on a checked part of a lexeme: it does not fail and returns
    the number the digits denote once the underscores are removed. *)
Lemma ParseInteger_checked radix allow text :
  known_radix radix ->
  Forall (fun c => lexeme_char c = true) text ->
  ok (fst (CheckDigitSequence text radix allow)) = true ->
  exists a,
    ParseInteger text radix (has_digit_separators (fst (CheckDigitSequence text radix allow)))
    = Some a /\
    APInt.getAsInteger (remove_underscores text) radix APInt.default = Some a /\
    remove_underscores text <> [] /\
    Forall (fun c => is_digit radix c = true) (remove_underscores text) /\
    APInt.unsigned a = digits_value radix (remove_underscores text).
Proof.
  intros Hr Hlex Hok.
  pose proof (CheckDigitSequence_has_separators text radix allow Hok) as Hsep.
  apply CheckDigitSequence_ok in Hok. destruct Hok as [Hpass Hsome].
  assert (Hall : Forall (fun c => is_digit radix c = true \/ c = "_"%char) text).
  { rewrite Forall_forall in *. intros c Hin. apply passes_digit; auto. }
  destruct (clean_digits radix text Hr Hall) as (Hclean & Hdigits & Hlen).
  assert (Hne : remove_underscores text <> []).
  { intros E. rewrite E in Hlen. cbn in Hlen. lia. }
  destruct (getAsInteger_ok radix (remove_underscores text) Hr Hne Hdigits)
    as (a & Ha & Hv & _).
  exists a. repeat split; auto.
  unfold ParseInteger. rewrite Hsep.
  destruct (Z.eqb_spec (sep_count text) 0) as [E | E]; cbn [negb].
  - rewrite <- (remove_underscores_none text E) at 1. assumption.
  - rewrite Hclean. assumption.
Qed.

Lemma remove_underscores_app l1 l2 :
  remove_underscores (l1 ++ l2) = remove_underscores l1 ++ remove_underscores l2.
Proof. apply filter_app. Qed.

(** The mantissa of a real literal: the point and the underscores go. *)
Lemma ParseInteger_real radix int_text fract_text :
  known_radix radix ->
  Forall (fun c => lexeme_char c = true) int_text ->
  Forall (fun c => lexeme_char c = true) fract_text ->
  ok (fst (CheckDigitSequence int_text radix true)) = true ->
  ok (fst (CheckDigitSequence fract_text radix false)) = true ->
  exists a,
    ParseInteger (int_text ++ "."%char :: fract_text) radix true = Some a /\
    APInt.unsigned a = digits_value radix (remove_underscores (int_text ++ fract_text)).
Proof.
  intros Hr Hli Hlf Hi Hf.
  apply CheckDigitSequence_ok in Hi, Hf. destruct Hi as [Hpi Hsi], Hf as [Hpf Hsf].
  assert (Hai : Forall (fun c => is_digit radix c = true \/ c = "_"%char) int_text).
  { rewrite Forall_forall in *. intros c Hin. apply passes_digit; auto. }
  assert (Haf : Forall (fun c => is_digit radix c = true \/ c = "_"%char) fract_text).
  { rewrite Forall_forall in *. intros c Hin. apply passes_digit; auto. }
  destruct (clean_digits radix int_text Hr Hai) as (Hci & Hdi & Hleni).
  destruct (clean_digits radix fract_text Hr Haf) as (Hcf & Hdf & Hlenf).
  assert (Hclean : clean (int_text ++ "."%char :: fract_text)
                   = remove_underscores (int_text ++ fract_text)).
  { unfold clean. rewrite filter_app. cbn [filter].
    change (negb (Ascii.eqb "." "_" || Ascii.eqb "." ".")) with false. cbv iota.
    fold (clean int_text). fold (clean fract_text).
    rewrite Hci, Hcf, remove_underscores_app. reflexivity. }
  assert (Hne : remove_underscores (int_text ++ fract_text) <> []).
  { rewrite remove_underscores_app. intros E. apply app_eq_nil in E. destruct E as [E _].
    rewrite E in Hleni. cbn in Hleni. lia. }
  assert (Hd : Forall (fun c => is_digit radix c = true)
                      (remove_underscores (int_text ++ fract_text))).
  { rewrite remove_underscores_app. apply Forall_app. split; assumption. }
  destruct (getAsInteger_ok radix _ Hr Hne Hd) as (a & Ha & Hv & _).
  exists a. split; [|assumption].
  unfold ParseInteger. rewrite Hclean. assumption.
Qed.

(** *** The exponent *)

Lemma pow_bound_nat k :
  10 ^ (16 + Z.of_nat k) + 2 ^ 33 <= 2 ^ (63 + 4 * Z.of_nat k).
Proof.
  induction k as [| k IH].
  - vm_compute. intro X. discriminate X.
  - rewrite Nat2Z.inj_succ.
    replace (16 + Z.succ (Z.of_nat k)) with (Z.succ (16 + Z.of_nat k)) by lia.
    replace (63 + 4 * Z.succ (Z.of_nat k)) with (63 + 4 * Z.of_nat k + 4) by lia.
    rewrite Z.pow_succ_r, (Z.pow_add_r 2 (63 + 4 * Z.of_nat k) 4) by lia.
    change (2 ^ 4) with 16. change (2 ^ 33) with 8589934592 in *.
    assert (0 <= 10 ^ (16 + Z.of_nat k)) by (apply Z.pow_nonneg; lia).
    lia.
Qed.

Lemma pow_bound L : 16 <= L -> 10 ^ L + 2 ^ 33 <= 2 ^ (4 * L - 1).
Proof.
  intros H. pose proof (pow_bound_nat (Z.to_nat (L - 16))) as Hb.
  rewrite Z2Nat.id in Hb by lia.
  replace (16 + (L - 16)) with L in Hb by lia.
  replace (63 + 4 * (L - 16)) with (4 * L - 1) in Hb by lia.
  exact Hb.
Qed.

(** The width juggling of [GetExponent], on a parsed decimal number: the
    result read as a signed number is the signed exponent minus the
    compensation. *)
Lemma exponent_arith a (negative : bool) excess :
  wf a ->
  (a = APInt.mk 64 0 \/
   exists L, 1 <= L /\ APInt.BitWidth a = Z.max 1 (4 * L) /\ 0 <= APInt.Val a < 10 ^ L) ->
  1 <= excess < 2 ^ 33 ->
  let e1 := if APInt.isSignBitSet a || (APInt.BitWidth a <? 64)
            then APInt.zext a (Z.max 64 (APInt.BitWidth a + 1)) else a in
  let e2 := if negative then APInt.negate e1 else e1 in
  let e3 := APInt.sub e2 excess in
  (if negative && negb (APInt.isNegative e3)
   then APInt.setSignBit (APInt.zext e3 (APInt.BitWidth e3 + 1)) else e3) = e3 /\
  APInt.signed e3 = (if negative then - APInt.Val a else APInt.Val a) - excess.
Proof.
  intros Hwf Hshape Hex e1 e2 e3.
  assert (H1 : 64 <= APInt.BitWidth e1 /\ APInt.Val e1 = APInt.Val a /\
               0 <= APInt.Val a /\ APInt.Val a + 2 ^ 33 <= 2 ^ (APInt.BitWidth e1 - 1)).
  { destruct Hshape as [-> | (L & HL & HW & HV)].
    - vm_compute. repeat split; intro X; discriminate X.
    - assert (HW' : APInt.BitWidth a = 4 * L) by lia.
      unfold e1. rewrite HW'.
      destruct (APInt.isSignBitSet a || (4 * L <? 64)) eqn:Hc.
      + cbn [APInt.zext APInt.BitWidth APInt.Val].
        destruct (Z.le_gt_cases (4 * L + 1) 64) as [Hs | Hb].
        * rewrite Z.max_l by lia. repeat split; try lia.
          assert (10 ^ L <= 10 ^ 15) by (apply Z.pow_le_mono_r; lia).
          change (2 ^ (64 - 1)) with 9223372036854775808.
          change (2 ^ 33) with 8589934592.
          change (10 ^ 15) with 1000000000000000 in *. lia.
        * rewrite Z.max_r by lia. repeat split; try lia.
          pose proof (pow_bound L ltac:(lia)) as Hp.
          replace (4 * L + 1 - 1) with (4 * L) by lia.
          assert (2 ^ (4 * L - 1) <= 2 ^ (4 * L)) by (apply Z.pow_le_mono_r; lia).
          lia.
      + apply orb_false_iff in Hc. destruct Hc as [_ Hc].
        apply Z.ltb_ge in Hc. rewrite HW'. repeat split; try lia.
        pose proof (pow_bound L ltac:(lia)). lia. }
  destruct H1 as (HW & HV & Hnn & Hslack).
  assert (Hpos : 0 < 2 ^ 33) by (vm_compute; reflexivity).
  assert (Hwf1 : 0 <= APInt.Val e1 < 2 ^ (APInt.BitWidth e1 - 1)) by lia.
  assert (H2 : wf e2 /\ APInt.signed e2 = if negative then - APInt.Val a else APInt.Val a).
  { unfold e2. destruct negative.
    - destruct (signed_negate e1 ltac:(lia) Hwf1) as [Hs Hw]. split; [assumption | lia].
    - split; [|rewrite signed_small by assumption; lia].
      unfold wf. pose proof (pow2_split (APInt.BitWidth e1) ltac:(lia)). lia. }
  destruct H2 as (Hwf2 & Hs2).
  assert (HW2 : APInt.BitWidth e2 = APInt.BitWidth e1)
    by (unfold e2; destruct negative; reflexivity).
  destruct (signed_sub e2 excess Hwf2) as [Hs3 Hwf3].
  { rewrite Hs2, HW2. destruct negative; lia. }
  fold e3 in Hs3, Hwf3. rewrite Hs2 in Hs3.
  split; [|assumption].
  destruct negative; [|reflexivity].
  rewrite (isNegative_signed e3 Hwf3), Hs3.
  replace (- APInt.Val a - excess <? 0) with true by (symmetry; apply Z.ltb_lt; lia).
  reflexivity.
Qed.

End NumericValueFacts.

(* ------------------------------------------------------------------------- *)
(** ** The value [ComputeValue] returns for a lexeme that passes [Check] *)

Module NumericComputeFacts.

Import CharacterSet Digits DigitsFacts DigitSequenceFacts APIntFacts.
Import NumericLiteral StringRefFacts NumericLexFacts NumericParserFacts NumericValueFacts.

(** The exponent a literal writes: the digits after the marker and the sign,
    zero without a marker. *)
Definition encoded_exponent (p : Parser) : Z :=
  if has_exponent p
  then (if exponent_is_negative p then -1 else 1)
       * digits_value 10 (remove_underscores (StringRef.chars (exponent_part p)))
  else 0.

(** The length of the fractional part, and what it takes off the exponent. *)
Definition fract_len (p : Parser) : Z := Z.of_nat (length (StringRef.chars (fract_part p))).

Definition compensation (p : Parser) : Z :=
  if radix p =? 16 then 4 * fract_len p else fract_len p.

Section Exponent.

Variable lit : LexedNumericLiteral.
Hypothesis Hwf : wf_literal lit.
Variable em : list Diagnostic.

Let p := Parser_new em lit.

Lemma Parser_new_exponent_eq :
  let e0 := StringRef.substr_from (text lit) (exponent lit + 1) in
  (exponent_is_negative p, exponent_part p)
  = if StringRef.startswith e0 (str "+")
    then (false, snd (StringRef.consume_front e0 (str "+")))
    else if StringRef.startswith e0 (str "-")
    then (true, snd (StringRef.consume_front e0 (str "-")))
    else (false, e0).
Proof.
  cbv zeta. unfold p, Parser_new.
  destruct (StringRef.consume_front _ (str "0x")) as [is_hex i1].
  destruct (if is_hex then _ else _) as [is_bin i2].
  set (e0 := StringRef.substr_from (text lit) (exponent lit + 1)).
  destruct (StringRef.consume_front e0 (str "+")) as [plus e1] eqn:E1.
  unfold StringRef.consume_front in E1.
  destruct (StringRef.startswith e0 (str "+")).
  - injection E1 as <- <-. reflexivity.
  - injection E1 as <- <-.
    destruct (StringRef.consume_front e0 (str "-")) as [minus e2] eqn:E2.
    unfold StringRef.consume_front in E2.
    destruct (StringRef.startswith e0 (str "-")); injection E2 as <- <-; reflexivity.
Qed.

Lemma parts_lexeme_chars :
  Forall (fun c => lexeme_char c = true) (StringRef.chars (int_part p)) /\
  Forall (fun c => lexeme_char c = true) (StringRef.chars (fract_part p)) /\
  Forall (fun c => lexeme_char c = true) (StringRef.chars (exponent_part p)).
Proof.
  pose proof (wf_chars lit Hwf) as Ht. unfold p.
  split; [|split].
  - destruct (Parser_new_int lit Hwf em) as (_ & _ & ->).
    apply Forall_skipn, Forall_firstn. assumption.
  - rewrite Parser_new_fract, chars_substr.
    apply Forall_firstn, Forall_skipn. assumption.
  - pose proof Parser_new_exponent_eq as He. cbv zeta in He. unfold p in He.
    assert (H0 : Forall (fun c => lexeme_char c = true)
                   (StringRef.chars (StringRef.substr_from (text lit) (exponent lit + 1)))).
    { unfold StringRef.substr_from. rewrite chars_substr.
      apply Forall_firstn, Forall_skipn. assumption. }
    destruct (StringRef.startswith _ (str "+")) eqn:Hplus.
    + injection He as _ ->. rewrite chars_consume_front.
      change ["+"%char] with (str "+"). rewrite Hplus.
      apply Forall_skipn. assumption.
    + destruct (StringRef.startswith _ (str "-")) eqn:Hminus; injection He as _ ->.
      * rewrite chars_consume_front.
        change ["-"%char] with (str "-"). rewrite Hminus.
        apply Forall_skipn. assumption.
      * assumption.
Qed.

Lemma no_exponent :
  has_exponent p = false ->
  StringRef.empty (exponent_part p) = true /\ exponent_is_negative p = false.
Proof.
  intros Hno. unfold has_exponent in Hno. apply negb_false_iff, Z.eqb_eq in Hno.
  unfold p in *.
  destruct (Parser_new_fields lit em) as (Hl & _). rewrite Hl in Hno.
  pose proof Parser_new_exponent_eq as He. cbv zeta in He. unfold p in He.
  assert (H0 : StringRef.substr_from (text lit) (exponent lit + 1)
               = StringRef.mk (StringRef.buf (text lit))
                              (StringRef.off (text lit) + StringRef.len (text lit)) 0).
  { unfold StringRef.substr_from, StringRef.substr, size in *.
    rewrite (clamp_nonneg (exponent lit + 1)) by lia.
    rewrite Nat.min_r by lia. rewrite Nat.sub_diag, clamp_neg by lia. reflexivity. }
  rewrite H0 in He. unfold StringRef.startswith in He. rewrite chars_mk in He.
  cbn [firstn StringRef.list_startswith str list_ascii_of_string] in He.
  injection He as -> ->. split; reflexivity.
Qed.

Lemma fract_size :
  IsInteger p = false ->
  size (fract_part p) = fract_len p /\ fract_len p <= size (text lit).
Proof.
  intros Hreal. unfold p in *.
  destruct (real_fract lit Hwf em Hreal) as (Hlt & Hv & _ & Hlen & _).
  destruct (bounds lit Hwf) as (Hb & _).
  unfold fract_len, size. rewrite Hlen, Hv. cbn [StringRef.len]. lia.
Qed.

Lemma checked_nonempty text radix allow :
  ok (fst (CheckDigitSequence text radix allow)) = true -> (1 <= length text)%nat.
Proof.
  intros H. apply CheckDigitSequence_ok in H. destruct H as [_ H].
  pose proof (sep_count_bounds text).
  destruct text; [cbn in *; unfold sep_count in *; cbn in *; lia | cbn; lia].
Qed.

(** [GetExponent] after a successful [Check] of a real literal. *)
Lemma GetExponent_checked EM M :
  checks_pass p -> IsInteger p = false ->
  exists e,
    GetExponent
      (with_state p EM M
         (if has_exponent p then has_digit_separators (fst (exponent_check p))
          else exponent_needs_cleaning p)) = Some e /\
    (size (text lit) < 2 ^ 29 -> APInt.signed e = encoded_exponent p - compensation p).
Proof.
  intros (_ & _ & Hf & He) Hreal. specialize (Hf Hreal).
  destruct (fract_size Hreal) as (Hsize & Hle).
  pose proof (checked_nonempty _ _ _ Hf) as Hone. fold (fract_len p) in Hone.
  destruct parts_lexeme_chars as (_ & _ & Hlex).
  unfold GetExponent, with_state.
  cbn [emitter literal radix int_part fract_part exponent_part mantissa_needs_cleaning
       exponent_needs_cleaning exponent_is_negative].
  rewrite Hsize.
  set (excess := if radix p =? 16 then fract_len p * 4 else fract_len p).
  assert (Hexcess : excess = compensation p).
  { unfold excess, compensation. destruct (radix p =? 16); lia. }
  assert (Hrange : size (text lit) < 2 ^ 29 -> 1 <= excess < 2 ^ 33).
  { intros Hb. change (2 ^ 29) with 536870912 in Hb. change (2 ^ 33) with 8589934592.
    unfold excess, fract_len in *. destruct (radix p =? 16); lia. }
  destruct (has_exponent p) eqn:Hexp.
  - destruct (He eq_refl) as [_ Hok]. unfold exponent_check in Hok.
    destruct (ParseInteger_checked 10 true _ ltac:(right; left; reflexivity) Hlex Hok)
      as (a & Hparse & Hget & Hne & Hdig & Hval).
    destruct (getAsInteger_ok 10 _ ltac:(right; left; reflexivity) Hne Hdig)
      as (a' & Hget' & _ & Hwfa & Hshape).
    rewrite Hget in Hget'. injection Hget' as <-.
    pose proof (checked_nonempty _ _ _ Hok) as Hlen.
    pose proof (chars_length_le (exponent_part p)) as Hlen'.
    replace (StringRef.empty (exponent_part p)) with false
      by (symmetry; apply Nat.eqb_neq; lia).
    cbn [negb]. unfold exponent_check. rewrite Hparse.
    eexists. split; [reflexivity|]. intros Hb.
    assert (Hshape' : a = APInt.mk 64 0 \/
              exists L, 1 <= L /\ APInt.BitWidth a = Z.max 1 (4 * L) /\
                        0 <= APInt.Val a < 10 ^ L).
    { destruct Hshape as [[_ ->] | (L & HL & _ & HW & HV)]; [left; reflexivity|].
      right. exists L. change (APInt.Log2Radix 10) with 4 in HW. auto. }
    destruct (exponent_arith a (exponent_is_negative p) excess Hwfa Hshape' (Hrange Hb))
      as [Hsame Hsigned].
    cbv zeta in Hsame, Hsigned. rewrite Hsame, Hsigned, Hexcess.
    unfold encoded_exponent. rewrite Hexp. unfold APInt.unsigned in Hval. rewrite <- Hval.
    destruct (exponent_is_negative p); lia.
  - destruct (no_exponent Hexp) as [Hempty Hneg]. rewrite Hempty, Hneg. cbn [negb andb].
    eexists. split; [reflexivity|]. intros Hb.
    assert (Hwf0 : wf (APInt.mk 64 0)).
    { unfold wf. cbn. split; [lia|]. split; [lia | reflexivity]. }
    destruct (exponent_arith (APInt.mk 64 0) false excess Hwf0 ltac:(left; reflexivity)
                (Hrange Hb)) as [_ Hsigned].
    cbv zeta in Hsigned.
    change (APInt.make 64 0) with (APInt.mk 64 0).
    change (if APInt.isSignBitSet (APInt.mk 64 0) || (APInt.BitWidth (APInt.mk 64 0) <? 64)
            then APInt.zext (APInt.mk 64 0) (Z.max 64 (APInt.BitWidth (APInt.mk 64 0) + 1))
            else APInt.mk 64 0) with (APInt.mk 64 0) in Hsigned.
    rewrite Hsigned, Hexcess. unfold encoded_exponent. rewrite Hexp. reflexivity.
Qed.

End Exponent.

(** [ComputeValue] on a lexeme of [Lex] that passes the four checks: what it
    emits, that it reaches no [llvm_unreachable], and the value. *)
Lemma ComputeValue_checked lit :
  wf_literal lit ->
  let p := Parser_new [] lit in
  checks_pass p ->
  snd (ComputeValue lit []) = emitted_by_checks p /\
  (IsInteger p = true ->
   exists v,
     fst (ComputeValue lit []) = Some (IntegerValue v) /\
     APInt.unsigned v
     = digits_value (radix p) (remove_underscores (StringRef.chars (int_part p)))) /\
  (IsInteger p = false ->
   exists m e,
     fst (ComputeValue lit []) = Some (RealValue (if radix p =? 10 then 10 else 2) m e) /\
     APInt.unsigned m
     = digits_value (radix p)
         (remove_underscores (StringRef.chars (int_part p) ++ StringRef.chars (fract_part p))) /\
     (size (text lit) < 2 ^ 29 -> APInt.signed e = encoded_exponent p - compensation p)).
Proof.
  intros Hwf p Hpass.
  destruct (Parser_new_fields lit []) as (Hlit & Hem & Hmnc & Henc). fold p in Hlit, Hem, Hmnc, Henc.
  destruct (Parser_new_int lit Hwf []) as (_ & Hradix & _). fold p in Hradix.
  pose proof (prefix_radix_known
                (firstn (Z.to_nat (radix_point lit)) (StringRef.chars (text lit)))) as Hknown.
  rewrite <- Hradix in Hknown.
  destruct (parts_lexeme_chars lit Hwf []) as (Hli & Hlf & _). fold p in Hli, Hlf.
  pose proof Hpass as (_ & Hint & Hfract & _).
  unfold ComputeValue. fold p. rewrite (Check_passed p Hpass). cbn [negb].
  change (IsInteger (with_state p ?a ?b ?c)) with (IsInteger p).
  change (radix (with_state p ?a ?b ?c)) with (radix p).
  change (emitter (with_state p ?a ?b ?c)) with a.
  change (GetMantissa (with_state p ?a ?b ?c))
    with (ParseInteger (mantissa_digits p) (radix p) b).
  rewrite Hem, Hmnc. cbn [app orb].
  destruct (IsInteger p) eqn:Hi; cbn [fst snd negb].
  - split; [reflexivity|]. split; [intros _ | discriminate].
    rewrite orb_false_r. unfold p. rewrite (mantissa_digits_integer lit Hwf [] Hi). fold p.
    unfold int_check in *.
    destruct (ParseInteger_checked (radix p) true _ Hknown Hli Hint)
      as (a & Hparse & _ & _ & _ & Hval).
    rewrite Hparse. exists a. split; [reflexivity | assumption].
  - split; [reflexivity|]. split; [discriminate | intros _].
    rewrite orb_true_r. unfold p at 1. rewrite (mantissa_digits_real lit Hwf [] Hi). fold p.
    unfold int_check, fract_check in *.
    destruct (ParseInteger_real (radix p) _ _ Hknown Hli Hlf Hint (Hfract eq_refl))
      as (m & Hparse & Hval).
    rewrite Hparse.
    destruct (GetExponent_checked lit Hwf [] (emitted_by_checks p) true Hpass Hi)
      as (e & Hge & Hsigned).
    fold p in Hge, Hsigned. rewrite Henc in Hge. rewrite Henc, Hge.
    exists m, e. split; [reflexivity|]. split; assumption.
Qed.

End NumericComputeFacts.

(* ------------------------------------------------------------------------- *)
(** ** Numeric literals: the parts of a lexeme, read off its characters *)

Module NumericLexemeFacts.

Import CharacterSet Digits DigitsFacts DigitSequenceFacts APIntFacts.
Import NumericLiteral StringRefFacts NumericLexFacts NumericParserFacts NumericValueFacts.
Import NumericComputeFacts.

(** *** The parts of a lexeme, read off its characters *)

(** What stands before the point (the whole lexeme when it has none). *)
Definition lexeme_int (lit : LexedNumericLiteral) : list ascii :=
  firstn (Z.to_nat (radix_point lit)) (StringRef.chars (text lit)).

(** The radix the lexeme announces: 16 after 0x, 2 after 0b, 10 otherwise. *)
Definition lexeme_radix (lit : LexedNumericLiteral) : Z := prefix_radix (lexeme_int lit).

(** The prefix of the radix: 0x, 0b or nothing. *)
Definition lexeme_prefix (lit : LexedNumericLiteral) : list ascii :=
  firstn (prefix_len (lexeme_int lit)) (lexeme_int lit).

(** The digits of the integer part, after the prefix of the radix. *)
Definition lexeme_int_digits (lit : LexedNumericLiteral) : list ascii :=
  skipn (prefix_len (lexeme_int lit)) (lexeme_int lit).

(** The digits between the point and the exponent letter. *)
Definition lexeme_fract_digits (lit : LexedNumericLiteral) : list ascii :=
  firstn (Z.to_nat (exponent lit) - Z.to_nat (radix_point lit) - 1)
         (skipn (Z.to_nat (radix_point lit) + 1) (StringRef.chars (text lit))).

Definition lexeme_has_point (lit : LexedNumericLiteral) : bool :=
  radix_point lit <? size (text lit).

Definition lexeme_has_exponent (lit : LexedNumericLiteral) : bool :=
  exponent lit <? size (text lit).

(** The exponent letter. *)
Definition lexeme_marker (lit : LexedNumericLiteral) : ascii :=
  nth (Z.to_nat (exponent lit)) (StringRef.chars (text lit)) zero.

(** What follows the exponent letter. *)
Definition lexeme_after_marker (lit : LexedNumericLiteral) : list ascii :=
  skipn (S (Z.to_nat (exponent lit))) (StringRef.chars (text lit)).

(** The sign written after the exponent letter, if any. *)
Definition lexeme_sign (lit : LexedNumericLiteral) : list ascii :=
  match lexeme_after_marker lit with
  | c :: _ => if Ascii.eqb c "+" || Ascii.eqb c "-" then [c] else []
  | [] => []
  end.

Definition lexeme_exponent_negative (lit : LexedNumericLiteral) : bool :=
  match lexeme_after_marker lit with
  | c :: _ => Ascii.eqb c "-"
  | [] => false
  end.

(** The digits of the exponent, after the sign. *)
Definition lexeme_exponent_digits (lit : LexedNumericLiteral) : list ascii :=
  skipn (length (lexeme_sign lit)) (lexeme_after_marker lit).

(** The exponent the lexeme writes: signed, decimal, underscores removed, and
    0 without an exponent letter. *)
Definition written_exponent (lit : LexedNumericLiteral) : Z :=
  if lexeme_has_exponent lit
  then (if lexeme_exponent_negative lit then -1 else 1)
       * digits_value 10 (remove_underscores (lexeme_exponent_digits lit))
  else 0.

(** What the length of the fractional part takes off the exponent: one per
    digit, four per hexadecimal digit. *)
Definition fract_shift (lit : LexedNumericLiteral) : Z :=
  (if lexeme_radix lit =? 16 then 4 else 1) * Z.of_nat (length (lexeme_fract_digits lit)).

(** The radix of the real a lexeme denotes. *)
Definition real_radix (lit : LexedNumericLiteral) : Z :=
  if lexeme_radix lit =? 10 then 10 else 2.


(** The verdicts of [CheckDigitSequence] on the parts of the lexeme. *)
Definition lexeme_int_ok (lit : LexedNumericLiteral) : bool :=
  ok (fst (CheckDigitSequence (lexeme_int_digits lit) (lexeme_radix lit) true)).

Definition lexeme_fract_ok (lit : LexedNumericLiteral) : bool :=
  ok (fst (CheckDigitSequence (lexeme_fract_digits lit) (lexeme_radix lit) false)).

(** The exponent letter is the one of the radix, [e] for 10 and [p]
    otherwise, and the digits after it pass. *)
Definition lexeme_exponent_ok (lit : LexedNumericLiteral) : bool :=
  Ascii.eqb (lexeme_marker lit) (if lexeme_radix lit =? 10 then "e" else "p")
  && ok (fst (CheckDigitSequence (lexeme_exponent_digits lit) 10 true)).

(** The checks of the three parts: the integer part, the fractional part of
    a lexeme with a point, the exponent of a lexeme with an exponent
    letter. *)
Definition digit_checks (lit : LexedNumericLiteral) : bool :=
  lexeme_int_ok lit
  && (negb (lexeme_has_point lit) || lexeme_fract_ok lit)
  && (negb (lexeme_has_exponent lit) || lexeme_exponent_ok lit).

Lemma skipn_head (l : list ascii) k :
  (k < length l)%nat -> skipn k l = nth k l zero :: skipn (S k) l.
Proof.
  revert k. induction l as [| c l IH]; intros k Hk; [cbn in Hk; lia|].
  destruct k as [| k]; [reflexivity|].
  cbn [skipn nth]. apply IH. cbn in Hk. lia.
Qed.

Lemma startswith_one (l : list ascii) c :
  StringRef.list_startswith l [c]
  = match l with d :: _ => Ascii.eqb d c | [] => false end.
Proof.
  destruct l as [| d l]; [reflexivity|]. cbn [StringRef.list_startswith].
  destruct l; apply andb_true_r.
Qed.

Section Parts.

Variable lit : LexedNumericLiteral.
Hypothesis Hwf : wf_literal lit.
Variable em : list Diagnostic.

Let p := Parser_new em lit.
Let t := StringRef.chars (text lit).

Lemma after_marker_view :
  StringRef.chars (StringRef.substr_from (text lit) (exponent lit + 1))
  = lexeme_after_marker lit.
Proof.
  destruct (bounds lit Hwf) as (Hb & Hrp & Hex).
  destruct (t_eq lit Hwf) as (_ & Hlen). fold t in Hlen.
  unfold lexeme_after_marker, StringRef.substr_from. rewrite chars_substr. fold t.
  set (n := StringRef.len (text lit)) in *.
  rewrite (clamp_nonneg (exponent lit + 1)) by lia. rewrite clamp_neg by lia.
  destruct (Nat.le_gt_cases n (Z.to_nat (exponent lit + 1))) as [Hge | Hlt].
  - rewrite Nat.min_r by lia. rewrite !skipn_all2 by lia. apply firstn_nil.
  - rewrite Nat.min_l by lia.
    replace (Z.to_nat (exponent lit + 1)) with (S (Z.to_nat (exponent lit))) by lia.
    apply firstn_all2. rewrite length_skipn. lia.
Qed.

(** The constructor takes the sign off the exponent part, and nothing
    else. *)
Lemma Parser_new_exponent :
  exponent_is_negative p = lexeme_exponent_negative lit /\
  StringRef.chars (exponent_part p) = lexeme_exponent_digits lit.
Proof.
  pose proof (Parser_new_exponent_eq lit em) as He. cbv zeta in He. fold p in He.
  pose proof after_marker_view as Hview.
  unfold StringRef.startswith in He. rewrite Hview in He.
  change (str "+") with ["+"%char] in He. change (str "-") with ["-"%char] in He.
  rewrite !startswith_one in He.
  unfold lexeme_exponent_negative, lexeme_exponent_digits, lexeme_sign.
  destruct (lexeme_after_marker lit) as [| c rest] eqn:Hafter.
  - injection He as -> ->. rewrite Hview. split; reflexivity.
  - destruct (Ascii.eqb_spec c "+") as [-> | Hplus].
    + injection He as -> ->. split; [reflexivity|].
      rewrite chars_consume_front. unfold StringRef.startswith.
      rewrite Hview, startswith_one. reflexivity.
    + destruct (Ascii.eqb_spec c "-") as [-> | Hminus].
      * injection He as -> ->. split; [reflexivity|].
        rewrite chars_consume_front. unfold StringRef.startswith.
        rewrite Hview, startswith_one. reflexivity.
      * injection He as -> ->. rewrite Hview. split; reflexivity.
Qed.

Lemma Parser_new_fract_digits : StringRef.chars (fract_part p) = lexeme_fract_digits lit.
Proof.
  unfold lexeme_fract_digits.
  destruct (IsInteger p) eqn:Hi.
  - pose proof (proj1 (IsInteger_iff lit Hwf em) Hi) as Hrp.
    destruct (t_eq lit Hwf) as (_ & Hlen).
    unfold p. rewrite (Parser_new_fract lit em), chars_substr.
    rewrite !skipn_all2; [rewrite !firstn_nil; reflexivity | lia |].
    destruct (bounds lit Hwf) as (Hb & Hr & _).
    rewrite clamp_nonneg by lia. lia.
  - destruct (real_fract lit Hwf em Hi) as (_ & _ & Hc & _). exact Hc.
Qed.

(** The parts of the parser are the parts of the lexeme. *)
Lemma parser_parts :
  radix p = lexeme_radix lit /\
  StringRef.chars (int_part p) = lexeme_int_digits lit /\
  StringRef.chars (fract_part p) = lexeme_fract_digits lit /\
  exponent_is_negative p = lexeme_exponent_negative lit /\
  StringRef.chars (exponent_part p) = lexeme_exponent_digits lit /\
  IsInteger p = negb (lexeme_has_point lit) /\
  has_exponent p = lexeme_has_exponent lit /\
  marker_ok p = Ascii.eqb (lexeme_marker lit) (if lexeme_radix lit =? 10 then "e" else "p").
Proof.
  destruct (Parser_new_int lit Hwf em) as (_ & Hradix & Hint). fold p in Hradix, Hint.
  destruct (Parser_new_fields lit em) as (Hlit & _). fold p in Hlit.
  destruct Parser_new_exponent as [Hneg Hexp].
  destruct (bounds lit Hwf) as (Hb & Hrp & Hex).
  split; [exact Hradix|]. split; [exact Hint|].
  split; [exact Parser_new_fract_digits|].
  split; [exact Hneg|]. split; [exact Hexp|].
  split; [|split].
  - unfold IsInteger, lexeme_has_point. rewrite Hlit.
    destruct (Z.eqb_spec (radix_point lit) (size (text lit)));
      destruct (Z.ltb_spec (radix_point lit) (size (text lit))); try reflexivity;
      unfold size in *; lia.
  - unfold has_exponent, lexeme_has_exponent. rewrite Hlit.
    destruct (Z.eqb_spec (exponent lit) (size (text lit)));
      destruct (Z.ltb_spec (exponent lit) (size (text lit))); try reflexivity;
      unfold size in *; lia.
  - unfold marker_ok, expected_marker, lexeme_marker. rewrite Hlit, Hradix. reflexivity.
Qed.

(** The prefix is the one of the radix. *)
Lemma lexeme_prefix_radix :
  lexeme_prefix lit = str "0x" /\ lexeme_radix lit = 16 \/
  lexeme_prefix lit = str "0b" /\ lexeme_radix lit = 2 \/
  lexeme_prefix lit = [] /\ lexeme_radix lit = 10.
Proof.
  unfold lexeme_prefix, lexeme_radix, prefix_len, prefix_radix.
  destruct (StringRef.list_startswith (lexeme_int lit) (str "0x")) eqn:Hx.
  - apply list_startswith_app in Hx. destruct Hx as [r ->]. left. split; reflexivity.
  - destruct (StringRef.list_startswith (lexeme_int lit) (str "0b")) eqn:Hb.
    + apply list_startswith_app in Hb. destruct Hb as [r ->].
      right. left. split; reflexivity.
    + right. right. split; reflexivity.
Qed.

(** The lexeme is its parts, one after the other. *)
Lemma lexeme_partition :
  t = lexeme_prefix lit ++ lexeme_int_digits lit
      ++ (if lexeme_has_point lit
          then "."%char :: lexeme_fract_digits lit
               ++ (if lexeme_has_exponent lit
                   then lexeme_marker lit :: lexeme_sign lit ++ lexeme_exponent_digits lit
                   else [])
          else []).
Proof.
  destruct (bounds lit Hwf) as (Hb & Hrp & Hex).
  destruct (t_eq lit Hwf) as (_ & Hlen). fold t in Hlen.
  destruct parser_parts as (_ & _ & _ & _ & _ & Hi & He & _).
  set (rp := Z.to_nat (radix_point lit)) in *.
  set (ex := Z.to_nat (exponent lit)) in *.
  set (n := StringRef.len (text lit)) in *.
  assert (Hint : firstn rp t = lexeme_prefix lit ++ lexeme_int_digits lit).
  { unfold lexeme_prefix, lexeme_int_digits. symmetry. apply firstn_skipn. }
  rewrite app_assoc, <- Hint.
  assert (Hsign : lexeme_after_marker lit = lexeme_sign lit ++ lexeme_exponent_digits lit).
  { unfold lexeme_exponent_digits, lexeme_sign.
    destruct (lexeme_after_marker lit) as [| c rest]; [reflexivity|].
    destruct (Ascii.eqb c "+" || Ascii.eqb c "-"); reflexivity. }
  destruct (lexeme_has_point lit) eqn:Hpoint.
  - assert (Hreal : IsInteger p = false) by (rewrite Hi; reflexivity).
    destruct (real_fract lit Hwf em Hreal) as (Hlt & _ & _ & _ & Hdot).
    fold t rp ex in Hlt, Hdot.
    assert (Hrpn : (rp < length t)%nat) by (apply nth_error_Some; congruence).
    assert (Htail : skipn (S rp) t = lexeme_fract_digits lit ++ skipn ex t).
    { unfold lexeme_fract_digits. fold t rp ex.
      replace (S rp) with (rp + 1)%nat by lia.
      rewrite <- (firstn_skipn (ex - rp - 1) (skipn (rp + 1) t)) at 1.
      rewrite skipn_skipn. do 2 f_equal. lia. }
    assert (Hmark : skipn ex t
                    = if lexeme_has_exponent lit
                      then lexeme_marker lit :: lexeme_sign lit ++ lexeme_exponent_digits lit
                      else []).
    { unfold lexeme_has_exponent, size. fold n.
      destruct (Z.ltb_spec (exponent lit) (Z.of_nat n)) as [E | E].
      - rewrite skipn_head by lia. rewrite <- Hsign. reflexivity.
      - apply skipn_all2. lia. }
    rewrite <- Hmark, <- Htail.
    rewrite <- (firstn_skipn rp t) at 1. f_equal.
    rewrite skipn_head by lia. f_equal.
    apply nth_error_nth. assumption.
  - rewrite app_nil_r. symmetry. apply firstn_all2.
    unfold lexeme_has_point, size in Hpoint. fold n in Hpoint.
    apply Z.ltb_ge in Hpoint. lia.
Qed.

Lemma encoded_exponent_written : encoded_exponent p = written_exponent lit.
Proof.
  destruct parser_parts as (_ & _ & _ & Hneg & Hexp & _ & He & _).
  unfold encoded_exponent, written_exponent. rewrite He, Hneg, Hexp. reflexivity.
Qed.

Lemma compensation_shift : compensation p = fract_shift lit.
Proof.
  destruct parser_parts as (Hr & _ & Hf & _).
  unfold compensation, fract_shift, fract_len. rewrite Hr, Hf.
  destruct (lexeme_radix lit =? 16); lia.
Qed.


End Parts.

(** [Check] in terms of the characters of the lexeme. *)
Lemma Check_lexeme lit :
  wf_literal lit ->
  (fst (Check (Parser_new [] lit)) = true
   <-> fst (CheckLeadingZero (Parser_new [] lit)) = true /\ digit_checks lit = true).
Proof.
  intros Hwf. rewrite Check_true. unfold checks_pass, digit_checks.
  destruct (parser_parts lit Hwf []) as (Hr & Hint & Hfract & _ & Hexp & Hi & He & Hm).
  unfold int_check, fract_check, exponent_check.
  rewrite Hr, Hint, Hfract, Hexp, Hi, He, Hm.
  unfold lexeme_int_ok, lexeme_fract_ok, lexeme_exponent_ok.
  destruct (ok (fst (CheckDigitSequence (lexeme_int_digits lit) (lexeme_radix lit) true)));
    cbn [andb].
  2: { split; [intros (_ & H & _); discriminate H | intros [_ H]; discriminate H]. }
  destruct (lexeme_has_point lit); cbn [negb orb andb].
  - destruct (ok (fst (CheckDigitSequence (lexeme_fract_digits lit) (lexeme_radix lit) false))).
    2: { split; [intros (_ & _ & H & _); discriminate (H eq_refl)
                | intros [_ H]; discriminate H]. }
    destruct (lexeme_has_exponent lit); cbn [negb orb andb].
    + split.
      * intros (H0 & _ & _ & H). destruct (H eq_refl) as [H1 H2]. rewrite H1, H2. auto.
      * intros [H0 H]. apply andb_true_iff in H. repeat split; auto; apply H.
    + split; [intros (H0 & _); auto | intros [H0 _]; repeat split; auto; discriminate].
  - destruct (lexeme_has_exponent lit); cbn [negb orb andb].
    + split.
      * intros (H0 & _ & _ & H). destruct (H eq_refl) as [H1 H2]. rewrite H1, H2. auto.
      * intros [H0 H]. apply andb_true_iff in H.
        repeat split; auto; try discriminate; apply H.
    + split; [intros (H0 & _); auto | intros [H0 _]; repeat split; auto; discriminate].
Qed.

(** [ComputeValue] on a lexeme of [Lex] that passes the four checks, in
    terms of the characters of the lexeme. *)
Lemma ComputeValue_lexeme lit :
  wf_literal lit ->
  checks_pass (Parser_new [] lit) ->
  (lexeme_has_point lit = false ->
   exists v,
     fst (ComputeValue lit []) = Some (IntegerValue v) /\
     APInt.unsigned v
     = digits_value (lexeme_radix lit) (remove_underscores (lexeme_int_digits lit))) /\
  (lexeme_has_point lit = true ->
   exists m e,
     fst (ComputeValue lit []) = Some (RealValue (real_radix lit) m e) /\
     APInt.unsigned m
     = digits_value (lexeme_radix lit)
         (remove_underscores (lexeme_int_digits lit ++ lexeme_fract_digits lit)) /\
     (size (text lit) < 2 ^ 29 ->
      APInt.signed e = written_exponent lit - fract_shift lit)).
Proof.
  intros Hwf Hpass.
  destruct (ComputeValue_checked lit Hwf Hpass) as (_ & Hv & Hr).
  destruct (parser_parts lit Hwf []) as (Hradix & Hint & Hfract & _ & _ & Hi & _).
  rewrite Hradix, Hint, Hfract, Hi in *.
  rewrite (encoded_exponent_written lit Hwf []), (compensation_shift lit Hwf []) in Hr.
  split.
  - intros Hp. rewrite Hp in Hv. exact (Hv eq_refl).
  - intros Hp. rewrite Hp in Hr. exact (Hr eq_refl).
Qed.

End NumericLexemeFacts.

(* ------------------------------------------------------------------------- *)
(** ** Numeric literals: the properties of the specification *)

Module NumericLiteralClaims.

Import CharacterSet Digits DigitsFacts DigitSequenceFacts APIntFacts.
Import NumericLiteral StringRefFacts NumericLexFacts NumericParserFacts NumericValueFacts.
Import NumericComputeFacts.
Import NumericLexemeFacts.



Lemma ComputeValue_snd lit em :
  snd (ComputeValue lit em) = emitter (snd (Check (Parser_new em lit))).
Proof.
  unfold ComputeValue. destruct (Check (Parser_new em lit)) as [b q].
  destruct b; cbn [negb]; [|reflexivity].
  destruct (IsInteger q); reflexivity.
Qed.

Lemma ComputeValue_failed lit em :
  fst (Check (Parser_new em lit)) = false ->
  fst (ComputeValue lit em) = Some UnrecoverableError.
Proof.
  unfold ComputeValue. destruct (Check (Parser_new em lit)) as [b q].
  cbn [fst]. intros ->. reflexivity.
Qed.

Lemma CheckExponentPart_keeps q d :
  In d (emitter q) -> In d (emitter (snd (CheckExponentPart q))).
Proof.
  intros H. rewrite CheckExponentPart_eq.
  destruct (negb (has_exponent q)); [assumption|].
  destruct (negb (marker_ok q)); cbn; apply in_or_app; left; assumption.
Qed.

(** A binary literal with a point whose integer part passes its check gets
    the [BinaryRealLiteral] diagnostic, whatever the later checks say. *)
Lemma binary_real_emitted p :
  radix p = 2 -> IsInteger p = false -> ok (fst (int_check p)) = true ->
  In BinaryRealLiteral (emitter (snd (Check p))).
Proof.
  intros Hr Hreal Hint.
  assert (Hf : In BinaryRealLiteral (emitted_by_fract p)).
  { unfold emitted_by_fract. rewrite Hreal, Hr. left. reflexivity. }
  rewrite Check_eq.
  replace (fst (CheckLeadingZero p)) with true
    by (unfold CheckLeadingZero; rewrite Hr; reflexivity).
  rewrite Hint, Hreal. cbn [negb orb].
  destruct (ok (fst (fract_check p))); cbn [negb].
  - cbv zeta. apply CheckExponentPart_keeps. cbn.
    rewrite !in_app_iff. tauto.
  - rewrite CheckIntPart_eq, CheckFractionalPart_eq. cbn [snd].
    change (IsInteger (with_state p ?a ?b ?c)) with (IsInteger p). rewrite Hreal.
    cbn. rewrite !in_app_iff. tauto.
Qed.

(** A binary literal passes the leading-zero check, whatever its digits. *)
Lemma binary_leading_zero p : radix p = 2 -> fst (CheckLeadingZero p) = true.
Proof. intros Hr. unfold CheckLeadingZero. rewrite Hr. reflexivity. Qed.

(** C1 (as amended): for every lexeme of [Lex] that begins with 0b and has a
    radix point, once the integer part passes its digit check the
    [BinaryRealLiteral] diagnostic is emitted, and the diagnostic is not
    fatal: validation goes on with the fractional part and the exponent, and
    [ComputeValue] returns a real of radix 2, whose mantissa is the binary
    digits before and after the point, exactly when the digit checks of the
    integer part, of the fractional part and, when there is an exponent
    letter, of the exponent (the letter p and its digits) pass; it returns
    [UnrecoverableError] exactly when one of them fails. *)
Theorem C1_binary_real_is_diagnosed_not_fatal source_text lit :
  Lex source_text = Some lit ->
  lexeme_radix lit = 2 -> lexeme_has_point lit = true ->
  (lexeme_int_ok lit = true -> In BinaryRealLiteral (snd (ComputeValue lit []))) /\
  (digit_checks lit = true ->
   exists mantissa exponent,
     fst (ComputeValue lit []) = Some (RealValue 2 mantissa exponent) /\
     APInt.unsigned mantissa
     = digits_value 2 (remove_underscores (lexeme_int_digits lit ++ lexeme_fract_digits lit))) /\
  (digit_checks lit = false -> fst (ComputeValue lit []) = Some UnrecoverableError).
Proof.
  intros Hlex Hr Hpoint. apply Lex_wf in Hlex.
  destruct (parser_parts lit Hlex []) as (Hradix & Hint & _ & _ & _ & Hi & _).
  rewrite Hr in Hradix. rewrite Hpoint in Hi. cbn [negb] in Hi.
  pose proof (binary_leading_zero _ Hradix) as Hzero.
  pose proof (Check_lexeme lit Hlex) as Hcheck.
  split; [|split].
  - intros Hok. rewrite ComputeValue_snd. apply binary_real_emitted; try assumption.
    unfold int_check. rewrite Hint, Hradix. unfold lexeme_int_ok in Hok.
    rewrite Hr in Hok. exact Hok.
  - intros Hpass.
    assert (Hc : checks_pass (Parser_new [] lit)).
    { apply Check_true, Hcheck. split; assumption. }
    destruct (ComputeValue_lexeme lit Hlex Hc) as [_ Hv].
    destruct (Hv Hpoint) as (m & e & Heq & Hm & _).
    unfold real_radix in Heq. rewrite Hr in Heq, Hm.
    exists m, e. split; assumption.
  - intros Hfail. apply ComputeValue_failed.
    destruct (fst (Check (Parser_new [] lit))) eqn:E; [|reflexivity].
    destruct (proj1 Hcheck eq_refl) as [_ H]. congruence.
Qed.

(** The lexeme of [0b1.01]. *)
Definition lexeme_0b1_01 : LexedNumericLiteral :=
  mkLiteral (StringRef.mk (str "0b1.01") 0 6) 3 6.

Lemma C1_witness :
  In BinaryRealLiteral (snd (ComputeValue lexeme_0b1_01 [])) /\
  exists mantissa exponent,
    fst (ComputeValue lexeme_0b1_01 []) = Some (RealValue 2 mantissa exponent) /\
    APInt.unsigned mantissa = 5.
Proof.
  destruct (C1_binary_real_is_diagnosed_not_fatal (str "0b1.01") lexeme_0b1_01
              eq_refl eq_refl eq_refl) as (H1 & H2 & _).
  split; [apply H1 | apply H2]; reflexivity.
Defined.

(** C1, the claim as stated fails: [0b1.01] is a binary lexeme with a radix
    point, and [ComputeValue] returns the real 5 * 2^-2 for it, not
    [UnrecoverableError]. *)
Lemma C1_counterexample :
  LexAndCompute (str "0b1.01")
  = Some (Some (RealValue 2 (APInt.mk 3 5) (APInt.mk 64 18446744073709551614)),
          [BinaryRealLiteral]) /\
  APInt.signed (APInt.mk 64 18446744073709551614) = -2.
Proof. split; reflexivity. Qed.

(** C2 (as amended): for every real literal (a lexeme of [Lex] with a radix
    point) shorter than 2^29 characters that passes validation,
    [ComputeValue] returns a real whose radix is 10 when the lexeme is
    decimal and 2 otherwise (prefix 0x or 0b), whose mantissa is the digits
    before the point followed by those after it, prefix, point and
    underscores removed, read in the radix of the lexeme, and whose exponent,
    read as a signed number, is the exponent the lexeme writes after its
    exponent letter (signed by the [-] written there, decimal, 0 without an
    exponent letter) minus the number of digits after the point, four times
    that number for radix 16. *)
Theorem C2_real_value source_text lit :
  Lex source_text = Some lit ->
  lexeme_has_point lit = true ->
  fst (Check (Parser_new [] lit)) = true ->
  size (text lit) < 2 ^ 29 ->
  exists mantissa exponent,
    fst (ComputeValue lit [])
    = Some (RealValue (if lexeme_radix lit =? 10 then 10 else 2) mantissa exponent) /\
    APInt.unsigned mantissa
    = digits_value (lexeme_radix lit)
        (remove_underscores (lexeme_int_digits lit ++ lexeme_fract_digits lit)) /\
    APInt.signed exponent
    = written_exponent lit
      - (if lexeme_radix lit =? 16 then 4 else 1)
        * Z.of_nat (length (lexeme_fract_digits lit)).
Proof.
  intros Hlex Hpoint Hcheck Hsize. apply Lex_wf in Hlex. apply Check_true in Hcheck.
  destruct (ComputeValue_lexeme lit Hlex Hcheck) as [_ Hv].
  destruct (Hv Hpoint) as (m & e & Heq & Hm & He).
  exists m, e. split; [exact Heq|]. split; [exact Hm|]. apply He. exact Hsize.
Qed.

(** The lexeme of [0x1.8p4]. *)
Definition lexeme_0x1_8p4 : LexedNumericLiteral :=
  mkLiteral (StringRef.mk (str "0x1.8p4") 0 7) 3 5.

Lemma C2_witness :
  exists mantissa exponent,
    fst (ComputeValue lexeme_0x1_8p4 []) = Some (RealValue 2 mantissa exponent) /\
    APInt.unsigned mantissa = 24 /\ APInt.signed exponent = 0.
Proof.
  destruct (C2_real_value (str "0x1.8p4") lexeme_0x1_8p4 eq_refl eq_refl eq_refl eq_refl)
    as (m & e & H1 & H2 & H3).
  exists m, e. split; [exact H1|]. split; [exact H2 | exact H3].
Defined.

(** The sign of the exponent is the one the lexeme writes: [1.5e-3] is
    15 * 10^-4 and [1.5e+3] is 15 * 10^2. *)
Example real_signed_exponents :
  LexAndCompute (str "1.5e-3")
  = Some (Some (RealValue 10 (APInt.mk 8 15) (APInt.mk 64 18446744073709551612)), []) /\
  APInt.signed (APInt.mk 64 18446744073709551612) = -4 /\
  LexAndCompute (str "1.5e+3")
  = Some (Some (RealValue 10 (APInt.mk 8 15) (APInt.mk 64 2)), []).
Proof. repeat split. Qed.

(** C2, the claim as stated fails: [0b1.1p2] passes validation, its source
    radix is 2, not 16, and the real returned has radix 2, not 10. *)
Lemma C2_counterexample :
  exists lit,
    Lex (str "0b1.1p2") = Some lit /\
    IsInteger (Parser_new [] lit) = false /\
    fst (Check (Parser_new [] lit)) = true /\
    radix (Parser_new [] lit) = 2 /\
    ComputeValue lit []
    = (Some (RealValue 2 (APInt.mk 2 3) (APInt.mk 64 1)), [BinaryRealLiteral]).
Proof. eexists. repeat split. Qed.

(** The two reals of the specification's scenarios. *)
Example real_0x1_8p4 :
  LexAndCompute (str "0x1.8p4")
  = Some (Some (RealValue 2 (APInt.mk 8 24) (APInt.mk 64 0)), []).
Proof. reflexivity. Qed.

Example real_1_5e2 :
  LexAndCompute (str "1.5e2")
  = Some (Some (RealValue 10 (APInt.mk 8 15) (APInt.mk 64 1)), []).
Proof. reflexivity. Qed.

(** An integer lexeme of [Lex] has no exponent. *)
Lemma integer_no_exponent lit em :
  wf_literal lit -> IsInteger (Parser_new em lit) = true ->
  has_exponent (Parser_new em lit) = false /\
  firstn (Z.to_nat (radix_point lit)) (StringRef.chars (text lit)) = StringRef.chars (text lit).
Proof.
  intros Hwf Hint.
  destruct (Parser_new_fields lit em) as (Hl & _).
  unfold has_exponent, IsInteger in *. rewrite Hl in *.
  apply Z.eqb_eq in Hint.
  destruct Hwf as [_ Hlen _ Hp He _]. unfold size in *.
  split.
  - apply negb_false_iff, Z.eqb_eq. lia.
  - apply firstn_all2. lia.
Qed.

(** C3: for every integer literal (a lexeme without a radix point) that
    passes validation, [ComputeValue] returns [Integer v], where [v] is the
    number the digits of the lexeme denote, underscores removed, in the
    detected radix: 16 after the prefix 0x, 2 after 0b, 10 otherwise. *)
Theorem C3_integer_value source_text lit :
  Lex source_text = Some lit ->
  IsInteger (Parser_new [] lit) = true ->
  fst (Check (Parser_new [] lit)) = true ->
  exists v,
    fst (ComputeValue lit []) = Some (IntegerValue v) /\
    APInt.unsigned v
    = digits_value (prefix_radix (StringRef.chars (text lit)))
        (remove_underscores
           (skipn (prefix_len (StringRef.chars (text lit))) (StringRef.chars (text lit)))).
Proof.
  intros Hlex Hint Hcheck. apply Lex_wf in Hlex. apply Check_true in Hcheck.
  destruct (ComputeValue_checked lit Hlex Hcheck) as (_ & Hv & _).
  destruct (Hv Hint) as (v & Heq & Hval).
  destruct (Parser_new_int lit Hlex []) as (_ & Hradix & Hchars).
  destruct (integer_no_exponent lit [] Hlex Hint) as (_ & Hall).
  rewrite Hall in Hradix, Hchars. rewrite Hradix, Hchars in Hval.
  exists v. split; assumption.
Qed.

(** The lexeme of [0xFF_FF]. *)
Definition lexeme_0xFF_FF : LexedNumericLiteral :=
  mkLiteral (StringRef.mk (str "0xFF_FF") 0 7) 7 7.

Lemma C3_witness :
  exists v,
    fst (ComputeValue lexeme_0xFF_FF []) = Some (IntegerValue v) /\
    APInt.unsigned v = 65535.
Proof.
  destruct (C3_integer_value (str "0xFF_FF") lexeme_0xFF_FF eq_refl eq_refl eq_refl)
    as (v & H1 & H2).
  exists v. split; [exact H1 | exact H2].
Defined.

(** C4 (as amended): lexing the decimal literal [1_000] and computing its
    value gives the integer 1000 and emits no diagnostic: its separator stands
    four characters from the right, where the placement check wants it. *)
Theorem C4_one_thousand :
  LexAndCompute (str "1_000") = Some (Some (IntegerValue (APInt.mk 16 1000)), []) /\
  CheckDigitSeparatorPlacement (str "1_000") 10 1 = [].
Proof. split; reflexivity. Qed.

(** C4, the claim as stated fails: [1_000] gets no
    [IrregularDigitSeparators] diagnostic, not one. *)
Lemma C4_counterexample :
  exists value diagnostics,
    LexAndCompute (str "1_000") = Some (Some (IntegerValue value), diagnostics) /\
    APInt.unsigned value = 1000 /\
    count is_IrregularDigitSeparators diagnostics = 0%nat.
Proof. do 2 eexists. repeat split. Qed.

Lemma no_irregular_in (ds : list Diagnostic) :
  Forall (fun d => is_IrregularDigitSeparators d = false) ds ->
  count is_IrregularDigitSeparators ds = 0%nat.
Proof.
  unfold count. induction 1 as [| d ds Hd _ IH]; [reflexivity|].
  cbn [filter]. rewrite Hd. assumption.
Qed.

(** C5: for every digit sequence whose underscores stand every 3 digits from
    the right for radix 10, every 4 digits from the right for radix 16, the
    check of the sequence emits no [IrregularDigitSeparators] diagnostic. *)
Theorem C5_uniform_separators_are_regular text radix allow_digit_separators :
  (radix = 10 /\ uniform_separators 3 text) \/ (radix = 16 /\ uniform_separators 4 text) ->
  count is_IrregularDigitSeparators
        (snd (CheckDigitSequence text radix allow_digit_separators)) = 0%nat.
Proof.
  intros Huni. apply no_irregular_in.
  assert (Hplace : CheckDigitSeparatorPlacement text radix (sep_count text) = []).
  { unfold CheckDigitSeparatorPlacement.
    destruct Huni as [[-> H] | [-> H]]; cbn [Z.eqb Pos.eqb];
      apply placement_loop_uniform; auto. }
  unfold CheckDigitSequence.
  pose proof (digit_loop_spec radix allow_digit_separators text None 0 []) as H.
  destruct (digit_loop radix allow_digit_separators None text 0 []) as [[r |] em'].
  - destruct H as (_ & -> & extra & -> & Hextra). rewrite Z.add_0_l. cbn [app].
    assert (Hex : Forall (fun d => is_IrregularDigitSeparators d = false) extra).
    { eapply Forall_impl; [|exact Hextra]. intros d <-. reflexivity. }
    destruct (sep_count text =? Z.of_nat (length text)); cbn [snd].
    + apply Forall_app. split; [assumption | repeat constructor].
    + destruct (negb (sep_count text =? 0)); cbn [snd]; [|assumption].
      rewrite Hplace, app_nil_r. assumption.
  - destruct H as (c & extra & _ & _ & _ & -> & Hextra). cbn [snd app].
    apply Forall_app. split; [|repeat constructor].
    eapply Forall_impl; [|exact Hextra]. intros d <-. reflexivity.
Qed.

Lemma C5_witness :
  uniform_separators 3 (str "1_234_567") /\
  count is_IrregularDigitSeparators (snd (CheckDigitSequence (str "1_234_567") 10 true)) = 0%nat.
Proof.
  assert (H : uniform_separators 3 (str "1_234_567")).
  { apply (uniform_group 3 (str "1_234") (str "567")); [|reflexivity | repeat constructor].
    apply (uniform_group 3 (str "1") (str "234")); [|reflexivity | repeat constructor].
    apply uniform_first; [cbn; lia | repeat constructor]. }
  split; [exact H|].
  apply C5_uniform_separators_are_regular. left. split; [reflexivity | exact H].
Defined.





(** The example of the claim: the lexeme [1_]. *)
Example integer_1_ :
  LexAndCompute (str "1_")
  = Some (Some (IntegerValue (APInt.mk 4 1)),
          [InvalidDigitSeparator; IrregularDigitSeparators 10]).
Proof. reflexivity. Qed.

End NumericLiteralClaims.

(* ------------------------------------------------------------------------- *)
(** ** The string decoder terminates *)

Module StringDecoderFacts.

Import CharacterSet StringRefFacts StringLiteral.

Lemma consume_front_length l prefix b l' :
  consume_front l prefix = (b, l') -> (length l' <= length l)%nat.
Proof.
  unfold consume_front. destruct (StringRef.list_startswith l prefix);
    intros H; injection H as <- <-; rewrite ?length_skipn; lia.
Qed.

Lemma take_while_skipn p (l : list ascii) :
  l = take_while p l ++ skipn (length (take_while p l)) l.
Proof.
  induction l as [| c l IH]; [reflexivity|].
  cbn [take_while]. destruct (p c); [|reflexivity].
  cbn [length skipn app]. rewrite <- IH. reflexivity.
Qed.

Lemma take_while_stops p (l : list ascii) c after :
  skipn (length (take_while p l)) l = c :: after -> p c = false.
Proof.
  induction l as [| d l IH]; [discriminate|].
  cbn [take_while]. destruct (p d) eqn:Hd.
  - cbn [length skipn]. exact IH.
  - cbn [length skipn]. intros H. injection H as <- <-. exact Hd.
Qed.

Lemma drop_while_length p (l : list ascii) : (length (drop_while p l) <= length l)%nat.
Proof.
  induction l as [| c l IH]; [cbn; lia|].
  cbn [drop_while]. destruct (p c); cbn [length]; lia.
Qed.

Lemma remove_indent_length indent l l' ds :
  remove_indent indent l = (l', ds) -> (length l' <= length l)%nat.
Proof.
  unfold remove_indent. destruct (consume_front l indent) as [b l0] eqn:E.
  apply consume_front_length in E.
  destruct b; intros H; injection H as <- <-; [lia | apply drop_while_length].
Qed.

(** The scanning loop of [Lex] needs one iteration for each character that
    is left: more fuel changes nothing. *)
Lemma Lex_scan_fuel source_text hash_level multi_line prefix_len terminator escape :
  forall fuel fuel' cursor,
    (length source_text - cursor <= fuel)%nat ->
    (length source_text - cursor <= fuel')%nat ->
    Lex_scan source_text hash_level multi_line prefix_len terminator escape fuel cursor
    = Lex_scan source_text hash_level multi_line prefix_len terminator escape fuel' cursor.
Proof.
  induction fuel as [| fuel IH]; intros fuel' cursor Hf Hf'.
  - assert (Hend : (cursor <? length source_text)%nat = false) by (apply Nat.ltb_ge; lia).
    destruct fuel'; cbn [Lex_scan]; rewrite ?Hend; reflexivity.
  - destruct fuel' as [| fuel'].
    + assert (Hend : (cursor <? length source_text)%nat = false) by (apply Nat.ltb_ge; lia).
      cbn [Lex_scan]. rewrite Hend. reflexivity.
    + cbn [Lex_scan].
      destruct (Nat.ltb_spec cursor (length source_text)) as [Hin | Hout]; [|reflexivity].
      cbn [negb].
      repeat match goal with
             | |- (if ?b then _ else _) = (if ?b then _ else _) => destruct b
             end;
        try reflexivity; apply IH; lia.
Qed.

Section Decoder.

Variable CanLexInteger : list ascii -> bool * list Diagnostic.

(** Expanding an escape consumes at least its first character. *)
Lemma ExpandAndConsumeEscapeSequence_shrinks content result content' result' ds :
  ExpandAndConsumeEscapeSequence CanLexInteger content result = Some (content', result', ds) ->
  (length content' < length content)%nat.
Proof.
  unfold ExpandAndConsumeEscapeSequence.
  destruct content as [| first content]; [discriminate|]. cbn [length].
  intros H.
  repeat match type of H with
         | context [if ?b then _ else _] => destruct b eqn:?
         | context [match ?x with _ => _ end] => destruct x eqn:?
         end;
    try discriminate; injection H as <- <- <-;
    repeat match goal with
           | E : consume_front _ _ = _ |- _ => apply consume_front_length in E
           end;
    rewrite ?length_skipn in *; cbn [length] in *; lia.
Qed.

(** Every iteration of the inner loop that goes on has consumed a
    character. *)
Lemma expand_step_shrinks escape indent s s' :
  expand_step CanLexInteger escape indent s = Continue s' ->
  (length (contents s') < length (contents s))%nat.
Proof.
  unfold expand_step.
  set (regular := take_while (fun c => negb (end_of_regular_text c)) (contents s)).
  pose proof (take_while_skipn (fun c => negb (end_of_regular_text c)) (contents s)) as Hsplit.
  fold regular in Hsplit.
  assert (Hlen : length (contents s)
                 = (length regular + length (skipn (length regular) (contents s)))%nat).
  { rewrite Hsplit at 1. apply length_app. }
  destruct (skipn (length regular) (contents s)) as [| c after] eqn:Hrest; [discriminate|].
  cbn [length] in Hlen.
  destruct (Ascii.eqb c newline).
  - destruct (remove_indent indent after) as [l ds] eqn:E.
    apply remove_indent_length in E.
    intros H. injection H as <-. cbn [contents]. lia.
  - destruct (IsHorizontalWhitespace c) eqn:Hws.
    + destruct (Ascii.eqb c " "); [discriminate|].
      destruct (negb (StringRef.list_startswith _ [newline]));
        intros H; injection H as <-; cbn [contents take_while]; rewrite Hws;
        cbn [length skipn]; rewrite length_skipn; lia.
    + destruct (consume_front (c :: after) escape) as [is_escape l1] eqn:E1.
      apply consume_front_length in E1. cbn [length] in E1.
      destruct is_escape; cbn [negb].
      * destruct (consume_front l1 [newline]) as [continuation l2] eqn:E2.
        pose proof E2 as E2'. apply consume_front_length in E2'.
        destruct continuation.
        -- assert (Hl2 : (S (length l2) <= length l1)%nat).
           { unfold consume_front in E2.
             destruct (StringRef.list_startswith l1 [newline]) eqn:Hnl; [|discriminate E2].
             apply list_startswith_app in Hnl. destruct Hnl as [r ->].
             injection E2 as E2. rewrite <- E2. cbn. lia. }
           destruct (remove_indent indent l2) as [l ds] eqn:E.
           apply remove_indent_length in E.
           intros H. injection H as <-. cbn [contents]. lia.
        -- destruct (ExpandAndConsumeEscapeSequence CanLexInteger l1 _)
             as [[[l r] ds] |] eqn:E; [|discriminate].
           apply ExpandAndConsumeEscapeSequence_shrinks in E.
           intros H. injection H as <-. cbn [contents]. lia.
      * intros H. injection H as <-. cbn [contents]. lia.
Qed.

(** The decoder never uses up its iteration bound: it returns or fails a
    check. *)
Lemma expand_run_total escape indent :
  forall fuel s,
    (length (contents s) < fuel)%nat ->
    expand_run CanLexInteger fuel escape indent s <> OutOfFuel.
Proof.
  induction fuel as [| fuel IH]; intros s Hlen; [lia|].
  cbn [expand_run].
  destruct (expand_step CanLexInteger escape indent s) as [s' | r ds |] eqn:E;
    try discriminate.
  apply expand_step_shrinks in E. apply IH. lia.
Qed.

Lemma ExpandEscapeSequencesAndRemoveIndent_total emitter contents hash_level indent :
  ExpandEscapeSequencesAndRemoveIndent CanLexInteger emitter contents hash_level indent
  <> OutOfFuel.
Proof.
  unfold ExpandEscapeSequencesAndRemoveIndent.
  destruct (remove_indent indent contents) as [l ds].
  apply expand_run_total. cbn [StringLiteral.contents]. lia.
Qed.

(** A character the decoder copies or takes for a backslash: no newline and
    no horizontal whitespace other than the space. *)
Definition plain (c : ascii) : bool :=
  negb (Ascii.eqb c newline) && negb (IsHorizontalWhitespace c && negb (Ascii.eqb c " ")).

(** No suffix of the content starts with the introducer. *)
Fixpoint no_introducer (escape content : list ascii) : Prop :=
  match content with
  | [] => True
  | _ :: after =>
      StringRef.list_startswith content escape = false /\ no_introducer escape after
  end.

Lemma no_introducer_skipn escape n content :
  no_introducer escape content -> no_introducer escape (skipn n content).
Proof.
  revert content. induction n as [| n IH]; intros content H; [exact H|].
  destruct content as [| c content]; [exact H|].
  cbn [skipn]. apply IH. destruct H as [_ H]. exact H.
Qed.

Lemma Forall_skipn_plain n (content : list ascii) :
  Forall (fun c => plain c = true) content ->
  Forall (fun c => plain c = true) (skipn n content).
Proof.
  intros H. revert n. induction H as [| c l Hc Hl IH]; intros [| n]; cbn; auto.
Qed.

Lemma plain_stop_is_backslash c :
  plain c = true -> negb (end_of_regular_text c) = false ->
  c = backslash /\ Ascii.eqb c newline = false /\ IsHorizontalWhitespace c = false.
Proof.
  unfold plain, end_of_regular_text. intros Hp Hs.
  apply andb_true_iff in Hp. destruct Hp as [Hn Hw].
  apply negb_true_iff in Hn. apply negb_true_iff in Hw.
  rewrite Hn, Hw in Hs. rewrite orb_false_r in Hs. cbn [orb] in Hs.
  apply negb_false_iff in Hs. apply Ascii.eqb_eq in Hs. subst c.
  repeat split.
Qed.

(** A content without newline, tab or introducer decodes to itself. *)
Lemma expand_run_plain escape indent :
  forall fuel content result emitted,
    (length content < fuel)%nat ->
    Forall (fun c => plain c = true) content ->
    no_introducer escape content ->
    expand_run CanLexInteger fuel escape indent (mkState content result emitted)
    = Returned (result ++ content, emitted).
Proof.
  induction fuel as [| fuel IH]; intros content result emitted Hlen Hplain Hno; [lia|].
  cbn [expand_run]. unfold expand_step.
  cbn [contents StringLiteral.result StringLiteral.emitted].
  set (regular := take_while (fun c => negb (end_of_regular_text c)) content).
  pose proof (take_while_skipn (fun c => negb (end_of_regular_text c)) content) as Hsplit.
  fold regular in Hsplit.
  pose proof (no_introducer_skipn escape (length regular) content Hno) as Hno'.
  pose proof (Forall_skipn_plain (length regular) content Hplain) as Hplain'.
  assert (Hl : length content
               = (length regular + length (skipn (length regular) content))%nat).
  { rewrite Hsplit at 1. apply length_app. }
  destruct (skipn (length regular) content) as [| c after] eqn:Hrest.
  - rewrite app_nil_r in Hsplit. rewrite <- Hsplit. reflexivity.
  - pose proof (take_while_stops _ _ _ _ Hrest) as Hstop. cbv beta in Hstop.
    apply Forall_cons_iff in Hplain'. destruct Hplain' as [Hc Hafter].
    destruct (plain_stop_is_backslash c Hc Hstop) as (Hb & Hn & Hw).
    rewrite Hn, Hw.
    destruct Hno' as [Hstart Hno''].
    unfold consume_front. rewrite Hstart. cbn [negb].
    cbn [length] in Hl.
    rewrite IH by (assumption || lia).
    rewrite <- !app_assoc. cbn [app]. rewrite <- Hsplit. reflexivity.
Qed.

End Decoder.

End StringDecoderFacts.

(* ------------------------------------------------------------------------- *)
(** ** String literals: the properties of the specification *)

Module StringLiteralClaims.

Import CharacterSet Digits DigitsFacts StringRefFacts StringLiteral.

Lemma upper_hex_is_digit c : IsUpperHexDigit c = is_digit 16 c.
Proof. reflexivity. Qed.

(** The overflow test of [consumeUnsignedInteger] is exact. *)
Lemma overflow_test acc d :
  0 <= acc < 2 ^ 64 -> 0 <= d < 16 ->
  ((acc * 16 + d) mod 2 ^ 64 / 16 <? acc) = (2 ^ 64 <=? acc * 16 + d).
Proof.
  intros Ha Hd.
  change (2 ^ 64) with 18446744073709551616 in *.
  destruct (Z.leb_spec 18446744073709551616 (acc * 16 + d)) as [Hov | Hno].
  - apply Z.ltb_lt.
    pose proof (Z.div_mod (acc * 16 + d) 18446744073709551616 ltac:(lia)) as Hq.
    pose proof (Z.mod_pos_bound (acc * 16 + d) 18446744073709551616 ltac:(lia)) as Hm.
    set (m := (acc * 16 + d) mod 18446744073709551616) in *.
    set (q := (acc * 16 + d) / 18446744073709551616) in *.
    assert (1 <= q) by nia.
    apply Z.div_lt_upper_bound; lia.
  - rewrite Z.mod_small by lia. apply Z.ltb_ge.
    apply Z.div_le_lower_bound; lia.
Qed.

Lemma consume_loop_hex s :
  Forall (fun c => IsUpperHexDigit c = true) s ->
  forall acc, 0 <= acc < 2 ^ 64 ->
    LLVM.consume_loop 16 s acc
    = if fold_left (step 16) s acc <? 2 ^ 64
      then Some (fold_left (step 16) s acc, []) else None.
Proof.
  induction 1 as [| c s Hc Hs IH]; intros acc Hacc.
  - cbn [LLVM.consume_loop fold_left].
    destruct (Z.ltb_spec acc (2 ^ 64)); [reflexivity | lia].
  - rewrite upper_hex_is_digit in Hc.
    destruct (CharVal_digit 16 c ltac:(right; right; reflexivity) Hc) as [Hv Hd].
    cbn [LLVM.consume_loop fold_left]. rewrite Hv.
    destruct (Z.leb_spec 16 (digit_value c)); [lia|].
    rewrite overflow_test by assumption.
    assert (Hall : Forall (fun c => is_digit 16 c = true) s).
    { eapply Forall_impl; [|exact Hs]. intros a Ha. rewrite <- upper_hex_is_digit. exact Ha. }
    pose proof (fold_step_bounds 16 s (step 16 acc c) ltac:(right; right; reflexivity) Hall)
      as Hb.
    unfold step at 1 2 4 in Hb. unfold step at 2 4.
    destruct (Z.leb_spec (2 ^ 64) (acc * 16 + digit_value c)) as [Hov | Hno].
    + specialize (Hb ltac:(lia)).
      assert (1 <= 16 ^ Z.of_nat (length s)).
      { pose proof (Z.pow_pos_nonneg 16 (Z.of_nat (length s)) ltac:(lia) ltac:(lia)). lia. }
      destruct (Z.ltb_spec (fold_left (step 16) s (acc * 16 + digit_value c)) (2 ^ 64));
        [nia | reflexivity].
    + rewrite Z.mod_small by lia. apply IH. lia.
Qed.

(** [getAsInteger] for an [unsigned] on upper-case hexadecimal digits: the
    number they denote when it fits 32 bits, an error otherwise. *)
Lemma getAsUnsigned_hex digits :
  digits <> [] -> Forall (fun c => IsUpperHexDigit c = true) digits ->
  LLVM.getAsUnsigned digits 16
  = if digits_value 16 digits <? 2 ^ 32 then Some (digits_value 16 digits) else None.
Proof.
  intros Hne Hall. unfold LLVM.getAsUnsigned.
  destruct digits as [| c digits]; [congruence|].
  rewrite (consume_loop_hex _ Hall 0) by (split; [lia | reflexivity]).
  rewrite <- digits_value_fold.
  assert (Hall' : Forall (fun c => is_digit 16 c = true) (c :: digits)).
  { eapply Forall_impl; [|exact Hall]. intros a Ha. rewrite <- upper_hex_is_digit. exact Ha. }
  pose proof (fold_step_bounds 16 (c :: digits) 0 ltac:(right; right; reflexivity) Hall'
                ltac:(lia)) as Hb.
  rewrite <- digits_value_fold in Hb.
  set (v := digits_value 16 (c :: digits)) in *.
  change (2 ^ 64) with 18446744073709551616. change (2 ^ 32) with 4294967296.
  destruct (Z.ltb_spec v 18446744073709551616) as [H64 | H64].
  - cbn [length Nat.eqb].
    destruct (Z.ltb_spec v 4294967296) as [H32 | H32].
    + rewrite Z.mod_small by lia. rewrite Z.eqb_refl. reflexivity.
    + destruct (Z.eqb_spec (v mod 4294967296) v) as [E | E]; [|reflexivity].
      pose proof (Z.mod_pos_bound v 4294967296 ltac:(lia)). lia.
  - destruct (Z.ltb_spec v 4294967296); [lia | reflexivity].
Qed.

Lemma take_while_digits digits rest :
  Forall (fun c => IsUpperHexDigit c = true) digits ->
  take_while IsUpperHexDigit (digits ++ "}"%char :: rest) = digits.
Proof.
  induction 1 as [| c digits Hc _ IH]; [reflexivity|].
  cbn. rewrite Hc, IH. reflexivity.
Qed.

Section Decoder.

Variable CanLexInteger : list ascii -> bool * list Diagnostic.

(** What [ExpandAndConsumeEscapeSequence] does with a braced escape whose
    code point is too large or a surrogate. *)
Lemma invalid_unicode_escape_expansion digits rest result :
  digits <> [] -> Forall (fun c => IsUpperHexDigit c = true) digits ->
  fst (CanLexInteger digits) = true ->
  1114111 < digits_value 16 digits \/ 55296 <= digits_value 16 digits < 57344 ->
  ExpandAndConsumeEscapeSequence CanLexInteger
    (str "u{" ++ digits ++ "}"%char :: rest) result
  = Some ("{"%char :: digits ++ "}"%char :: rest,
          result ++ ["u"%char],
          snd (CanLexInteger digits)
          ++ [if 1114111 <? digits_value 16 digits
              then UnicodeEscapeTooLarge else UnicodeEscapeSurrogate]).
Proof.
  intros Hne Hall Hcan Hbad.
  unfold ExpandAndConsumeEscapeSequence.
  cbn [str list_ascii_of_string app].
  change (Ascii.eqb "u" "t") with false. change (Ascii.eqb "u" "n") with false.
  change (Ascii.eqb "u" "r") with false. change (Ascii.eqb "u" double_quote) with false.
  change (Ascii.eqb "u" single_quote) with false. change (Ascii.eqb "u" backslash) with false.
  change (Ascii.eqb "u" "0") with false. change (Ascii.eqb "u" "x") with false.
  change (Ascii.eqb "u" "u") with true. cbv iota.
  unfold consume_front at 1.
  cbn [StringRef.list_startswith length skipn].
  change (Ascii.eqb "{" "{") with true. cbn [andb].
  replace (StringRef.list_startswith (digits ++ "}"%char :: rest) []) with true
    by (destruct digits; reflexivity).
  cbv iota. rewrite take_while_digits by assumption.
  rewrite skipn_app, Nat.sub_diag, skipn_all. cbn [app skipn].
  unfold consume_front. cbn [StringRef.list_startswith length skipn].
  change (Ascii.eqb "}" "}") with true. cbn [andb].
  replace (StringRef.list_startswith rest []) with true by (destruct rest; reflexivity).
  cbv iota.
  replace (Nat.eqb (length digits) 0) with false
    by (destruct digits; [congruence | reflexivity]).
  cbn [negb andb].
  unfold ExpandUnicodeEscapeSequence.
  destruct (CanLexInteger digits) as [can ds]. cbn [fst snd] in *. subst can. cbn [negb].
  rewrite getAsUnsigned_hex by assumption.
  set (v := digits_value 16 digits) in *.
  destruct (Z.ltb_spec v (2 ^ 32)) as [H32 | H32].
  - destruct (Z.ltb_spec 1114111 v) as [Hbig | Hsmall]; [reflexivity|].
    destruct Hbad as [Hbad | Hsur]; [lia|].
    replace ((55296 <=? v) && (v <? 57344)) with true; [reflexivity|].
    symmetry. apply andb_true_iff. split; [apply Z.leb_le | apply Z.ltb_lt]; lia.
  - change (2 ^ 32) with 4294967296 in H32.
    destruct (Z.ltb_spec 1114111 v); [reflexivity | lia].
Qed.

Lemma skipn_prefix (prefix rest : list ascii) :
  skipn (length prefix) (prefix ++ rest) = rest.
Proof. rewrite skipn_app, Nat.sub_diag, skipn_all. reflexivity. Qed.

(** C6 (as amended): where the decoder meets the introducer of the hash
    level, then [u{], upper-case hexadecimal digits and [}], and the code
    point exceeds 0x10FFFF or is a surrogate, it emits
    [UnicodeEscapeTooLarge], respectively [UnicodeEscapeSurrogate] (after
    what the length check [CanLexInteger] emits, when that check accepts
    the digits); for the recovery only the introducer is dropped: the byte
    [u] is appended to the decoded value and decoding goes on right after
    the [u], with the brace and the digits as ordinary content. *)
Theorem C6_invalid_unicode_escape (k : nat) indent digits rest result emitted :
  digits <> [] -> Forall (fun c => IsUpperHexDigit c = true) digits ->
  fst (CanLexInteger digits) = true ->
  1114111 < digits_value 16 digits \/ 55296 <= digits_value 16 digits < 57344 ->
  expand_step CanLexInteger ([backslash] ++ repeat hash k) indent
    (mkState (([backslash] ++ repeat hash k) ++ str "u{" ++ digits ++ "}"%char :: rest)
             result emitted)
  = Continue
      (mkState ("{"%char :: digits ++ "}"%char :: rest)
               (result ++ ["u"%char])
               (emitted ++ snd (CanLexInteger digits)
                ++ [if 1114111 <? digits_value 16 digits
                    then UnicodeEscapeTooLarge else UnicodeEscapeSurrogate])).
Proof.
  intros Hne Hall Hcan Hbad. unfold expand_step.
  set (escape := [backslash] ++ repeat hash k).
  cbn [contents StringLiteral.result StringLiteral.emitted].
  replace (take_while (fun c => negb (end_of_regular_text c))
                      (escape ++ str "u{" ++ digits ++ "}"%char :: rest))
    with (@nil ascii) by reflexivity.
  cbn [length skipn]. rewrite app_nil_r.
  replace (escape ++ str "u{" ++ digits ++ "}"%char :: rest)
    with (backslash :: (repeat hash k ++ str "u{" ++ digits ++ "}"%char :: rest)) at 1
    by reflexivity.
  change (Ascii.eqb backslash newline) with false.
  change (IsHorizontalWhitespace backslash) with false. cbv iota.
  change (backslash :: (repeat hash k ++ str "u{" ++ digits ++ "}"%char :: rest))
    with (escape ++ str "u{" ++ digits ++ "}"%char :: rest).
  unfold consume_front at 1. rewrite list_startswith_prefix, skipn_prefix. cbn [negb].
  replace (consume_front (str "u{" ++ digits ++ "}"%char :: rest) [newline])
    with (false, str "u{" ++ digits ++ "}"%char :: rest) by reflexivity.
  cbv iota.
  rewrite invalid_unicode_escape_expansion by assumption.
  reflexivity.
Qed.

(** One step of the decoder at a backslash that is not followed by the [k]
    hashes of the hash level: it appends the backslash itself to the decoded
    value, emits nothing and goes on with the next character; and a backslash
    right after an introducer is the escape for the backslash byte. *)
Lemma backslash_step_is_data (k : nat) indent rest result emitted :
  (1 <= k)%nat ->
  StringRef.list_startswith rest (repeat hash k) = false ->
  expand_step CanLexInteger ([backslash] ++ repeat hash k) indent
              (mkState (backslash :: rest) result emitted)
  = Continue (mkState rest (result ++ [backslash]) emitted) /\
  ExpandAndConsumeEscapeSequence CanLexInteger (backslash :: rest) result
  = Some (rest, result ++ [backslash], []).
Proof.
  intros Hk Hnot. split; [|reflexivity]. unfold expand_step.
  cbn [contents StringLiteral.result StringLiteral.emitted take_while].
  change (negb (end_of_regular_text backslash)) with false. cbv iota.
  cbn [length skipn]. rewrite app_nil_r.
  change (Ascii.eqb backslash newline) with false.
  change (IsHorizontalWhitespace backslash) with false. cbv iota.
  unfold consume_front. cbn [app StringRef.list_startswith].
  rewrite Hnot. rewrite Ascii.eqb_refl. cbn [andb negb]. reflexivity.
Qed.

(** A terminated single-line literal whose content has no newline, no tab
    and no introducer of its hash level decodes to its content, byte for
    byte, and nothing is emitted. *)
Lemma raw_content_is_verbatim lit emitter :
  is_terminated_ lit = true -> multi_line_ lit = false ->
  Forall (fun c => StringDecoderFacts.plain c = true) (StringRef.chars (content_ lit)) ->
  StringDecoderFacts.no_introducer
    ([backslash] ++ repeat hash (Z.to_nat (hash_level_ lit)))
    (StringRef.chars (content_ lit)) ->
  ComputeValue CanLexInteger lit emitter
  = Returned (StringRef.chars (content_ lit), emitter).
Proof.
  intros Hterm Hsingle Hplain Hno.
  unfold ComputeValue. rewrite Hterm, Hsingle. cbn [negb].
  unfold ExpandEscapeSequencesAndRemoveIndent, remove_indent, consume_front.
  replace (StringRef.list_startswith (StringRef.chars (content_ lit)) []) with true
    by (destruct (StringRef.chars (content_ lit)); reflexivity).
  cbn [length skipn]. rewrite app_nil_r.
  rewrite StringDecoderFacts.expand_run_plain by (assumption || lia).
  reflexivity.
Qed.

(** C8: the multi-line literal made of three quotes, a newline, two spaces
    and [hello], a newline, two spaces and three quotes has hash level 0 and
    the two spaces of its last line as indent; [ComputeValue] removes the
    indent from the content line and returns [hello] and one newline, and
    nothing is emitted. *)
Theorem C8_multi_line_hello :
  let source_text :=
    MultiLineIndicator ++ [newline] ++ str "  hello" ++ [newline] ++ str "  "
    ++ MultiLineIndicator in
  exists lit,
    Lex source_text = Some lit /\
    multi_line_ lit = true /\ hash_level_ lit = 0 /\ is_terminated_ lit = true /\
    StringRef.chars (content_ lit) = str "  hello" ++ [newline] ++ str "  " /\
    option_map (fun r => (StringRef.chars (fst r), snd r))
               (CheckIndent (text_ lit) (content_ lit)) = Some (str "  ", []) /\
    ComputeValue CanLexInteger lit [] = Returned (str "hello" ++ [newline], []).
Proof. cbv zeta. eexists. repeat split. Qed.

End Decoder.

(** An instance of the length check: every digit string is accepted. *)
Definition accept_all (digits : list ascii) : bool * list Diagnostic := (true, []).

Lemma C6_witness :
  expand_step accept_all [backslash] []
    (mkState ([backslash] ++ str "u{110000}") (str "a") [])
  = Continue (mkState (str "{110000}") (str "au") [UnicodeEscapeTooLarge]).
Proof.
  apply (C6_invalid_unicode_escape accept_all 0 [] (str "110000") [] (str "a") []).
  - discriminate.
  - repeat constructor.
  - reflexivity.
  - left. reflexivity.
Defined.

(** C6, the claim as stated fails: the literal made of a quote, a backslash,
    [u{D800}] and a quote is terminated, its escape names a surrogate, the
    length check accepts the four digits, and the decoded value holds the
    seven bytes [u{D800}], not none. *)
Lemma C6_counterexample :
  exists lit,
    Lex ([double_quote; backslash] ++ str "u{D800}" ++ [double_quote]) = Some lit /\
    is_terminated_ lit = true /\
    ComputeValue accept_all lit [] = Returned (str "u{D800}", [UnicodeEscapeSurrogate]).
Proof. eexists. repeat split. Qed.

(** With hash level 1, the decoder at the backslash of [a], backslash, [n]. *)
Example backslash_step_before_n :
  expand_step accept_all [backslash; hash] [] (mkState (backslash :: str "n") (str "a") [])
  = Continue (mkState (str "n") (str "a" ++ [backslash]) []) /\
  ExpandAndConsumeEscapeSequence accept_all (backslash :: str "n") (str "a")
  = Some (str "n", str "a" ++ [backslash], []).
Proof.
  apply (backslash_step_is_data accept_all 1 [] (str "n") (str "a") []).
  - lia.
  - reflexivity.
Qed.

(** The raw string of the specification: hash, quote, [a], backslash, [n],
    quote, hash decodes to the three bytes [a], backslash, [n]. *)
Example raw_string_a_backslash_n :
  exists lit,
    Lex ([hash; double_quote] ++ str "a" ++ [backslash] ++ str "n" ++ [double_quote; hash])
    = Some lit /\
    hash_level_ lit = 1 /\ is_terminated_ lit = true /\
    ComputeValue accept_all lit [] = Returned (str "a" ++ [backslash] ++ str "n", []).
Proof. eexists. repeat split. Qed.

End StringLiteralClaims.

(* ------------------------------------------------------------------------- *)
(** ** The parse tree: the properties of the specification *)

Module ParseTreeClaims.

Import ParseTree.

(** The sum of the subtree sizes of a list of nodes. *)
Definition sum_sizes (t : ParseTree) (nodes : list Node) : Z :=
  fold_right (fun n acc => size_of t n + acc) 0 nodes.

Lemma node_at_inside t i :
  0 <= i < Z.of_nat (length (node_impls t)) ->
  exists impl, node_at t i = Some impl /\ size_of t i = subtree_size impl.
Proof.
  intros Hi. unfold size_of, node_at.
  destruct (Z.ltb_spec i 0); [lia|].
  destruct (nth_error (node_impls t) (Z.to_nat i)) as [impl |] eqn:E.
  - exists impl. split; reflexivity.
  - apply nth_error_None in E. lia.
Qed.

(** The sibling walk below a node: it reaches the terminator, stays inside
    the span of the node, and the sizes of the nodes it visits add up to the
    distance walked. *)
Lemma sibling_walk_sum t n :
  spans_nested t -> 0 <= n < Z.of_nat (length (node_impls t)) ->
  forall fuel current,
    n - size_of t n <= current <= n - 1 ->
    current - (n - size_of t n) <= Z.of_nat fuel ->
    exists children,
      sibling_walk t fuel current (n - size_of t n) = Some children /\
      sum_sizes t children = current - (n - size_of t n) /\
      Forall (fun c => n - size_of t n < c <= current) children.
Proof.
  intros Hwf Hn. destruct (Hwf n Hn) as (Hs1 & Hlow & Hnest).
  set (terminator := n - size_of t n) in *.
  induction fuel as [| fuel IH]; intros current Hcur Hfuel.
  - exists []. cbn [sibling_walk].
    replace (current =? terminator) with true by (symmetry; apply Z.eqb_eq; lia).
    repeat split; [cbn; lia | constructor].
  - cbn [sibling_walk].
    destruct (Z.eqb_spec current terminator) as [E | E].
    + exists []. repeat split; [cbn; lia | constructor].
    + assert (Hin : 0 <= current < Z.of_nat (length (node_impls t))) by lia.
      destruct (node_at_inside t current Hin) as (impl & Hat & Hsize).
      rewrite Hat. rewrite <- Hsize.
      destruct (Hwf current Hin) as (Hc1 & _ & _).
      pose proof (Hnest current ltac:(lia)) as Hc2.
      destruct (IH (current - size_of t current) ltac:(lia) ltac:(lia))
        as (children & Hwalk & Hsum & Hall).
      exists (current :: children). rewrite Hwalk. cbn [option_map sum_sizes fold_right].
      fold (sum_sizes t children). rewrite Hsum.
      repeat split; [lia|].
      constructor; [lia|].
      eapply Forall_impl; [|exact Hall]. cbn. intros c Hc. lia.
Qed.

(** *** The invariant holds for the post-order layout of every forest *)

(** A node over its children, in source order. *)
#[warnings="-register-all"]
Inductive tree : Type := T (children : list tree).

Fixpoint tree_size (t : tree) : nat :=
  match t with
  | T children => S (list_sum (map tree_size children))
  end.

(** The subtree sizes of the nodes of a tree in post-order: the children
    from left to right, then the node. *)
Fixpoint postorder_sizes (t : tree) : list Z :=
  match t with
  | T children => concat (map postorder_sizes children) ++ [Z.of_nat (tree_size t)]
  end.

Definition forest_sizes (f : list tree) : list Z := concat (map postorder_sizes f).

(** The parse tree of a forest; kinds, tokens and error flags play no part. *)
Definition tree_of_forest (f : list tree) : ParseTree :=
  mkParseTree (map (fun s => mkNodeImpl 0 0 s false) (forest_sizes f)) false.

Definition size_in (l : list Z) (i : Z) : Z := nth (Z.to_nat i) l 0.

Definition nested (l : list Z) : Prop :=
  forall i, 0 <= i < Z.of_nat (length l) ->
    1 <= size_in l i /\ -1 <= i - size_in l i /\
    forall j, i - size_in l i < j <= i -> i - size_in l i <= j - size_in l j.

Lemma size_in_left l1 l2 i :
  0 <= i < Z.of_nat (length l1) -> size_in (l1 ++ l2) i = size_in l1 i.
Proof. intros H. unfold size_in. apply app_nth1. lia. Qed.

Lemma size_in_right l1 l2 i :
  Z.of_nat (length l1) <= i ->
  size_in (l1 ++ l2) i = size_in l2 (i - Z.of_nat (length l1)).
Proof.
  intros H. unfold size_in. rewrite app_nth2 by lia.
  f_equal. lia.
Qed.

Lemma nested_app l1 l2 : nested l1 -> nested l2 -> nested (l1 ++ l2).
Proof.
  intros H1 H2 i Hi. rewrite length_app, Nat2Z.inj_add in Hi.
  destruct (Z.lt_ge_cases i (Z.of_nat (length l1))) as [Hl | Hr].
  - rewrite size_in_left by lia.
    destruct (H1 i ltac:(lia)) as (Ha & Hb & Hc).
    split; [assumption|]. split; [assumption|].
    intros j Hj. rewrite size_in_left by lia. apply Hc. assumption.
  - rewrite size_in_right by lia.
    destruct (H2 (i - Z.of_nat (length l1)) ltac:(lia)) as (Ha & Hb & Hc).
    split; [assumption|]. split; [lia|].
    intros j Hj. rewrite size_in_right by lia.
    specialize (Hc (j - Z.of_nat (length l1)) ltac:(lia)). lia.
Qed.

Lemma nested_root l : nested l -> nested (l ++ [Z.of_nat (length l) + 1]).
Proof.
  intros H i Hi. rewrite length_app, Nat2Z.inj_add in Hi. cbn [length] in Hi.
  destruct (Z.lt_ge_cases i (Z.of_nat (length l))) as [Hl | Hr].
  - rewrite size_in_left by lia.
    destruct (H i ltac:(lia)) as (Ha & Hb & Hc).
    split; [assumption|]. split; [assumption|].
    intros j Hj. rewrite size_in_left by lia. apply Hc. assumption.
  - assert (i = Z.of_nat (length l)) by lia. subst i.
    assert (Hroot : size_in (l ++ [Z.of_nat (length l) + 1]) (Z.of_nat (length l))
                    = Z.of_nat (length l) + 1).
    { rewrite size_in_right by lia. rewrite Z.sub_diag. reflexivity. }
    rewrite Hroot. split; [lia|]. split; [lia|].
    intros j Hj.
    destruct (Z.lt_ge_cases j (Z.of_nat (length l))) as [Hjl | Hjr].
    + rewrite size_in_left by lia. destruct (H j ltac:(lia)) as (_ & Hb & _). lia.
    + assert (j = Z.of_nat (length l)) by lia. subst j. rewrite Hroot. lia.
Qed.

(** Induction over a tree and, with it, over its children. *)
Fixpoint tree_induction (P : tree -> Prop)
    (step : forall children, Forall P children -> P (T children)) (t : tree) : P t :=
  match t with
  | T children =>
      step children
        ((fix all (cs : list tree) : Forall P cs :=
            match cs with
            | [] => Forall_nil P
            | c :: cs' => Forall_cons c (tree_induction P step c) (all cs')
            end) children)
  end.

Lemma postorder_sizes_spec t :
  length (postorder_sizes t) = tree_size t /\ nested (postorder_sizes t).
Proof.
  induction t as [children IH] using tree_induction.
  assert (Hchildren :
            length (concat (map postorder_sizes children))
            = list_sum (map tree_size children) /\
            nested (concat (map postorder_sizes children))).
  { induction IH as [| c cs [Hlen Hnest] _ [IHlen IHnest]].
    - split; [reflexivity|]. intros i Hi. cbn in Hi. lia.
    - cbn [map concat list_sum]. rewrite length_app, Hlen, IHlen.
      split; [reflexivity | apply nested_app; assumption]. }
  destruct Hchildren as [Hlen Hnest].
  cbn [postorder_sizes tree_size]. rewrite length_app, Hlen. cbn [length].
  split; [lia|].
  replace (Z.of_nat (S (list_sum (map tree_size children))))
    with (Z.of_nat (length (concat (map postorder_sizes children))) + 1)
    by (rewrite Hlen; lia).
  apply nested_root. assumption.
Qed.

Lemma forest_sizes_nested f : nested (forest_sizes f).
Proof.
  unfold forest_sizes. induction f as [| t f IH].
  - intros i Hi. cbn in Hi. lia.
  - cbn [map concat]. apply nested_app; [apply postorder_sizes_spec | assumption].
Qed.

Lemma size_of_forest f i :
  0 <= i -> size_of (tree_of_forest f) i = size_in (forest_sizes f) i.
Proof.
  intros Hi. unfold size_of, node_at, tree_of_forest, size_in. cbn [node_impls].
  destruct (Z.ltb_spec i 0); [lia|].
  rewrite nth_error_map.
  destruct (nth_error (forest_sizes f) (Z.to_nat i)) as [x |] eqn:E; cbn [option_map].
  - symmetry. apply nth_error_nth. assumption.
  - apply nth_error_None in E. symmetry. apply nth_overflow. assumption.
Qed.

(** The post-order layout of every forest has nested subtree spans. *)
Lemma forest_spans_nested f : spans_nested (tree_of_forest f).
Proof.
  intros i Hi.
  assert (Hlen : length (node_impls (tree_of_forest f)) = length (forest_sizes f)).
  { unfold tree_of_forest. cbn [node_impls]. apply length_map. }
  rewrite Hlen in Hi.
  destruct (forest_sizes_nested f i Hi) as (Ha & Hb & Hc).
  rewrite size_of_forest by lia.
  split; [assumption|]. split; [assumption|].
  intros j Hj. rewrite size_of_forest by lia. apply Hc. assumption.
Qed.

(** C9: in a parse tree with nested subtree spans, for every node [n] of
    subtree size [s]: [Postorder(n)] yields exactly [s] nodes, those at the
    indices [n - s + 1] to [n]; and the walk over [Children(n)], from
    [n - 1] down by each child's subtree size to the terminator [n - s],
    reaches the terminator, and the subtree sizes of the children it yields
    add up to [s - 1]. *)
Theorem C9_subtree_span t n :
  spans_nested t -> 0 <= n < Z.of_nat (length (node_impls t)) ->
  let s := size_of t n in
  (exists range nodes,
     Postorder_of t n = Some range /\ postorder_nodes range = Some nodes /\
     Z.of_nat (length nodes) = s /\
     nodes = map (fun k => n - s + 1 + Z.of_nat k) (seq 0 (Z.to_nat s))) /\
  (exists range children,
     Children t n = Some range /\ range = (n - 1, n - s) /\
     sibling_nodes t range = Some children /\
     sum_sizes t children = s - 1 /\
     Forall (fun c => n - s < c <= n - 1) children).
Proof.
  intros Hwf Hn s. destruct (Hwf n Hn) as (Hs1 & Hlow & _). fold s in Hs1, Hlow.
  destruct (node_at_inside t n Hn) as (impl & Hat & Hsize). fold s in Hsize.
  split.
  - unfold Postorder_of. rewrite Hat. rewrite <- Hsize.
    eexists. eexists. split; [reflexivity|].
    unfold postorder_nodes.
    destruct (Z.ltb_spec (n + 1) (n + 1 - s)); [lia|].
    replace (n + 1 - (n + 1 - s)) with s by lia.
    replace (n + 1 - s) with (n - s + 1) by lia.
    split; [reflexivity|]. split; [|reflexivity].
    rewrite length_map, length_seq. lia.
  - unfold Children. rewrite Hat. rewrite <- Hsize.
    destruct (sibling_walk_sum t n Hwf Hn (length (node_impls t)) (n - 1))
      as (children & Hwalk & Hsum & Hall); fold s; try lia.
    fold s in Hwalk, Hsum, Hall.
    exists (n - 1, n - s), children.
    split; [reflexivity|]. split; [reflexivity|].
    split; [exact Hwalk|]. split; [lia | exact Hall].
Qed.

(** The tree of the specification's scenario: three leaves and a node over
    them. *)
Definition leaf : NodeImpl := mkNodeImpl 0 0 1 false.

Definition three_leaves : ParseTree :=
  mkParseTree [leaf; leaf; leaf; mkNodeImpl 1 3 4 false] false.

Lemma three_leaves_nested : spans_nested three_leaves.
Proof.
  assert (S0 : size_of three_leaves 0 = 1) by reflexivity.
  assert (S1 : size_of three_leaves 1 = 1) by reflexivity.
  assert (S2 : size_of three_leaves 2 = 1) by reflexivity.
  assert (S3 : size_of three_leaves 3 = 4) by reflexivity.
  intros i Hi. change (Z.of_nat (length (node_impls three_leaves))) with 4 in Hi.
  assert (Hcases : i = 0 \/ i = 1 \/ i = 2 \/ i = 3) by lia.
  destruct Hcases as [-> | [-> | [-> | ->]]];
    rewrite ?S0, ?S1, ?S2, ?S3;
    (split; [lia|]); (split; [lia|]); intros j Hj.
  - replace j with 0 by lia. rewrite S0. lia.
  - replace j with 1 by lia. rewrite S1. lia.
  - replace j with 2 by lia. rewrite S2. lia.
  - assert (Hj' : j = 0 \/ j = 1 \/ j = 2 \/ j = 3) by lia.
    destruct Hj' as [-> | [-> | [-> | ->]]]; rewrite ?S0, ?S1, ?S2, ?S3; lia.
Qed.

Lemma C9_witness :
  (exists range nodes,
     Postorder_of three_leaves 3 = Some range /\ postorder_nodes range = Some nodes /\
     Z.of_nat (length nodes) = 4 /\ nodes = [0; 1; 2; 3]) /\
  (exists range children,
     Children three_leaves 3 = Some range /\ range = (2, -1) /\
     sibling_nodes three_leaves range = Some children /\
     sum_sizes three_leaves children = 3 /\
     Forall (fun c => -1 < c <= 2) children).
Proof.
  apply (C9_subtree_span three_leaves 3 three_leaves_nested).
  change (Z.of_nat (length (node_impls three_leaves))) with 4. lia.
Defined.

(** The scenario itself: the children of node 3 are the nodes 2, 1, 0 in
    that order, and the only root is node 3. *)
Example children_of_three_leaves :
  option_map (sibling_nodes three_leaves) (Children three_leaves 3) = Some (Some [2; 1; 0]) /\
  sibling_nodes three_leaves (Roots three_leaves) = Some [3].
Proof. split; reflexivity. Qed.

End ParseTreeClaims.

(* ------------------------------------------------------------------------- *)
(** ** The numeric lexer: what a lexeme looks like *)

Module NumericLexProperties.

Import CharacterSet NumericLiteral StringRefFacts NumericLexFacts.

(** The scanning loop never moves backwards. *)
Lemma Lex_scan_lower rest :
  forall i st j st', Lex_scan rest i st = (j, st') -> i <= j.
Proof.
  induction rest as [| c after IH]; intros i st j st' H; cbn [Lex_scan] in H.
  - injection H as <- _. lia.
  - repeat match type of H with
           | context [if ?b then _ else _] => destruct b
           end;
      try (apply IH in H; lia).
    injection H as <- _. lia.
Qed.

(** What the loop stops at is not alphanumeric and not an underscore, and
    the characters it took are scanned the same way when nothing follows
    them. *)
Lemma Lex_scan_stable rest :
  forall i st j st',
    Lex_scan rest i st = (j, st') ->
    exists taken dropped,
      rest = taken ++ dropped /\ j = i + Z.of_nat (length taken) /\
      Lex_scan taken i st = (j, st') /\
      match dropped with
      | [] => True
      | c :: _ => IsAlnum c = false /\ c <> "_"%char
      end.
Proof.
  induction rest as [| c after IH]; intros i st j st' H.
  - cbn in H. injection H as <- <-. exists [], []. cbn. repeat split; lia.
  - assert (Hgo : forall st1,
              Lex_scan after (i + 1) st1 = (j, st') ->
              exists taken' dropped,
                after = taken' ++ dropped /\ j = i + Z.of_nat (length (c :: taken')) /\
                Lex_scan taken' (i + 1) st1 = (j, st') /\
                (next_is_alnum after = true -> next_is_alnum taken' = true) /\
                match dropped with
                | [] => True
                | d :: _ => IsAlnum d = false /\ d <> "_"%char
                end).
    { intros st1 H1. destruct (IH _ _ _ _ H1) as (taken' & dropped & Hsplit & Hj & Hscan & Hstop).
      exists taken', dropped. repeat split; auto.
      - cbn [length]. lia.
      - intros Hnext. destruct taken' as [| d taken']; [|subst after; exact Hnext].
        cbn [app] in Hsplit. subst dropped.
        destruct after as [| d after']; [discriminate Hnext|].
        cbn in Hnext. destruct Hstop as [Hstop _]. congruence. }
    cbn [Lex_scan] in H.
    destruct (IsAlnum c || Ascii.eqb c "_") eqn:Halnum.
    + destruct (IsLower c && seen_radix_point st && negb (seen_plus_minus st)) eqn:Hlow;
        destruct (Hgo _ H) as (taken' & dropped & -> & Hj & Hscan & _ & Hstop);
        exists (c :: taken'), dropped; (repeat split; auto);
        cbn [Lex_scan]; rewrite Halnum, Hlow; exact Hscan.
    + destruct (Ascii.eqb c "." && next_is_alnum after && negb (seen_radix_point st)) eqn:Hdot.
      * destruct (Hgo _ H) as (taken' & dropped & Hsplit & Hj & Hscan & Hnext & Hstop).
        exists (c :: taken'), dropped. subst after. repeat split; auto.
        cbn [Lex_scan]. rewrite Halnum.
        apply andb_true_iff in Hdot. destruct Hdot as [Hdot Hseen].
        apply andb_true_iff in Hdot. destruct Hdot as [Hdot Hn].
        rewrite Hdot, (Hnext Hn), Hseen. exact Hscan.
      * destruct ((Ascii.eqb c "+" || Ascii.eqb c "-") && seen_potential_exponent st
                  && (result_exponent st =? i - 1) && next_is_alnum after) eqn:Hsign.
        -- destruct (Hgo _ H) as (taken' & dropped & Hsplit & Hj & Hscan & Hnext & Hstop).
           exists (c :: taken'), dropped. subst after. repeat split; auto.
           cbn [Lex_scan]. rewrite Halnum.
           apply andb_true_iff in Hsign. destruct Hsign as [Hsign Hn].
           assert (Hd : Ascii.eqb c "." = false).
           { apply andb_true_iff in Hsign. destruct Hsign as [Hsign _].
             apply andb_true_iff in Hsign. destruct Hsign as [Hsign _].
             apply orb_true_iff in Hsign.
             destruct Hsign as [E | E]; apply Ascii.eqb_eq in E; subst c; reflexivity. }
           rewrite Hd, Hsign, (Hnext Hn). exact Hscan.
        -- injection H as <- <-. exists [], (c :: after). cbn [app length Lex_scan].
           repeat split; try lia.
           ++ apply orb_false_iff in Halnum. tauto.
           ++ apply orb_false_iff in Halnum. destruct Halnum as [_ Hu].
              intros ->. discriminate Hu.
Qed.

(** The lexeme is the view of the first [j] characters of the source. *)
Lemma lexeme_view (source_text taken dropped : list ascii) :
  source_text = taken ++ dropped ->
  StringRef.substr (StringRef.of_list source_text) 0 (Z.of_nat (length taken))
  = StringRef.mk source_text 0 (length taken) /\
  StringRef.chars (StringRef.mk source_text 0 (length taken)) = taken.
Proof.
  intros ->. split.
  - unfold StringRef.substr, StringRef.of_list.
    cbn [StringRef.buf StringRef.off StringRef.len].
    rewrite !clamp_nonneg by lia. rewrite Nat2Z.id, length_app. f_equal; lia.
  - rewrite chars_mk. cbn [skipn]. rewrite firstn_app, Nat.sub_diag, firstn_all.
    cbn [firstn]. apply app_nil_r.
Qed.

(** [Lex] in terms of what the loop takes. *)
Lemma Lex_taken source_text lit :
  Lex source_text = Some lit ->
  exists c taken dropped st,
    source_text = c :: taken ++ dropped /\ IsDecimalDigit c = true /\
    Lex_scan (taken ++ dropped) 1 Lex_init = (1 + Z.of_nat (length taken), st) /\
    Lex_scan taken 1 Lex_init = (1 + Z.of_nat (length taken), st) /\
    match dropped with
    | [] => True
    | d :: _ => IsAlnum d = false /\ d <> "_"%char
    end /\
    lit = mkLiteral (StringRef.mk source_text 0 (S (length taken)))
            (if seen_radix_point st then result_radix_point st
             else 1 + Z.of_nat (length taken))
            (if seen_potential_exponent st then result_exponent st
             else 1 + Z.of_nat (length taken)) /\
    StringRef.chars (text lit) = c :: taken.
Proof.
  unfold Lex. destruct source_text as [| c rest]; [discriminate|].
  destruct (IsDecimalDigit c) eqn:Hc; [|discriminate]. cbn [negb].
  destruct (Lex_scan rest 1 Lex_init) as [j st] eqn:Hscan.
  intros H. injection H as <-.
  destruct (Lex_scan_stable rest 1 Lex_init j st Hscan)
    as (taken & dropped & -> & -> & Hown & Hstop).
  exists c, taken, dropped, st.
  destruct (lexeme_view (c :: taken ++ dropped) (c :: taken) dropped eq_refl) as [Hv Hch].
  cbn [length] in Hv, Hch.
  replace (1 + Z.of_nat (length taken)) with (Z.of_nat (S (length taken))) by lia.
  rewrite Hv. cbn [text]. rewrite Hch.
  replace (Z.of_nat (S (length taken))) with (1 + Z.of_nat (length taken)) in * by lia.
  repeat split; auto.
Qed.

End NumericLexProperties.

Module NumericLexShape.

Import CharacterSet NumericLiteral StringRefFacts NumericLexFacts NumericLexProperties.

(** Where the point, the sign and the exponent letter of the scanned
    characters stand. *)
Record lex_shape (pre : list ascii) (st : LexState) : Prop := mk_lex_shape {
  shape_point :
    forall k, nth_error pre k = Some "."%char ->
      seen_radix_point st = true /\ Z.of_nat k = result_radix_point st;
  shape_sign :
    forall k c, nth_error pre k = Some c -> c = "+"%char \/ c = "-"%char ->
      seen_plus_minus st = true /\ seen_potential_exponent st = true /\
      Z.of_nat k = result_exponent st + 1;
  shape_exponent :
    seen_potential_exponent st = true ->
    exists c, nth_error pre (Z.to_nat (result_exponent st)) = Some c /\ IsLower c = true
}.

Lemma nth_error_snoc (pre : list ascii) c k x :
  nth_error (pre ++ [c]) k = Some x ->
  (nth_error pre k = Some x /\ (k < length pre)%nat) \/ (k = length pre /\ x = c).
Proof.
  intros H. destruct (Nat.lt_ge_cases k (length pre)) as [Hlt | Hge].
  - rewrite nth_error_app1 in H by assumption. left. split; assumption.
  - rewrite nth_error_app2 in H by assumption.
    destruct (k - length pre)%nat as [| m] eqn:E.
    + cbn in H. injection H as <-. right. split; [lia | reflexivity].
    + cbn in H. destruct m; discriminate H.
Qed.

Lemma nth_error_keep (pre : list ascii) c k x :
  nth_error pre k = Some x -> nth_error (pre ++ [c]) k = Some x.
Proof.
  intros H. rewrite nth_error_app1; [assumption|].
  apply nth_error_Some. congruence.
Qed.

Lemma alnum_not_mark c :
  (IsAlnum c || Ascii.eqb c "_") = true ->
  c <> "."%char /\ c <> "+"%char /\ c <> "-"%char.
Proof.
  intros H. repeat split; intros ->; discriminate H.
Qed.

Lemma Lex_scan_shape rest :
  forall pre st j st',
    lex_shape pre st -> Lex_scan rest (Z.of_nat (length pre)) st = (j, st') ->
    exists taken dropped,
      rest = taken ++ dropped /\ j = Z.of_nat (length (pre ++ taken)) /\
      lex_shape (pre ++ taken) st'.
Proof.
  induction rest as [| c after IH]; intros pre st j st' Hinv Hscan.
  - cbn in Hscan. injection Hscan as <- <-. exists [], [].
    rewrite (app_nil_r pre). split; [reflexivity | split; [reflexivity | assumption]].
  - assert (Hgo : forall st1, lex_shape (pre ++ [c]) st1 ->
              Lex_scan after (Z.of_nat (length pre) + 1) st1 = (j, st') ->
              exists taken dropped,
                c :: after = taken ++ dropped /\ j = Z.of_nat (length (pre ++ taken)) /\
                lex_shape (pre ++ taken) st').
    { intros st1 Hinv1 Hscan1. rewrite <- (length_snoc pre c) in Hscan1.
      destruct (IH _ _ _ _ Hinv1 Hscan1) as (taken & dropped & -> & -> & Hinv').
      exists (c :: taken), dropped. rewrite <- app_assoc in Hinv' |- *.
      cbn [app] in *. split; [reflexivity | split; [reflexivity | assumption]]. }
    destruct Hinv as [Hpoint Hsign Hexp].
    cbn [Lex_scan] in Hscan.
    destruct (IsAlnum c || Ascii.eqb c "_") eqn:Halnum.
    + destruct (alnum_not_mark c Halnum) as (Hnd & Hnp & Hnm).
      destruct (IsLower c && seen_radix_point st && negb (seen_plus_minus st)) eqn:Hlow.
      * apply Hgo in Hscan; [assumption|].
        apply andb_true_iff in Hlow. destruct Hlow as [Hlow Hpm].
        apply andb_true_iff in Hlow. destruct Hlow as [Hlower Hseen].
        apply negb_true_iff in Hpm.
        constructor; cbn [seen_radix_point seen_potential_exponent seen_plus_minus
                          result_radix_point result_exponent].
        -- intros k Hk. apply nth_error_snoc in Hk.
           destruct Hk as [[Hk _] | [_ Hk]]; [apply Hpoint; assumption | congruence].
        -- intros k x Hk Hx. apply nth_error_snoc in Hk.
           destruct Hk as [[Hk _] | [_ Hk]].
           ++ destruct (Hsign k x Hk Hx) as (Hs & _). congruence.
           ++ subst x. destruct Hx; congruence.
        -- intros _. exists c. rewrite Nat2Z.id, nth_error_app2, Nat.sub_diag by lia.
           split; [reflexivity | assumption].
      * apply Hgo in Hscan; [assumption|].
        constructor.
        -- intros k Hk. apply nth_error_snoc in Hk.
           destruct Hk as [[Hk _] | [_ Hk]]; [apply Hpoint; assumption | congruence].
        -- intros k x Hk Hx. apply nth_error_snoc in Hk.
           destruct Hk as [[Hk _] | [_ Hk]]; [apply (Hsign k x); assumption|].
           subst x. destruct Hx; congruence.
        -- intros Hs. destruct (Hexp Hs) as (x & Hx & Hl). exists x.
           split; [apply nth_error_keep; assumption | assumption].
    + destruct (Ascii.eqb c "." && next_is_alnum after && negb (seen_radix_point st)) eqn:Hdot.
      * apply Hgo in Hscan; [assumption|].
        apply andb_true_iff in Hdot. destruct Hdot as [Hdot Hnot].
        apply andb_true_iff in Hdot. destruct Hdot as [Hdot _].
        apply Ascii.eqb_eq in Hdot. subst c.
        apply negb_true_iff in Hnot.
        constructor; cbn [seen_radix_point seen_potential_exponent seen_plus_minus
                          result_radix_point result_exponent].
        -- intros k Hk. apply nth_error_snoc in Hk.
           destruct Hk as [[Hk _] | [Hk _]].
           ++ destruct (Hpoint k Hk) as [Hs _]. congruence.
           ++ split; [reflexivity | lia].
        -- intros k x Hk Hx. apply nth_error_snoc in Hk.
           destruct Hk as [[Hk _] | [_ Hk]]; [apply (Hsign k x); assumption|].
           subst x. destruct Hx; discriminate.
        -- intros Hs. destruct (Hexp Hs) as (x & Hx & Hl). exists x.
           split; [apply nth_error_keep; assumption | assumption].
      * destruct ((Ascii.eqb c "+" || Ascii.eqb c "-") && seen_potential_exponent st
                  && (result_exponent st =? Z.of_nat (length pre) - 1)
                  && next_is_alnum after) eqn:Hsg.
        -- apply Hgo in Hscan; [assumption|].
           apply andb_true_iff in Hsg. destruct Hsg as [Hsg _].
           apply andb_true_iff in Hsg. destruct Hsg as [Hsg Hpos].
           apply andb_true_iff in Hsg. destruct Hsg as [Hc Hpe].
           apply Z.eqb_eq in Hpos.
           assert (Hcs : c = "+"%char \/ c = "-"%char).
           { apply orb_true_iff in Hc. destruct Hc as [E | E]; apply Ascii.eqb_eq in E; auto. }
           constructor; cbn [seen_radix_point seen_potential_exponent seen_plus_minus
                             result_radix_point result_exponent].
           ++ intros k Hk. apply nth_error_snoc in Hk.
              destruct Hk as [[Hk _] | [_ Hk]]; [apply Hpoint; assumption|].
              destruct Hcs; congruence.
           ++ intros k x Hk Hx. apply nth_error_snoc in Hk.
              destruct Hk as [[Hk Hlt] | [Hk _]].
              ** destruct (Hsign k x Hk Hx) as (_ & _ & Hpos'). lia.
              ** repeat split; [assumption | lia].
           ++ intros Hs. destruct (Hexp Hs) as (x & Hx & Hl). exists x.
              split; [apply nth_error_keep; assumption | assumption].
        -- injection Hscan as <- <-. exists [], (c :: after).
           rewrite (app_nil_r pre).
           split; [reflexivity | split; [reflexivity | constructor; assumption]].
Qed.

(** The shape of a lexeme: the only point of the lexeme stands at
    [radix_point], the only sign directly after the exponent letter, and the
    exponent letter is a lower-case letter. *)
Lemma Lex_shape source_text lit :
  Lex source_text = Some lit ->
  let t := StringRef.chars (text lit) in
  (forall k, nth_error t k = Some "."%char -> Z.of_nat k = radix_point lit) /\
  (forall k c, nth_error t k = Some c -> c = "+"%char \/ c = "-"%char ->
     Z.of_nat k = exponent lit + 1) /\
  (exponent lit < size (text lit) ->
   exists c, nth_error t (Z.to_nat (exponent lit)) = Some c /\ IsLower c = true).
Proof.
  intros Hlex.
  destruct (Lex_taken source_text lit Hlex)
    as (c & taken & dropped & st & Hsrc & Hc & _ & Hown & _ & Hlit & Hch).
  cbv zeta. rewrite Hch.
  assert (Hinit : lex_shape [c] Lex_init).
  { constructor; cbn.
    - intros [| k] Hk; [|destruct k; discriminate Hk].
      injection Hk as ->. discriminate Hc.
    - intros [| k] x Hk Hx; [|destruct k; discriminate Hk].
      injection Hk as ->. destruct Hx as [-> | ->]; discriminate Hc.
    - discriminate. }
  change 1 with (Z.of_nat (length [c])) in Hown at 1.
  destruct (Lex_scan_shape taken [c] Lex_init _ st Hinit Hown)
    as (taken' & dropped' & Hsplit & Hj & [Hpoint Hsign Hexp]).
  assert (Hlen : length taken' = length taken).
  { rewrite length_app in Hj. cbn [length] in Hj. lia. }
  assert (Hd : dropped' = []).
  { apply (f_equal (@length ascii)) in Hsplit. rewrite length_app in Hsplit.
    destruct dropped'; [reflexivity | cbn [length] in Hsplit; lia]. }
  subst dropped'. rewrite app_nil_r in Hsplit. subst taken'.
  cbn [app] in Hpoint, Hsign, Hexp.
  subst lit. cbn [text radix_point exponent]. unfold size. cbn [StringRef.len].
  split; [|split].
  - intros k Hk. destruct (Hpoint k Hk) as [-> <-]. reflexivity.
  - intros k x Hk Hx. destruct (Hsign k x Hk Hx) as (_ & -> & ->). reflexivity.
  - destruct (seen_potential_exponent st); [intros _; apply Hexp; reflexivity | lia].
Qed.

End NumericLexShape.

(* ------------------------------------------------------------------------- *)
(** ** The numeric checks: what they emit and when they fail *)

Module NumericCheckProperties.

Import CharacterSet Digits DigitsFacts DigitSequenceFacts APIntFacts.
Import NumericLiteral StringRefFacts NumericLexFacts NumericParserFacts NumericValueFacts.
Import NumericComputeFacts.

(** *** The emitter is only appended to *)

(** A parser whose emitter holds [em] before what it held. *)
Definition prepend (em : list Diagnostic) (p : Parser) : Parser :=
  mkParser (em ++ emitter p) (literal p) (radix p) (int_part p) (fract_part p)
           (exponent_part p) (mantissa_needs_cleaning p) (exponent_needs_cleaning p)
           (exponent_is_negative p).

Lemma Parser_new_prepend em lit : Parser_new em lit = prepend em (Parser_new [] lit).
Proof.
  unfold Parser_new, prepend.
  destruct (StringRef.consume_front _ (str "0x")) as [is_hex i1].
  destruct (if is_hex then _ else _) as [is_bin i2].
  destruct (StringRef.consume_front _ (str "+")) as [plus e1].
  destruct (if plus then _ else _) as [minus e2].
  cbn. rewrite app_nil_r. reflexivity.
Qed.

Lemma CheckLeadingZero_prepend em p :
  CheckLeadingZero (prepend em p)
  = (fst (CheckLeadingZero p), prepend em (snd (CheckLeadingZero p))).
Proof.
  unfold CheckLeadingZero, prepend, emit. cbn [radix int_part emitter literal fract_part
    exponent_part mantissa_needs_cleaning exponent_needs_cleaning exponent_is_negative].
  destruct (_ && _ && _); cbn; rewrite ?app_assoc; reflexivity.
Qed.

Lemma CheckIntPart_prepend em p :
  CheckIntPart (prepend em p) = (fst (CheckIntPart p), prepend em (snd (CheckIntPart p))).
Proof.
  unfold CheckIntPart, prepend, emit, set_mantissa_needs_cleaning.
  cbn [radix int_part emitter literal fract_part
    exponent_part mantissa_needs_cleaning exponent_needs_cleaning exponent_is_negative].
  destruct (CheckDigitSequence _ _ _) as [r ds]. cbn. rewrite app_assoc. reflexivity.
Qed.

Lemma CheckFractionalPart_prepend em p :
  CheckFractionalPart (prepend em p)
  = (fst (CheckFractionalPart p), prepend em (snd (CheckFractionalPart p))).
Proof.
  unfold CheckFractionalPart, IsInteger, prepend, emit, set_mantissa_needs_cleaning.
  cbn [radix int_part emitter literal fract_part
    exponent_part mantissa_needs_cleaning exponent_needs_cleaning exponent_is_negative].
  destruct (radix_point (literal p) =? size (text (literal p))); [reflexivity|].
  destruct (radix p =? 2);
    cbn [radix int_part emitter literal fract_part
      exponent_part mantissa_needs_cleaning exponent_needs_cleaning exponent_is_negative];
    destruct (CheckDigitSequence _ _ _) as [r ds]; cbn; rewrite ?app_assoc; reflexivity.
Qed.

Lemma CheckExponentPart_prepend em p :
  CheckExponentPart (prepend em p)
  = (fst (CheckExponentPart p), prepend em (snd (CheckExponentPart p))).
Proof.
  unfold CheckExponentPart, prepend, emit, set_exponent_needs_cleaning.
  cbn [radix int_part emitter literal fract_part
    exponent_part mantissa_needs_cleaning exponent_needs_cleaning exponent_is_negative].
  destruct (exponent (literal p) =? size (text (literal p))); [reflexivity|].
  destruct (negb (Ascii.eqb _ _)); [cbn; rewrite app_assoc; reflexivity|].
  destruct (CheckDigitSequence _ _ _) as [r ds]. cbn. rewrite app_assoc. reflexivity.
Qed.

Lemma Check_prepend em p :
  Check (prepend em p) = (fst (Check p), prepend em (snd (Check p))).
Proof.
  unfold Check.
  rewrite CheckLeadingZero_prepend. destruct (CheckLeadingZero p) as [b0 p0]. cbn [fst snd].
  destruct b0; cbn [negb]; [|reflexivity].
  rewrite CheckIntPart_prepend. destruct (CheckIntPart p0) as [b1 p1]. cbn [fst snd].
  destruct b1; cbn [negb]; [|reflexivity].
  rewrite CheckFractionalPart_prepend. destruct (CheckFractionalPart p1) as [b2 p2].
  cbn [fst snd].
  destruct b2; cbn [negb]; [|reflexivity].
  apply CheckExponentPart_prepend.
Qed.

(** [ComputeValue] reads nothing of the emitter it is given and appends to
    it. *)
Lemma ComputeValue_frame lit em :
  ComputeValue lit em = (fst (ComputeValue lit []), em ++ snd (ComputeValue lit [])).
Proof.
  unfold ComputeValue. rewrite (Parser_new_prepend em lit), Check_prepend.
  destruct (Check (Parser_new [] lit)) as [b q]. cbn [fst snd].
  destruct b; cbn [negb]; [|reflexivity].
  change (IsInteger (prepend em q)) with (IsInteger q).
  change (GetMantissa (prepend em q)) with (GetMantissa q).
  change (GetExponent (prepend em q)) with (GetExponent q).
  change (radix (prepend em q)) with (radix q).
  destruct (IsInteger q); reflexivity.
Qed.

(** *** Fatal and other diagnostics *)

(** The diagnostics of the checks that [return false]. *)
Definition fatal (d : Diagnostic) : bool :=
  match d with
  | EmptyDigitSequence | InvalidDigit _ _ | UnknownBaseSpecifier
  | WrongRealLiteralExponent _ => true
  | InvalidDigitSeparator | IrregularDigitSeparators _ | BinaryRealLiteral => false
  end.

(** A run of diagnostics that ends with the first fatal one. *)
Definition ends_fatal (ds : list Diagnostic) : Prop :=
  exists before d, ds = before ++ [d] /\ fatal d = true /\
                   Forall (fun x => fatal x = false) before.

Lemma separators_not_fatal extra :
  Forall (eq InvalidDigitSeparator) extra -> Forall (fun x => fatal x = false) extra.
Proof. intros H. eapply Forall_impl; [|exact H]. intros d <-. reflexivity. Qed.

Lemma placement_loop_not_fatal fuel text radix stride :
  forall pos remaining,
    Forall (fun x => fatal x = false) (placement_loop fuel text radix stride pos remaining).
Proof.
  induction fuel as [| fuel IH]; intros pos remaining; cbn [placement_loop].
  - destruct (stride <=? pos)%nat; [repeat constructor|].
    destruct (negb (remaining =? 0)); repeat constructor.
  - destruct (stride <=? pos)%nat.
    + destruct (negb (Ascii.eqb _ _)); [repeat constructor | apply IH].
    + destruct (negb (remaining =? 0)); repeat constructor.
Qed.

Lemma placement_not_fatal text radix num :
  Forall (fun x => fatal x = false) (CheckDigitSeparatorPlacement text radix num).
Proof.
  unfold CheckDigitSeparatorPlacement.
  destruct (radix =? 2); [constructor | apply placement_loop_not_fatal].
Qed.

(** What [CheckDigitSequence] emits: when it fails, its last diagnostic is
    the fatal one and the only fatal one; when it succeeds, none is fatal. *)
Lemma CheckDigitSequence_diagnostics text radix allow :
  if ok (fst (CheckDigitSequence text radix allow))
  then Forall (fun x => fatal x = false) (snd (CheckDigitSequence text radix allow))
  else ends_fatal (snd (CheckDigitSequence text radix allow)).
Proof.
  unfold CheckDigitSequence.
  pose proof (digit_loop_spec radix allow text None 0 []) as H.
  destruct (digit_loop radix allow None text 0 []) as [[r |] em'].
  - destruct H as (_ & _ & extra & -> & Hextra). cbn [app].
    apply separators_not_fatal in Hextra.
    destruct (r =? Z.of_nat (length text)).
    + cbn [fst snd ok]. exists extra, EmptyDigitSequence. repeat split. assumption.
    + destruct (negb (r =? 0)); cbn [fst snd ok]; [|assumption].
      apply Forall_app. split; [assumption | apply placement_not_fatal].
  - destruct H as (c & extra & _ & _ & _ & -> & Hextra). cbn [app fst snd ok].
    exists extra, (InvalidDigit c radix). repeat split.
    apply separators_not_fatal. assumption.
Qed.

Lemma ends_fatal_after ds1 ds2 :
  Forall (fun x => fatal x = false) ds1 -> ends_fatal ds2 -> ends_fatal (ds1 ++ ds2).
Proof.
  intros H1 (before & d & -> & Hd & Hb).
  exists (ds1 ++ before), d. rewrite app_assoc. repeat split; [assumption|].
  apply Forall_app. split; assumption.
Qed.

Lemma ends_fatal_exists ds : ends_fatal ds -> existsb fatal ds = true.
Proof.
  intros (before & d & -> & Hd & _). rewrite existsb_app. cbn. rewrite Hd.
  rewrite orb_true_r. reflexivity.
Qed.

Lemma not_fatal_exists ds :
  Forall (fun x => fatal x = false) ds -> existsb fatal ds = false.
Proof.
  induction 1 as [| d ds Hd _ IH]; [reflexivity|]. cbn. rewrite Hd, IH. reflexivity.
Qed.

Lemma emitted_by_fract_diagnostics p :
  if IsInteger p || ok (fst (fract_check p))
  then Forall (fun x => fatal x = false) (emitted_by_fract p)
  else ends_fatal (emitted_by_fract p).
Proof.
  unfold emitted_by_fract, fract_check.
  pose proof (CheckDigitSequence_diagnostics (StringRef.chars (fract_part p)) (radix p) false)
    as H.
  destruct (IsInteger p); cbn [orb]; [constructor|].
  assert (Hb : Forall (fun x => fatal x = false)
                      (if radix p =? 2 then [BinaryRealLiteral] else [])).
  { destruct (radix p =? 2); repeat constructor. }
  destruct (ok (fst (CheckDigitSequence _ _ _))).
  - apply Forall_app. split; assumption.
  - apply ends_fatal_after; assumption.
Qed.

(** What [Check] adds to the emitter. *)
Lemma Check_diagnostics p :
  exists new,
    emitter (snd (Check p)) = emitter p ++ new /\
    if fst (Check p) then Forall (fun x => fatal x = false) new else ends_fatal new.
Proof.
  rewrite Check_eq.
  destruct (fst (CheckLeadingZero p)) eqn:H0; cbn [negb].
  2: { exists [UnknownBaseSpecifier]. cbn [fst snd].
       unfold CheckLeadingZero in *. destruct (_ && _ && _); [|discriminate H0].
       cbn. split; [reflexivity|]. exists [], UnknownBaseSpecifier. repeat split. constructor. }
  pose proof (CheckDigitSequence_diagnostics (StringRef.chars (int_part p)) (radix p) true)
    as Hint. fold (int_check p) in Hint.
  destruct (ok (fst (int_check p))) eqn:H1; cbn [negb].
  2: { exists (snd (int_check p)). rewrite CheckIntPart_eq. cbn [fst snd].
       split; [reflexivity | assumption]. }
  pose proof (emitted_by_fract_diagnostics p) as Hfract.
  destruct (IsInteger p || ok (fst (fract_check p))) eqn:H2; cbn [negb].
  2: { exists (snd (int_check p) ++ emitted_by_fract p).
       rewrite CheckIntPart_eq, CheckFractionalPart_eq. cbn [fst snd].
       change (IsInteger (with_state p ?a ?b ?c)) with (IsInteger p).
       change (emitted_by_fract (with_state p ?a ?b ?c)) with (emitted_by_fract p).
       apply orb_false_iff in H2. destruct H2 as [H2 _]. rewrite H2. cbn [fst snd emitter with_state].
       rewrite <- app_assoc. split; [reflexivity|].
       apply ends_fatal_after; assumption. }
  cbv zeta. rewrite CheckExponentPart_eq.
  change (has_exponent (with_state p ?a ?b ?c)) with (has_exponent p).
  change (marker_ok (with_state p ?a ?b ?c)) with (marker_ok p).
  change (exponent_check (with_state p ?a ?b ?c)) with (exponent_check p).
  change (expected_marker (with_state p ?a ?b ?c)) with (expected_marker p).
  assert (Hboth : Forall (fun x => fatal x = false) (snd (int_check p) ++ emitted_by_fract p)).
  { apply Forall_app. split; assumption. }
  destruct (has_exponent p); cbn [negb].
  2: { exists (snd (int_check p) ++ emitted_by_fract p). cbn [fst snd emitter with_state].
       split; [reflexivity | assumption]. }
  destruct (marker_ok p); cbn [negb].
  2: { exists ((snd (int_check p) ++ emitted_by_fract p)
               ++ [WrongRealLiteralExponent (expected_marker p)]).
       cbn [fst snd emitter with_state emit]. rewrite <- !app_assoc.
       split; [reflexivity|]. rewrite app_assoc.
       exists (snd (int_check p) ++ emitted_by_fract p), (WrongRealLiteralExponent (expected_marker p)).
       repeat split. assumption. }
  pose proof (CheckDigitSequence_diagnostics (StringRef.chars (exponent_part p)) 10 true)
    as Hexp. fold (exponent_check p) in Hexp.
  exists ((snd (int_check p) ++ emitted_by_fract p) ++ snd (exponent_check p)).
  cbn [fst snd emitter with_state]. rewrite <- !app_assoc.
  split; [reflexivity|]. rewrite app_assoc.
  destruct (ok (fst (exponent_check p))).
  - apply Forall_app. split; assumption.
  - apply ends_fatal_after; assumption.
Qed.

End NumericCheckProperties.

Module DigitSeparatorProperties.

Import CharacterSet Digits DigitsFacts DigitSequenceFacts NumericLiteral.

(** Underscores stand exactly where the distance to the end of the text is a
    multiple of the stride. *)
Definition separators_at_stride (stride : nat) (text : list ascii) : Prop :=
  forall i, (i < length text)%nat ->
    (nth i text zero = "_"%char <-> ((length text - i) mod stride = 0)%nat).

Lemma sep_count_zero text :
  sep_count text = 0 <-> forall i, (i < length text)%nat -> nth i text zero <> "_"%char.
Proof.
  induction text as [| c text IH].
  - split; [intros _ i Hi; cbn in Hi; lia | reflexivity].
  - rewrite sep_count_cons. pose proof (sep_count_bounds text) as Hb.
    unfold is_separator. split.
    + intros H. destruct (Ascii.eqb_spec c "_") as [-> | Hc]; [lia|].
      intros [| i] Hi; cbn [nth]; [assumption|].
      apply IH; [lia | cbn in Hi; lia].
    + intros H. destruct (Ascii.eqb_spec c "_") as [-> | Hc].
      * exfalso. apply (H 0%nat); [cbn; lia | reflexivity].
      * replace (sep_count text) with 0; [reflexivity|]. symmetry. apply IH.
        intros i Hi. apply (H (S i)). cbn. lia.
Qed.

(** A text shorter than the stride: no position is a multiple away. *)
Lemma separators_at_stride_short stride text :
  (length text < stride)%nat ->
  (separators_at_stride stride text <-> sep_count text = 0).
Proof.
  intros Hlen. rewrite sep_count_zero. unfold separators_at_stride. split.
  - intros H i Hi Hu. apply H in Hu; [|assumption].
    rewrite Nat.mod_small in Hu by lia. lia.
  - intros H i Hi. split; [intros Hu; exfalso; apply (H i); assumption|].
    intros Hm. rewrite Nat.mod_small in Hm by lia. lia.
Qed.

(** A text of at least a stride: its last group. *)
Lemma separators_at_stride_group k t c g :
  length g = k ->
  (separators_at_stride (S k) (t ++ c :: g)
   <-> c = "_"%char /\ sep_count g = 0 /\ separators_at_stride (S k) t).
Proof.
  intros Hg. rewrite sep_count_zero. unfold separators_at_stride.
  rewrite length_app. cbn [length]. rewrite Hg. split.
  - intros H. split; [|split].
    + specialize (H (length t) ltac:(lia)).
      rewrite app_nth2, Nat.sub_diag in H by lia. cbn [nth] in H. apply H.
      replace (length t + S k - length t)%nat with (S k) by lia. apply Nat.Div0.mod_same.
    + intros i Hi Hu.
      specialize (H (length t + S i)%nat ltac:(lia)).
      rewrite app_nth2 in H by lia.
      replace (length t + S i - length t)%nat with (S i) in H by lia. cbn [nth] in H.
      apply H in Hu.
      replace (length t + S k - (length t + S i))%nat with (k - i)%nat in Hu by lia.
      rewrite Nat.mod_small in Hu by lia. lia.
    + intros i Hi. specialize (H i ltac:(lia)). rewrite app_nth1 in H by assumption.
      replace (length t + S k - i)%nat with ((length t - i) + 1 * S k)%nat in H by lia.
      rewrite Nat.Div0.mod_add in H. exact H.
  - intros (-> & Hnone & Ht) i Hi.
    destruct (Nat.lt_ge_cases i (length t)) as [Hlt | Hge].
    + rewrite app_nth1 by assumption.
      replace (length t + S k - i)%nat with ((length t - i) + 1 * S k)%nat by lia.
      rewrite Nat.Div0.mod_add. apply Ht. assumption.
    + rewrite app_nth2 by lia.
      destruct (i - length t)%nat as [| j] eqn:E; cbn [nth].
      * replace (length t + S k - i)%nat with (S k) by lia.
        rewrite Nat.Div0.mod_same. tauto.
      * split; [intros Hu; exfalso; apply (Hnone j); [lia | assumption]|].
        intros Hm. rewrite Nat.mod_small in Hm by lia. lia.
Qed.

Lemma split_last_group k (text : list ascii) :
  (S k <= length text)%nat ->
  exists t c g, text = t ++ c :: g /\ length g = k /\
                length t = (length text - S k)%nat /\ c = nth (length text - S k) text zero.
Proof.
  intros Hlen.
  set (n := (length text - S k)%nat).
  assert (Hsplit : text = firstn n text ++ skipn n text) by (symmetry; apply firstn_skipn).
  assert (Hlt : length (firstn n text) = n) by (rewrite length_firstn; lia).
  assert (Hls : length (skipn n text) = S k) by (rewrite length_skipn; lia).
  destruct (skipn n text) as [| c g] eqn:E; [discriminate Hls|].
  exists (firstn n text), c, g.
  split; [exact Hsplit|]. split; [cbn in Hls; lia|]. split; [exact Hlt|].
  rewrite Hsplit at 1. rewrite app_nth2 by lia. rewrite Hlt, Nat.sub_diag. reflexivity.
Qed.

(** The placement loop, started at the end of a text with the number of its
    underscores and [extra] more: it emits nothing exactly when the
    underscores stand at the multiples of the stride and [extra] is zero. *)
Lemma placement_loop_exact radix k :
  forall n text extra fuel,
    length text = n -> 0 <= extra -> (n <= fuel)%nat ->
    (placement_loop fuel text radix (S k) (length text) (sep_count text + extra) = []
     <-> extra = 0 /\ separators_at_stride (S k) text).
Proof.
  induction n as [n IH] using lt_wf_ind. intros text extra fuel Hn Hextra Hfuel.
  pose proof (sep_count_bounds text) as Hb.
  destruct (Nat.lt_ge_cases (length text) (S k)) as [Hshort | Hlong].
  - rewrite (separators_at_stride_short (S k) text Hshort).
    assert (Hexit : (S k <=? length text)%nat = false) by (apply Nat.leb_gt; lia).
    assert (Hloop : placement_loop fuel text radix (S k) (length text) (sep_count text + extra)
                    = if negb (sep_count text + extra =? 0)
                      then [IrregularDigitSeparators radix] else []).
    { destruct fuel; cbn [placement_loop]; rewrite Hexit; reflexivity. }
    rewrite Hloop.
    destruct (Z.eqb_spec (sep_count text + extra) 0) as [E | E]; cbn [negb].
    + split; [intros _; lia | reflexivity].
    + split; [discriminate | lia].
  - destruct (split_last_group k text Hlong) as (t & c & g & Htext & Hg & Ht & Hc).
    destruct fuel as [| fuel]; [lia|].
    cbn [placement_loop].
    replace (S k <=? length text)%nat with true by (symmetry; apply Nat.leb_le; lia).
    rewrite <- Hc, <- Ht. clear Hc Ht. subst text.
    rewrite (separators_at_stride_group k t c g Hg).
    destruct (Ascii.eqb_spec c "_") as [-> | Hne]; cbn [negb].
    + assert (Hcount : sep_count (t ++ "_"%char :: g) + extra - 1
                       = sep_count t + (sep_count g + extra)).
      { rewrite sep_count_app, sep_count_cons.
        change (is_separator "_") with true. cbv iota. lia. }
      rewrite Hcount.
      change (t ++ "_"%char :: g) with (t ++ ("_"%char :: g)).
      rewrite placement_loop_prefix by lia.
      pose proof (sep_count_bounds g) as Hbg.
      rewrite length_app in Hn. cbn [length] in Hn.
      assert (Hlt : (length t < n)%nat) by lia.
      rewrite (IH (length t) Hlt t (sep_count g + extra) fuel eq_refl ltac:(lia) ltac:(lia)).
      split.
      * intros [H1 H2]. split; [lia|]. split; [reflexivity|]. split; [lia | exact H2].
      * intros (H1 & _ & H3 & H4). split; [lia | exact H4].
    + split; [discriminate | intros (_ & H & _); contradiction].
Qed.

Lemma placement_loop_one radix fuel text stride :
  forall pos remaining,
    placement_loop fuel text radix stride pos remaining = [] \/
    placement_loop fuel text radix stride pos remaining = [IrregularDigitSeparators radix].
Proof.
  induction fuel as [| fuel IH]; intros pos remaining; cbn [placement_loop].
  - destruct (stride <=? pos)%nat; [right; reflexivity|].
    destruct (negb (remaining =? 0)); auto.
  - destruct (stride <=? pos)%nat.
    + destruct (negb (Ascii.eqb _ _)); [right; reflexivity | apply IH].
    + destruct (negb (remaining =? 0)); auto.
Qed.

(** The first character the digit loop does not let pass is reported, and the
    loop stops there. *)
Lemma digit_loop_first_invalid radix allow before :
  forall c after prev num em,
    Forall (passes radix) before -> valid_digits radix c = false -> c <> "_"%char ->
    exists seps,
      digit_loop radix allow prev (before ++ c :: after) num em
      = (None, em ++ seps ++ [InvalidDigit c radix]) /\
      Forall (eq InvalidDigitSeparator) seps.
Proof.
  induction before as [| b before IH]; intros c after prev num em Hall Hv Hc.
  - cbn [app digit_loop]. rewrite Hv.
    replace (Ascii.eqb c "_") with false by (symmetry; apply Ascii.eqb_neq; assumption).
    exists []. split; [reflexivity | constructor].
  - inversion Hall as [| ? ? Hb Hall']; subst.
    cbn [app digit_loop]. destruct Hb as [Hb | ->].
    + rewrite Hb. apply IH; assumption.
    + rewrite underscore_not_valid. change (Ascii.eqb "_" "_") with true. cbv iota.
      match goal with
      | |- context [digit_loop _ _ _ _ _ ?e] => set (em1 := e)
      end.
      assert (Hem1 : exists e1, em1 = em ++ e1 /\ Forall (eq InvalidDigitSeparator) e1).
      { unfold em1. destruct (_ || _ || _).
        - exists [InvalidDigitSeparator]. split; [reflexivity | repeat constructor].
        - exists []. rewrite app_nil_r. split; [reflexivity | constructor]. }
      destruct Hem1 as (e1 & He1 & Hf1).
      destruct (IH c after (Some "_"%char) (num + 1) em1 Hall' Hv Hc) as (seps & Hrun & Hs).
      exists (e1 ++ seps). rewrite Hrun, He1, <- !app_assoc.
      split; [reflexivity | apply Forall_app; split; assumption].
Qed.

(** A text passes entirely, or it has a first character that does not. *)
Lemma first_invalid radix (text : list ascii) :
  Forall (passes radix) text \/
  exists before c after,
    text = before ++ c :: after /\ Forall (passes radix) before /\
    valid_digits radix c = false /\ c <> "_"%char.
Proof.
  induction text as [| c text IH]; [left; constructor|].
  destruct (valid_digits radix c) eqn:Hv.
  - destruct IH as [IH | (before & d & after & -> & Hb & Hd & Hu)].
    + left. constructor; [left; assumption | assumption].
    + right. exists (c :: before), d, after.
      repeat split; auto. constructor; [left; assumption | assumption].
  - destruct (Ascii.eqb_spec c "_") as [-> | Hc].
    + destruct IH as [IH | (before & d & after & -> & Hb & Hd & Hu)].
      * left. constructor; [right; reflexivity | assumption].
      * right. exists ("_"%char :: before), d, after.
        repeat split; auto. constructor; [right; reflexivity | assumption].
    + right. exists [], c, text. repeat split; auto.
Qed.

End DigitSeparatorProperties.

(* ------------------------------------------------------------------------- *)
(** ** The numeric literal: properties of the code *)

Module NumericLiteralProperties.

Import CharacterSet Digits DigitsFacts DigitSequenceFacts APIntFacts.
Import NumericLiteral StringRefFacts NumericLexFacts NumericParserFacts NumericValueFacts.
Import NumericComputeFacts NumericLexProperties NumericLexShape NumericCheckProperties.
Import DigitSeparatorProperties.

(** X1: the shape of every lexeme [Lex] returns.  It starts with a decimal
    digit and holds only alphanumeric characters, underscores, points and
    signs; [radix_point] and [exponent] are offsets into it with
    [0 < radix_point <= exponent]; the lexeme has a point exactly at
    [radix_point] (none when [radix_point] is its size); a sign stands only
    directly after the exponent letter; and the exponent letter, when there
    is one, is a lower-case letter after the point. *)
Theorem X1_Lex_lexeme_shape source_text lit :
  Lex source_text = Some lit ->
  let t := StringRef.chars (text lit) in
  (exists c rest, t = c :: rest /\ IsDecimalDigit c = true) /\
  size (text lit) = Z.of_nat (length t) /\
  Forall (fun c => lexeme_char c = true) t /\
  0 < radix_point lit <= exponent lit /\ exponent lit <= size (text lit) /\
  (forall k, nth_error t k = Some "."%char
             <-> Z.of_nat k = radix_point lit /\ radix_point lit < size (text lit)) /\
  (forall k c, nth_error t k = Some c -> c = "+"%char \/ c = "-"%char ->
               Z.of_nat k = exponent lit + 1) /\
  (exponent lit < size (text lit) ->
   radix_point lit < exponent lit /\
   exists c, nth_error t (Z.to_nat (exponent lit)) = Some c /\ IsLower c = true).
Proof.
  intros Hlex. pose proof (Lex_wf _ _ Hlex) as [Hoff Hlen Hchars Hp He Hreal].
  destruct (Lex_taken _ _ Hlex) as (c & taken & dropped & st & _ & Hc & _ & _ & _ & _ & Hch).
  destruct (Lex_shape _ _ Hlex) as (Hpoint & Hsign & Hexp).
  cbv zeta in *. unfold size in *.
  assert (Hpos : 0 < radix_point lit).
  { destruct (Z.eq_dec (radix_point lit) (Z.of_nat (StringRef.len (text lit)))) as [E | E].
    - rewrite E, <- Hlen, Hch. cbn [length]. lia.
    - destruct (Hreal ltac:(lia)) as [_ Hdot].
      destruct (Z.eq_dec (radix_point lit) 0) as [E0 | E0]; [|lia].
      rewrite E0, Hch in Hdot. cbn in Hdot. injection Hdot as ->. discriminate Hc. }
  split; [exists c, taken; split; assumption|].
  split; [rewrite Hlen; reflexivity|].
  split; [assumption|].
  split; [lia|]. split; [lia|].
  split; [|split].
  - intros k. split.
    + intros Hk. pose proof (Hpoint k Hk) as Hrp. split; [assumption|].
      assert (k < length (StringRef.chars (text lit)))%nat
        by (apply nth_error_Some; congruence).
      lia.
    + intros [Hk Hlt]. destruct (Hreal Hlt) as [_ Hdot].
      rewrite <- Hk, Nat2Z.id in Hdot. exact Hdot.
  - exact Hsign.
  - intros Hlt. split; [|apply Hexp; assumption].
    apply Hreal. lia.
Qed.

(** The lexeme of [12.5e-3] in the text [12.5e-3;]. *)
Definition lexeme_12_5e_3 : LexedNumericLiteral :=
  mkLiteral (StringRef.mk (str "12.5e-3;") 0 7) 2 4.

Lemma X1_witness :
  Lex (str "12.5e-3;") = Some lexeme_12_5e_3 /\
  0 < radix_point lexeme_12_5e_3 <= exponent lexeme_12_5e_3 /\
  exponent lexeme_12_5e_3 <= size (text lexeme_12_5e_3).
Proof.
  split; [reflexivity|].
  destruct (X1_Lex_lexeme_shape (str "12.5e-3;") lexeme_12_5e_3 eq_refl)
    as (_ & _ & _ & H1 & H2 & _).
  split; [exact H1 | exact H2].
Defined.

(** Where the scanning loop stops, neither the rule of the point nor the rule
    of the sign applies. *)
Lemma Lex_scan_stop rest :
  forall i st j st',
    Lex_scan rest i st = (j, st') ->
    match skipn (Z.to_nat (j - i)) rest with
    | [] => True
    | c :: after =>
        Ascii.eqb c "." && next_is_alnum after && negb (seen_radix_point st') = false /\
        (Ascii.eqb c "+" || Ascii.eqb c "-") && seen_potential_exponent st'
        && (result_exponent st' =? j - 1) && next_is_alnum after = false
    end.
Proof.
  induction rest as [| c after IH]; intros i st j st' H.
  - cbn in H. injection H as <- <-. rewrite skipn_nil. exact I.
  - assert (Hgo : forall st1,
              Lex_scan after (i + 1) st1 = (j, st') ->
              match skipn (Z.to_nat (j - i)) (c :: after) with
              | [] => True
              | c :: after =>
                  Ascii.eqb c "." && next_is_alnum after && negb (seen_radix_point st')
                  = false /\
                  (Ascii.eqb c "+" || Ascii.eqb c "-") && seen_potential_exponent st'
                  && (result_exponent st' =? j - 1) && next_is_alnum after = false
              end).
    { intros st1 H1. pose proof (Lex_scan_lower _ _ _ _ _ H1) as Hle.
      replace (Z.to_nat (j - i)) with (S (Z.to_nat (j - (i + 1)))) by lia.
      cbn [skipn]. exact (IH _ _ _ _ H1). }
    cbn [Lex_scan] in H.
    destruct (IsAlnum c || Ascii.eqb c "_").
    + destruct (IsLower c && seen_radix_point st && negb (seen_plus_minus st));
        exact (Hgo _ H).
    + destruct (Ascii.eqb c "." && next_is_alnum after && negb (seen_radix_point st)) eqn:Hdot;
        [exact (Hgo _ H)|].
      destruct ((Ascii.eqb c "+" || Ascii.eqb c "-") && seen_potential_exponent st
                && (result_exponent st =? i - 1) && next_is_alnum after) eqn:Hsign;
        [exact (Hgo _ H)|].
      injection H as <- <-. rewrite Z.sub_diag. cbn [Z.to_nat skipn].
      split; assumption.
Qed.

(** X2: [Lex] is greedy and nothing of what follows the lexeme decides it.
    The lexeme is a prefix of the source text, and the scan stops only where
    no rule lets it go on: at the end of the text, or at a character that is
    neither alphanumeric nor an underscore and that is not a point followed
    by an alphanumeric character in a lexeme without a point yet, nor a sign
    followed by an alphanumeric character right after the exponent letter.
    Lexing the characters of the lexeme alone returns the same lexeme, with
    the same offsets of the point and of the exponent. *)
Theorem X2_Lex_is_greedy source_text lit :
  Lex source_text = Some lit ->
  exists dropped,
    source_text = StringRef.chars (text lit) ++ dropped /\
    match dropped with
    | [] => True
    | c :: after =>
        IsAlnum c = false /\ c <> "_"%char /\
        (c = "."%char -> next_is_alnum after = true ->
         radix_point lit < size (text lit)) /\
        (c = "+"%char \/ c = "-"%char -> next_is_alnum after = true ->
         exponent lit <> size (text lit) - 1)
    end /\
    Lex (StringRef.chars (text lit))
    = Some (mkLiteral (StringRef.of_list (StringRef.chars (text lit)))
                      (radix_point lit) (exponent lit)).
Proof.
  intros Hlex.
  destruct (Lex_taken _ _ Hlex)
    as (c & taken & dropped & st & Hsrc & Hc & Hscan & Hown & Hstop & Hlit & Hch).
  exists dropped. rewrite Hch. split; [exact Hsrc|]. split.
  - pose proof (Lex_scan_stop _ _ _ _ _ Hscan) as Hrule.
    replace (Z.to_nat (1 + Z.of_nat (length taken) - 1)) with (length taken) in Hrule by lia.
    rewrite skipn_app, Nat.sub_diag, skipn_all in Hrule. cbn [app skipn] in Hrule.
    destruct dropped as [| d after]; [exact I|].
    destruct Hstop as [Ha Hu]. destruct Hrule as [Hdot Hsign].
    assert (Hinit : lex_inv [c] Lex_init).
    { constructor; cbn; try discriminate.
      repeat constructor. apply decimal_digit_lexeme_char. assumption. }
    change 1 with (Z.of_nat (length [c])) in Hown.
    destruct (Lex_scan_inv taken [c] Lex_init _ st Hinit Hown)
      as (taken' & dropped' & Hsplit & Hj & [_ Hpoint _]).
    assert (Hsize : size (text lit) = 1 + Z.of_nat (length taken)).
    { rewrite Hlit. unfold size. cbn [text StringRef.len]. lia. }
    rewrite Hsize. rewrite Hlit. cbn [radix_point exponent].
    split; [exact Ha|]. split; [exact Hu|]. split.
    + intros -> Hnext. rewrite Hnext in Hdot. cbn [Ascii.eqb andb] in Hdot.
      change (Ascii.eqb "." ".") with true in Hdot. cbn [andb] in Hdot.
      apply negb_false_iff in Hdot. rewrite Hdot.
      destruct (Hpoint Hdot) as [Hr _]. rewrite <- Hj in Hr. cbn [length] in Hr. lia.
    + intros Hd Hnext. rewrite Hnext, andb_true_r in Hsign.
      replace (Ascii.eqb d "+" || Ascii.eqb d "-") with true in Hsign
        by (destruct Hd as [-> | ->]; reflexivity).
      cbn [andb] in Hsign.
      replace (1 + Z.of_nat (length taken) - 1) with (Z.of_nat (length taken)) in * by lia.
      destruct (seen_potential_exponent st); cbn [andb] in Hsign; [|lia].
      apply Z.eqb_neq in Hsign. exact Hsign.
  - unfold Lex. rewrite Hc. cbn [negb]. rewrite Hown.
    destruct (lexeme_view (c :: taken) (c :: taken) [] ltac:(symmetry; apply app_nil_r))
      as [Hv _].
    cbn [length] in Hv.
    replace (1 + Z.of_nat (length taken)) with (Z.of_nat (S (length taken))) by lia.
    rewrite Hv. subst lit. cbn [radix_point exponent].
    replace (1 + Z.of_nat (length taken)) with (Z.of_nat (S (length taken))) by lia.
    reflexivity.
Qed.

(** The lexeme of [12.5e-3] before a point that starts no fraction. *)
Definition lexeme_12_5e_3b : LexedNumericLiteral :=
  mkLiteral (StringRef.mk (str "12.5e-3.x") 0 7) 2 4.

Lemma X2_witness :
  exists dropped,
    str "12.5e-3.x" = StringRef.chars (text lexeme_12_5e_3b) ++ dropped /\
    match dropped with
    | [] => True
    | c :: after =>
        IsAlnum c = false /\ c <> "_"%char /\
        (c = "."%char -> next_is_alnum after = true ->
         radix_point lexeme_12_5e_3b < size (text lexeme_12_5e_3b)) /\
        (c = "+"%char \/ c = "-"%char -> next_is_alnum after = true ->
         exponent lexeme_12_5e_3b <> size (text lexeme_12_5e_3b) - 1)
    end /\
    Lex (StringRef.chars (text lexeme_12_5e_3b))
    = Some (mkLiteral (StringRef.of_list (StringRef.chars (text lexeme_12_5e_3b)))
                      (radix_point lexeme_12_5e_3b) (exponent lexeme_12_5e_3b)).
Proof. apply (X2_Lex_is_greedy (str "12.5e-3.x") lexeme_12_5e_3b). reflexivity. Defined.

(** X3: on a lexeme of [Lex], whatever the emitter holds, [ComputeValue]
    never reaches [llvm_unreachable]: it returns a value, which is
    [UnrecoverableError] exactly when [Check] fails, an integer for a lexeme
    without a point and a real of radix 10 or 2 for one with a point. *)
Theorem X3_ComputeValue_returns source_text lit em :
  Lex source_text = Some lit ->
  let p := Parser_new em lit in
  exists v,
    fst (ComputeValue lit em) = Some v /\
    match v with
    | UnrecoverableError => fst (Check p) = false
    | IntegerValue _ => fst (Check p) = true /\ IsInteger p = true
    | RealValue r _ _ => fst (Check p) = true /\ IsInteger p = false /\ (r = 10 \/ r = 2)
    end.
Proof.
  intros Hlex p. apply Lex_wf in Hlex.
  assert (Hp : p = prepend em (Parser_new [] lit)) by apply Parser_new_prepend.
  assert (Hcheck : fst (Check p) = fst (Check (Parser_new [] lit))).
  { rewrite Hp, Check_prepend. reflexivity. }
  assert (Hint : IsInteger p = IsInteger (Parser_new [] lit)) by (rewrite Hp; reflexivity).
  rewrite ComputeValue_frame. cbn [fst]. rewrite Hcheck, Hint.
  destruct (fst (Check (Parser_new [] lit))) eqn:Hc.
  - pose proof Hc as Hpass. apply Check_true in Hpass.
    destruct (ComputeValue_checked lit Hlex Hpass) as (_ & Hi & Hr).
    destruct (IsInteger (Parser_new [] lit)) eqn:Hii.
    + destruct (Hi eq_refl) as (v & Hv & _). exists (IntegerValue v). rewrite Hv. auto.
    + destruct (Hr eq_refl) as (m & e & Hv & _). eexists. rewrite Hv.
      split; [reflexivity|]. repeat split.
      destruct (radix (Parser_new [] lit) =? 10); auto.
  - exists UnrecoverableError. split; [|reflexivity].
    apply NumericLiteralClaims.ComputeValue_failed. exact Hc.
Qed.

Lemma X3_witness :
  exists v, fst (ComputeValue lexeme_12_5e_3 [BinaryRealLiteral]) = Some v.
Proof.
  destruct (X3_ComputeValue_returns (str "12.5e-3;") lexeme_12_5e_3 [BinaryRealLiteral] eq_refl)
    as (v & Hv & _).
  exists v. exact Hv.
Defined.

(** X4: [ComputeValue] returns [UnrecoverableError] exactly when it emits one
    of the diagnostics [EmptyDigitSequence], [InvalidDigit],
    [UnknownBaseSpecifier] or [WrongRealLiteralExponent]; validation stops at
    the first of them, so it is then the last diagnostic emitted and the only
    one of these four. *)
Theorem X4_unrecoverable_iff_fatal lit em :
  exists new,
    snd (ComputeValue lit em) = em ++ new /\
    (fst (ComputeValue lit em) = Some UnrecoverableError <-> existsb fatal new = true) /\
    (fst (ComputeValue lit em) = Some UnrecoverableError -> ends_fatal new).
Proof.
  destruct (Check_diagnostics (Parser_new em lit)) as (new & Hnew & Hkind).
  destruct (Parser_new_fields lit em) as (_ & Hem & _). rewrite Hem in Hnew.
  exists new. rewrite NumericLiteralClaims.ComputeValue_snd. split; [exact Hnew|].
  unfold ComputeValue. destruct (Check (Parser_new em lit)) as [b q]. cbn [fst snd] in *.
  destruct b; cbn [negb fst].
  - rewrite (not_fatal_exists new Hkind).
    match goal with
    | |- (?x = _ <-> _) /\ _ => assert (Hno : x <> Some UnrecoverableError)
    end.
    { destruct (IsInteger q); cbn [fst]; [destruct (GetMantissa q); discriminate|].
      destruct (GetMantissa q); [|discriminate]. destruct (GetExponent q); discriminate. }
    split; [split; [intros H; contradiction | discriminate] | intros H; contradiction].
  - rewrite (ends_fatal_exists new Hkind). split; [split; reflexivity | intros _; exact Hkind].
Qed.

(** X5: a decimal lexeme that starts with [0] followed by anything but a
    point is rejected on its leading zero, before its digits are looked at:
    [ComputeValue] returns [UnrecoverableError] and emits
    [UnknownBaseSpecifier] and nothing else. *)
Theorem X5_leading_zero source_text lit em c rest :
  Lex source_text = Some lit ->
  StringRef.chars (text lit) = "0"%char :: c :: rest ->
  c <> "x"%char -> c <> "b"%char -> c <> "."%char ->
  ComputeValue lit em = (Some UnrecoverableError, em ++ [UnknownBaseSpecifier]).
Proof.
  intros Hlex Ht Hx Hb Hd. pose proof (Lex_wf _ _ Hlex) as Hwf.
  destruct (Parser_new_int lit Hwf em) as (_ & Hradix & Hchars).
  destruct (Parser_new_fields lit em) as (_ & Hem & _).
  pose proof Hwf as [_ Hlen _ Hp _ Hreal]. unfold size in *.
  rewrite Ht in *. cbn [length] in Hlen.
  assert (Hrp : (2 <= Z.to_nat (radix_point lit))%nat).
  { destruct (Z.eq_dec (radix_point lit) (Z.of_nat (StringRef.len (text lit)))) as [E | E];
      [lia|].
    destruct (Hreal ltac:(lia)) as [_ Hdot].
    destruct (Z.to_nat (radix_point lit)) as [| [| k]]; [discriminate Hdot | | lia].
    cbn in Hdot. congruence. }
  destruct (Z.to_nat (radix_point lit)) as [| [| k]]; [lia | lia |].
  cbn [firstn] in Hradix, Hchars.
  assert (Hnx : Ascii.eqb c "x" = false) by (apply Ascii.eqb_neq; assumption).
  assert (Hnb : Ascii.eqb c "b" = false) by (apply Ascii.eqb_neq; assumption).
  unfold prefix_radix, prefix_len in *.
  cbn [StringRef.list_startswith str list_ascii_of_string] in Hradix, Hchars.
  change (Ascii.eqb "0" "0") with true in Hradix, Hchars.
  rewrite Hnx, Hnb in Hradix, Hchars. cbn [andb skipn] in Hradix, Hchars.
  unfold ComputeValue, Check, CheckLeadingZero.
  unfold StringRef.startswith, StringRef.equals. rewrite Hradix, Hchars.
  cbn [Z.eqb Pos.eqb StringRef.list_startswith StringRef.list_eqb str list_ascii_of_string].
  change (Ascii.eqb "0" "0") with true. cbn [andb negb fst snd emitter emit].
  rewrite Hem. reflexivity.
Qed.

(** The lexeme of [007]. *)
Definition lexeme_007 : LexedNumericLiteral := mkLiteral (StringRef.mk (str "007") 0 3) 3 3.

Lemma X5_witness :
  Lex (str "007") = Some lexeme_007 /\
  ComputeValue lexeme_007 [] = (Some UnrecoverableError, [UnknownBaseSpecifier]).
Proof.
  split; [reflexivity|].
  apply (X5_leading_zero (str "007") lexeme_007 [] "0" (str "7")); (reflexivity || discriminate).
Defined.

End NumericLiteralProperties.

Module NumericCheckVerdicts.

Import CharacterSet Digits DigitsFacts DigitSequenceFacts APIntFacts.
Import NumericLiteral StringRefFacts NumericLexFacts NumericParserFacts NumericValueFacts.
Import NumericComputeFacts NumericLexProperties NumericLexShape NumericCheckProperties.
Import DigitSeparatorProperties.

Lemma sep_count_all text :
  sep_count text = Z.of_nat (length text) <-> Forall (eq "_"%char) text.
Proof.
  induction text as [| c text IH]; [split; [constructor | reflexivity]|].
  rewrite sep_count_cons. pose proof (sep_count_bounds text) as Hb.
  unfold is_separator. cbn [length]. split.
  - intros H. destruct (Ascii.eqb_spec c "_") as [-> | Hc]; [|lia].
    constructor; [reflexivity | apply IH; lia].
  - intros H. inversion H as [| ? ? Hc Ht]; subst.
    apply IH in Ht. change (Ascii.eqb "_" "_") with true. cbv iota. lia.
Qed.

Lemma not_all_separators text :
  sep_count text <> Z.of_nat (length text) -> exists c, In c text /\ c <> "_"%char.
Proof.
  induction text as [| c text IH]; [intros H; exfalso; apply H; reflexivity|].
  intros H. destruct (Ascii.eqb_spec c "_") as [-> | Hc].
  - destruct IH as (d & Hin & Hd).
    + intros E. apply H. rewrite sep_count_cons, E.
      change (is_separator "_") with true. cbn [length]. lia.
    + exists d. split; [right; assumption | assumption].
  - exists c. split; [left; reflexivity | assumption].
Qed.

(** The verdict of [CheckDigitSequence] in terms of the tables of valid
    digits.  The first character that is neither in the table of the radix
    nor an underscore makes the check fail with [InvalidDigit] for that
    character; a text of underscores only (or an empty text) makes it fail
    with [EmptyDigitSequence]; every other text passes.  Before the verdict
    the check emits [InvalidDigitSeparator]s and nothing else. *)
Lemma CheckDigitSequence_verdict text radix allow_digit_separators :
  let r := CheckDigitSequence text radix allow_digit_separators in
  exists seps,
    Forall (eq InvalidDigitSeparator) seps /\
    ((exists before c after,
        text = before ++ c :: after /\ Forall (passes radix) before /\
        valid_digits radix c = false /\ c <> "_"%char /\
        r = (mkResult false false, seps ++ [InvalidDigit c radix])) \/
     (Forall (eq "_"%char) text /\
      r = (mkResult false false, seps ++ [EmptyDigitSequence])) \/
     (Forall (passes radix) text /\ (exists c, In c text /\ c <> "_"%char) /\
      r = (mkResult true (negb (sep_count text =? 0)),
           seps ++ (if sep_count text =? 0 then []
                    else CheckDigitSeparatorPlacement text radix (sep_count text))))).
Proof.
  cbv zeta. unfold CheckDigitSequence.
  destruct (first_invalid radix text) as [Hall | (before & c & after & -> & Hb & Hv & Hc)].
  - pose proof (digit_loop_spec radix allow_digit_separators text None 0 []) as H.
    destruct (digit_loop_passes radix allow_digit_separators text Hall None 0 []) as [em' Hrun].
    rewrite Hrun in H |- *. destruct H as (_ & _ & seps & -> & Hseps). cbn [app].
    rewrite Z.add_0_l. exists seps. split; [assumption|]. right.
    destruct (Z.eqb_spec (sep_count text) (Z.of_nat (length text))) as [E | E].
    + left. split; [apply sep_count_all; assumption | reflexivity].
    + right. split; [assumption|]. split; [apply not_all_separators; assumption|].
      destruct (sep_count text =? 0); cbn [negb]; [rewrite app_nil_r|]; reflexivity.
  - destruct (digit_loop_first_invalid radix allow_digit_separators before c after None 0 []
                Hb Hv Hc) as (seps & Hrun & Hseps).
    rewrite Hrun. cbn [app]. exists seps. split; [assumption|]. left.
    exists before, c, after. repeat split; auto.
Qed.

(** A character the digit loop of [CheckDigitSequence] lets pass: a digit of
    the radix, an underscore, or the NUL byte, which the tables of valid
    digits hold because they are filled from string literals with their
    terminating NUL. *)
Definition accepted (radix : Z) (c : ascii) : Prop :=
  is_digit radix c = true \/ c = zero \/ c = "_"%char.

Lemma valid_digits_nul radix : known_radix radix -> valid_digits radix zero = true.
Proof. intros [-> | [-> | ->]]; reflexivity. Qed.

Lemma passes_accepted radix c : known_radix radix -> (passes radix c <-> accepted radix c).
Proof.
  intros Hr. unfold passes, accepted. split.
  - intros [Hv | ->]; [|right; right; reflexivity].
    destruct (ascii_dec c zero) as [-> | Hz]; [right; left; reflexivity|].
    left. apply valid_digits_digit; assumption.
  - intros [Hd | [-> | ->]].
    + left. apply digit_valid_digits; assumption.
    + left. apply valid_digits_nul. assumption.
    + right. reflexivity.
Qed.

(** X6: the verdict of [CheckDigitSequence] for a radix of 2, 10 or 16.  The
    characters the check accepts are the digits of the radix, the underscore
    and the NUL byte.  The first character that is none of these makes the
    check fail with [InvalidDigit] for that character; a text of underscores
    only (or an empty text) makes it fail with [EmptyDigitSequence]; every
    other text passes, with [has_digit_separators] set when it holds an
    underscore and the separator placement checked in that case only.  Before
    the verdict the check emits [InvalidDigitSeparator]s and nothing else. *)
Theorem X6_CheckDigitSequence_verdict text radix allow_digit_separators :
  known_radix radix ->
  let r := CheckDigitSequence text radix allow_digit_separators in
  exists seps,
    Forall (eq InvalidDigitSeparator) seps /\
    ((exists before c after,
        text = before ++ c :: after /\ Forall (accepted radix) before /\
        ~ accepted radix c /\
        r = (mkResult false false, seps ++ [InvalidDigit c radix])) \/
     (Forall (eq "_"%char) text /\
      r = (mkResult false false, seps ++ [EmptyDigitSequence])) \/
     (Forall (accepted radix) text /\ (exists c, In c text /\ c <> "_"%char) /\
      r = (mkResult true (negb (sep_count text =? 0)),
           seps ++ (if sep_count text =? 0 then []
                    else CheckDigitSeparatorPlacement text radix (sep_count text))))).
Proof.
  intros Hr.
  assert (Hall : forall l, Forall (passes radix) l -> Forall (accepted radix) l).
  { intros l H. eapply Forall_impl; [|exact H]. intros c. apply passes_accepted. exact Hr. }
  destruct (CheckDigitSequence_verdict text radix allow_digit_separators)
    as (seps & Hseps & [H | [H | H]]).
  - destruct H as (before & c & after & Htext & Hb & Hv & Hc & Heq).
    exists seps. split; [exact Hseps|]. left. exists before, c, after.
    split; [exact Htext|]. split; [apply Hall; exact Hb|]. split; [|exact Heq].
    intros Ha. apply (passes_accepted radix c Hr) in Ha.
    destruct Ha as [Ha | Ha]; [congruence | contradiction].
  - exists seps. split; [exact Hseps|]. right. left. exact H.
  - destruct H as (Hp & Hne & Heq).
    exists seps. split; [exact Hseps|]. right. right.
    split; [apply Hall; exact Hp|]. split; [exact Hne | exact Heq].
Qed.

(** A NUL byte among decimal digits passes. *)
Lemma X6_witness :
  exists seps,
    Forall (eq InvalidDigitSeparator) seps /\
    ((exists before c after,
        str "1" ++ [zero] ++ str "2_" = before ++ c :: after /\
        Forall (accepted 10) before /\ ~ accepted 10 c /\
        CheckDigitSequence (str "1" ++ [zero] ++ str "2_") 10 true
        = (mkResult false false, seps ++ [InvalidDigit c 10])) \/
     (Forall (eq "_"%char) (str "1" ++ [zero] ++ str "2_") /\
      CheckDigitSequence (str "1" ++ [zero] ++ str "2_") 10 true
      = (mkResult false false, seps ++ [EmptyDigitSequence])) \/
     (Forall (accepted 10) (str "1" ++ [zero] ++ str "2_") /\
      (exists c, In c (str "1" ++ [zero] ++ str "2_") /\ c <> "_"%char) /\
      CheckDigitSequence (str "1" ++ [zero] ++ str "2_") 10 true
      = (mkResult true (negb (sep_count (str "1" ++ [zero] ++ str "2_") =? 0)),
         seps ++ (if sep_count (str "1" ++ [zero] ++ str "2_") =? 0 then []
                  else CheckDigitSeparatorPlacement (str "1" ++ [zero] ++ str "2_") 10
                         (sep_count (str "1" ++ [zero] ++ str "2_")))))).
Proof.
  apply (X6_CheckDigitSequence_verdict (str "1" ++ [zero] ++ str "2_") 10 true).
  right. left. reflexivity.
Defined.

(** X7: the placement check of the digit separators is exact.  For radix 10
    (stride 4) and radix 16 (stride 5), called with the number of underscores
    of the text, [CheckDigitSeparatorPlacement] emits nothing exactly when
    the underscores stand at the positions whose distance to the end of the
    text is a multiple of the stride, and at no other position; otherwise it
    emits [IrregularDigitSeparators] once. *)
Theorem X7_separator_placement_exact text radix :
  radix = 10 \/ radix = 16 ->
  let stride := if radix =? 10 then 4%nat else 5%nat in
  (CheckDigitSeparatorPlacement text radix (sep_count text) = []
   <-> separators_at_stride stride text) /\
  (CheckDigitSeparatorPlacement text radix (sep_count text) = [] \/
   CheckDigitSeparatorPlacement text radix (sep_count text) = [IrregularDigitSeparators radix]).
Proof.
  intros Hr. cbv zeta. unfold CheckDigitSeparatorPlacement.
  assert (H2 : (radix =? 2) = false) by (destruct Hr as [-> | ->]; reflexivity).
  rewrite H2. split; [|apply placement_loop_one].
  pose proof (fun k => placement_loop_exact radix k (length text) text 0 (length text)
                         eq_refl ltac:(lia) ltac:(lia)) as H.
  rewrite Z.add_0_r in H.
  destruct Hr as [-> | ->]; cbn [Z.eqb Pos.eqb].
  - rewrite (H 3%nat). tauto.
  - rewrite (H 4%nat). tauto.
Qed.

Lemma X7_witness : separators_at_stride 4 (str "12_345_678").
Proof.
  apply (proj1 (proj1 (X7_separator_placement_exact (str "12_345_678") 10
                         (or_introl eq_refl)))).
  reflexivity.
Defined.

(** X9: [ComputeValue] only appends to the emitter and reads nothing of it:
    the value does not depend on the diagnostics emitted before, and the
    emitter afterwards is the emitter before followed by what the literal
    alone emits. *)
Theorem X9_emitter_is_appended_to lit em :
  ComputeValue lit em = (fst (ComputeValue lit []), em ++ snd (ComputeValue lit [])).
Proof. apply ComputeValue_frame. Qed.

End NumericCheckVerdicts.

Module NumericParserProperties.

Import CharacterSet Digits DigitsFacts DigitSequenceFacts APIntFacts.
Import NumericLiteral StringRefFacts NumericLexFacts NumericParserFacts NumericValueFacts.
Import NumericComputeFacts NumericLexemeFacts.

(** X8: the constructor of the parser reads its parts off the characters of
    the lexeme, and they partition it as the comment
    [[radix] int_part [. fract_part [[ep] [+-] exponent_part]]] has it.  The
    radix is 16 after the prefix 0x, 2 after 0b, 10 otherwise; [int_part] is
    what stands before the point, without that prefix; [fract_part] is what
    stands between the point and the exponent letter; after the exponent
    letter a leading [+] or [-] is taken off, [exponent_part] is the rest, and
    [exponent_is_negative] is set exactly when that character is [-]; and
    the lexeme is the prefix, the integer part and, when there is a point,
    the point, the fractional part and, when there is an exponent letter,
    that letter, the sign and the exponent part. *)
Theorem X8_parser_parts source_text lit em :
  Lex source_text = Some lit ->
  let p := Parser_new em lit in
  (radix p = lexeme_radix lit /\
   StringRef.chars (int_part p) = lexeme_int_digits lit /\
   StringRef.chars (fract_part p) = lexeme_fract_digits lit /\
   exponent_is_negative p = lexeme_exponent_negative lit /\
   StringRef.chars (exponent_part p) = lexeme_exponent_digits lit) /\
  (lexeme_prefix lit = str "0x" /\ lexeme_radix lit = 16 \/
   lexeme_prefix lit = str "0b" /\ lexeme_radix lit = 2 \/
   lexeme_prefix lit = [] /\ lexeme_radix lit = 10) /\
  StringRef.chars (text lit)
  = lexeme_prefix lit ++ StringRef.chars (int_part p)
    ++ (if IsInteger p then []
        else "."%char :: StringRef.chars (fract_part p)
             ++ (if has_exponent p
                 then lexeme_marker lit :: lexeme_sign lit
                      ++ StringRef.chars (exponent_part p)
                 else [])).
Proof.
  intros Hlex p. pose proof (Lex_wf _ _ Hlex) as Hwf.
  destruct (parser_parts lit Hwf em) as (Hr & Hi & Hf & Hn & He & Hint & Hexp & _).
  fold p in Hr, Hi, Hf, Hn, He, Hint, Hexp.
  split; [repeat split; assumption|].
  split; [apply lexeme_prefix_radix|].
  rewrite Hi, Hf, He, Hint, Hexp.
  pose proof (lexeme_partition lit Hwf em) as Hpart.
  destruct (lexeme_has_point lit); exact Hpart.
Qed.

(** The lexeme of [0x1A.8p-3]. *)
Definition lexeme_0x1A_8p_3 : LexedNumericLiteral :=
  mkLiteral (StringRef.mk (str "0x1A.8p-3") 0 9) 4 6.

Lemma X8_witness :
  let p := Parser_new [] lexeme_0x1A_8p_3 in
  radix p = 16 /\ StringRef.chars (int_part p) = str "1A" /\
  StringRef.chars (fract_part p) = str "8" /\ exponent_is_negative p = true /\
  StringRef.chars (exponent_part p) = str "3".
Proof.
  exact (proj1 (X8_parser_parts (str "0x1A.8p-3") lexeme_0x1A_8p_3 [] eq_refl)).
Defined.

End NumericParserProperties.

(* ------------------------------------------------------------------------- *)
(** ** The string lexer: where the parts of a literal lie *)

Module StringLexFacts.

Import CharacterSet StringRefFacts StringLiteral StringDecoderFacts.

(** A content the lexer has walked over: every introducer in it is followed
    by a character of the content, which the lexer skipped. *)
Inductive lexable (escape : list ascii) : list ascii -> Prop :=
| lexable_nil : lexable escape []
| lexable_escape x rest :
    lexable escape rest -> lexable escape (escape ++ x :: rest)
| lexable_char c rest :
    StringRef.list_startswith (c :: rest) escape = false ->
    lexable escape rest -> lexable escape (c :: rest).

Lemma list_startswith_firstn n (l prefix : list ascii) :
  StringRef.list_startswith (firstn n l) prefix = true ->
  StringRef.list_startswith l prefix = true.
Proof.
  intros H. apply list_startswith_app in H. destruct H as [r Hr].
  rewrite <- (firstn_skipn n l), Hr, <- app_assoc. apply list_startswith_prefix.
Qed.

Lemma skipn_nth (l : list ascii) k :
  (k < length l)%nat -> skipn k l = nth k l nul :: skipn (S k) l.
Proof.
  revert k. induction l as [| c l IH]; intros k Hk; [cbn in Hk; lia|].
  destruct k as [| k]; [reflexivity|].
  cbn [skipn nth]. apply IH. cbn in Hk. lia.
Qed.

(** The characters from [from] up to [to]. *)
Definition slice (l : list ascii) (from to : nat) : list ascii :=
  firstn (to - from) (skipn from l).

Lemma slice_cons l from to :
  (from < to)%nat -> (from < length l)%nat ->
  slice l from to = nth from l nul :: slice l (S from) to.
Proof.
  intros Hlt Hlen. unfold slice. rewrite (skipn_nth l from Hlen).
  replace (to - from)%nat with (S (to - S from)) by lia. reflexivity.
Qed.

Lemma slice_empty l from : slice l from from = [].
Proof. unfold slice. rewrite Nat.sub_diag. reflexivity. Qed.

Lemma slice_prefix l from to (prefix : list ascii) :
  StringRef.list_startswith (skipn from l) prefix = true ->
  (from + length prefix <= to)%nat ->
  slice l from to = prefix ++ slice l (from + length prefix) to.
Proof.
  intros Hstart Hto. unfold slice.
  apply list_startswith_app in Hstart. destruct Hstart as [r Hr].
  rewrite Hr. rewrite firstn_app, firstn_all2 by lia. f_equal.
  replace (from + length prefix)%nat with (length prefix + from)%nat by lia.
  rewrite <- skipn_skipn, Hr, skipn_app, Nat.sub_diag, skipn_all. cbn [app skipn].
  f_equal. lia.
Qed.

Section Lex.

Variable source_text : list ascii.
Variable hash_level : nat.
Variable multi_line : bool.
Variable prefix_len : nat.
Variables terminator_tail escape_tail : list ascii.

Hypothesis escape_tail_no_newline : Forall (fun c => c <> newline) escape_tail.

Let terminator := double_quote :: terminator_tail.
Let escape := backslash :: escape_tail.
Let scan := Lex_scan source_text hash_level multi_line prefix_len terminator escape.

(** What the lexer has walked over: a lexable content that, in a single-line
    literal, holds no newline. *)
Definition walked (l : list ascii) : Prop :=
  lexable escape l /\ (multi_line = false -> Forall (fun c => c <> newline) l).

Lemma starts_with_single (l : list ascii) c tail :
  (length l > 0)%nat -> nth 0 l nul = c ->
  (length (c :: tail) =? 1)%nat || StringRef.list_startswith l (c :: tail) = true ->
  StringRef.list_startswith l (c :: tail) = true.
Proof.
  intros Hlen Hc H. apply orb_true_iff in H. destruct H as [H | H]; [|exact H].
  apply Nat.eqb_eq in H. destruct tail; [|discriminate H].
  destruct l as [| d l]; [cbn in Hlen; lia|]. cbn in Hc. subst d.
  cbn. rewrite Ascii.eqb_refl. destruct l; reflexivity.
Qed.

Lemma nth_skipn_0 (l : list ascii) k : nth 0 (skipn k l) nul = nth k l nul.
Proof.
  revert k. induction l as [| c l IH]; intros [| k]; try reflexivity.
  cbn [skipn]. rewrite IH. reflexivity.
Qed.

(** What the scanning loop returns when it reports a terminated literal:
    the terminator stands at some [e], the text ends after it, the content is
    what lies between the prefix and [e], and the loop has walked over the
    characters between [cursor] and [e]. *)
Lemma Lex_scan_terminated :
  forall fuel cursor lit,
    scan fuel cursor = lit -> is_terminated_ lit = true ->
    exists e,
      (cursor <= e)%nat /\ (e < length source_text)%nat /\
      StringRef.list_startswith (skipn e source_text) terminator = true /\
      lit = mkLiteral
              (StringRef.substr (StringRef.of_list source_text) 0
                                (Z.of_nat (e + length terminator)))
              (StringRef.substr (StringRef.of_list source_text) (Z.of_nat prefix_len)
                                (Z.of_nat e - Z.of_nat prefix_len))
              (Z.of_nat hash_level) multi_line true /\
      walked (slice source_text cursor e).
Proof.
  unfold scan.
  induction fuel as [| fuel IH]; intros cursor lit Hscan Hterm.
  - cbn in Hscan. subst lit. discriminate Hterm.
  - cbn [Lex_scan] in Hscan.
    destruct (Nat.ltb_spec cursor (length source_text)) as [Hin | Hout]; cbn [negb] in Hscan.
    2: { subst lit. discriminate Hterm. }
    assert (Hnext : forall c',
              (cursor < c')%nat ->
              Lex_scan source_text hash_level multi_line prefix_len terminator escape fuel c'
              = lit ->
              (forall e, (c' <= e)%nat ->
                 walked (slice source_text c' e) ->
                 walked (slice source_text cursor e)) ->
              exists e,
                (cursor <= e)%nat /\ (e < length source_text)%nat /\
                StringRef.list_startswith (skipn e source_text) terminator = true /\
                lit = mkLiteral
                        (StringRef.substr (StringRef.of_list source_text) 0
                                          (Z.of_nat (e + length terminator)))
                        (StringRef.substr (StringRef.of_list source_text) (Z.of_nat prefix_len)
                                          (Z.of_nat e - Z.of_nat prefix_len))
                        (Z.of_nat hash_level) multi_line true /\
                walked (slice source_text cursor e)).
    { intros c' Hc' Hrun Hlex.
      destruct (IH c' lit Hrun Hterm) as (e & He & Hlen & Hstart & Hlit & Hl).
      exists e. split; [lia|]. split; [exact Hlen|]. split; [exact Hstart|].
      split; [exact Hlit|]. apply Hlex; [exact He | exact Hl]. }
    assert (Hchar : forall e, (S cursor <= e)%nat ->
              StringRef.list_startswith (skipn cursor source_text) escape = false ->
              (multi_line = false -> nth cursor source_text nul <> newline) ->
              walked (slice source_text (S cursor) e) ->
              walked (slice source_text cursor e)).
    { intros e He Hno Hline [Hl Hn]. rewrite slice_cons by lia. split.
      - apply lexable_char; [|exact Hl].
        rewrite <- slice_cons by lia.
        destruct (StringRef.list_startswith (slice source_text cursor e) escape) eqn:E;
          [|reflexivity].
        apply list_startswith_firstn in E. congruence.
      - intros Hs. constructor; [apply Hline; exact Hs | apply Hn; exact Hs]. }
    assert (Hother : Ascii.eqb (nth cursor source_text nul) backslash = false ->
              StringRef.list_startswith (skipn cursor source_text) escape = false).
    { intros Hc. rewrite (skipn_nth source_text cursor Hin). cbn. rewrite Hc. reflexivity. }
    destruct (Ascii.eqb (nth cursor source_text nul) backslash) eqn:Hbs.
    + destruct ((length escape =? 1)%nat
                || StringRef.list_startswith (skipn cursor source_text) escape) eqn:Hesc.
      * assert (Hstart : StringRef.list_startswith (skipn cursor source_text) escape = true).
        { apply starts_with_single; [rewrite length_skipn; lia | | exact Hesc].
          rewrite nth_skipn_0. apply Ascii.eqb_eq. exact Hbs. }
        destruct ((length source_text <=? cursor + length escape)%nat
                  || negb multi_line
                     && Ascii.eqb (nth (cursor + length escape) source_text nul) newline)
                 eqn:Hstop.
        { subst lit. discriminate Hterm. }
        apply orb_false_iff in Hstop. destruct Hstop as [Hlen Hx].
        apply Nat.leb_gt in Hlen.
        apply (Hnext (S (cursor + length escape))); [lia | exact Hscan|].
        intros e He [Hl Hn].
        rewrite (slice_prefix source_text cursor e escape Hstart) by lia.
        rewrite slice_cons by lia. split; [apply lexable_escape; exact Hl|].
        intros Hs. rewrite Hs in Hx. cbn [negb andb] in Hx. apply Ascii.eqb_neq in Hx.
        apply Forall_app. split.
        -- constructor; [discriminate | exact escape_tail_no_newline].
        -- constructor; [exact Hx | apply Hn; exact Hs].
      * apply orb_false_iff in Hesc. destruct Hesc as [_ Hno].
        apply (Hnext (S cursor)); [lia | exact Hscan|].
        intros e He Hl. apply Hchar; auto.
        intros _ E. rewrite E in Hbs. discriminate Hbs.
    + destruct (Ascii.eqb (nth cursor source_text nul) newline) eqn:Hnl.
      * destruct multi_line eqn:Hml; cbn [negb] in Hscan; [|subst lit; discriminate Hterm].
        apply (Hnext (S cursor)); [lia | exact Hscan|].
        intros e He Hl. apply Hchar; auto. discriminate.
      * destruct (Ascii.eqb (nth cursor source_text nul) double_quote) eqn:Hdq.
        -- destruct ((length terminator =? 1)%nat
                     || StringRef.list_startswith (skipn cursor source_text) terminator)
                    eqn:Hend.
           ++ exists cursor. split; [lia|]. split; [exact Hin|].
              split; [|split; [symmetry; exact Hscan
                              | rewrite slice_empty; split; constructor]].
              apply starts_with_single; [rewrite length_skipn; lia | | exact Hend].
              rewrite nth_skipn_0. apply Ascii.eqb_eq. exact Hdq.
           ++ apply (Hnext (S cursor)); [lia | exact Hscan|].
              intros e He Hl. apply Hchar; auto.
              intros _. apply Ascii.eqb_neq. exact Hnl.
        -- apply (Hnext (S cursor)); [lia | exact Hscan|].
           intros e He Hl. apply Hchar; auto.
           intros _. apply Ascii.eqb_neq. exact Hnl.
Qed.

End Lex.

End StringLexFacts.

Module StringDecoderSafety.

Import CharacterSet StringRefFacts StringLiteral StringDecoderFacts StringLexFacts.

Section Lexable.

Variable escape_tail : list ascii.
Let escape := backslash :: escape_tail.

(** Dropping a character other than the backslash keeps a content
    lexable. *)
Lemma lexable_drop c rest :
  lexable escape (c :: rest) -> c <> backslash -> lexable escape rest.
Proof.
  intros H Hc. inversion H; subst; [congruence | assumption].
Qed.

Lemma lexable_drop_all pre rest :
  Forall (fun c => c <> backslash) pre -> lexable escape (pre ++ rest) -> lexable escape rest.
Proof.
  induction 1 as [| c pre Hc _ IH]; intros H; [exact H|].
  apply IH. apply (lexable_drop c); assumption.
Qed.

Lemma lexable_skipn n l :
  Forall (fun c => c <> backslash) (firstn n l) -> lexable escape l ->
  lexable escape (skipn n l).
Proof.
  intros Hpre H. rewrite <- (firstn_skipn n l) in H.
  apply (lexable_drop_all (firstn n l)); assumption.
Qed.

(** A backslash that starts no introducer is dropped alone. *)
Lemma lexable_drop_backslash c rest :
  lexable escape (c :: rest) -> StringRef.list_startswith (c :: rest) escape = false ->
  lexable escape rest.
Proof.
  intros H Hno. inversion H as [| x r Hr Heq | c' r Hs Hr]; subst.
  - change (backslash :: escape_tail ++ x :: r) with (escape ++ x :: r) in Hno.
    rewrite list_startswith_prefix in Hno. discriminate Hno.
  - assumption.
Qed.

(** After an introducer comes a character of the content. *)
Lemma lexable_after_escape rest0 :
  lexable escape (escape ++ rest0) -> exists x rest, rest0 = x :: rest /\ lexable escape rest.
Proof.
  intros H. inversion H as [| x r Hr Heq | c' r Hs Hr Heq].
  - apply app_inv_head in Heq. exists x, r. split; [symmetry; exact Heq | exact Hr].
  - change (backslash :: escape_tail ++ rest0) with (escape ++ rest0) in Hs.
    rewrite list_startswith_prefix in Hs. discriminate Hs.
Qed.

Lemma take_while_Forall p (l : list ascii) : Forall (fun c => p c = true) (take_while p l).
Proof.
  induction l as [| c l IH]; [constructor|].
  cbn [take_while]. destruct (p c) eqn:Hc; [constructor; assumption | constructor].
Qed.

Lemma take_while_firstn p (l : list ascii) :
  firstn (length (take_while p l)) l = take_while p l.
Proof.
  induction l as [| c l IH]; [reflexivity|].
  cbn [take_while]. destruct (p c); [|reflexivity].
  cbn [length firstn]. rewrite IH. reflexivity.
Qed.

Lemma drop_while_skipn p (l : list ascii) :
  drop_while p l = skipn (length (take_while p l)) l.
Proof.
  induction l as [| c l IH]; [reflexivity|].
  cbn [take_while drop_while]. destruct (p c); [|reflexivity].
  cbn [length skipn]. exact IH.
Qed.

Lemma lexable_skip_while p l :
  (forall c, p c = true -> c <> backslash) -> lexable escape l ->
  lexable escape (skipn (length (take_while p l)) l).
Proof.
  intros Hp H. apply lexable_skipn; [|exact H].
  rewrite take_while_firstn.
  eapply Forall_impl; [|apply take_while_Forall]. exact Hp.
Qed.

Lemma not_backslash_regular c : negb (end_of_regular_text c) = true -> c <> backslash.
Proof. intros H ->. discriminate H. Qed.

Lemma not_backslash_whitespace c : IsHorizontalWhitespace c = true -> c <> backslash.
Proof. intros H ->. discriminate H. Qed.

Lemma not_backslash_space c : IsSpace c = true -> c <> backslash.
Proof. intros H ->. discriminate H. Qed.

Lemma not_backslash_hex c : IsUpperHexDigit c = true -> c <> backslash.
Proof. intros H ->. discriminate H. Qed.

Lemma lexable_consume_front l prefix b l' :
  Forall (fun c => c <> backslash) prefix ->
  consume_front l prefix = (b, l') -> lexable escape l -> lexable escape l'.
Proof.
  intros Hp. unfold consume_front.
  destruct (StringRef.list_startswith l prefix) eqn:Hs; intros E; injection E as <- <-;
    [|auto].
  apply list_startswith_app in Hs. destruct Hs as [r ->].
  rewrite skipn_app, Nat.sub_diag, skipn_all. cbn [app skipn].
  apply lexable_drop_all. exact Hp.
Qed.

(** The head of the outer loop keeps the content lexable. *)
Lemma lexable_remove_indent indent l l' ds :
  Forall (fun c => c <> backslash) indent ->
  remove_indent indent l = (l', ds) -> lexable escape l -> lexable escape l'.
Proof.
  intros Hi. unfold remove_indent.
  destruct (consume_front l indent) as [b l0] eqn:E.
  destruct b; intros H; injection H as <- <-; intros Hl.
  - apply (lexable_consume_front l indent true l0 Hi E Hl).
  - rewrite drop_while_skipn. apply lexable_skip_while; [|exact Hl].
    exact not_backslash_whitespace.
Qed.

Variable CanLexInteger : list ascii -> bool * list Diagnostic.

(** Expanding an escape: the check of a non-empty content holds, and what is
    left is lexable. *)
Lemma ExpandAndConsumeEscapeSequence_lexable x rest result :
  lexable escape rest ->
  exists content' result' ds,
    ExpandAndConsumeEscapeSequence CanLexInteger (x :: rest) result
    = Some (content', result', ds) /\
    lexable escape content'.
Proof.
  intros Hl. unfold ExpandAndConsumeEscapeSequence.
  repeat match goal with
         | |- context [if Ascii.eqb x ?c then _ else _] => destruct (Ascii.eqb x c)
         end;
    try (do 3 eexists; split; [reflexivity | exact Hl]).
  - (* x *)
    destruct rest as [| c0 [| c1 rest']];
      try (do 3 eexists; split; [reflexivity | exact Hl]).
    destruct (IsUpperHexDigit c0 && IsUpperHexDigit c1) eqn:Hhex;
      [|do 3 eexists; split; [reflexivity | exact Hl]].
    apply andb_true_iff in Hhex. destruct Hhex as [H0 H1].
    do 3 eexists. split; [reflexivity|].
    apply (lexable_drop c1); [|apply not_backslash_hex; exact H1].
    apply (lexable_drop c0); [exact Hl | apply not_backslash_hex; exact H0].
  - (* u *)
    destruct (consume_front rest (str "{")) as [open remaining] eqn:Eopen.
    destruct open; [|do 3 eexists; split; [reflexivity | exact Hl]].
    assert (Hrem : lexable escape remaining).
    { apply (lexable_consume_front rest (str "{") true remaining); auto.
      repeat constructor. discriminate. }
    set (digits := take_while IsUpperHexDigit remaining).
    destruct (consume_front (skipn (length digits) remaining) (str "}"))
      as [closed remaining'] eqn:Eclose.
    destruct (negb (Nat.eqb (length digits) 0) && closed);
      [|do 3 eexists; split; [reflexivity | exact Hl]].
    destruct (ExpandUnicodeEscapeSequence CanLexInteger digits result)
      as [[expanded result'] ds].
    destruct expanded; cbn [negb]; do 3 eexists; (split; [reflexivity|]); [|exact Hl].
    apply (lexable_consume_front (skipn (length digits) remaining) (str "}") closed remaining');
      [repeat constructor; discriminate | exact Eclose|].
    apply lexable_skip_while; [exact not_backslash_hex | exact Hrem].
Qed.

(** One iteration of the inner loop on a lexable content: no check fails,
    and the content stays lexable. *)
Lemma expand_step_lexable indent s :
  Forall (fun c => c <> backslash) indent -> lexable escape (contents s) ->
  match expand_step CanLexInteger escape indent s with
  | Continue s' => lexable escape (contents s')
  | Return _ _ => True
  | Abort => False
  end.
Proof.
  intros Hi Hl. unfold expand_step.
  set (regular := take_while (fun c => negb (end_of_regular_text c)) (contents s)).
  assert (Hrest : lexable escape (skipn (length regular) (contents s))).
  { apply lexable_skip_while; [exact not_backslash_regular | exact Hl]. }
  destruct (skipn (length regular) (contents s)) as [| c after] eqn:Hskip; [exact I|].
  pose proof (take_while_stops _ _ _ _ Hskip) as Hstop. cbv beta in Hstop.
  apply negb_false_iff in Hstop.
  destruct (Ascii.eqb c newline) eqn:Hnl.
  - destruct (remove_indent indent after) as [l ds] eqn:E. cbn [contents].
    apply (lexable_remove_indent indent after l ds Hi E).
    apply (lexable_drop c); [exact Hrest|].
    apply Ascii.eqb_eq in Hnl. subst c. discriminate.
  - destruct (IsHorizontalWhitespace c) eqn:Hws.
    + destruct (Ascii.eqb c " ") eqn:Hsp.
      { unfold end_of_regular_text in Hstop. rewrite Hnl, Hws, Hsp in Hstop.
        apply Ascii.eqb_eq in Hsp. subst c. discriminate Hstop. }
      assert (Hafter : lexable escape
                (skipn (length (take_while IsHorizontalWhitespace (c :: after))) (c :: after))).
      { apply lexable_skip_while; [exact not_backslash_whitespace | exact Hrest]. }
      destruct (negb (StringRef.list_startswith _ [newline])); cbn [contents]; exact Hafter.
    + unfold consume_front at 1.
      destruct (StringRef.list_startswith (c :: after) escape) eqn:Hstart.
      * apply list_startswith_app in Hstart. destruct Hstart as [rest0 Hr0].
        rewrite Hr0 in Hrest |- *.
        rewrite skipn_app, Nat.sub_diag, skipn_all. cbn [app skipn negb].
        destruct (lexable_after_escape rest0 Hrest) as (x & rest & -> & Hlr).
        destruct (consume_front (x :: rest) [newline]) as [continuation l2] eqn:E2.
        destruct continuation.
        -- destruct (remove_indent indent l2) as [l ds] eqn:E. cbn [contents].
           apply (lexable_remove_indent indent l2 l ds Hi E).
           unfold consume_front in E2.
           destruct (StringRef.list_startswith (x :: rest) [newline]); [|discriminate E2].
           injection E2 as <-. exact Hlr.
        -- destruct (ExpandAndConsumeEscapeSequence_lexable x rest
                       (result s ++ regular) Hlr) as (c' & r' & ds & Hrun & Hc').
           rewrite Hrun. cbn [contents]. exact Hc'.
      * cbn [negb contents]. apply (lexable_drop_backslash c after); assumption.
Qed.

(** The decoder on a lexable content returns. *)
Lemma expand_run_lexable indent :
  Forall (fun c => c <> backslash) indent ->
  forall fuel s,
    (length (contents s) < fuel)%nat -> lexable escape (contents s) ->
    exists value emitted,
      expand_run CanLexInteger fuel escape indent s = Returned (value, emitted).
Proof.
  intros Hi. induction fuel as [| fuel IH]; intros s Hlen Hl; [lia|].
  cbn [expand_run].
  pose proof (expand_step_lexable indent s Hi Hl) as Hstep.
  destruct (expand_step CanLexInteger escape indent s) as [s' | r ds |] eqn:E.
  - apply expand_step_shrinks in E. apply IH; [lia | exact Hstep].
  - exists r, ds. reflexivity.
  - contradiction.
Qed.

End Lexable.

End StringDecoderSafety.

Module StringLexStructure.

Import CharacterSet StringRefFacts StringLiteral StringDecoderFacts StringLexFacts.
Import StringDecoderSafety.

Lemma find_if_from_spec p (s : list ascii) :
  forall at_ j, find_if_from p s at_ = Some j ->
    exists pre c post,
      s = pre ++ c :: post /\ Forall (fun x => p x = false) pre /\ p c = true /\
      j = (at_ + length pre)%nat.
Proof.
  induction s as [| x s IH]; intros at_ j H; [discriminate H|].
  cbn [find_if_from] in H. destruct (p x) eqn:Hx.
  - injection H as <-. exists [], x, s. cbn. repeat split; auto; lia.
  - destruct (IH _ _ H) as (pre & c & post & -> & Hpre & Hc & ->).
    exists (x :: pre), c, post. cbn [app length]. repeat split; auto; lia.
Qed.

(** A file type indicator: no hash, newline or double quote. *)
Definition indicator_char (c : ascii) : bool := negb (is_one_of [hash; newline; double_quote] c).

(** The prefix of a multi-line literal: three quotes, an indicator and a
    newline. *)
Lemma multi_line_prefix (l : list ascii) :
  0 < GetMultiLineStringLiteralPrefixSize l ->
  exists indicator rest,
    l = MultiLineIndicator ++ indicator ++ newline :: rest /\
    Forall (fun c => indicator_char c = true) indicator /\
    Z.to_nat (GetMultiLineStringLiteralPrefixSize l) = (3 + length indicator + 1)%nat.
Proof.
  unfold GetMultiLineStringLiteralPrefixSize.
  destruct (StringRef.list_startswith l MultiLineIndicator) eqn:Hstart; cbn [negb]; [|lia].
  apply list_startswith_app in Hstart. destruct Hstart as [r ->].
  change (skipn 3 (MultiLineIndicator ++ r)) with r.
  destruct (find_if_from (is_one_of [hash; newline; double_quote]) r 3) as [j |] eqn:Hfind;
    [|lia].
  destruct (find_if_from_spec _ _ _ _ Hfind) as (pre & c & post & -> & Hpre & Hc & ->).
  change (nth (3 + length pre) (MultiLineIndicator ++ pre ++ c :: post) nul)
    with (nth (length pre) (pre ++ c :: post) nul).
  rewrite app_nth2, Nat.sub_diag by lia. cbn [nth].
  destruct (Ascii.eqb_spec c newline) as [-> | Hne]; cbn [negb]; [|lia].
  intros _. exists pre, post. split; [reflexivity|]. split; [|lia].
  eapply Forall_impl; [|exact Hpre]. intros x Hx. unfold indicator_char. rewrite Hx. reflexivity.
Qed.

Lemma count_hashes_split (s : list ascii) :
  s = repeat hash (count_hashes s) ++ skipn (count_hashes s) s.
Proof.
  induction s as [| c s IH]; [reflexivity|].
  cbn [count_hashes]. destruct (Ascii.eqb_spec c hash) as [-> | Hne]; [|reflexivity].
  cbn [repeat skipn app]. rewrite <- IH. reflexivity.
Qed.

(** How [Lex] starts its scanning loop. *)
Lemma Lex_start source_text lit :
  Lex source_text = Some lit ->
  let k := count_hashes source_text in
  exists opener quotes after,
    source_text = repeat hash k ++ opener ++ after /\
    (exists tail, quotes = double_quote :: tail) /\
    lit = Lex_scan source_text k (negb (Nat.eqb (length quotes) 1)) (k + length opener)
            (quotes ++ repeat hash k) ([backslash] ++ repeat hash k)
            (length source_text) (k + length opener) /\
    ((quotes = MultiLineIndicator /\
      exists indicator, opener = MultiLineIndicator ++ indicator ++ [newline] /\
                        Forall (fun c => indicator_char c = true) indicator) \/
     (quotes = [double_quote] /\ opener = [double_quote])).
Proof.
  unfold Lex. cbv zeta. set (k := count_hashes source_text).
  pose proof (count_hashes_split source_text) as Hsplit. fold k in Hsplit.
  destruct (Z.ltb_spec 0 (GetMultiLineStringLiteralPrefixSize (skipn k source_text)))
    as [Hml | Hsl].
  - intros H. injection H as <-.
    destruct (multi_line_prefix _ Hml) as (indicator & rest & Hl & Hind & Hsize).
    exists (MultiLineIndicator ++ indicator ++ [newline]), MultiLineIndicator, rest.
    split; [|split; [eexists; reflexivity | split]].
    + rewrite Hsplit at 1. rewrite Hl, <- !app_assoc. reflexivity.
    + rewrite Hsize. rewrite !length_app. cbn [length MultiLineIndicator negb Nat.eqb].
      replace (k + (3 + (length indicator + 1)))%nat with (k + (3 + length indicator + 1))%nat
        by lia.
      reflexivity.
    + left. split; [reflexivity|]. exists indicator. split; [reflexivity | exact Hind].
  - destruct (Ascii.eqb (nth k source_text nul) double_quote
              && (k <? length source_text)%nat) eqn:Hq; [|discriminate].
    intros H. injection H as <-.
    apply andb_true_iff in Hq. destruct Hq as [Hq Hk].
    apply Ascii.eqb_eq in Hq. apply Nat.ltb_lt in Hk.
    exists [double_quote], [double_quote], (skipn (S k) source_text).
    split; [|split; [eexists; reflexivity | split]].
    + rewrite Hsplit at 1. rewrite (skipn_nth source_text k Hk), Hq. reflexivity.
    + cbn [length negb Nat.eqb]. replace (k + 1)%nat with (S k) by lia. reflexivity.
    + right. split; reflexivity.
Qed.

(** The views of a terminated literal. *)
Lemma terminated_views (source_text : list ascii) p e n :
  (p <= e)%nat -> (e + n <= length source_text)%nat ->
  StringRef.substr (StringRef.of_list source_text) 0 (Z.of_nat (e + n))
  = StringRef.mk source_text 0 (e + n) /\
  StringRef.substr (StringRef.of_list source_text) (Z.of_nat p) (Z.of_nat e - Z.of_nat p)
  = StringRef.mk source_text p (e - p).
Proof.
  intros Hp He. unfold StringRef.substr, StringRef.of_list.
  cbn [StringRef.buf StringRef.off StringRef.len].
  rewrite !clamp_nonneg by lia. split; f_equal; lia.
Qed.

Lemma chars_slice (l : list ascii) from to :
  StringRef.chars (StringRef.mk l from (to - from)) = slice l from to.
Proof. reflexivity. Qed.

Lemma firstn_plus (l : list ascii) m n :
  firstn (m + n) l = firstn m l ++ firstn n (skipn m l).
Proof.
  revert l. induction m as [| m IH]; intros l; [reflexivity|].
  destruct l as [| x l]; [cbn; rewrite firstn_nil; reflexivity|].
  cbn [Nat.add firstn skipn app]. rewrite IH. reflexivity.
Qed.

Lemma slice_app (l : list ascii) a b c :
  (a <= b)%nat -> (b <= c)%nat -> slice l a c = slice l a b ++ slice l b c.
Proof.
  intros Hab Hbc. unfold slice.
  replace (c - a)%nat with ((b - a) + (c - b))%nat by lia.
  rewrite firstn_plus, skipn_skipn. do 3 f_equal. lia.
Qed.

Lemma slice_all (l : list ascii) a : slice l a (length l) = skipn a l.
Proof. unfold slice. apply firstn_all2. rewrite length_skipn. lia. Qed.

Lemma slice_startswith (l prefix : list ascii) e :
  (e <= length l)%nat ->
  StringRef.list_startswith (skipn e l) prefix = true ->
  (e + length prefix <= length l)%nat /\ slice l e (e + length prefix) = prefix.
Proof.
  intros He H. apply list_startswith_app in H. destruct H as [r Hr].
  assert (Hlen : length (skipn e l) = (length prefix + length r)%nat)
    by (rewrite Hr; apply length_app).
  rewrite length_skipn in Hlen.
  split.
  - lia.
  - unfold slice. rewrite Hr. replace (e + length prefix - e)%nat with (length prefix) by lia.
    rewrite firstn_app, Nat.sub_diag, firstn_all. cbn [firstn]. apply app_nil_r.
Qed.

Lemma slice_0_app (l1 l2 : list ascii) : slice (l1 ++ l2) 0 (length l1) = l1.
Proof.
  unfold slice. cbn [skipn]. rewrite Nat.sub_0_r, firstn_app, Nat.sub_diag, firstn_all.
  cbn [firstn]. apply app_nil_r.
Qed.

(** A terminated literal of [Lex]: where its parts lie in the source text,
    and that the lexer has walked over its content. *)
Lemma Lex_terminated source_text lit :
  Lex source_text = Some lit -> is_terminated_ lit = true ->
  let k := count_hashes source_text in
  exists opener quotes e,
    let p := (k + length opener)%nat in
    let terminator := quotes ++ repeat hash k in
    (p <= e)%nat /\ (e + length terminator <= length source_text)%nat /\
    slice source_text 0 p = repeat hash k ++ opener /\
    slice source_text e (e + length terminator) = terminator /\
    lit = mkLiteral (StringRef.mk source_text 0 (e + length terminator))
                    (StringRef.mk source_text p (e - p))
                    (Z.of_nat k) (negb (Nat.eqb (length quotes) 1)) true /\
    lexable (backslash :: repeat hash k) (slice source_text p e) /\
    (length quotes = 1%nat -> Forall (fun c => c <> newline) (slice source_text p e)) /\
    ((quotes = MultiLineIndicator /\
      exists indicator, opener = MultiLineIndicator ++ indicator ++ [newline] /\
                        Forall (fun c => indicator_char c = true) indicator) \/
     (quotes = [double_quote] /\ opener = [double_quote])).
Proof.
  intros Hlex Hterm k.
  destruct (Lex_start source_text lit Hlex)
    as (opener & quotes & after & Hsrc & (tail & Hq) & Hlit & Hkind).
  fold k in Hsrc, Hlit.
  exists opener, quotes.
  rewrite Hq in Hlit. cbn [app] in Hlit.
  assert (Hhashes : Forall (fun c => c <> newline) (repeat hash k)).
  { rewrite Forall_forall. intros c Hc. apply repeat_spec in Hc. subst c. discriminate. }
  destruct (Lex_scan_terminated source_text k (negb (Nat.eqb (length (double_quote :: tail)) 1))
              (k + length opener) (tail ++ repeat hash k) (repeat hash k) Hhashes
              (length source_text) (k + length opener) lit (eq_sym Hlit) Hterm)
    as (e & He & Hlen & Hstart & Hview & Hlexable & Hline).
  exists e. cbv zeta. rewrite Hq. cbn [app].
  destruct (slice_startswith source_text (double_quote :: tail ++ repeat hash k) e
              ltac:(lia) Hstart) as [Hfit Hslice].
  destruct (terminated_views source_text (k + length opener) e
              (length (double_quote :: tail ++ repeat hash k)) He Hfit) as [Hv1 Hv2].
  rewrite Hv1, Hv2 in Hview.
  split; [exact He|]. split; [exact Hfit|]. split.
  - rewrite Hsrc at 1. rewrite app_assoc.
    replace (k + length opener)%nat with (length (repeat hash k ++ opener))
      by (rewrite length_app, repeat_length; reflexivity).
    apply slice_0_app.
  - split; [exact Hslice|]. split; [exact Hview|]. split; [exact Hlexable|].
    split; [|rewrite <- Hq; exact Hkind].
    intros H1. apply Hline. rewrite H1. reflexivity.
Qed.

End StringLexStructure.

(* ------------------------------------------------------------------------- *)
(** ** The string decoder: indent, escapes and lengths *)

Module StringIndentFacts.

Import CharacterSet StringRefFacts StringLiteral StringDecoderFacts StringLexFacts.
Import StringDecoderSafety StringLexStructure.

Lemma take_while_app_all p (l1 l2 : list ascii) :
  forallb p l1 = true -> take_while p (l1 ++ l2) = l1 ++ take_while p l2.
Proof.
  induction l1 as [| c l1 IH]; intros H; [reflexivity|].
  cbn [forallb] in H. apply andb_true_iff in H. destruct H as [Hc Hl].
  cbn [app take_while]. rewrite Hc, IH by assumption. reflexivity.
Qed.

Lemma take_while_app_stop p (l1 l2 : list ascii) :
  forallb p l1 = false -> take_while p (l1 ++ l2) = take_while p l1.
Proof.
  induction l1 as [| c l1 IH]; intros H; [discriminate H|].
  cbn [forallb] in H. cbn [app take_while].
  destruct (p c); [|reflexivity]. cbn [andb] in H. rewrite IH by assumption. reflexivity.
Qed.

Lemma take_while_all p (l : list ascii) : forallb p l = true -> take_while p l = l.
Proof.
  intros H. rewrite <- (app_nil_r l) at 1. rewrite take_while_app_all by assumption.
  apply app_nil_r.
Qed.

(** The loop of [ComputeIndentOfFinalLine] over the last line: [l1] is what
    of the line is still to be visited. *)
Lemma indent_loop_line before (l1 : list ascii) :
  forall l2 indent_end,
    Forall (fun c => c <> newline) l1 ->
    indent_loop (before ++ newline :: l1 ++ l2) (length before + 1 + length l1) indent_end
    = Some ((length before + 1)%nat,
            if forallb IsSpace l1 then indent_end
            else (length before + 1 + length (take_while IsSpace l1))%nat).
Proof.
  induction l1 as [| c l1 IH] using rev_ind; intros l2 indent_end Hline.
  - cbn [length app forallb]. replace (length before + 1 + 0)%nat with (S (length before)) by lia.
    cbn [indent_loop]. rewrite app_nth2, Nat.sub_diag by lia. cbn [nth].
    rewrite Ascii.eqb_refl. do 2 f_equal. lia.
  - apply Forall_app in Hline. destruct Hline as [Hl1 Hc].
    inversion Hc as [| ? ? Hcn _]; subst.
    rewrite length_app. cbn [length].
    replace (length before + 1 + (length l1 + 1))%nat
      with (S (length before + 1 + length l1)) by lia.
    cbn [indent_loop].
    assert (Hnth : nth (length before + 1 + length l1)
                       (before ++ newline :: (l1 ++ [c]) ++ l2) nul = c).
    { rewrite app_nth2 by lia.
      replace (length before + 1 + length l1 - length before)%nat with (S (length l1)) by lia.
      cbn [nth]. rewrite <- app_assoc. rewrite app_nth2, Nat.sub_diag by lia. reflexivity. }
    rewrite Hnth.
    replace (Ascii.eqb c newline) with false by (symmetry; apply Ascii.eqb_neq; assumption).
    rewrite <- app_assoc. rewrite (IH ([c] ++ l2) _ Hl1).
    f_equal. f_equal. rewrite forallb_app. cbn [forallb]. rewrite andb_true_r.
    destruct (forallb IsSpace l1) eqn:Hall; cbn [andb].
    + destruct (IsSpace c) eqn:Hsp; cbn [negb]; [reflexivity|].
      rewrite take_while_app_all by assumption. cbn [take_while]. rewrite Hsp.
      rewrite app_nil_r. reflexivity.
    + rewrite take_while_app_stop by assumption. reflexivity.
Qed.

Lemma indent_loop_no_newline (text : list ascii) :
  forall n indent_end,
    Forall (fun c => c <> newline) (firstn n text) -> (n <= length text)%nat ->
    indent_loop text n indent_end = None.
Proof.
  induction n as [| n IH]; intros indent_end Hall Hn; [reflexivity|].
  cbn [indent_loop].
  assert (Hsplit : firstn (S n) text = firstn n text ++ [nth n text nul]).
  { clear IH Hall. revert n Hn. induction text as [| c text IH]; intros n Hn;
      [cbn in Hn; lia|].
    destruct n as [| n]; [reflexivity|].
    cbn [firstn nth app] in *. rewrite <- IH by (cbn in Hn; lia). reflexivity. }
  rewrite Hsplit in Hall. apply Forall_app in Hall. destruct Hall as [Hpre Hc].
  inversion Hc as [| ? ? Hne _]; subst.
  replace (Ascii.eqb (nth n text nul) newline) with false
    by (symmetry; apply Ascii.eqb_neq; assumption).
  apply IH; [assumption | lia].
Qed.

(** The last line of a text: what follows its last newline, the whole text
    when it has none. *)
Fixpoint final_line (l : list ascii) : list ascii :=
  match l with
  | [] => []
  | c :: l' =>
      if existsb (Ascii.eqb newline) l' then final_line l'
      else if Ascii.eqb newline c then l' else l
  end.

Lemma final_line_spec (l : list ascii) :
  Forall (fun c => c <> newline) (final_line l) /\
  ((~ In newline l /\ final_line l = l) \/
   (exists before, l = before ++ newline :: final_line l)).
Proof.
  induction l as [| c l (IH1 & IH2)].
  - split; [constructor | left; split; [intros [] | reflexivity]].
  - cbn [final_line]. destruct (existsb (Ascii.eqb newline) l) eqn:Hex.
    + split; [exact IH1|]. right.
      destruct IH2 as [[Hno _] | [before Hb]].
      * exfalso. apply Hno. apply existsb_exists in Hex. destruct Hex as (x & Hin & Hx).
        apply Ascii.eqb_eq in Hx. subst x. exact Hin.
      * exists (c :: before). cbn [app]. rewrite <- Hb. reflexivity.
    + assert (Hno : ~ In newline l).
      { intros Hin. assert (existsb (Ascii.eqb newline) l = true); [|congruence].
        apply existsb_exists. exists newline. split; [exact Hin | apply Ascii.eqb_refl]. }
      assert (Hall : Forall (fun x => x <> newline) l).
      { rewrite Forall_forall. intros x Hx ->. contradiction. }
      destruct (Ascii.eqb_spec newline c) as [<- | Hne].
      * split; [exact Hall|]. right. exists []. reflexivity.
      * split; [constructor; [congruence | exact Hall]|].
        left. split; [|reflexivity]. intros [E | Hin]; [congruence | contradiction].
Qed.

Lemma final_line_app (l1 l2 : list ascii) :
  Forall (fun c => c <> newline) l2 -> final_line (l1 ++ newline :: l2) = l2.
Proof.
  intros Hl2. induction l1 as [| c l1 IH].
  - cbn [app final_line].
    replace (existsb (Ascii.eqb newline) l2) with false; [rewrite Ascii.eqb_refl; reflexivity|].
    symmetry. apply not_true_iff_false. intros H. apply existsb_exists in H.
    destruct H as (x & Hin & Hx). apply Ascii.eqb_eq in Hx. subst x.
    rewrite Forall_forall in Hl2. apply (Hl2 newline Hin). reflexivity.
  - cbn [app final_line].
    replace (existsb (Ascii.eqb newline) (l1 ++ newline :: l2)) with true; [exact IH|].
    symmetry. apply existsb_exists. exists newline.
    split; [apply in_or_app; right; left; reflexivity | apply Ascii.eqb_refl].
Qed.

(** [ComputeIndentOfFinalLine] on a view that lies in its buffer: the indent
    is the leading whitespace of the last line; without a newline the
    function reaches [llvm_unreachable]. *)
Lemma ComputeIndentOfFinalLine_spec (text : StringRef.t) :
  length (StringRef.chars text) = StringRef.len text ->
  (~ In newline (StringRef.chars text) -> ComputeIndentOfFinalLine text = None) /\
  (forall before line,
     StringRef.chars text = before ++ newline :: line ->
     Forall (fun c => c <> newline) line ->
     ComputeIndentOfFinalLine text
     = Some (StringRef.mk (StringRef.buf text) (StringRef.off text + (length before + 1))
                          (length (take_while IsSpace line)))).
Proof.
  intros Hlen. unfold ComputeIndentOfFinalLine. split.
  - intros Hno. rewrite indent_loop_no_newline; [reflexivity | | lia].
    rewrite <- Hlen, firstn_all. rewrite Forall_forall. intros x Hx ->. contradiction.
  - intros before line Hsplit Hline.
    assert (Hn : StringRef.len text = (length before + 1 + length line)%nat).
    { rewrite <- Hlen, Hsplit, length_app. cbn [length]. lia. }
    rewrite Hsplit, Hn. rewrite <- (app_nil_r line) at 1.
    rewrite (indent_loop_line before line [] _ Hline).
    assert (Htw : (length (take_while IsSpace line) <= length line)%nat).
    { rewrite <- (take_while_firstn IsSpace line), length_firstn at 1. lia. }
    assert (Hend : (if forallb IsSpace line
                    then (length before + 1 + length line)%nat
                    else (length before + 1 + length (take_while IsSpace line))%nat)
                   = (length before + 1 + length (take_while IsSpace line))%nat).
    { destruct (forallb IsSpace line) eqn:Hall; [|reflexivity].
      rewrite take_while_all by assumption. reflexivity. }
    rewrite Hend. unfold StringRef.substr.
    rewrite !clamp_nonneg by lia. f_equal. f_equal; lia.
Qed.

End StringIndentFacts.

Module StringEscapeFacts.

Import CharacterSet Digits DigitsFacts APIntFacts StringRefFacts StringLiteral.
Import StringDecoderFacts StringLexFacts StringDecoderSafety StringLiteralClaims.

Lemma ConvertUTF32toUTF8_length ch :
  length (LLVM.ConvertUTF32toUTF8 ch)
  = if ch <? 128 then 1%nat else if ch <? 2048 then 2%nat
    else if ch <? 65536 then 3%nat else 4%nat.
Proof.
  unfold LLVM.ConvertUTF32toUTF8.
  destruct (ch <? 128); [reflexivity|].
  destruct (ch <? 2048); [reflexivity|].
  destruct (ch <? 65536); reflexivity.
Qed.

Lemma ConvertUTF32toUTF8_bound ch : (1 <= length (LLVM.ConvertUTF32toUTF8 ch) <= 4)%nat.
Proof.
  rewrite ConvertUTF32toUTF8_length.
  destruct (ch <? 128); [lia|]. destruct (ch <? 2048); [lia|].
  destruct (ch <? 65536); lia.
Qed.

Lemma consume_front_true l prefix l' :
  consume_front l prefix = (true, l') -> l = prefix ++ l'.
Proof.
  unfold consume_front. destruct (StringRef.list_startswith l prefix) eqn:H; [|discriminate].
  intros E. injection E as <-. apply list_startswith_app in H. destruct H as [r ->].
  rewrite skipn_app, Nat.sub_diag, skipn_all. reflexivity.
Qed.

Lemma take_while_length p (l : list ascii) :
  length l = (length (take_while p l) + length (skipn (length (take_while p l)) l))%nat.
Proof. rewrite (take_while_skipn p l) at 1. apply length_app. Qed.

Lemma pop_trailing_space_length (r : list ascii) :
  (length (pop_trailing_space r) <= length r)%nat.
Proof.
  unfold pop_trailing_space. rewrite length_rev.
  pose proof (drop_while_length (fun c => negb (Ascii.eqb c newline) && IsSpace c) (rev r)).
  rewrite length_rev in H. exact H.
Qed.

Section Decoder.

Variable CanLexInteger : list ascii -> bool * list Diagnostic.

(** [ExpandUnicodeEscapeSequence] leaves [result] as it is when it fails and
    appends one to four bytes when it succeeds. *)
Lemma ExpandUnicodeEscapeSequence_result digits result :
  match ExpandUnicodeEscapeSequence CanLexInteger digits result with
  | (false, result', _) => result' = result
  | (true, result', _) =>
      exists utf8, result' = result ++ utf8 /\ (1 <= length utf8 <= 4)%nat
  end.
Proof.
  unfold ExpandUnicodeEscapeSequence.
  destruct (CanLexInteger digits) as [can ds]. destruct can; cbn [negb]; [|reflexivity].
  destruct (LLVM.getAsUnsigned digits 16) as [v |]; [|reflexivity].
  destruct (1114111 <? v); [reflexivity|].
  destruct ((55296 <=? v) && (v <? 57344)); [reflexivity|].
  eexists. split; [reflexivity | apply ConvertUTF32toUTF8_bound].
Qed.

(** An escape appends no more bytes than it consumes characters. *)
Lemma ExpandAndConsumeEscapeSequence_length content result content' result' ds :
  ExpandAndConsumeEscapeSequence CanLexInteger content result = Some (content', result', ds) ->
  (length result' + length content' <= length result + length content)%nat.
Proof.
  unfold ExpandAndConsumeEscapeSequence.
  destruct content as [| first content]; [discriminate|]. cbn [length].
  repeat match goal with
         | |- context [if Ascii.eqb first ?c then _ else _] => destruct (Ascii.eqb first c)
         end;
    try (intros H; injection H as <- <- <-; rewrite length_app; cbn [length]; lia).
  - (* x *)
    destruct content as [| c0 [| c1 rest]];
      try (intros H; injection H as <- <- <-; rewrite length_app; cbn [length]; lia).
    destruct (IsUpperHexDigit c0 && IsUpperHexDigit c1);
      intros H; injection H as <- <- <-; rewrite length_app; cbn [length]; lia.
  - (* u *)
    destruct (consume_front content (str "{")) as [open remaining] eqn:Eopen.
    destruct open;
      [|intros H; injection H as <- <- <-; rewrite length_app; cbn [length]; lia].
    apply consume_front_true in Eopen.
    set (digits := take_while IsUpperHexDigit remaining).
    pose proof (take_while_length IsUpperHexDigit remaining) as Hlen. fold digits in Hlen.
    destruct (consume_front (skipn (length digits) remaining) (str "}"))
      as [closed remaining'] eqn:Eclose.
    destruct (negb (Nat.eqb (length digits) 0) && closed) eqn:Hok;
      [|intros H; injection H as <- <- <-; rewrite length_app; cbn [length]; lia].
    apply andb_true_iff in Hok. destruct Hok as [Hne ->].
    apply negb_true_iff, Nat.eqb_neq in Hne.
    apply consume_front_true in Eclose. rewrite Eclose in Hlen.
    rewrite length_app in Hlen. subst content. rewrite length_app. cbn [length str
      list_ascii_of_string] in *.
    pose proof (ExpandUnicodeEscapeSequence_result digits result) as Hres.
    destruct (ExpandUnicodeEscapeSequence CanLexInteger digits result)
      as [[expanded r] dsu].
    destruct expanded; cbn [negb]; intros H; injection H as <- <- <-.
    + destruct Hres as (utf8 & -> & Hu). rewrite length_app. lia.
    + subst r. rewrite !length_app. cbn [length]. lia.
Qed.

(** An iteration of the inner loop does not lengthen what the decoder holds:
    the bytes decoded so far together with the content left. *)
Lemma expand_step_length escape indent s :
  match expand_step CanLexInteger escape indent s with
  | Continue s' =>
      (length (result s') + length (contents s') <= length (result s) + length (contents s))%nat
  | Return value _ => (length value <= length (result s) + length (contents s))%nat
  | Abort => True
  end.
Proof.
  unfold expand_step.
  set (regular := take_while (fun c => negb (end_of_regular_text c)) (contents s)).
  pose proof (take_while_length (fun c => negb (end_of_regular_text c)) (contents s)) as Hlen.
  fold regular in Hlen.
  destruct (skipn (length regular) (contents s)) as [| c after] eqn:Hrest.
  - rewrite length_app. lia.
  - cbn [length] in Hlen.
    destruct (Ascii.eqb c newline).
    + destruct (remove_indent indent after) as [l ds] eqn:E.
      apply remove_indent_length in E. cbn [result contents].
      pose proof (pop_trailing_space_length (result s ++ regular)) as Hpop.
      rewrite !length_app in *. cbn [length]. lia.
    + destruct (IsHorizontalWhitespace c) eqn:Hws.
      * destruct (Ascii.eqb c " "); [exact I|].
        pose proof (take_while_length IsHorizontalWhitespace (c :: after)) as Hsp.
        cbn [length] in Hsp.
        destruct (negb (StringRef.list_startswith _ [newline])); cbn [result contents];
          rewrite ?length_app; lia.
      * destruct (consume_front (c :: after) escape) as [is_escape l1] eqn:E1.
        apply consume_front_length in E1. cbn [length] in E1.
        destruct is_escape; cbn [negb].
        -- destruct (consume_front l1 [newline]) as [continuation l2] eqn:E2.
           apply consume_front_length in E2.
           destruct continuation.
           ++ destruct (remove_indent indent l2) as [l ds] eqn:E.
              apply remove_indent_length in E. cbn [result contents].
              rewrite length_app. lia.
           ++ destruct (ExpandAndConsumeEscapeSequence CanLexInteger l1 (result s ++ regular))
                as [[[l r] ds] |] eqn:E; [|exact I].
              apply ExpandAndConsumeEscapeSequence_length in E. cbn [result contents].
              rewrite length_app in E. lia.
        -- cbn [result contents]. rewrite !length_app. cbn [length]. lia.
Qed.

Lemma expand_run_length escape indent :
  forall fuel s value ds,
    expand_run CanLexInteger fuel escape indent s = Returned (value, ds) ->
    (length value <= length (result s) + length (contents s))%nat.
Proof.
  induction fuel as [| fuel IH]; intros s value ds H; [discriminate H|].
  cbn [expand_run] in H.
  pose proof (expand_step_length escape indent s) as Hstep.
  destruct (expand_step CanLexInteger escape indent s) as [s' | r e |]; [| |discriminate H].
  - apply IH in H. lia.
  - injection H as <- <-. exact Hstep.
Qed.

(** The decoded value is no longer than the content. *)
Lemma ComputeValue_length lit emitter value ds :
  ComputeValue CanLexInteger lit emitter = Returned (value, ds) ->
  (length value <= length (StringRef.chars (content_ lit)))%nat.
Proof.
  assert (Hrun : forall em content hl indent,
            ExpandEscapeSequencesAndRemoveIndent CanLexInteger em content hl indent
            = Returned (value, ds) ->
            (length value <= length content)%nat).
  { intros em content hl indent. unfold ExpandEscapeSequencesAndRemoveIndent.
    destruct (remove_indent indent content) as [l e] eqn:E.
    apply remove_indent_length in E. intros H. apply expand_run_length in H.
    cbn [result contents length] in H. lia. }
  unfold ComputeValue.
  destruct (is_terminated_ lit); cbn [negb].
  - destruct (multi_line_ lit); [|apply Hrun].
    destruct (CheckIndent (text_ lit) (content_ lit)) as [[indent e] |]; [|discriminate].
    apply Hrun.
  - intros H. injection H as <- _. cbn. lia.
Qed.

(** A braced escape of a code point that is neither too large nor a
    surrogate. *)
Lemma valid_unicode_escape_expansion digits rest result :
  digits <> [] -> Forall (fun c => IsUpperHexDigit c = true) digits ->
  fst (CanLexInteger digits) = true ->
  digits_value 16 digits <= 1114111 ->
  ~ 55296 <= digits_value 16 digits < 57344 ->
  ExpandAndConsumeEscapeSequence CanLexInteger
    (str "u{" ++ digits ++ "}"%char :: rest) result
  = Some (rest, result ++ LLVM.ConvertUTF32toUTF8 (digits_value 16 digits),
          snd (CanLexInteger digits)).
Proof.
  intros Hne Hall Hcan Hmax Hsur.
  unfold ExpandAndConsumeEscapeSequence.
  cbn [str list_ascii_of_string app].
  change (Ascii.eqb "u" "t") with false. change (Ascii.eqb "u" "n") with false.
  change (Ascii.eqb "u" "r") with false. change (Ascii.eqb "u" double_quote) with false.
  change (Ascii.eqb "u" single_quote) with false. change (Ascii.eqb "u" backslash) with false.
  change (Ascii.eqb "u" "0") with false. change (Ascii.eqb "u" "x") with false.
  change (Ascii.eqb "u" "u") with true. cbv iota.
  unfold consume_front at 1.
  cbn [StringRef.list_startswith length skipn].
  change (Ascii.eqb "{" "{") with true. cbn [andb].
  replace (StringRef.list_startswith (digits ++ "}"%char :: rest) []) with true
    by (destruct digits; reflexivity).
  cbv iota. rewrite take_while_digits by assumption.
  rewrite skipn_app, Nat.sub_diag, skipn_all. cbn [app skipn].
  unfold consume_front. cbn [StringRef.list_startswith length skipn].
  change (Ascii.eqb "}" "}") with true. cbn [andb].
  replace (StringRef.list_startswith rest []) with true by (destruct rest; reflexivity).
  cbv iota.
  replace (Nat.eqb (length digits) 0) with false
    by (destruct digits; [congruence | reflexivity]).
  cbn [negb andb].
  unfold ExpandUnicodeEscapeSequence.
  destruct (CanLexInteger digits) as [can ds]. cbn [fst snd] in *. subst can. cbn [negb].
  rewrite getAsUnsigned_hex by assumption.
  set (v := digits_value 16 digits) in *.
  replace (v <? 2 ^ 32) with true
    by (symmetry; apply Z.ltb_lt; change (2 ^ 32) with 4294967296; lia).
  replace (1114111 <? v) with false by (symmetry; apply Z.ltb_ge; lia).
  replace ((55296 <=? v) && (v <? 57344)) with false; [reflexivity|].
  symmetry. apply andb_false_iff.
  destruct (Z.leb_spec 55296 v); [right; apply Z.ltb_ge; lia | left; reflexivity].
Qed.

(** The escape [x] followed by two upper-case hexadecimal digits. *)
Lemma hex_escape_expansion h l rest result :
  IsUpperHexDigit h = true -> IsUpperHexDigit l = true ->
  ExpandAndConsumeEscapeSequence CanLexInteger ("x"%char :: h :: l :: rest) result
  = Some (rest, result ++ [LLVM.byte (16 * digit_value h + digit_value l)], []).
Proof.
  intros Hh Hl. unfold ExpandAndConsumeEscapeSequence.
  change (Ascii.eqb "x" "t") with false. change (Ascii.eqb "x" "n") with false.
  change (Ascii.eqb "x" "r") with false. change (Ascii.eqb "x" double_quote) with false.
  change (Ascii.eqb "x" single_quote) with false. change (Ascii.eqb "x" backslash) with false.
  change (Ascii.eqb "x" "0") with false. change (Ascii.eqb "x" "x") with true. cbv iota.
  rewrite Hh, Hl. cbn [andb]. do 4 f_equal.
  unfold LLVM.hexFromNibbles, LLVM.hexDigitValue.
  rewrite upper_hex_is_digit in Hh, Hl.
  destruct (CharVal_digit 16 h ltac:(right; right; reflexivity) Hh) as [-> Hhb].
  destruct (CharVal_digit 16 l ltac:(right; right; reflexivity) Hl) as [-> Hlb].
  do 2 f_equal.
  rewrite lor_shiftl_small by (try change (2 ^ 4) with 16; lia).
  change (2 ^ 4) with 16. lia.
Qed.

End Decoder.

End StringEscapeFacts.

Module StringLiteralFacts.

Import CharacterSet Digits DigitsFacts StringRefFacts StringLiteral.
Import StringDecoderFacts StringLexFacts StringDecoderSafety StringLexStructure.
Import StringIndentFacts StringEscapeFacts.

Lemma slice_length (l : list ascii) a b :
  (a <= b)%nat -> (b <= length l)%nat -> length (slice l a b) = (b - a)%nat.
Proof. intros Hab Hb. unfold slice. rewrite length_firstn, length_skipn. lia. Qed.

Lemma chars_prefix (l : list ascii) n :
  StringRef.chars (StringRef.mk l 0 n) = slice l 0 n.
Proof. unfold slice. rewrite Nat.sub_0_r. reflexivity. Qed.

Lemma take_while_full p (l : list ascii) :
  (length (take_while p l) =? length l)%nat = forallb p l.
Proof.
  induction l as [| c l IH]; [reflexivity|].
  cbn [take_while forallb]. destruct (p c); cbn [length andb]; [exact IH | reflexivity].
Qed.

Lemma take_while_before_quote (fl tail : list ascii) :
  take_while IsSpace (fl ++ double_quote :: tail) = take_while IsSpace fl.
Proof.
  destruct (forallb IsSpace fl) eqn:Hall.
  - rewrite take_while_app_all by assumption. cbn [take_while].
    change (IsSpace double_quote) with false. cbv iota.
    rewrite app_nil_r. symmetry. apply take_while_all. assumption.
  - apply take_while_app_stop. assumption.
Qed.

(** The lay-out of a terminated multi-line literal of [Lex] around the last
    line of its content. *)
Lemma multi_line_layout source_text lit :
  Lex source_text = Some lit -> is_terminated_ lit = true -> multi_line_ lit = true ->
  let fl := final_line (StringRef.chars (content_ lit)) in
  exists before tail dropped,
    source_text = (before ++ newline :: fl ++ double_quote :: tail) ++ dropped /\
    Forall (fun c => c <> newline) (fl ++ double_quote :: tail) /\
    text_ lit = StringRef.mk source_text 0
                  (length (before ++ newline :: fl ++ double_quote :: tail)) /\
    StringRef.buf (content_ lit) = source_text /\
    StringRef.end_ (content_ lit) = (length before + 1 + length fl)%nat.
Proof.
  intros Hlex Hterm Hml fl.
  destruct (Lex_terminated source_text lit Hlex Hterm)
    as (opener & quotes & e & Hpe & Hfit & Hopen & Hclose & Hlit & _ & _ & Hkind).
  cbv zeta in *. set (k := count_hashes source_text) in *.
  set (p := (k + length opener)%nat) in *.
  set (T := length (quotes ++ repeat hash k)) in *.
  assert (Hq : quotes = MultiLineIndicator /\
               exists indicator, opener = MultiLineIndicator ++ indicator ++ [newline]).
  { destruct Hkind as [[Hq (ind & Ho & _)] | [Hq _]]; [split; [exact Hq | exists ind; exact Ho]|].
    rewrite Hlit, Hq in Hml. discriminate Hml. }
  destruct Hq as (Hq & indicator & Hopener).
  assert (Hcontent : StringRef.chars (content_ lit) = slice source_text p e).
  { rewrite Hlit. reflexivity. }
  assert (Hfl : fl = final_line (slice source_text p e)) by (unfold fl; rewrite Hcontent; reflexivity).
  assert (Htext : slice source_text 0 (e + T)
                  = (repeat hash k ++ opener) ++ slice source_text p e
                    ++ quotes ++ repeat hash k).
  { rewrite (slice_app source_text 0 p (e + T)) by lia.
    rewrite (slice_app source_text p e (e + T)) by lia.
    rewrite Hopen, Hclose. reflexivity. }
  assert (Hclen : length (slice source_text p e) = (e - p)%nat) by (apply slice_length; lia).
  assert (Hplen : length (repeat hash k ++ opener) = p).
  { rewrite length_app, repeat_length. reflexivity. }
  destruct (final_line_spec (slice source_text p e)) as [Hline Hsplit].
  rewrite <- Hfl in Hline, Hsplit.
  assert (Hlay : exists before,
            slice source_text 0 (e + T)
            = before ++ newline :: fl ++ double_quote :: (skipn 1 quotes ++ repeat hash k) /\
            (length before + 1 + length fl)%nat = e).
  { rewrite Htext, Hq. cbn [MultiLineIndicator skipn app].
    destruct Hsplit as [[_ Hall] | [cb Hcb]].
    - exists (repeat hash k ++ MultiLineIndicator ++ indicator).
      rewrite <- Hall. split.
      + rewrite Hopener, <- !app_assoc. reflexivity.
      + rewrite Hopener in Hplen. rewrite <- Hall in Hclen.
        rewrite !length_app in *. cbn [length] in *. lia.
    - exists ((repeat hash k ++ opener) ++ cb). split.
      + rewrite Hcb at 1. rewrite <- !app_assoc. reflexivity.
      + rewrite Hcb in Hclen. rewrite !length_app in *. cbn [length] in *. lia. }
  destruct Hlay as (before & Hlay & He).
  exists before, (skipn 1 quotes ++ repeat hash k), (skipn (e + T) source_text).
  assert (Hlen : length (before ++ newline :: fl ++ double_quote :: skipn 1 quotes ++ repeat hash k)
                 = (e + T)%nat).
  { rewrite <- Hlay, slice_length by lia. lia. }
  split; [|split; [|split; [|split]]].
  - rewrite <- Hlay. unfold slice. cbn [skipn]. rewrite Nat.sub_0_r.
    symmetry. apply firstn_skipn.
  - apply Forall_app. split; [exact Hline|]. rewrite Hq. cbn [skipn MultiLineIndicator app].
    repeat (constructor; [discriminate|]).
    rewrite Forall_forall. intros c Hc. apply repeat_spec in Hc. subst c. discriminate.
  - rewrite Hlen, Hlit. reflexivity.
  - rewrite Hlit. reflexivity.
  - rewrite Hlit. unfold StringRef.end_. cbn [content_ StringRef.off StringRef.len]. lia.
Qed.

(** [CheckIndent] on a terminated multi-line literal of [Lex]. *)
Lemma CheckIndent_multi_line source_text lit :
  Lex source_text = Some lit -> is_terminated_ lit = true -> multi_line_ lit = true ->
  let fl := final_line (StringRef.chars (content_ lit)) in
  exists indent,
    CheckIndent (text_ lit) (content_ lit)
    = Some (indent, if forallb IsSpace fl then [] else [ContentBeforeStringTerminator]) /\
    StringRef.chars indent = take_while IsSpace fl.
Proof.
  intros Hlex Hterm Hml fl.
  destruct (multi_line_layout source_text lit Hlex Hterm Hml)
    as (before & tail & dropped & Hsrc & Hline & Htext & Hbuf & Hend).
  fold fl in Hsrc, Hline, Htext, Hend.
  set (line := fl ++ double_quote :: tail) in *.
  assert (Hchars : StringRef.chars (text_ lit) = before ++ newline :: line).
  { rewrite Htext, chars_prefix. rewrite Hsrc at 1. apply slice_0_app. }
  assert (Hlen : length (StringRef.chars (text_ lit)) = StringRef.len (text_ lit)).
  { rewrite Hchars, Htext. reflexivity. }
  destruct (ComputeIndentOfFinalLine_spec (text_ lit) Hlen) as [_ Hsome].
  specialize (Hsome before line Hchars Hline).
  unfold line in Hsome. rewrite take_while_before_quote in Hsome.
  rewrite Htext in Hsome. cbn [StringRef.buf StringRef.off] in Hsome.
  eexists. unfold CheckIndent. rewrite Htext, Hsome. split.
  - f_equal. f_equal. unfold StringRef.end_ at 1. cbn [StringRef.off StringRef.len].
    rewrite Hend.
    replace (0 + (length before + 1) + length (take_while IsSpace fl) =?
             length before + 1 + length fl)%nat
      with (length (take_while IsSpace fl) =? length fl)%nat.
    + rewrite take_while_full. destruct (forallb IsSpace fl); reflexivity.
    + destruct (Nat.eqb_spec (length (take_while IsSpace fl)) (length fl));
        symmetry; [apply Nat.eqb_eq | apply Nat.eqb_neq]; lia.
  - rewrite chars_mk, Hsrc. cbn [Nat.add].
    rewrite <- app_assoc.
    replace (length before + 1)%nat with (length (before ++ [newline]))
      by (rewrite length_app; reflexivity).
    change (before ++ (newline :: line) ++ dropped)
      with (before ++ [newline] ++ (line ++ dropped)).
    rewrite app_assoc, skipn_app, Nat.sub_diag, skipn_all. cbn [app skipn].
    unfold line. rewrite <- app_assoc.
    rewrite <- (take_while_firstn IsSpace fl) at 2.
    assert (Htw : (length (take_while IsSpace fl) <= length fl)%nat).
    { rewrite <- (take_while_firstn IsSpace fl), length_firstn at 1. lia. }
    rewrite firstn_app. replace (length (take_while IsSpace fl) - length fl)%nat with 0%nat by lia.
    cbn [firstn]. apply app_nil_r.
Qed.

Section Decoder.

Variable CanLexInteger : list ascii -> bool * list Diagnostic.

(** The decoder returns on a lexable content. *)
Lemma decoder_returns emitter content k indent :
  lexable (backslash :: repeat hash k) content ->
  Forall (fun c => c <> backslash) indent ->
  exists value ds,
    ExpandEscapeSequencesAndRemoveIndent CanLexInteger emitter content (Z.of_nat k) indent
    = Returned (value, ds).
Proof.
  intros Hl Hi. unfold ExpandEscapeSequencesAndRemoveIndent. rewrite Nat2Z.id.
  destruct (remove_indent indent content) as [l ds] eqn:E.
  change ([backslash] ++ repeat hash k) with (backslash :: repeat hash k).
  apply (expand_run_lexable (repeat hash k) CanLexInteger indent Hi).
  - cbn [contents]. lia.
  - cbn [contents]. apply (lexable_remove_indent (repeat hash k) indent content l ds Hi E Hl).
Qed.

(** [ComputeValue] on a literal of [Lex]: it returns. *)
Lemma ComputeValue_returns source_text lit emitter :
  Lex source_text = Some lit ->
  exists value ds, ComputeValue CanLexInteger lit emitter = Returned (value, ds).
Proof.
  intros Hlex. unfold ComputeValue.
  destruct (is_terminated_ lit) eqn:Hterm; cbn [negb]; [|do 2 eexists; reflexivity].
  destruct (Lex_terminated source_text lit Hlex Hterm)
    as (opener & quotes & e & _ & _ & _ & _ & Hlit & Hlexable & _).
  cbv zeta in Hlit, Hlexable.
  assert (Hc : StringRef.chars (content_ lit)
               = slice source_text (count_hashes source_text + length opener) e)
    by (rewrite Hlit; reflexivity).
  assert (Hk : hash_level_ lit = Z.of_nat (count_hashes source_text))
    by (rewrite Hlit; reflexivity).
  rewrite <- Hc in Hlexable. rewrite Hk.
  destruct (multi_line_ lit) eqn:Hml.
  - destruct (CheckIndent_multi_line source_text lit Hlex Hterm Hml)
      as (indent & Hcheck & Hindent).
    rewrite Hcheck. apply decoder_returns; [exact Hlexable|].
    rewrite Hindent. eapply Forall_impl; [|apply take_while_Forall].
    exact not_backslash_space.
  - apply decoder_returns; [exact Hlexable | constructor].
Qed.

End Decoder.

End StringLiteralFacts.

(* ------------------------------------------------------------------------- *)
(** ** Raw strings: the backslashes that are data *)

Module RawStringFacts.

Import CharacterSet StringRefFacts StringLiteral StringDecoderFacts StringLexFacts.
Import StringDecoderSafety StringLexStructure StringEscapeFacts StringLiteralFacts.

(** *** The backslashes of a content and of a value *)

(** How many bytes of a string are backslashes. *)
Definition backslashes (l : list ascii) : nat :=
  length (filter (fun c => Ascii.eqb c backslash) l).

(** How many backslashes of a content are not followed by the hashes of the
    hash level, that is, do not start the introducer [escape]. *)
Fixpoint data_backslashes (escape content : list ascii) : nat :=
  match content with
  | [] => 0
  | c :: rest =>
      ((if Ascii.eqb c backslash && negb (StringRef.list_startswith (c :: rest) escape)
        then 1 else 0)
       + data_backslashes escape rest)%nat
  end.

Lemma backslashes_app a b : backslashes (a ++ b) = (backslashes a + backslashes b)%nat.
Proof. unfold backslashes. rewrite filter_app. apply length_app. Qed.

Lemma backslashes_none l : Forall (fun c => c <> backslash) l -> backslashes l = 0%nat.
Proof.
  unfold backslashes. induction 1 as [| c l Hc _ IH]; [reflexivity|].
  cbn [filter]. destruct (Ascii.eqb_spec c backslash); [contradiction | exact IH].
Qed.

Lemma backslashes_rev l : backslashes (rev l) = backslashes l.
Proof.
  induction l as [| c l IH]; [reflexivity|].
  cbn [rev]. rewrite backslashes_app, IH. unfold backslashes. cbn [filter].
  destruct (Ascii.eqb c backslash); cbn [length]; lia.
Qed.

Lemma data_backslashes_cons escape c l :
  (data_backslashes escape (c :: l)
   <= (if Ascii.eqb c backslash then 1 else 0) + data_backslashes escape l)%nat.
Proof.
  cbn [data_backslashes]. destruct (Ascii.eqb c backslash); cbn [andb]; [|lia].
  destruct (negb _); lia.
Qed.

Lemma data_backslashes_app escape a b :
  (data_backslashes escape (a ++ b) <= backslashes a + data_backslashes escape b)%nat.
Proof.
  induction a as [| c a IH]; [cbn; lia|].
  cbn [app]. pose proof (data_backslashes_cons escape c (a ++ b)) as H.
  change (c :: a) with ([c] ++ a). rewrite backslashes_app.
  unfold backslashes at 1. cbn [filter].
  destruct (Ascii.eqb c backslash); cbn [length] in *; lia.
Qed.

Lemma data_backslashes_skip escape a b :
  Forall (fun c => c <> backslash) a ->
  (data_backslashes escape (a ++ b) <= data_backslashes escape b)%nat.
Proof.
  intros H. pose proof (data_backslashes_app escape a b).
  rewrite (backslashes_none a H) in *. lia.
Qed.

Lemma data_backslashes_skipn escape n l :
  Forall (fun c => c <> backslash) (firstn n l) ->
  (data_backslashes escape l <= data_backslashes escape (skipn n l))%nat.
Proof.
  intros H. rewrite <- (firstn_skipn n l) at 1. apply data_backslashes_skip. exact H.
Qed.

Lemma hashes_not_backslash k : Forall (fun c => c <> backslash) (repeat hash k).
Proof.
  rewrite Forall_forall. intros c Hc. apply repeat_spec in Hc. subst c. discriminate.
Qed.

(** The backslash of an introducer is no data. *)
Lemma data_backslashes_escape k rest :
  (data_backslashes (backslash :: repeat hash k) ((backslash :: repeat hash k) ++ rest)
   <= data_backslashes (backslash :: repeat hash k) rest)%nat.
Proof.
  cbn [app data_backslashes].
  change (backslash :: repeat hash k ++ rest) with ((backslash :: repeat hash k) ++ rest).
  rewrite list_startswith_prefix. cbn [negb andb]. rewrite andb_false_r.
  apply data_backslashes_skip, hashes_not_backslash.
Qed.

Lemma pop_trailing_space_backslashes r :
  backslashes (pop_trailing_space r) = backslashes r.
Proof.
  unfold pop_trailing_space. rewrite backslashes_rev.
  set (f := fun c => negb (Ascii.eqb c newline) && IsSpace c).
  rewrite <- (backslashes_rev r).
  rewrite (take_while_skipn f (rev r)) at 2. rewrite backslashes_app.
  rewrite drop_while_skipn.
  rewrite (backslashes_none (take_while f (rev r))); [reflexivity|].
  eapply Forall_impl; [|apply take_while_Forall].
  intros c Hc. unfold f in Hc. apply andb_true_iff in Hc. destruct Hc as [_ Hc].
  apply not_backslash_space. exact Hc.
Qed.

Lemma remove_indent_backslashes escape indent l l' ds :
  Forall (fun c => c <> backslash) indent ->
  remove_indent indent l = (l', ds) ->
  (data_backslashes escape l <= data_backslashes escape l')%nat.
Proof.
  intros Hi. unfold remove_indent.
  destruct (consume_front l indent) as [consumed l1] eqn:E.
  destruct consumed.
  - apply consume_front_true in E. intros H. injection H as <- _. subst l.
    apply data_backslashes_skip. exact Hi.
  - intros H. injection H as <- _. rewrite drop_while_skipn.
    apply data_backslashes_skipn. rewrite take_while_firstn.
    eapply Forall_impl; [|apply take_while_Forall].
    exact not_backslash_whitespace.
Qed.

Section Decoder.

Variable CanLexInteger : list ascii -> bool * list Diagnostic.
Variable k : nat.

Let escape := backslash :: repeat hash k.

(** An escape sequence loses no backslash: the escaped backslash is
    appended, and nothing else it consumes is a backslash. *)
Lemma ExpandAndConsumeEscapeSequence_backslashes content result content' result' ds :
  ExpandAndConsumeEscapeSequence CanLexInteger content result = Some (content', result', ds) ->
  (backslashes result + data_backslashes escape content
   <= backslashes result' + data_backslashes escape content')%nat.
Proof.
  unfold ExpandAndConsumeEscapeSequence.
  destruct content as [| first content]; [discriminate|].
  pose proof (data_backslashes_cons escape first content) as Hcons.
  destruct (Ascii.eqb_spec first backslash) as [-> | Hfirst].
  - change (Ascii.eqb backslash backslash) with true in Hcons. cbv iota in Hcons.
    intros H. cbn in H. injection H as <- <- <-. rewrite backslashes_app.
    change (backslashes [backslash]) with 1%nat. lia.
  - assert (Hgoal : forall l r,
              (data_backslashes escape content <= data_backslashes escape l)%nat ->
              (backslashes result <= backslashes r)%nat ->
              (backslashes result + data_backslashes escape (first :: content)
               <= backslashes r + data_backslashes escape l)%nat) by (intros; lia).
    assert (Happ : forall x, (backslashes result <= backslashes (result ++ x))%nat)
      by (intros x; rewrite backslashes_app; lia).
    repeat match goal with
           | |- context [if Ascii.eqb first ?c then _ else _] => destruct (Ascii.eqb first c)
           end;
      try (intros H; injection H as <- <- <-; apply Hgoal; [lia | apply Happ]).
    + (* x *)
      destruct content as [| c0 [| c1 rest]];
        try (intros H; injection H as <- <- <-; apply Hgoal; [lia | apply Happ]).
      destruct (IsUpperHexDigit c0 && IsUpperHexDigit c1) eqn:Hhex;
        intros H; injection H as <- <- <-; apply Hgoal; try apply Happ; try lia.
      apply andb_true_iff in Hhex. destruct Hhex as [H0 H1].
      apply (data_backslashes_skip escape [c0; c1] rest).
      repeat constructor; apply not_backslash_hex; assumption.
    + (* u *)
      destruct (consume_front content (str "{")) as [open remaining] eqn:Eopen.
      destruct open;
        [|intros H; injection H as <- <- <-; apply Hgoal; [lia | apply Happ]].
      apply consume_front_true in Eopen.
      set (digits := take_while IsUpperHexDigit remaining).
      pose proof (take_while_skipn IsUpperHexDigit remaining) as Hsplit. fold digits in Hsplit.
      destruct (consume_front (skipn (length digits) remaining) (str "}"))
        as [closed remaining'] eqn:Eclose.
      destruct (negb (Nat.eqb (length digits) 0) && closed) eqn:Hok;
        [|intros H; injection H as <- <- <-; apply Hgoal; [lia | apply Happ]].
      apply andb_true_iff in Hok. destruct Hok as [_ ->].
      apply consume_front_true in Eclose.
      pose proof (ExpandUnicodeEscapeSequence_result CanLexInteger digits result) as Hres.
      destruct (ExpandUnicodeEscapeSequence CanLexInteger digits result)
        as [[expanded r] dsu].
      destruct expanded; cbn [negb]; intros H; injection H as <- <- <-.
      * destruct Hres as (utf8 & -> & _). apply Hgoal; [|apply Happ].
        assert (Hdigits : Forall (fun c => c <> backslash) digits).
        { eapply Forall_impl; [|apply take_while_Forall]. exact not_backslash_hex. }
        rewrite Eopen, Hsplit, Eclose.
        apply Nat.le_trans with (data_backslashes escape (digits ++ str "}" ++ remaining')).
        { apply (data_backslashes_skip escape (str "{")). repeat constructor; discriminate. }
        apply Nat.le_trans with (data_backslashes escape (str "}" ++ remaining')).
        { apply data_backslashes_skip. exact Hdigits. }
        apply (data_backslashes_skip escape (str "}")). repeat constructor; discriminate.
      * subst r. apply Hgoal; [lia | apply Happ].
Qed.

(** An iteration of the inner loop loses no backslash that is data. *)
Lemma expand_step_backslashes indent s :
  Forall (fun c => c <> backslash) indent ->
  match expand_step CanLexInteger escape indent s with
  | Continue s' =>
      (backslashes (result s) + data_backslashes escape (contents s)
       <= backslashes (result s') + data_backslashes escape (contents s'))%nat
  | Return value _ =>
      (backslashes (result s) + data_backslashes escape (contents s) <= backslashes value)%nat
  | Abort => True
  end.
Proof.
  intros Hindent. unfold expand_step.
  set (regular := take_while (fun c => negb (end_of_regular_text c)) (contents s)).
  pose proof (take_while_skipn (fun c => negb (end_of_regular_text c)) (contents s)) as Hsplit.
  fold regular in Hsplit.
  assert (Hreg : Forall (fun c => c <> backslash) regular).
  { eapply Forall_impl; [|apply take_while_Forall]. exact not_backslash_regular. }
  assert (Hdata : (data_backslashes escape (contents s)
                   <= data_backslashes escape (skipn (length regular) (contents s)))%nat).
  { rewrite Hsplit at 1. apply data_backslashes_skip. exact Hreg. }
  assert (Hres : backslashes (result s ++ regular) = backslashes (result s)).
  { rewrite backslashes_app, (backslashes_none regular Hreg). lia. }
  destruct (skipn (length regular) (contents s)) as [| c after] eqn:Hrest.
  - cbn in Hdata. lia.
  - pose proof (data_backslashes_cons escape c after) as Hcons.
    destruct (Ascii.eqb_spec c newline) as [-> | Hnl].
    + destruct (remove_indent indent after) as [l ds] eqn:E.
      apply (remove_indent_backslashes escape) in E; [|exact Hindent].
      cbn [result contents].
      rewrite backslashes_app, pop_trailing_space_backslashes, Hres.
      change (Ascii.eqb newline backslash) with false in Hcons. cbv iota in Hcons. lia.
    + destruct (IsHorizontalWhitespace c) eqn:Hws.
      * destruct (Ascii.eqb c " "); [exact I|].
        set (space := take_while IsHorizontalWhitespace (c :: after)).
        assert (Hspace : Forall (fun c => c <> backslash) space).
        { eapply Forall_impl; [|apply take_while_Forall]. exact not_backslash_whitespace. }
        assert (Hskip : (data_backslashes escape (c :: after)
                         <= data_backslashes escape (skipn (length space) (c :: after)))%nat).
        { apply data_backslashes_skipn. unfold space. rewrite take_while_firstn.
          exact Hspace. }
        destruct (negb (StringRef.list_startswith _ [newline])); cbn [result contents];
          rewrite ?backslashes_app, ?Hres; lia.
      * destruct (consume_front (c :: after) escape) as [is_escape l1] eqn:E1.
        destruct is_escape; cbn [negb].
        -- apply consume_front_true in E1.
           assert (H1 : (data_backslashes escape (c :: after)
                         <= data_backslashes escape l1)%nat).
           { rewrite E1. apply data_backslashes_escape. }
           destruct (consume_front l1 [newline]) as [continuation l2] eqn:E2.
           destruct continuation.
           ++ apply consume_front_true in E2.
              destruct (remove_indent indent l2) as [l ds] eqn:E.
              apply (remove_indent_backslashes escape) in E; [|exact Hindent].
              cbn [result contents]. rewrite Hres.
              assert (H2 : (data_backslashes escape l1 <= data_backslashes escape l2)%nat).
              { rewrite E2. apply (data_backslashes_skip escape [newline]).
                repeat constructor. discriminate. }
              lia.
           ++ destruct (ExpandAndConsumeEscapeSequence CanLexInteger l1 (result s ++ regular))
                as [[[l r] ds] |] eqn:E; [|exact I].
              apply ExpandAndConsumeEscapeSequence_backslashes in E. cbn [result contents].
              lia.
        -- cbn [result contents]. rewrite !backslashes_app.
           assert (Hone : backslashes [c] = if Ascii.eqb c backslash then 1%nat else 0%nat).
           { unfold backslashes. cbn [filter]. destruct (Ascii.eqb c backslash); reflexivity. }
           rewrite Hone. remember (Ascii.eqb c backslash) as b.
           destruct b; cbv iota in *; lia.
Qed.

Lemma expand_run_backslashes indent :
  Forall (fun c => c <> backslash) indent ->
  forall fuel s value ds,
    expand_run CanLexInteger fuel escape indent s = Returned (value, ds) ->
    (backslashes (result s) + data_backslashes escape (contents s) <= backslashes value)%nat.
Proof.
  intros Hindent. induction fuel as [| fuel IH]; intros s value ds H; [discriminate H|].
  cbn [expand_run] in H.
  pose proof (expand_step_backslashes indent s Hindent) as Hstep.
  destruct (expand_step CanLexInteger escape indent s) as [s' | r e |]; [| |discriminate H].
  - apply IH in H. lia.
  - injection H as <- <-. exact Hstep.
Qed.

Lemma decoder_backslashes emitter content indent value ds :
  Forall (fun c => c <> backslash) indent ->
  ExpandEscapeSequencesAndRemoveIndent CanLexInteger emitter content (Z.of_nat k) indent
  = Returned (value, ds) ->
  (data_backslashes escape content <= backslashes value)%nat.
Proof.
  intros Hindent. unfold ExpandEscapeSequencesAndRemoveIndent. rewrite Nat2Z.id.
  destruct (remove_indent indent content) as [l e] eqn:E.
  apply (remove_indent_backslashes escape) in E; [|exact Hindent].
  intros H. apply (expand_run_backslashes indent Hindent) in H.
  cbn [result contents] in H. change (backslashes []) with 0%nat in H. lia.
Qed.

End Decoder.

(** *** [Lex] on a single-line raw string *)

(** The raw string with [k] hashes on either side of its quotes. *)
Definition raw_string (k : nat) (content : list ascii) : list ascii :=
  repeat hash k ++ double_quote :: content ++ double_quote :: repeat hash k.

Lemma count_hashes_repeat k l :
  match l with c :: _ => c <> hash | [] => True end ->
  count_hashes (repeat hash k ++ l) = k.
Proof.
  intros Hl. induction k as [| k IH]; cbn [repeat app count_hashes].
  - destruct l as [| c l]; [reflexivity|]. cbn [count_hashes].
    destruct (Ascii.eqb_spec c hash); [contradiction | reflexivity].
  - rewrite IH. reflexivity.
Qed.

Lemma skipn_repeat_app k (l : list ascii) : skipn k (repeat hash k ++ l) = l.
Proof.
  rewrite skipn_app, repeat_length, Nat.sub_diag, skipn_all2 by (rewrite repeat_length; lia).
  reflexivity.
Qed.

(** A prefix of the introducer before a quote is no introducer. *)
Lemma not_introducer_before_quote (l tail prefix : list ascii) :
  Forall (fun c => c <> double_quote) prefix ->
  StringRef.list_startswith l prefix = false ->
  StringRef.list_startswith (l ++ double_quote :: tail) prefix = false.
Proof.
  intros Hp. revert l. induction Hp as [| x prefix Hx _ IH]; intros l H.
  - destruct l; discriminate H.
  - destruct l as [| c l]; cbn [app StringRef.list_startswith] in *.
    + destruct (Ascii.eqb_spec double_quote x) as [E | E]; [|reflexivity].
      exfalso. apply Hx. symmetry. exact E.
    + destruct (Ascii.eqb c x); cbn [andb] in *; [apply IH; exact H | reflexivity].
Qed.

Section Scan.

Variable k : nat.
Hypothesis Hk : (1 <= k)%nat.
Variable rest : list ascii.
Variable prefix_len : nat.

Let terminator := double_quote :: repeat hash k.
Let escape := backslash :: repeat hash k.

(** The scanning loop over a content without newline, quote and introducer:
    it stops at the closing quote. *)
Lemma Lex_scan_raw :
  forall content pre fuel,
    let source_text := pre ++ content ++ terminator ++ rest in
    Forall (fun c => c <> newline /\ c <> double_quote) content ->
    no_introducer escape content ->
    (length content < fuel)%nat ->
    Lex_scan source_text k false prefix_len terminator escape fuel (length pre)
    = mkLiteral
        (StringRef.substr (StringRef.of_list source_text) 0
           (Z.of_nat (length pre + length content + length terminator)))
        (StringRef.substr (StringRef.of_list source_text) (Z.of_nat prefix_len)
           (Z.of_nat (length pre + length content) - Z.of_nat prefix_len))
        (Z.of_nat k) false true.
Proof.
  induction content as [| c content IH]; intros pre fuel source_text Hchars Hno Hfuel.
  - destruct fuel as [| fuel]; [cbn in Hfuel; lia|].
    unfold source_text. cbn [app length Lex_scan].
    assert (Hlt : (length pre <? length (pre ++ terminator ++ rest))%nat = true).
    { apply Nat.ltb_lt. rewrite length_app. unfold terminator. cbn [length app]. lia. }
    rewrite Hlt. cbn [negb].
    rewrite app_nth2, Nat.sub_diag by lia. cbn [nth app terminator].
    change (Ascii.eqb double_quote backslash) with false.
    change (Ascii.eqb double_quote newline) with false.
    change (Ascii.eqb double_quote double_quote) with true. cbv iota.
    rewrite skipn_app, Nat.sub_diag, skipn_all. cbn [app skipn].
    change (double_quote :: repeat hash k ++ rest)
      with ((double_quote :: repeat hash k) ++ rest).
    rewrite list_startswith_prefix, orb_true_r.
    rewrite Nat.add_0_r. reflexivity.
  - destruct fuel as [| fuel]; [cbn in Hfuel; lia|].
    apply Forall_cons_iff in Hchars. destruct Hchars as [[Hnl Hdq] Hchars].
    destruct Hno as [Hstart Hno].
    assert (Hsrc : source_text = (pre ++ [c]) ++ content ++ terminator ++ rest).
    { unfold source_text. rewrite <- app_assoc. reflexivity. }
    specialize (IH (pre ++ [c]) fuel Hchars Hno ltac:(cbn [length] in Hfuel; lia)).
    cbv zeta in IH. rewrite <- Hsrc in IH.
    rewrite length_app in IH. cbn [length] in IH.
    replace (length pre + 1 + length content)%nat with (length pre + S (length content))%nat
      in IH by lia.
    replace (length pre + 1)%nat with (S (length pre)) in IH by lia.
    cbn [length]. rewrite <- IH. clear IH.
    cbn [Lex_scan].
    assert (Hlt : (length pre <? length source_text)%nat = true).
    { apply Nat.ltb_lt. unfold source_text. rewrite !length_app. cbn [length]. lia. }
    rewrite Hlt. cbn [negb].
    assert (Hnth : nth (length pre) source_text nul = c).
    { unfold source_text. rewrite app_nth2, Nat.sub_diag by lia. reflexivity. }
    assert (Hskip : skipn (length pre) source_text = (c :: content) ++ terminator ++ rest).
    { unfold source_text. rewrite skipn_app, Nat.sub_diag, skipn_all. reflexivity. }
    rewrite Hnth, Hskip.
    assert (Hesc : StringRef.list_startswith ((c :: content) ++ terminator ++ rest) escape
                   = false).
    { apply (not_introducer_before_quote (c :: content) (repeat hash k ++ rest) escape);
        [|exact Hstart].
      constructor; [discriminate|].
      rewrite Forall_forall. intros x Hx. apply repeat_spec in Hx. subst x. discriminate. }
    rewrite Hesc.
    replace (length escape =? 1)%nat with false
      by (symmetry; apply Nat.eqb_neq; unfold escape; cbn [length];
          rewrite repeat_length; lia).
    cbn [orb].
    destruct (Ascii.eqb c backslash); [reflexivity|].
    destruct (Ascii.eqb_spec c newline); [contradiction|].
    destruct (Ascii.eqb_spec c double_quote); [contradiction | reflexivity].
Qed.

End Scan.

(** [Lex] on a raw string. *)
Lemma Lex_raw_string k content rest :
  (1 <= k)%nat ->
  Forall (fun c => c <> newline /\ c <> double_quote) content ->
  no_introducer (backslash :: repeat hash k) content ->
  let source_text := raw_string k content ++ rest in
  Lex source_text
  = Some (mkLiteral (StringRef.mk source_text 0 (length (raw_string k content)))
                    (StringRef.mk source_text (k + 1) (length content))
                    (Z.of_nat k) false true).
Proof.
  intros Hk Hchars Hno source_text.
  assert (Hsrc : source_text
                 = repeat hash k
                   ++ double_quote :: content ++ (double_quote :: repeat hash k) ++ rest).
  { unfold source_text, raw_string. rewrite <- !app_assoc. cbn [app].
    rewrite <- !app_assoc. reflexivity. }
  unfold Lex. cbv zeta.
  assert (Hcount : count_hashes source_text = k).
  { rewrite Hsrc. apply count_hashes_repeat. discriminate. }
  rewrite Hcount.
  assert (Hskip : skipn k source_text
                  = double_quote :: content ++ (double_quote :: repeat hash k) ++ rest).
  { rewrite Hsrc. apply skipn_repeat_app. }
  rewrite Hskip.
  assert (Hsingle : GetMultiLineStringLiteralPrefixSize
                      (double_quote :: content ++ (double_quote :: repeat hash k) ++ rest)
                    = 0).
  { unfold GetMultiLineStringLiteralPrefixSize.
    replace (StringRef.list_startswith _ MultiLineIndicator) with false; [reflexivity|].
    symmetry. destruct content as [| c content].
    - destruct k as [| k']; [lia|]. reflexivity.
    - apply Forall_cons_iff in Hchars. destruct Hchars as [[_ Hdq] _].
      cbn. destruct (Ascii.eqb_spec c double_quote); [contradiction | reflexivity]. }
  rewrite Hsingle. cbn [Z.ltb Z.compare].
  assert (Hlen : length source_text
                 = (k + (1 + (length content + (1 + k + length rest))))%nat).
  { rewrite Hsrc. rewrite !length_app, repeat_length. cbn [length].
    rewrite ?length_app, ?repeat_length. cbn [length].
    rewrite ?length_app, ?repeat_length. lia. }
  assert (Hnth : nth k source_text nul = double_quote).
  { rewrite Hsrc, app_nth2, repeat_length, Nat.sub_diag by (rewrite repeat_length; lia).
    reflexivity. }
  rewrite Hnth. change (Ascii.eqb double_quote double_quote) with true.
  replace (k <? length source_text)%nat with true by (symmetry; apply Nat.ltb_lt; lia).
  cbn [andb]. f_equal.
  assert (Hshape : source_text
                   = (repeat hash k ++ [double_quote]) ++ content
                     ++ (double_quote :: repeat hash k) ++ rest).
  { rewrite Hsrc, <- app_assoc. reflexivity. }
  pose proof (Lex_scan_raw k Hk rest (S k) content (repeat hash k ++ [double_quote])
                (length source_text) Hchars Hno ltac:(lia)) as Hscan.
  cbv zeta in Hscan. rewrite <- Hshape in Hscan.
  rewrite length_app, repeat_length in Hscan. cbn [length] in Hscan.
  replace (k + 1)%nat with (S k) in Hscan by lia.
  change ([double_quote] ++ repeat hash k) with (double_quote :: repeat hash k).
  change ([backslash] ++ repeat hash k) with (backslash :: repeat hash k).
  rewrite Hscan. rewrite repeat_length.
  destruct (terminated_views source_text (S k) (S k + length content) (S k)
              ltac:(lia) ltac:(lia)) as [Hv1 Hv2].
  rewrite Hv1, Hv2.
  assert (Hraw : length (raw_string k content) = (S k + length content + S k)%nat).
  { unfold raw_string. rewrite length_app, repeat_length. cbn [length].
    rewrite length_app. cbn [length]. rewrite repeat_length. lia. }
  rewrite Hraw.
  replace (S k + length content - S k)%nat with (length content) by lia.
  replace (k + 1)%nat with (S k) by lia. reflexivity.
Qed.

End RawStringFacts.

Module RawStringClaims.

Import CharacterSet StringRefFacts StringLiteral StringDecoderFacts StringLexFacts.
Import StringDecoderSafety StringLexStructure StringIndentFacts StringEscapeFacts.
Import StringLiteralFacts RawStringFacts.

Section Decoder.

Variable CanLexInteger : list ascii -> bool * list Diagnostic.

(** [ComputeValue] on a terminated literal of [Lex] loses no backslash that
    is data. *)
Lemma ComputeValue_backslashes source_text lit emitter value ds :
  Lex source_text = Some lit -> is_terminated_ lit = true ->
  ComputeValue CanLexInteger lit emitter = Returned (value, ds) ->
  (data_backslashes (backslash :: repeat hash (Z.to_nat (hash_level_ lit)))
                    (StringRef.chars (content_ lit))
   <= backslashes value)%nat.
Proof.
  intros Hlex Hterm.
  destruct (Lex_terminated source_text lit Hlex Hterm)
    as (opener & quotes & e & _ & _ & _ & _ & Hlit & _).
  cbv zeta in Hlit.
  assert (Hk : hash_level_ lit = Z.of_nat (count_hashes source_text))
    by (rewrite Hlit; reflexivity).
  rewrite Hk, Nat2Z.id. unfold ComputeValue. rewrite Hterm, Hk. cbn [negb].
  destruct (multi_line_ lit) eqn:Hml.
  - destruct (CheckIndent_multi_line source_text lit Hlex Hterm Hml)
      as (indent & Hcheck & Hindent).
    rewrite Hcheck. apply decoder_backslashes.
    rewrite Hindent. eapply Forall_impl; [|apply take_while_Forall].
    exact not_backslash_space.
  - apply decoder_backslashes. constructor.
Qed.

(** C7: with a hash level of [k >= 1] a backslash that is not followed by [k]
    hashes is data.  [Lex] takes the raw string made of [k] hashes, a quote,
    a content, a quote and [k] hashes as one terminated literal whenever the
    content holds no quote, newline or tab and none of its backslashes is
    followed by [k] hashes, and [ComputeValue] returns that content byte for
    byte, backslashes included, and emits nothing.  And for every terminated
    literal of [Lex], whatever else its content holds, [ComputeValue] returns
    a value that holds at least one backslash byte for each backslash of the
    content that is not followed by the hashes of the hash level: none of
    them is taken for an introducer or lost. *)
Theorem C7_raw_backslash_is_data :
  (forall (k : nat) content rest emitter,
     (1 <= k)%nat ->
     Forall (fun c => plain c = true /\ c <> double_quote) content ->
     no_introducer (backslash :: repeat hash k) content ->
     exists lit,
       Lex (raw_string k content ++ rest) = Some lit /\
       is_terminated_ lit = true /\ multi_line_ lit = false /\
       hash_level_ lit = Z.of_nat k /\
       StringRef.chars (text_ lit) = raw_string k content /\
       StringRef.chars (content_ lit) = content /\
       ComputeValue CanLexInteger lit emitter = Returned (content, emitter)) /\
  (forall source_text lit emitter,
     Lex source_text = Some lit -> is_terminated_ lit = true ->
     exists value ds,
       ComputeValue CanLexInteger lit emitter = Returned (value, ds) /\
       (data_backslashes (backslash :: repeat hash (Z.to_nat (hash_level_ lit)))
                         (StringRef.chars (content_ lit))
        <= backslashes value)%nat).
Proof.
  split.
  - intros k content rest emitter Hk Hchars Hno.
    assert (Hlexable : Forall (fun c => c <> newline /\ c <> double_quote) content).
    { eapply Forall_impl; [|exact Hchars]. intros c [Hp Hq]. split; [|exact Hq].
      intros ->. discriminate Hp. }
    pose proof (Lex_raw_string k content rest Hk Hlexable Hno) as Hlex. cbv zeta in Hlex.
    eexists. split; [exact Hlex|].
    assert (Htext : StringRef.chars
                      (StringRef.mk (raw_string k content ++ rest) 0
                                    (length (raw_string k content)))
                    = raw_string k content).
    { rewrite chars_prefix. apply slice_0_app. }
    assert (Hcontent : StringRef.chars
                         (StringRef.mk (raw_string k content ++ rest) (k + 1)
                                       (length content))
                       = content).
    { assert (Hshape : raw_string k content ++ rest
                       = (repeat hash k ++ [double_quote])
                         ++ content ++ double_quote :: repeat hash k ++ rest).
      { unfold raw_string. repeat (rewrite <- app_assoc; cbn [app]). reflexivity. }
      rewrite chars_mk, Hshape.
      replace (k + 1)%nat with (length (repeat hash k ++ [double_quote]))
        by (rewrite length_app, repeat_length; reflexivity).
      rewrite skipn_app, Nat.sub_diag, skipn_all.
      cbn [app skipn]. rewrite firstn_app, Nat.sub_diag, firstn_all. cbn [firstn].
      apply app_nil_r. }
    cbn [is_terminated_ multi_line_ hash_level_ text_ content_].
    repeat (split; [reflexivity || assumption|]).
    match goal with
    | |- ComputeValue _ ?l _ = _ =>
        pose proof (StringLiteralClaims.raw_content_is_verbatim CanLexInteger l emitter
                      eq_refl eq_refl) as Hv
    end.
    cbn [content_ hash_level_] in Hv. rewrite Hcontent, Nat2Z.id in Hv.
    apply Hv; [|exact Hno].
    eapply Forall_impl; [|exact Hchars]. intros c [Hp _]. exact Hp.
  - intros source_text lit emitter Hlex Hterm.
    destruct (ComputeValue_returns CanLexInteger source_text lit emitter Hlex)
      as (value & ds & Hv).
    exists value, ds. split; [exact Hv|].
    exact (ComputeValue_backslashes source_text lit emitter value ds Hlex Hterm Hv).
Qed.

End Decoder.

(** The raw string of the claim: hash, quote, [a], backslash, [n], quote,
    hash is lexed as one literal of hash level 1 and decodes to the three
    bytes [a], backslash, [n]. *)
Lemma C7_witness :
  exists lit,
    Lex (raw_string 1 (str "a" ++ [backslash] ++ str "n") ++ []) = Some lit /\
    is_terminated_ lit = true /\ multi_line_ lit = false /\ hash_level_ lit = 1 /\
    StringRef.chars (text_ lit) = raw_string 1 (str "a" ++ [backslash] ++ str "n") /\
    StringRef.chars (content_ lit) = str "a" ++ [backslash] ++ str "n" /\
    ComputeValue StringLiteralClaims.accept_all lit []
    = Returned (str "a" ++ [backslash] ++ str "n", []).
Proof.
  apply (proj1 (C7_raw_backslash_is_data StringLiteralClaims.accept_all)
           1%nat (str "a" ++ [backslash] ++ str "n") [] []).
  - lia.
  - repeat constructor; discriminate.
  - cbn. repeat split.
Defined.

(** A backslash next to an escape: the content of the literal with hash
    level 1 is [x], an escaped newline, a backslash and [y]; its one
    backslash that is data is in the value. *)
Example mixed_backslash :
  exists lit,
    Lex ([hash; double_quote] ++ str "x" ++ [backslash; hash] ++ str "n"
         ++ [backslash] ++ str "y" ++ [double_quote; hash]) = Some lit /\
    data_backslashes [backslash; hash] (StringRef.chars (content_ lit)) = 1%nat /\
    ComputeValue StringLiteralClaims.accept_all lit []
    = Returned (str "x" ++ [newline; backslash] ++ str "y", []).
Proof. eexists. repeat split. Qed.

End RawStringClaims.

(* ------------------------------------------------------------------------- *)
(** ** The string literal: properties of the code *)

Module StringLiteralProperties.

Import CharacterSet Digits DigitsFacts StringRefFacts StringLiteral.
Import StringDecoderFacts StringLexFacts StringDecoderSafety StringLexStructure.
Import StringIndentFacts StringEscapeFacts StringLiteralFacts.

(** A raw string literal of hash level 1 followed by other tokens: hash,
    quote, [a], backslash, hash, [nb], quote, hash, and [ + 1]. *)
Definition raw_source : list ascii :=
  [hash; double_quote] ++ str "a" ++ [backslash; hash] ++ str "nb"
  ++ [double_quote; hash] ++ str " + 1".

Definition raw_literal : LexedStringLiteral :=
  mkLiteral (StringRef.mk raw_source 0 9) (StringRef.mk raw_source 2 5) 1 false true.

(** A block string: three quotes, the indicator [c], a newline, the lines
    [  hello] and [   world], and the closing quotes after two spaces. *)
Definition block_source : list ascii :=
  MultiLineIndicator ++ str "c" ++ [newline] ++ str "  hello" ++ [newline]
  ++ str "   world" ++ [newline] ++ str "  " ++ MultiLineIndicator ++ str ";".

Definition block_literal : LexedStringLiteral :=
  mkLiteral (StringRef.mk block_source 0 27) (StringRef.mk block_source 5 19) 0 true true.

(** X10: A terminated literal of [Lex] is a prefix of the source text made
    of [k] hashes, the opener, the content, the closing quotes and [k] hashes
    again, where [k] is the number of leading hashes and the hash level of
    the literal.  A multi-line literal opens with three quotes, a file type
    indicator free of hashes, quotes and newlines, and a newline, and closes
    with three quotes; a single-line literal opens and closes with one quote
    and its content holds no newline. *)
Theorem X10_Lex_terminated_layout source_text lit :
  Lex source_text = Some lit -> is_terminated_ lit = true ->
  let k := count_hashes source_text in
  exists opener quotes dropped,
    source_text = StringRef.chars (text_ lit) ++ dropped /\
    StringRef.chars (text_ lit)
    = repeat hash k ++ opener ++ StringRef.chars (content_ lit) ++ quotes ++ repeat hash k /\
    hash_level_ lit = Z.of_nat k /\
    ((multi_line_ lit = true /\ quotes = MultiLineIndicator /\
      exists indicator,
        opener = MultiLineIndicator ++ indicator ++ [newline] /\
        Forall (fun c => indicator_char c = true) indicator) \/
     (multi_line_ lit = false /\ quotes = [double_quote] /\ opener = [double_quote] /\
      Forall (fun c => c <> newline) (StringRef.chars (content_ lit)))).
Proof.
  intros Hlex Hterm k.
  destruct (Lex_terminated source_text lit Hlex Hterm)
    as (opener & quotes & e & Hpe & Hfit & Hopen & Hclose & Hlit & _ & Hline & Hkind).
  cbv zeta in *. fold k in Hpe, Hfit, Hopen, Hclose, Hlit, Hline.
  set (p := (k + length opener)%nat) in *.
  set (T := length (quotes ++ repeat hash k)) in *.
  exists opener, quotes, (skipn (e + T) source_text).
  assert (Htext : StringRef.chars (text_ lit) = slice source_text 0 (e + T)).
  { rewrite Hlit. apply chars_prefix. }
  assert (Hcontent : StringRef.chars (content_ lit) = slice source_text p e).
  { rewrite Hlit. reflexivity. }
  split; [|split; [|split]].
  - rewrite Htext. unfold slice. cbn [skipn]. rewrite Nat.sub_0_r.
    symmetry. apply firstn_skipn.
  - rewrite Htext, Hcontent.
    rewrite (slice_app source_text 0 p (e + T)) by lia.
    rewrite (slice_app source_text p e (e + T)) by lia.
    rewrite Hopen, Hclose, <- !app_assoc. reflexivity.
  - rewrite Hlit. reflexivity.
  - destruct Hkind as [[Hq Hind] | [Hq Ho]].
    + left. split; [rewrite Hlit, Hq; reflexivity | split; [exact Hq | exact Hind]].
    + right. split; [rewrite Hlit, Hq; reflexivity|].
      split; [exact Hq | split; [exact Ho|]].
      rewrite Hcontent. apply Hline. rewrite Hq. reflexivity.
Qed.

Lemma X10_witness :
  exists opener quotes dropped,
    raw_source = StringRef.chars (text_ raw_literal) ++ dropped /\
    StringRef.chars (text_ raw_literal)
    = repeat hash 1 ++ opener ++ StringRef.chars (content_ raw_literal)
      ++ quotes ++ repeat hash 1 /\
    hash_level_ raw_literal = 1 /\
    ((multi_line_ raw_literal = true /\ quotes = MultiLineIndicator /\
      exists indicator,
        opener = MultiLineIndicator ++ indicator ++ [newline] /\
        Forall (fun c => indicator_char c = true) indicator) \/
     (multi_line_ raw_literal = false /\ quotes = [double_quote] /\
      opener = [double_quote] /\
      Forall (fun c => c <> newline) (StringRef.chars (content_ raw_literal)))).
Proof.
  apply (X10_Lex_terminated_layout raw_source raw_literal); reflexivity.
Defined.

(** X11: [Lex] returns no literal exactly when the source text, after its
    leading hashes, does not start with a double quote. *)
Theorem X11_Lex_none_iff source_text :
  Lex source_text = None
  <-> StringRef.list_startswith (skipn (count_hashes source_text) source_text) [double_quote]
      = false.
Proof.
  unfold Lex. cbv zeta. set (k := count_hashes source_text).
  destruct (Z.ltb_spec 0 (GetMultiLineStringLiteralPrefixSize (skipn k source_text)))
    as [Hml | Hsl].
  - destruct (multi_line_prefix _ Hml) as (indicator & rest & Hl & _).
    rewrite Hl. cbn. split; discriminate.
  - destruct (Nat.ltb_spec k (length source_text)) as [Hk | Hk].
    + rewrite (skipn_nth source_text k Hk). cbn [StringRef.list_startswith].
      replace (StringRef.list_startswith (skipn (S k) source_text) []) with true
        by (destruct (skipn (S k) source_text); reflexivity).
      rewrite !andb_true_r.
      destruct (Ascii.eqb (nth k source_text nul) double_quote);
        split; (discriminate || reflexivity).
    + rewrite andb_false_r, skipn_all2 by lia. split; reflexivity.
Qed.

Section Decoder.

Variable CanLexInteger : list ascii -> bool * list Diagnostic.

(** X12: On every literal that [Lex] produces [ComputeValue] returns a
    value: the [llvm_unreachable] of [ComputeIndentOfFinalLine] and the two
    [COCKTAIL_CHECK]s of the decoder are never reached, whatever the escape
    sequences of the content and whatever [CanLexInteger] answers. *)
Theorem X12_ComputeValue_returns source_text lit emitter :
  Lex source_text = Some lit ->
  exists value ds, ComputeValue CanLexInteger lit emitter = Returned (value, ds).
Proof. apply ComputeValue_returns. Qed.

(** X13: The decoded value is never longer than the content of the literal:
    the [reserve(contents.size())] of the decoder is never exceeded. *)
Theorem X13_value_fits_reserve lit emitter value ds :
  ComputeValue CanLexInteger lit emitter = Returned (value, ds) ->
  (length value <= length (StringRef.chars (content_ lit)))%nat.
Proof. apply ComputeValue_length. Qed.

(** X14: For a terminated multi-line literal of [Lex], [CheckIndent] returns
    as indent the leading whitespace of the last line of the content, the
    line of the closing quotes, and emits ContentBeforeStringTerminator
    exactly when that line holds a character that is not whitespace. *)
Theorem X14_CheckIndent_final_line source_text lit :
  Lex source_text = Some lit -> is_terminated_ lit = true -> multi_line_ lit = true ->
  let line := final_line (StringRef.chars (content_ lit)) in
  exists indent,
    CheckIndent (text_ lit) (content_ lit)
    = Some (indent, if forallb IsSpace line then [] else [ContentBeforeStringTerminator]) /\
    StringRef.chars indent = take_while IsSpace line.
Proof. apply CheckIndent_multi_line. Qed.

(** X15: A braced escape [u{digits}] of upper-case hexadecimal digits whose
    value is at most 0x10FFFF and no surrogate, and which the length check
    accepts, is consumed whole and appends the UTF-8 encoding of the code
    point, one to four bytes; only the length check may emit. *)
Theorem X15_unicode_escape digits rest result :
  digits <> [] -> Forall (fun c => IsUpperHexDigit c = true) digits ->
  fst (CanLexInteger digits) = true ->
  digits_value 16 digits <= 1114111 ->
  ~ 55296 <= digits_value 16 digits < 57344 ->
  ExpandAndConsumeEscapeSequence CanLexInteger
    (str "u{" ++ digits ++ "}"%char :: rest) result
  = Some (rest, result ++ LLVM.ConvertUTF32toUTF8 (digits_value 16 digits),
          snd (CanLexInteger digits)) /\
  (1 <= length (LLVM.ConvertUTF32toUTF8 (digits_value 16 digits)) <= 4)%nat.
Proof.
  intros Hne Hall Hcan Hmax Hsur. split.
  - apply valid_unicode_escape_expansion; assumption.
  - apply ConvertUTF32toUTF8_bound.
Qed.

(** X16: The escape [x] followed by two upper-case hexadecimal digits is
    consumed whole and appends the one byte whose value is sixteen times the
    first digit plus the second; nothing is emitted. *)
Theorem X16_hex_escape h l rest result :
  IsUpperHexDigit h = true -> IsUpperHexDigit l = true ->
  ExpandAndConsumeEscapeSequence CanLexInteger ("x"%char :: h :: l :: rest) result
  = Some (rest, result ++ [LLVM.byte (16 * digit_value h + digit_value l)], []).
Proof. apply hex_escape_expansion. Qed.

End Decoder.

(** X17: [ComputeIndentOfFinalLine] on a view that lies in its buffer: when
    the text holds a newline, the result is the view of the whitespace that
    starts the last line (what follows the last newline); the
    [llvm_unreachable] is reached exactly for a text without newline. *)
Theorem X17_ComputeIndentOfFinalLine text :
  length (StringRef.chars text) = StringRef.len text ->
  (ComputeIndentOfFinalLine text = None <-> ~ In newline (StringRef.chars text)) /\
  (forall before line,
     StringRef.chars text = before ++ newline :: line ->
     Forall (fun c => c <> newline) line ->
     ComputeIndentOfFinalLine text
     = Some (StringRef.mk (StringRef.buf text) (StringRef.off text + (length before + 1))
                          (length (take_while IsSpace line)))).
Proof.
  intros Hlen. destruct (ComputeIndentOfFinalLine_spec text Hlen) as [Hnone Hsome].
  split; [|exact Hsome]. split; [|exact Hnone].
  intros H Hin.
  destruct (final_line_spec (StringRef.chars text)) as [Hline [[Hno _] | [before Hb]]].
  - contradiction.
  - rewrite (Hsome before _ Hb Hline) in H. discriminate H.
Qed.

Lemma X12_witness :
  exists value ds,
    ComputeValue StringLiteralClaims.accept_all block_literal [] = Returned (value, ds).
Proof.
  apply (X12_ComputeValue_returns StringLiteralClaims.accept_all block_source). reflexivity.
Defined.

Lemma X13_witness :
  (length (str "a" ++ [newline] ++ str "b")
   <= length (StringRef.chars (content_ raw_literal)))%nat.
Proof.
  apply (X13_value_fits_reserve StringLiteralClaims.accept_all raw_literal []
           (str "a" ++ [newline] ++ str "b") []).
  reflexivity.
Defined.

Lemma X14_witness :
  exists indent,
    CheckIndent (text_ block_literal) (content_ block_literal) = Some (indent, []) /\
    StringRef.chars indent = str "  ".
Proof.
  apply (X14_CheckIndent_final_line block_source block_literal); reflexivity.
Defined.

Lemma X15_witness :
  ExpandAndConsumeEscapeSequence StringLiteralClaims.accept_all (str "u{E9}z") (str "a")
  = Some (str "z", str "a" ++ [LLVM.byte 195; LLVM.byte 169], []) /\
  (1 <= 2 <= 4)%nat.
Proof.
  apply (X15_unicode_escape StringLiteralClaims.accept_all (str "E9") (str "z") (str "a")).
  - discriminate.
  - repeat constructor.
  - reflexivity.
  - change (digits_value 16 (str "E9")) with 233. lia.
  - change (digits_value 16 (str "E9")) with 233. lia.
Defined.

Lemma X16_witness :
  ExpandAndConsumeEscapeSequence StringLiteralClaims.accept_all (str "x4Az") (str "a")
  = Some (str "z", str "a" ++ [LLVM.byte 74], []).
Proof.
  apply (X16_hex_escape StringLiteralClaims.accept_all "4" "A" (str "z") (str "a"));
    reflexivity.
Defined.

Lemma X17_witness :
  (ComputeIndentOfFinalLine (StringRef.mk block_source 0 27) = None
   <-> ~ In newline (StringRef.chars (StringRef.mk block_source 0 27))) /\
  (forall before line,
     StringRef.chars (StringRef.mk block_source 0 27) = before ++ newline :: line ->
     Forall (fun c => c <> newline) line ->
     ComputeIndentOfFinalLine (StringRef.mk block_source 0 27)
     = Some (StringRef.mk block_source (0 + (length before + 1))
                          (length (take_while IsSpace line)))).
Proof.
  apply (X17_ComputeIndentOfFinalLine (StringRef.mk block_source 0 27)). reflexivity.
Defined.

End StringLiteralProperties.

Module StringLexUnterminated.

Import CharacterSet StringRefFacts StringLiteral StringDecoderFacts StringLexFacts.
Import StringLexStructure StringLiteralFacts.

Lemma take_front_view (source_text : list ascii) n :
  take_front source_text n
  = StringRef.mk source_text 0 (Nat.min n (length source_text)).
Proof.
  unfold take_front, StringRef.substr, StringRef.of_list.
  cbn [StringRef.buf StringRef.off StringRef.len].
  rewrite !clamp_nonneg by lia. f_equal. cbn. lia.
Qed.

Lemma drop_front_view (b : list ascii) n p :
  (p <= n)%nat ->
  drop_front (StringRef.mk b 0 n) p = StringRef.mk b p (n - p).
Proof.
  intros Hp. unfold drop_front, StringRef.substr_from, StringRef.substr.
  cbn [StringRef.buf StringRef.off StringRef.len].
  rewrite clamp_nonneg, clamp_neg by lia. f_equal; lia.
Qed.

Lemma slice_beyond (l : list ascii) a b :
  (length l <= b)%nat -> slice l a b = skipn a l.
Proof. intros H. unfold slice. apply firstn_all2. rewrite length_skipn. lia. Qed.

Section Lex.

Variable source_text : list ascii.
Variable hash_level : nat.
Variable multi_line : bool.
Variable prefix_len : nat.
Variables terminator_tail escape_tail : list ascii.

Hypothesis escape_tail_no_newline : Forall (fun c => c <> newline) escape_tail.

Let terminator := double_quote :: terminator_tail.
Let escape := backslash :: escape_tail.
Let scan := Lex_scan source_text hash_level multi_line prefix_len terminator escape.

(** Where the scanning loop gives up. *)
Definition gives_up_at (cursor stop : nat) (lit : LexedStringLiteral) : Prop :=
  (cursor <= stop)%nat /\
  lit = unterminated hash_level multi_line prefix_len (take_front source_text stop) /\
  (multi_line = true -> (length source_text <= stop)%nat) /\
  (multi_line = false ->
   Forall (fun c => c <> newline) (slice source_text cursor stop) /\
   ((length source_text <= stop)%nat \/ nth stop source_text nul = newline)).

(** What the scanning loop returns when it reports an unterminated literal:
    a multi-line literal is given up at the end of the source text, a
    single-line literal there or at the first newline. *)
Lemma Lex_scan_unterminated :
  forall fuel cursor lit,
    (length source_text - cursor <= fuel)%nat ->
    scan fuel cursor = lit -> is_terminated_ lit = false ->
    exists stop, gives_up_at cursor stop lit.
Proof.
  unfold scan.
  assert (Hwhole : forall cursor, (length source_text <= cursor)%nat ->
            gives_up_at cursor cursor
              (unterminated hash_level multi_line prefix_len
                            (StringRef.of_list source_text))).
  { intros cursor Hout. split; [lia|]. split.
    - rewrite take_front_view. rewrite Nat.min_r by lia. reflexivity.
    - split; [intros _; exact Hout|]. intros _. rewrite slice_empty.
      split; [constructor | left; exact Hout]. }
  induction fuel as [| fuel IH]; intros cursor lit Hfuel Hscan Hterm.
  - cbn in Hscan. subst lit. exists cursor. apply Hwhole. lia.
  - cbn [Lex_scan] in Hscan.
    destruct (Nat.ltb_spec cursor (length source_text)) as [Hin | Hout]; cbn [negb] in Hscan.
    2: { subst lit. exists cursor. apply Hwhole. exact Hout. }
    assert (Hnext : forall c',
              (cursor < c')%nat -> (c' <= length source_text)%nat ->
              Lex_scan source_text hash_level multi_line prefix_len terminator escape fuel c'
              = lit ->
              (multi_line = false ->
               Forall (fun c => c <> newline) (slice source_text cursor c')) ->
              exists stop, gives_up_at cursor stop lit).
    { intros c' Hc' Hle Hrun Hline.
      destruct (IH c' lit ltac:(lia) Hrun Hterm) as (stop & Hs & Hlit & Hml & Hsl).
      exists stop. split; [lia|]. split; [exact Hlit|]. split; [exact Hml|].
      intros Hsingle. destruct (Hsl Hsingle) as [Hno Hend]. split; [|exact Hend].
      rewrite (slice_app source_text cursor c' stop) by lia.
      apply Forall_app. split; [apply Hline; exact Hsingle | exact Hno]. }
    assert (Hchar : (multi_line = false -> nth cursor source_text nul <> newline) ->
              multi_line = false ->
              Forall (fun c => c <> newline) (slice source_text cursor (S cursor))).
    { intros Hc Hs. rewrite slice_cons, slice_empty by lia.
      constructor; [apply Hc; exact Hs | constructor]. }
    destruct (Ascii.eqb (nth cursor source_text nul) backslash) eqn:Hbs.
    + destruct ((length escape =? 1)%nat
                || StringRef.list_startswith (skipn cursor source_text) escape) eqn:Hesc.
      * assert (Hstart : StringRef.list_startswith (skipn cursor source_text) escape = true).
        { apply starts_with_single; [rewrite length_skipn; lia | | exact Hesc].
          rewrite nth_skipn_0. apply Ascii.eqb_eq. exact Hbs. }
        assert (Hescape : slice source_text cursor (cursor + length escape) = escape).
        { apply slice_startswith; [lia | exact Hstart]. }
        assert (Hno : Forall (fun c => c <> newline) escape).
        { constructor; [discriminate | exact escape_tail_no_newline]. }
        destruct ((length source_text <=? cursor + length escape)%nat
                  || negb multi_line
                     && Ascii.eqb (nth (cursor + length escape) source_text nul) newline)
                 eqn:Hstop.
        -- exists (cursor + length escape)%nat. split; [lia|].
           split; [symmetry; exact Hscan|].
           apply orb_true_iff in Hstop. split.
           ++ intros Hml. rewrite Hml in Hstop. cbn [negb andb] in Hstop.
              destruct Hstop as [H | H]; [apply Nat.leb_le; exact H | discriminate H].
           ++ intros _. rewrite Hescape. split; [exact Hno|].
              destruct Hstop as [H | H]; [left; apply Nat.leb_le; exact H|].
              right. apply andb_true_iff in H. apply Ascii.eqb_eq. apply H.
        -- apply orb_false_iff in Hstop. destruct Hstop as [Hlen Hx].
           apply Nat.leb_gt in Hlen.
           apply (Hnext (S (cursor + length escape))); [lia | lia | exact Hscan|].
           intros Hs. rewrite Hs in Hx. cbn [negb andb] in Hx. apply Ascii.eqb_neq in Hx.
           rewrite (slice_app source_text cursor (cursor + length escape)) by lia.
           rewrite Hescape, slice_cons, slice_empty by lia.
           apply Forall_app. split; [exact Hno|]. constructor; [exact Hx | constructor].
      * apply (Hnext (S cursor)); [lia | lia | exact Hscan|].
        apply Hchar. intros _ E. rewrite E in Hbs. discriminate Hbs.
    + destruct (Ascii.eqb (nth cursor source_text nul) newline) eqn:Hnl.
      * destruct multi_line eqn:Hml; cbn [negb] in Hscan.
        -- apply (Hnext (S cursor)); [lia | lia | exact Hscan|]. discriminate.
        -- exists cursor. unfold gives_up_at. rewrite Hml.
           split; [lia|]. split; [symmetry; exact Hscan|].
           split; [discriminate|]. intros _. rewrite slice_empty.
           split; [constructor|]. right. apply Ascii.eqb_eq. exact Hnl.
      * assert (Hline : multi_line = false ->
                  Forall (fun c => c <> newline) (slice source_text cursor (S cursor))).
        { apply Hchar. intros _. apply Ascii.eqb_neq. exact Hnl. }
        destruct (Ascii.eqb (nth cursor source_text nul) double_quote) eqn:Hdq.
        -- destruct ((length terminator =? 1)%nat
                     || StringRef.list_startswith (skipn cursor source_text) terminator)
                    eqn:Hend.
           ++ subst lit. discriminate Hterm.
           ++ apply (Hnext (S cursor)); [lia | lia | exact Hscan | exact Hline].
        -- apply (Hnext (S cursor)); [lia | lia | exact Hscan | exact Hline].
Qed.

End Lex.

(** An unterminated literal of [Lex]. *)
Lemma Lex_unterminated source_text lit :
  Lex source_text = Some lit -> is_terminated_ lit = false ->
  let k := count_hashes source_text in
  exists opener dropped,
    source_text = StringRef.chars (text_ lit) ++ dropped /\
    StringRef.chars (text_ lit) = repeat hash k ++ opener ++ StringRef.chars (content_ lit) /\
    hash_level_ lit = Z.of_nat k /\
    ((multi_line_ lit = true /\ dropped = [] /\
      exists indicator,
        opener = MultiLineIndicator ++ indicator ++ [newline] /\
        Forall (fun c => indicator_char c = true) indicator) \/
     (multi_line_ lit = false /\ opener = [double_quote] /\
      Forall (fun c => c <> newline) (StringRef.chars (text_ lit)) /\
      (dropped = [] \/ exists rest, dropped = newline :: rest))).
Proof.
  intros Hlex Hterm k.
  destruct (Lex_start source_text lit Hlex)
    as (opener & quotes & after & Hsrc & (tail & Hq) & Hlit & Hkind).
  fold k in Hsrc, Hlit. rewrite Hq in Hlit. cbn [app] in Hlit.
  set (ml := negb (Nat.eqb (length (double_quote :: tail)) 1)) in *.
  set (p := (k + length opener)%nat) in *.
  assert (Hhashes : Forall (fun c => c <> newline) (repeat hash k)).
  { rewrite Forall_forall. intros c Hc. apply repeat_spec in Hc. subst c. discriminate. }
  destruct (Lex_scan_unterminated source_text k ml p (tail ++ repeat hash k) (repeat hash k)
              Hhashes (length source_text) p lit ltac:(lia) (eq_sym Hlit) Hterm)
    as (stop & Hstop & Hview & Hml & Hsl).
  assert (Hp : (p <= length source_text)%nat).
  { assert (H : length source_text = length (repeat hash k ++ opener ++ after))
      by (rewrite <- Hsrc; reflexivity).
    rewrite !length_app, repeat_length in H. unfold p. lia. }
  assert (Hopen : slice source_text 0 p = repeat hash k ++ opener).
  { rewrite Hsrc at 1. rewrite app_assoc.
    replace p with (length (repeat hash k ++ opener))
      by (rewrite length_app, repeat_length; reflexivity).
    apply slice_0_app. }
  set (L := Nat.min stop (length source_text)) in *.
  rewrite take_front_view in Hview. fold L in Hview.
  unfold unterminated in Hview. rewrite drop_front_view in Hview by (unfold L; lia).
  assert (Htext : StringRef.chars (text_ lit) = slice source_text 0 L).
  { rewrite Hview. apply chars_prefix. }
  assert (Hcontent : StringRef.chars (content_ lit) = slice source_text p L).
  { rewrite Hview. reflexivity. }
  exists opener, (skipn L source_text).
  split; [|split; [|split]].
  - rewrite Htext. unfold slice. cbn [skipn]. rewrite Nat.sub_0_r.
    symmetry. apply firstn_skipn.
  - rewrite Htext, Hcontent. rewrite (slice_app source_text 0 p L) by (unfold L; lia).
    rewrite Hopen, <- app_assoc. reflexivity.
  - rewrite Hview. reflexivity.
  - assert (Hmlit : multi_line_ lit = ml) by (rewrite Hview; reflexivity).
    destruct Hkind as [[Hquotes Hind] | [Hquotes Ho]].
    + left. assert (Hm : ml = true).
      { unfold ml. rewrite <- Hq, Hquotes. reflexivity. }
      split; [congruence|]. split; [|exact Hind].
      apply skipn_all2. specialize (Hml Hm). unfold L. lia.
    + right. assert (Hm : ml = false).
      { unfold ml. rewrite <- Hq, Hquotes. reflexivity. }
      split; [congruence|]. split; [exact Ho|].
      destruct (Hsl Hm) as [Hno Hend]. split.
      * rewrite Htext. rewrite (slice_app source_text 0 p L) by (unfold L; lia).
        apply Forall_app. split.
        -- rewrite Hopen, Ho. apply Forall_app. split; [exact Hhashes|].
           constructor; [discriminate | constructor].
        -- destruct (Nat.le_ge_cases stop (length source_text)) as [Hle | Hge].
           ++ unfold L. rewrite Nat.min_l by lia. exact Hno.
           ++ unfold L. rewrite Nat.min_r by lia.
              rewrite slice_all. rewrite <- (slice_beyond source_text p stop) by lia.
              exact Hno.
      * destruct Hend as [Hout | Hnl].
        -- left. apply skipn_all2. unfold L. lia.
        -- destruct (Nat.lt_ge_cases stop (length source_text)) as [Hlt | Hge].
           ++ right. unfold L. rewrite Nat.min_l by lia.
              rewrite (skipn_nth source_text stop Hlt), Hnl. eexists. reflexivity.
           ++ left. apply skipn_all2. unfold L. lia.
Qed.

End StringLexUnterminated.

Module StringLiteralEdges.

Import CharacterSet StringRefFacts StringLiteral StringDecoderFacts StringLexFacts.
Import StringLexStructure StringLiteralFacts StringLexUnterminated.

(** The source text made of a quote, [abc], a newline and [x]: a literal
    that its line does not close. *)
Definition open_source : list ascii :=
  [double_quote] ++ str "abc" ++ [newline] ++ str "x".

Definition open_literal : LexedStringLiteral :=
  mkLiteral (StringRef.mk open_source 0 4) (StringRef.mk open_source 1 3) 0 false false.

(** X18: An unterminated literal of [Lex] is a prefix of the source text
    made of the leading hashes, the opener and the content.  A multi-line
    literal that is not closed extends to the end of the source text; a
    single-line one holds no newline and stops right before the first newline
    of the source text, or at its end.  [ComputeValue] gives such a literal
    the empty value and emits nothing. *)
Theorem X18_Lex_unterminated source_text lit :
  Lex source_text = Some lit -> is_terminated_ lit = false ->
  let k := count_hashes source_text in
  (exists opener dropped,
    source_text = StringRef.chars (text_ lit) ++ dropped /\
    StringRef.chars (text_ lit) = repeat hash k ++ opener ++ StringRef.chars (content_ lit) /\
    hash_level_ lit = Z.of_nat k /\
    ((multi_line_ lit = true /\ dropped = [] /\
      exists indicator,
        opener = MultiLineIndicator ++ indicator ++ [newline] /\
        Forall (fun c => indicator_char c = true) indicator) \/
     (multi_line_ lit = false /\ opener = [double_quote] /\
      Forall (fun c => c <> newline) (StringRef.chars (text_ lit)) /\
      (dropped = [] \/ exists rest, dropped = newline :: rest)))) /\
  (forall CanLexInteger emitter,
     ComputeValue CanLexInteger lit emitter = Returned ([], emitter)).
Proof.
  intros Hlex Hterm k. split.
  - apply Lex_unterminated; assumption.
  - intros CanLexInteger emitter. unfold ComputeValue. rewrite Hterm. reflexivity.
Qed.

Lemma X18_witness :
  (exists opener dropped,
    open_source = StringRef.chars (text_ open_literal) ++ dropped /\
    StringRef.chars (text_ open_literal)
    = repeat hash 0 ++ opener ++ StringRef.chars (content_ open_literal) /\
    hash_level_ open_literal = 0 /\
    ((multi_line_ open_literal = true /\ dropped = [] /\
      exists indicator,
        opener = MultiLineIndicator ++ indicator ++ [newline] /\
        Forall (fun c => indicator_char c = true) indicator) \/
     (multi_line_ open_literal = false /\ opener = [double_quote] /\
      Forall (fun c => c <> newline) (StringRef.chars (text_ open_literal)) /\
      (dropped = [] \/ exists rest, dropped = newline :: rest)))) /\
  (forall CanLexInteger emitter,
     ComputeValue CanLexInteger open_literal emitter = Returned ([], emitter)).
Proof.
  apply (X18_Lex_unterminated open_source open_literal); reflexivity.
Defined.

(** A literal between quotes whose content is [content]. *)
Definition quoted (content : list ascii) : LexedStringLiteral :=
  let source_text := [double_quote] ++ content ++ [double_quote] in
  mkLiteral (StringRef.of_list source_text)
            (StringRef.mk source_text 1 (length content)) 0 false true.

(** X19: A terminated single-line literal whose content holds no newline,
    no horizontal whitespace other than the plain space, and no escape
    introducer (a backslash followed by as many hashes as the hash level)
    decodes to its content, byte for byte, and emits nothing. *)
Theorem X19_plain_content_is_value CanLexInteger lit emitter :
  is_terminated_ lit = true -> multi_line_ lit = false ->
  Forall (fun c => plain c = true) (StringRef.chars (content_ lit)) ->
  no_introducer ([backslash] ++ repeat hash (Z.to_nat (hash_level_ lit)))
                (StringRef.chars (content_ lit)) ->
  ComputeValue CanLexInteger lit emitter
  = Returned (StringRef.chars (content_ lit), emitter).
Proof. apply StringLiteralClaims.raw_content_is_verbatim. Qed.

Lemma X19_witness :
  ComputeValue StringLiteralClaims.accept_all (quoted (str "it's 100% plain")) []
  = Returned (str "it's 100% plain", []).
Proof.
  apply (X19_plain_content_is_value StringLiteralClaims.accept_all
           (quoted (str "it's 100% plain")) []).
  - reflexivity.
  - reflexivity.
  - repeat constructor.
  - cbn. repeat split.
Defined.

End StringLiteralEdges.

Module StringBlockFacts.

Import CharacterSet StringRefFacts StringLiteral StringDecoderFacts StringLexFacts.
Import StringDecoderSafety StringIndentFacts StringLiteralFacts.







Section Decoder.

Variable CanLexInteger : list ascii -> bool * list Diagnostic.
Variables escape indent : list ascii.

Let regular (c : ascii) : bool := negb (end_of_regular_text c).



End Decoder.



End StringBlockFacts.

Module StringBlockProperties.

Import CharacterSet StringRefFacts StringLiteral StringDecoderFacts StringBlockFacts.



End StringBlockProperties.

(* ------------------------------------------------------------------------- *)
(** ** The parse tree: [Verify] and the walks *)

Module ParseTreeVerifyFacts.

Import ParseTree ParseTreeClaims.

(** Where the subtree of a node ends: the index before its first node. *)
Definition end_of (t : ParseTree) (i : Node) : Z := i - size_of t i.

(** The error flags agree: a node has an error only in a tree marked as
    having errors. *)
Definition errors_marked (t : ParseTree) : Prop :=
  forall impl, In impl (node_impls t) -> has_error impl = true -> has_errors t = true.

(** The nodes [m - 1], ..., [0]: the reverse of the post-order. *)
Definition down (m : nat) : list Node := rev (map Z.of_nat (seq 0 m)).

Lemma down_S m : down (S m) = Z.of_nat m :: down m.
Proof.
  unfold down. rewrite seq_S, map_app, rev_app_distr. reflexivity.
Qed.

Lemma reverse_postorder t :
  option_map (@rev Node) (postorder_nodes (Postorder t))
  = Some (down (length (node_impls t))).
Proof.
  unfold postorder_nodes, Postorder, down.
  destruct (Z.ltb_spec (Z.of_nat (length (node_impls t))) 0); [lia|].
  cbn [option_map]. rewrite Z.sub_0_r, Nat2Z.id. reflexivity.
Qed.

(** The ends of the ancestors grow towards the top of the stack. *)
Fixpoint chain (t : ParseTree) (ancestors : list Node) : Prop :=
  match ancestors with
  | [] => True
  | a :: below => (forall b, In b below -> end_of t b <= end_of t a) /\ chain t below
  end.

Lemma chain_top t a below i :
  chain t (a :: below) -> In i (a :: below) -> end_of t i <= end_of t a.
Proof.
  intros [Htop _] [<- | Hin]; [lia | apply Htop; assumption].
Qed.

Section Verify.

Variable t : ParseTree.

Let N := Z.of_nat (length (node_impls t)).

(** What holds when the nodes from [m] on have been visited and the loop
    goes on with the stack [A]. *)
Record verify_inv (m : Z) (A : list Node) : Prop := mk_verify_inv {
  inv_size : forall i, m <= i < N -> 1 <= size_of t i;
  inv_nest : forall i j, m <= j -> j <= i -> i < N -> end_of t i < j ->
                         end_of t i <= end_of t j;
  inv_open : forall i, m <= i < N -> end_of t i < m - 1 -> In i A;
  inv_stack : Forall (fun a => m <= a < N /\ end_of t a < m - 1) A;
  inv_chain : chain t A;
  inv_error : forall i impl, m <= i < N -> node_at t i = Some impl ->
                             has_error impl = true -> has_errors t = true
}.

Lemma node_at_end i impl :
  node_at t i = Some impl -> i - subtree_size impl = end_of t i.
Proof. intros H. unfold end_of, size_of. rewrite H. reflexivity. Qed.

(** The popping loop: it removes the ancestors that end at [x] from the top,
    and those only. *)
Lemma pop_ancestors_spec x A :
  Forall (fun a => 0 <= a < N /\ end_of t a <= x) A -> chain t A ->
  exists A',
    pop_ancestors t A x = Some A' /\ incl A' A /\ chain t A' /\
    Forall (fun a => end_of t a < x) A' /\
    forall a, In a A -> end_of t a <> x -> In a A'.
Proof.
  induction A as [| a B IH]; intros Hall Hchain.
  - exists []. cbn. repeat split; auto. intros a [].
  - inversion Hall as [| ? ? [Ha Hend] HB]; subst.
    destruct Hchain as [Htop HchainB].
    destruct (node_at_inside t a Ha) as (impl & Hat & _).
    cbn [pop_ancestors]. rewrite Hat, (node_at_end a impl Hat).
    destruct (Z.eqb_spec (end_of t a) x) as [E | E]; cbn [negb].
    + destruct (IH HB HchainB) as (A' & Hpop & Hincl & Hch & Hlt & Hkeep).
      exists A'. split; [exact Hpop|]. split; [apply incl_tl; exact Hincl|].
      split; [exact Hch|]. split; [exact Hlt|].
      intros b [<- | Hb] Hne; [contradiction | apply Hkeep; assumption].
    + exists (a :: B). split; [reflexivity|]. split; [apply incl_refl|].
      split; [split; assumption|]. split; [|intros b Hb _; exact Hb].
      constructor; [lia|]. rewrite Forall_forall. intros b Hb.
      specialize (Htop b Hb). lia.
Qed.

(** One iteration of the loop of [Verify]: it returns [false], and then the
    tree is not well formed, or it goes on with a stack for which the
    invariant holds again. *)
Lemma verify_step (m : nat) rest A :
  Z.of_nat m < N -> verify_inv (Z.of_nat m + 1) A ->
  (exists A0, verify_loop t (Z.of_nat m :: rest) A = Some (false, A0) /\
              ~ (spans_nested t /\ errors_marked t)) \/
  (exists A', verify_loop t (Z.of_nat m :: rest) A = verify_loop t rest A' /\
              verify_inv (Z.of_nat m) A').
Proof.
  intros Hm [Hsize Hnest Hopen Hstack Hchain Herror].
  set (n := Z.of_nat m) in *.
  assert (Hn : 0 <= n < N) by lia.
  destruct (node_at_inside t n Hn) as (impl & Hat & Hsz).
  pose proof (node_at_end n impl Hat) as Hend.
  rewrite Forall_forall in Hstack.
  cbn [verify_loop]. rewrite Hat.
  destruct (has_error impl && negb (has_errors t)) eqn:Herr.
  { left. exists A. split; [reflexivity|]. intros [_ Hmarked].
    apply andb_true_iff in Herr. destruct Herr as [He Hno].
    assert (Hin : In impl (node_impls t)).
    { unfold node_at in Hat. destruct (n <? 0); [discriminate|].
      apply nth_error_In in Hat. exact Hat. }
    rewrite (Hmarked impl Hin He) in Hno. discriminate Hno. }
  assert (Herror' : forall i impl', n <= i < N -> node_at t i = Some impl' ->
                      has_error impl' = true -> has_errors t = true).
  { intros i impl' Hi Hati He.
    destruct (Z.eq_dec i n) as [-> | Hne]; [|apply (Herror i impl'); auto; lia].
    rewrite Hat in Hati. injection Hati as <-. rewrite He in Herr.
    destruct (has_errors t); [reflexivity | discriminate Herr]. }
  destruct (Z.ltb_spec 1 (subtree_size impl)) as [Hbig | Hsmall].
  - (* a node with children is pushed *)
    assert (Hpush : (forall a, In a A -> end_of t a <= end_of t n) ->
                    verify_inv n (n :: A)).
    { intros Htop. constructor.
      - intros i Hi. destruct (Z.eq_dec i n) as [-> | Hne]; [lia | apply Hsize; lia].
      - intros i j Hj Hji Hi Hlt.
        destruct (Z.eq_dec j n) as [-> | Hne]; [|apply Hnest; lia].
        destruct (Z.eq_dec i n) as [-> | Hne]; [lia|].
        apply Htop, Hopen; lia.
      - intros i Hi Hlt. destruct (Z.eq_dec i n) as [-> | Hne]; [left; reflexivity|].
        right. apply Hopen; lia.
      - constructor; [unfold end_of; lia|].
        rewrite Forall_forall. intros a Ha. destruct (Hstack a Ha) as [Hr _].
        specialize (Htop a Ha). unfold end_of in *. lia.
      - split; [exact Htop | exact Hchain].
      - exact Herror'. }
    destruct A as [| a B].
    + right. exists [n]. split; [reflexivity|]. apply Hpush. intros a [].
    + destruct (Hstack a (or_introl eq_refl)) as [Ha Haend].
      destruct (node_at_inside t a ltac:(lia)) as (aimpl & Hata & _).
      rewrite Hata. cbv zeta. rewrite Hend, (node_at_end a aimpl Hata).
      destruct (Z.ltb_spec (end_of t n) (end_of t a)) as [Hout | Hin].
      * left. exists (a :: B). split; [reflexivity|]. intros [Hwf _].
        destruct (Hwf a ltac:(lia)) as (_ & _ & Hn').
        specialize (Hn' n). unfold end_of in *. lia.
      * right. exists (n :: a :: B). split; [reflexivity|]. apply Hpush.
        intros b Hb. pose proof (chain_top t a B b Hchain Hb). lia.
  - destruct (Z.ltb_spec (subtree_size impl) 1) as [Hbad | Hone].
    + left. exists A. split; [reflexivity|]. intros [Hwf _].
      destruct (Hwf n Hn) as (H1 & _). lia.
    + (* a leaf: the ancestors that end here are popped *)
      assert (Hleaf : size_of t n = 1) by lia.
      assert (Hpre : Forall (fun a => 0 <= a < N /\ end_of t a <= n - 1) A).
      { rewrite Forall_forall. intros a Ha. destruct (Hstack a Ha). lia. }
      destruct (pop_ancestors_spec (n - 1) A Hpre Hchain)
        as (A' & Hpop & Hincl & Hch & Hlt & Hkeep).
      right. exists A'. rewrite Hpop. split; [reflexivity|].
      rewrite Forall_forall in Hlt.
      constructor.
      * intros i Hi. destruct (Z.eq_dec i n) as [-> | Hne]; [lia | apply Hsize; lia].
      * intros i j Hj Hji Hi Hlti.
        destruct (Z.eq_dec j n) as [-> | Hne]; [|apply Hnest; lia].
        unfold end_of in *. lia.
      * intros i Hi Hlti. destruct (Z.eq_dec i n) as [-> | Hne];
          [unfold end_of in *; lia|].
        apply Hkeep; [apply Hopen; lia | lia].
      * rewrite Forall_forall. intros a Ha.
        destruct (Hstack a (Hincl a Ha)) as [Hr _]. specialize (Hlt a Ha). lia.
      * exact Hch.
      * exact Herror'.
Qed.

(** The loop over the nodes below [m]. *)
Lemma verify_loop_spec (m : nat) :
  forall A, Z.of_nat m <= N -> verify_inv (Z.of_nat m) A ->
    (exists A0, verify_loop t (down m) A = Some (false, A0) /\
                ~ (spans_nested t /\ errors_marked t)) \/
    (exists A', verify_loop t (down m) A = Some (true, A') /\ verify_inv 0 A').
Proof.
  induction m as [| m IH]; intros A Hm Hinv.
  - right. exists A. split; [reflexivity | exact Hinv].
  - rewrite down_S.
    replace (Z.of_nat (S m)) with (Z.of_nat m + 1) in Hinv by lia.
    destruct (verify_step m (down m) A ltac:(lia) Hinv)
      as [(A0 & Hrun & Hbad) | (A' & Hrun & Hinv')].
    + left. exists A0. split; assumption.
    + rewrite Hrun. apply IH; [lia | exact Hinv'].
Qed.

Lemma verify_inv_start : verify_inv N [].
Proof.
  constructor; try (intros; lia); constructor.
Qed.

(** At the end of the loop: an empty stack is the subtree-span invariant. *)
Lemma verify_inv_end A :
  verify_inv 0 A -> (A = [] <-> spans_nested t) /\ errors_marked t.
Proof.
  intros [Hsize Hnest Hopen Hstack Hchain Herror]. split.
  - split.
    + intros -> i Hi. fold N in Hi. split; [apply Hsize; assumption|].
      split.
      * destruct (Z.lt_ge_cases (i - size_of t i) (-1)) as [Hlt | Hge]; [|lia].
        destruct (Hopen i Hi Hlt).
      * intros j Hj.
        destruct (Z.lt_ge_cases j 0) as [Hneg | Hpos].
        -- destruct (Hopen i Hi ltac:(unfold end_of; lia)).
        -- apply (Hnest i j); unfold end_of; lia.
    + intros Hwf. destruct A as [| a B]; [reflexivity|].
      inversion Hstack as [| ? ? [Ha Hend] _]; subst.
      destruct (Hwf a Ha) as (_ & Hlow & _). unfold end_of in Hend. lia.
  - intros impl Hin He. apply In_nth_error in Hin. destruct Hin as [k Hk].
    apply (Herror (Z.of_nat k) impl); [| |exact He].
    + assert (k < length (node_impls t))%nat by (apply nth_error_Some; congruence).
      unfold N. lia.
    + unfold node_at. destruct (Z.ltb_spec (Z.of_nat k) 0); [lia|].
      rewrite Nat2Z.id. exact Hk.
Qed.

(** [Verify] reads no index outside the vector, and it accepts exactly the
    trees with nested subtree spans whose error flags agree. *)
Lemma Verify_spec :
  (exists b, Verify t = Some b) /\
  (Verify t = Some true <-> spans_nested t /\ errors_marked t).
Proof.
  unfold Verify. pose proof (reverse_postorder t) as Hrev.
  destruct (postorder_nodes (Postorder t)) as [nodes |]; [|discriminate Hrev].
  cbn [option_map] in Hrev. injection Hrev as ->.
  destruct (verify_loop_spec (length (node_impls t)) [] ltac:(unfold N; lia) verify_inv_start)
    as [(A0 & Hrun & Hbad) | (A' & Hrun & Hinv)]; rewrite Hrun.
  - split; [exists false; reflexivity|]. split; [discriminate | intros H; contradiction].
  - destruct (verify_inv_end A' Hinv) as [Hiff Hmarked].
    split; [eexists; reflexivity|].
    destruct A' as [| a B].
    + split; [intros _; split; [apply Hiff; reflexivity | exact Hmarked] | reflexivity].
    + split; [discriminate|]. intros [Hwf _]. apply Hiff in Hwf. discriminate Hwf.
Qed.

End Verify.

End ParseTreeVerifyFacts.

Module ParseTreeWalkFacts.

Import ParseTree ParseTreeClaims.

(** The nodes from [first] to [last - 1], as a post-order range yields
    them. *)
Definition interval (first last : Node) : list Node :=
  map (fun k => first + Z.of_nat k) (seq 0 (Z.to_nat (last - first))).

(** The nodes [Postorder(n)] yields. *)
Definition subtree_nodes (t : ParseTree) (n : Node) : list Node :=
  match Postorder_of t n with
  | Some range =>
      match postorder_nodes range with
      | Some nodes => nodes
      | None => []
      end
  | None => []
  end.

Lemma interval_empty a : interval a a = [].
Proof. unfold interval. rewrite Z.sub_diag. reflexivity. Qed.

Lemma interval_snoc a b : a <= b -> interval a (b + 1) = interval a b ++ [b].
Proof.
  intros H. unfold interval.
  replace (Z.to_nat (b + 1 - a)) with (S (Z.to_nat (b - a))) by lia.
  rewrite seq_S, map_app. cbn [map Nat.add].
  replace (a + Z.of_nat (Z.to_nat (b - a))) with b by lia. reflexivity.
Qed.

Lemma interval_app a b c : a <= b -> b <= c -> interval a b ++ interval b c = interval a c.
Proof.
  intros Hab Hbc.
  replace c with (b + Z.of_nat (Z.to_nat (c - b))) by lia.
  induction (Z.to_nat (c - b)) as [| k IH].
  - rewrite Z.add_0_r, interval_empty. apply app_nil_r.
  - replace (b + Z.of_nat (S k)) with (b + Z.of_nat k + 1) by lia.
    rewrite !interval_snoc by lia. rewrite app_assoc, IH. reflexivity.
Qed.

Lemma postorder_nodes_interval first last :
  first <= last -> postorder_nodes (first, last) = Some (interval first last).
Proof.
  intros H. unfold postorder_nodes. destruct (Z.ltb_spec last first); [lia | reflexivity].
Qed.

Lemma subtree_nodes_interval t n :
  0 <= n < Z.of_nat (length (node_impls t)) -> 1 <= size_of t n ->
  subtree_nodes t n = interval (n - size_of t n + 1) (n + 1).
Proof.
  intros Hn Hs. destruct (node_at_inside t n Hn) as (impl & Hat & Hsize).
  unfold subtree_nodes, Postorder_of. rewrite Hat, <- Hsize.
  replace (n + 1 - size_of t n) with (n - size_of t n + 1) by lia.
  rewrite postorder_nodes_interval by lia. reflexivity.
Qed.

(** A sibling walk down to a terminator that no node between the terminator
    and the start of the walk reaches below: it arrives, the sizes of the
    nodes it visits add up to the distance walked, and their subtrees, taken
    from the last visited to the first, are the nodes walked over in
    post-order. *)
Lemma sibling_walk_partition t terminator top :
  -1 <= terminator -> top < Z.of_nat (length (node_impls t)) ->
  (forall j, terminator < j <= top -> 1 <= size_of t j /\ terminator <= j - size_of t j) ->
  forall fuel current,
    terminator <= current <= top -> current - terminator <= Z.of_nat fuel ->
    exists nodes,
      sibling_walk t fuel current terminator = Some nodes /\
      sum_sizes t nodes = current - terminator /\
      Forall (fun c => terminator < c <= current) nodes /\
      concat (map (subtree_nodes t) (rev nodes)) = interval (terminator + 1) (current + 1).
Proof.
  intros Hterm Htop Hclosed.
  induction fuel as [| fuel IH]; intros current Hcur Hfuel.
  - exists []. cbn [sibling_walk].
    replace (current =? terminator) with true by (symmetry; apply Z.eqb_eq; lia).
    replace current with terminator by lia.
    rewrite interval_empty. repeat split; [cbn; lia | constructor].
  - cbn [sibling_walk].
    destruct (Z.eqb_spec current terminator) as [E | E].
    + exists []. subst current. rewrite interval_empty.
      repeat split; [cbn; lia | constructor].
    + assert (Hin : 0 <= current < Z.of_nat (length (node_impls t))) by lia.
      destruct (node_at_inside t current Hin) as (impl & Hat & Hsize).
      rewrite Hat. rewrite <- Hsize.
      destruct (Hclosed current ltac:(lia)) as [Hs1 Hs2].
      destruct (IH (current - size_of t current) ltac:(lia) ltac:(lia))
        as (nodes & Hwalk & Hsum & Hall & Hpart).
      exists (current :: nodes). rewrite Hwalk. cbn [option_map sum_sizes fold_right].
      fold (sum_sizes t nodes). rewrite Hsum.
      split; [reflexivity|]. split; [lia|]. split.
      * constructor; [lia|].
        eapply Forall_impl; [|exact Hall]. cbn. intros c Hc. lia.
      * cbn [rev]. rewrite map_app, concat_app. cbn [map concat]. rewrite app_nil_r.
        rewrite Hpart, (subtree_nodes_interval t current Hin Hs1).
        apply interval_app; lia.
Qed.

End ParseTreeWalkFacts.

Module ParseTreeProperties.

Import ParseTree ParseTreeClaims ParseTreeVerifyFacts ParseTreeWalkFacts.

(** X20: [Verify] is exact.  It reads no index outside the vector, and it
    returns [true] exactly for the trees that have the subtree-span
    invariant (every subtree size is at least 1, the span of every node lies
    in the vector, and the span of every node inside the span of another lies
    inside that span) and in which a node has its error flag set only when
    the tree is marked as having errors. *)
Theorem X20_Verify_is_exact t :
  (exists b, Verify t = Some b) /\
  (Verify t = Some true <-> spans_nested t /\ errors_marked t).
Proof. apply Verify_spec. Qed.

(** X21: in a tree with nested subtree spans, the walk over [Roots()], from
    the last node down by each root's subtree size to the terminator -1,
    arrives at the terminator; the subtree sizes of the roots add up to the
    number of nodes, and [Postorder()] yields the nodes of [Postorder(r)] of
    the roots [r], first root first. *)
Theorem X21_roots_cover_the_tree t :
  spans_nested t ->
  exists roots,
    sibling_nodes t (Roots t) = Some roots /\
    sum_sizes t roots = Z.of_nat (length (node_impls t)) /\
    postorder_nodes (Postorder t) = Some (concat (map (subtree_nodes t) (rev roots))).
Proof.
  intros Hwf. set (N := Z.of_nat (length (node_impls t))).
  destruct (sibling_walk_partition t (-1) (N - 1) ltac:(lia) ltac:(unfold N; lia))
    with (fuel := length (node_impls t)) (current := N - 1)
    as (roots & Hwalk & Hsum & _ & Hpart); try (unfold N; lia).
  - intros j Hj. destruct (Hwf j ltac:(unfold N in Hj; lia)) as (H1 & H2 & _). lia.
  - exists roots. split; [exact Hwalk|]. split; [fold N; lia|].
    rewrite Hpart. unfold Postorder. fold N.
    rewrite postorder_nodes_interval by (unfold N; lia).
    do 2 f_equal. lia.
Qed.

Lemma X21_witness :
  exists roots,
    sibling_nodes three_leaves (Roots three_leaves) = Some roots /\
    sum_sizes three_leaves roots = Z.of_nat (length (node_impls three_leaves)) /\
    postorder_nodes (Postorder three_leaves)
    = Some (concat (map (subtree_nodes three_leaves) (rev roots))).
Proof. apply (X21_roots_cover_the_tree three_leaves three_leaves_nested). Defined.

(** X22: in a tree with nested subtree spans, [Postorder(n)] yields the
    nodes of [Postorder(c)] of the children [c] of [n], first child first,
    and then [n] itself. *)
Theorem X22_postorder_of_children t n :
  spans_nested t -> 0 <= n < Z.of_nat (length (node_impls t)) ->
  exists range children,
    Children t n = Some range /\ sibling_nodes t range = Some children /\
    subtree_nodes t n = concat (map (subtree_nodes t) (rev children)) ++ [n].
Proof.
  intros Hwf Hn. destruct (Hwf n Hn) as (Hs1 & Hlow & Hnest).
  destruct (node_at_inside t n Hn) as (impl & Hat & Hsize).
  unfold Children. rewrite Hat, <- Hsize.
  destruct (sibling_walk_partition t (n - size_of t n) (n - 1) ltac:(lia) ltac:(lia))
    with (fuel := length (node_impls t)) (current := n - 1)
    as (children & Hwalk & _ & _ & Hpart); try lia.
  - intros j Hj. destruct (Hwf j ltac:(lia)) as (H1 & _).
    split; [exact H1 | apply Hnest; lia].
  - eexists. exists children. split; [reflexivity|]. split; [exact Hwalk|].
    rewrite Hpart, (subtree_nodes_interval t n Hn Hs1).
    replace (n - 1 + 1) with n by lia.
    apply interval_snoc. lia.
Qed.

Lemma X22_witness :
  exists range children,
    Children three_leaves 3 = Some range /\ sibling_nodes three_leaves range = Some children /\
    subtree_nodes three_leaves 3
    = concat (map (subtree_nodes three_leaves) (rev children)) ++ [3].
Proof.
  apply (X22_postorder_of_children three_leaves 3 three_leaves_nested).
  change (Z.of_nat (length (node_impls three_leaves))) with 4. lia.
Defined.

(** Three leaves under one root pass [Verify]; after the size of the root is
    changed to 3 the root no longer covers the first leaf, which is left as a
    second root, and [Verify] still accepts; with the size 5 the span of the
    root leaves the vector and [Verify] rejects, as it rejects a node of
    size 3 with one node before it and a node with its error flag in a tree
    that is not marked as having errors. *)
Example Verify_three_leaves :
  Verify three_leaves = Some true /\
  Verify (mkParseTree [leaf; leaf; leaf; mkNodeImpl 1 3 3 false] false) = Some true /\
  Verify (mkParseTree [leaf; leaf; leaf; mkNodeImpl 1 3 5 false] false) = Some false /\
  Verify (mkParseTree [leaf; mkNodeImpl 1 3 3 false; leaf] false) = Some false /\
  Verify (mkParseTree [leaf; mkNodeImpl 0 0 1 true] false) = Some false.
Proof. repeat split. Qed.

End ParseTreeProperties.
